(** * planar-build: incremental construction of cubic planar maps

    A shallow embedding of [planar.cc] and [planar-fast.cc] and the
    verification of the properties their specification states.

    The two translation units share the [GraphState] structure and its
    methods.  [planar-fast.cc] is [planar.cc] with every assertion and
    diagnostic removed, a shorter completion test and a different driver.
    The methods are therefore embedded once, parametrised by the
    translation unit ([variant]); each place where the two files differ is
    a [match] on the variant.

    Conventions.
    - [std::vector] and [std::deque] are lists; an access outside the
      container, a division by zero and the other operations C++ leaves
      undefined give the outcome [Undefined].
    - A failing [assert] gives the outcome [Aborted].
    - What is written to [std::cerr] is collected as a list of [diag].
    - All [int] and [size_t] values of the program are counters, lengths
      and indices that are only ever incremented from non-negative
      initial values (or decremented when strictly greater than another
      index), so they are embedded as [nat]. *)

From Stdlib Require Import List Arith PeanoNat ZArith Bool Lia Permutation Sorted.
Import ListNotations.

(** ** Outcomes of running a piece of the program *)

Inductive diag : Type :=
| FaceOfSize (k : nat)      (* "**Face of size k!"      *)
| VertexZero                (* "**Vertex 0?!"           *)
| NotCubic                  (* "**Not cubic"            *)
| NautyError (e : nat).     (* "**Oh no, nauty error e" *)

Inductive outcome (A : Type) : Type :=
| Done (a : A) (cerr : list diag)
| Undefined
| Aborted.

Arguments Done {A} a cerr.
Arguments Undefined {A}.
Arguments Aborted {A}.

Definition oret {A} (a : A) : outcome A := Done a [].

Definition obind {A B} (o : outcome A) (k : A -> outcome B) : outcome B :=
  match o with
  | Done a d =>
      match k a with
      | Done b d' => Done b (d ++ d')
      | Undefined => Undefined
      | Aborted => Aborted
      end
  | Undefined => Undefined
  | Aborted => Aborted
  end.

Definition warn (m : diag) : outcome unit := Done tt [m].

Declare Scope outcome_scope.
Delimit Scope outcome_scope with outcome.
Notation "x <- c ;; k" := (obind c (fun x => k))
  (at level 61, c at next level, right associativity) : outcome_scope.
Notation "c ;;; k" := (obind c (fun _ => k))
  (at level 61, right associativity) : outcome_scope.

(** The translation unit a definition is read from. *)
Inductive variant : Type := Planar | PlanarFast.

(** ** Vector primitives *)

Module Vec.

Definition get {A} (l : list A) (i : nat) : outcome A :=
  match nth_error l i with
  | Some x => oret x
  | None => Undefined
  end.

(** [l.back()] *)
Definition back {A} (l : list A) : outcome A :=
  match l with
  | [] => Undefined
  | _ => get l (length l - 1)
  end.

(** [l[i] = f (l[i])] *)
Fixpoint update {A} (l : list A) (i : nat) (f : A -> A) : list A :=
  match l, i with
  | [], _ => []
  | x :: r, 0 => f x :: r
  | x :: r, S j => x :: update r j f
  end.

(** [l.erase(l.begin() + a, l.begin() + b)] *)
Definition erase {A} (l : list A) (a b : nat) : outcome (list A) :=
  if (a <=? b) && (b <=? length l)
  then oret (firstn a l ++ skipn b l)
  else Undefined.

(** [l.erase(l.begin() + a)]: the position must hold an element. *)
Definition erase1 {A} (l : list A) (a : nat) : outcome (list A) :=
  if a <? length l
  then oret (firstn a l ++ skipn (S a) l)
  else Undefined.

(** [l.insert(l.begin() + p, x)] *)
Definition insert {A} (l : list A) (p : nat) (x : A) : outcome (list A) :=
  if p <=? length l
  then oret (firstn p l ++ x :: skipn p l)
  else Undefined.

End Vec.

(** ** Data *)

Record edge : Type := mkEdge { v1 : nat; v2 : nat }.

Definition N_TRI := 1.
Definition N_SQ := 2.
Definition N_PENT := 5.
Definition NUM_METH := 10.

Module faceCounter.

Record t : Type := mk { ntri : nat; nsq : nat; npent : nat }.

(** [bool add(int size)]: the counter is incremented before it is
    compared with its budget. *)
Definition add (c : t) (size : nat) : bool * t :=
  match size with
  | 3 => (S (ntri c) <=? N_TRI, mk (S (ntri c)) (nsq c) (npent c))
  | 4 => (S (nsq c) <=? N_SQ, mk (ntri c) (S (nsq c)) (npent c))
  | 5 => (S (npent c) <=? N_PENT, mk (ntri c) (nsq c) (S (npent c)))
  | 6 => (true, c)
  | _ => (false, c)
  end.

(** [cond && !facect.add(size)]: [add] runs only when [cond] holds.  The
    first component tells whether the guarded [return false] is taken. *)
Definition reject_if (cond : bool) (c : t) (size : nat) : bool * t :=
  if cond then (negb (fst (add c size)), snd (add c size)) else (false, c).

End faceCounter.

Record GraphState : Type := mkGraphState {
  numverts : nat;
  nsq : nat;
  npent : nat;
  nhex : nat;
  edges : list edge;
  faces : list (list nat);
  openfaces : list nat;
  medgadd : nat;
  chosenFace : nat
}.

(** The constructor [GraphState::GraphState()]. *)
Definition seed : GraphState :=
  {| numverts := 7; nsq := 0; npent := 0; nhex := 1;
     edges := [ mkEdge 1 2; mkEdge 2 3; mkEdge 1 3; mkEdge 3 4;
                mkEdge 4 5; mkEdge 5 6; mkEdge 6 7; mkEdge 7 1 ];
     faces := [ [0; 1; 2]; [2; 3; 4; 5; 6; 7]; [7; 0]; [1; 3];
                [4]; [5]; [6] ];
     openfaces := [2; 3; 4; 5; 6];
     medgadd := 0; chosenFace := 0 |}.

Definition set_numverts (x : nat) (s : GraphState) : GraphState :=
  mkGraphState x (nsq s) (npent s) (nhex s) (edges s) (faces s)
               (openfaces s) (medgadd s) (chosenFace s).
Definition set_nsq (x : nat) (s : GraphState) : GraphState :=
  mkGraphState (numverts s) x (npent s) (nhex s) (edges s) (faces s)
               (openfaces s) (medgadd s) (chosenFace s).
Definition set_npent (x : nat) (s : GraphState) : GraphState :=
  mkGraphState (numverts s) (nsq s) x (nhex s) (edges s) (faces s)
               (openfaces s) (medgadd s) (chosenFace s).
Definition set_nhex (x : nat) (s : GraphState) : GraphState :=
  mkGraphState (numverts s) (nsq s) (npent s) x (edges s) (faces s)
               (openfaces s) (medgadd s) (chosenFace s).
Definition set_edges (x : list edge) (s : GraphState) : GraphState :=
  mkGraphState (numverts s) (nsq s) (npent s) (nhex s) x (faces s)
               (openfaces s) (medgadd s) (chosenFace s).
Definition set_faces (x : list (list nat)) (s : GraphState) : GraphState :=
  mkGraphState (numverts s) (nsq s) (npent s) (nhex s) (edges s) x
               (openfaces s) (medgadd s) (chosenFace s).
Definition set_openfaces (x : list nat) (s : GraphState) : GraphState :=
  mkGraphState (numverts s) (nsq s) (npent s) (nhex s) (edges s) (faces s)
               x (medgadd s) (chosenFace s).
Definition set_medgadd (x : nat) (s : GraphState) : GraphState :=
  mkGraphState (numverts s) (nsq s) (npent s) (nhex s) (edges s) (faces s)
               (openfaces s) x (chosenFace s).
Definition set_chosenFace (x : nat) (s : GraphState) : GraphState :=
  mkGraphState (numverts s) (nsq s) (npent s) (nhex s) (edges s) (faces s)
               (openfaces s) (medgadd s) x.

(** ** Statements that mutate a [GraphState] *)

Definition M (A : Type) : Type := GraphState -> outcome (A * GraphState).

Definition mret {A} (a : A) : M A := fun s => oret (a, s).

Definition mbind {A B} (c : M A) (k : A -> M B) : M B :=
  fun s => obind (c s) (fun r => k (fst r) (snd r)).

Definition lift {A} (o : outcome A) : M A :=
  fun s => obind o (fun a => oret (a, s)).

Definition gets {A} (f : GraphState -> A) : M A := fun s => oret (f s, s).

Definition reads {A} (f : GraphState -> outcome A) : M A :=
  fun s => obind (f s) (fun a => oret (a, s)).

Definition modify (f : GraphState -> GraphState) : M unit :=
  fun s => oret (tt, f s).

Declare Scope stmt_scope.
Delimit Scope stmt_scope with stmt.
Notation "x <- c ;; k" := (mbind c (fun x => k))
  (at level 61, c at next level, right associativity) : stmt_scope.
Notation "c ;;; k" := (mbind c (fun _ => k))
  (at level 61, right associativity) : stmt_scope.

Section Methods.

Variable tu : variant.

(** [assert(c)]: present in [planar.cc] only. *)
Definition assert_ (c : bool) : outcome unit :=
  match tu with
  | Planar => if c then oret tt else Aborted
  | PlanarFast => oret tt
  end.

(** [faces[i]] *)
Definition face (s : GraphState) (i : nat) : outcome (list nat) :=
  Vec.get (faces s) i.

(** [faces[openfaces[p]]] *)
Definition openface (s : GraphState) (p : nat) : outcome (list nat) :=
  (i <- Vec.get (openfaces s) p ;; face s i)%outcome.

(** [startpt] of [planar.cc]; [planar-fast.cc] writes
    [edges[face[0]].v1] in its place. *)
Definition startpt (s : GraphState) (f : list nat) : outcome nat :=
  (i0 <- Vec.get f 0 ;;
   first <- Vec.get (edges s) i0 ;;
   match tu with
   | Planar =>
       if length f =? 1 then oret (v1 first)
       else
         i1 <- Vec.get f 1 ;;
         sec <- Vec.get (edges s) i1 ;;
         assert_ (negb (v1 first =? v1 sec) && negb (v1 first =? v2 sec)) ;;;
         oret (v1 first)
   | PlanarFast => oret (v1 first)
   end)%outcome.

(** [endpt] of [planar.cc]; [planar-fast.cc] writes
    [edges[face.back()].v2] in its place. *)
Definition endpt (s : GraphState) (f : list nat) : outcome nat :=
  (il <- Vec.back f ;;
   laste <- Vec.get (edges s) il ;;
   match tu with
   | Planar =>
       if length f =? 1 then oret (v2 laste)
       else
         ip <- Vec.get f (length f - 2) ;;
         pene <- Vec.get (edges s) ip ;;
         assert_ (negb (v2 laste =? v1 pene) && negb (v2 laste =? v2 pene)) ;;;
         oret (v2 laste)
   | PlanarFast => oret (v2 laste)
   end)%outcome.

(** [countFace(faces[i])].  The [default] branch of [planar.cc] writes to
    [std::cerr]; [planar-fast.cc] has no [default] branch. *)
Definition countFace (i : nat) : M unit :=
  fun s =>
    (f <- face s i ;;
     match length f with
     | 4 => oret (tt, set_nsq (S (nsq s)) s)
     | 5 => oret (tt, set_npent (S (npent s)) s)
     | 6 => oret (tt, set_nhex (S (nhex s)) s)
     | k => match tu with
            | Planar => warn (FaceOfSize k) ;;; oret (tt, s)
            | PlanarFast => oret (tt, s)
            end
     end)%outcome.

(** The [switch] of [isValid]: it reads only the number of open faces,
    the seven faces around the chosen one, and the tentative counter. *)
Definition isValid_switch (n : nat)
    (pppF prprF prevF F nextF nnF nnnF : list nat)
    (facect : faceCounter.t) (meth : nat) : bool :=
  match meth with
  | 0 => false
  | 1 =>
      if (2 <? n) && (4 <? length prevF + length nextF) then false else
      let (r, facect) :=
        faceCounter.reject_if (n =? 2) facect (length nextF + 1) in
      if r then false else
      fst (faceCounter.add facect (length F + 1))
  | 2 =>
      if 4 <? length prevF then false else
      if 4 <? length nextF then false else
      fst (faceCounter.add facect (length F + 2))
  | 3 =>
      if (n <? 4) || (n =? 5) then false else
      if negb (length nnF =? 1) then false else
      let (a, facect) := faceCounter.add facect (length nextF + 1) in
      if negb a then false else
      if (4 <? n) && (4 <? length prevF + length nnnF) then false else
      let (r, facect) :=
        faceCounter.reject_if (n =? 4) facect (length prevF + 1) in
      if r then false else
      fst (faceCounter.add facect (length F + 3))
  | 4 =>
      if n <? 6 then false else
      if negb (length prprF =? 1) then false else
      let (a, facect) := faceCounter.add facect (length prevF + 1) in
      if negb a then false else
      if (4 <? n) && (4 <? length pppF + length nextF) then false else
      let (r, facect) :=
        faceCounter.reject_if (n =? 4) facect (length nextF + 1) in
      if r then false else
      fst (faceCounter.add facect (length F + 3))
  | 5 =>
      if 4 <? length prevF then false else
      if 4 <? length nextF then false else
      fst (faceCounter.add facect (length F + 3))
  | 6 =>
      if (n <? 4) || (n =? 5) then false else
      if negb (length nnF =? 2) then false else
      let (a, facect) := faceCounter.add facect (length nextF + 1) in
      if negb a then false else
      if (4 <? n) && (4 <? length prevF + length nnnF) then false else
      let (r, facect) :=
        faceCounter.reject_if (n =? 4) facect (length prevF + 1) in
      if r then false else
      fst (faceCounter.add facect (length F + 4))
  | 7 =>
      if n <? 6 then false else
      if negb (length prprF =? 2) then false else
      let (a, facect) := faceCounter.add facect (length prevF + 1) in
      if negb a then false else
      if (4 <? n) && (4 <? length pppF + length nextF) then false else
      let (r, facect) :=
        faceCounter.reject_if (n =? 4) facect (length nextF + 1) in
      if r then false else
      fst (faceCounter.add facect (length F + 4))
  | 8 =>
      if n <? 5 then false else
      if negb (length nnF =? 1) then false else
      if 4 <? length prevF then false else
      if 4 <? length nnnF then false else
      let (a, facect) := faceCounter.add facect (length nextF + 1) in
      if negb a then false else
      fst (faceCounter.add facect (length F + 4))
  | 9 =>
      if n <? 5 then false else
      if negb (length prprF =? 1) then false else
      if 4 <? length nextF then false else
      if 4 <? length pppF then false else
      let (a, facect) := faceCounter.add facect (length prevF + 1) in
      if negb a then false else
      fst (faceCounter.add facect (length F + 4))
  | 10 =>
      if 4 <? length prevF then false else
      if 4 <? length nextF then false else
      fst (faceCounter.add facect (length F + 4))
  | _ => false
  end.

(** [isValid(oF, meth)] *)
Definition isValid (oF meth : nat) (s : GraphState) : outcome bool :=
  let n := length (openfaces s) in
  if n =? 0 then Undefined else
  let pppoF := (oF + 2 * n - 3) mod n in
  let ppoF := (oF + n - 2) mod n in
  let poF := (oF + n - 1) mod n in
  let noF := (oF + 1) mod n in
  let nnoF := (oF + 2) mod n in
  let nnnoF := (oF + 3) mod n in
  (pppF <- openface s pppoF ;;
   prprF <- openface s ppoF ;;
   prevF <- openface s poF ;;
   F <- openface s oF ;;
   nextF <- openface s noF ;;
   nnF <- openface s nnoF ;;
   nnnF <- openface s nnnoF ;;
   let facect := faceCounter.mk 1 (nsq s) (npent s) in
   assert_ (1 <? length F) ;;;
   oret (isValid_switch n pppF prprF prevF F nextF nnF nnnF facect meth))%outcome.

(** [isValid()] *)
Definition isValid0 (s : GraphState) : outcome bool :=
  isValid (chosenFace s) (medgadd s) s.

(** [incMethod()]: the loop runs at most [NUM_METH + 1 - medgadd] times,
    which is the fuel [incMethod] gives it. *)
Fixpoint incMethod_loop (fuel : nat) : M bool :=
  fun s =>
    if medgadd s <=? NUM_METH then
      match fuel with
      | 0 => Undefined
      | S fuel' =>
          let s' := set_medgadd (S (medgadd s)) s in
          (b <- isValid0 s' ;;
           if b then oret (true, s') else incMethod_loop fuel' s')%outcome
      end
    else oret (false, s).

Definition incMethod : M bool :=
  fun s => incMethod_loop (NUM_METH + 1 - medgadd s) s.

(** *** Elementary statements of [addEdges] *)

(** [edges.emplace_back(a, b)] *)
Definition edges_emplace_back (a b : nat) : M unit :=
  modify (fun s => set_edges (edges s ++ [mkEdge a b]) s).

(** [edges.size()] and [faces.size()] *)
Definition edges_size : M nat := gets (fun s => length (edges s)).
Definition faces_size : M nat := gets (fun s => length (faces s)).

(** [++numverts], whose value is the incremented counter *)
Definition incr_numverts : M nat :=
  fun s => oret (S (numverts s), set_numverts (S (numverts s)) s).

Definition faces_modify (i : nat) (f : list nat -> list nat) : M unit :=
  fun s =>
    if i <? length (faces s)
    then oret (tt, set_faces (Vec.update (faces s) i f) s)
    else Undefined.

(** [faces[i].push_back(x)] and [faces[i].push_front(x)] *)
Definition faces_push_back (i x : nat) : M unit :=
  faces_modify i (fun f => f ++ [x]).
Definition faces_push_front (i x : nat) : M unit :=
  faces_modify i (fun f => x :: f).

(** [faces[i].insert(faces[i].end(), faces[j].begin(), faces[j].end())];
    the range must not come from the container it is inserted into. *)
Definition faces_append (i j : nat) : M unit :=
  fun s =>
    if i =? j then Undefined
    else (g <- face s j ;; faces_modify i (fun f => f ++ g) s)%outcome.

(** [faces.emplace_back(1, x)] *)
Definition faces_emplace_back (x : nat) : M unit :=
  modify (fun s => set_faces (faces s ++ [[x]]) s).

(** [faces.erase(faces.begin() + i)] *)
Definition faces_erase1 (i : nat) : M unit :=
  fun s => (l <- Vec.erase1 (faces s) i ;; oret (tt, set_faces l s))%outcome.

(** [openfaces.erase(openfaces.begin() + a, openfaces.begin() + b)] *)
Definition openfaces_erase (a b : nat) : M unit :=
  fun s =>
    (l <- Vec.erase (openfaces s) a b ;; oret (tt, set_openfaces l s))%outcome.

(** [openfaces.erase(openfaces.begin() + a)] *)
Definition openfaces_erase1 (a : nat) : M unit :=
  fun s =>
    (l <- Vec.erase1 (openfaces s) a ;; oret (tt, set_openfaces l s))%outcome.

(** [openfaces[p] = x] *)
Definition openfaces_assign (p x : nat) : M unit :=
  fun s =>
    if p <? length (openfaces s)
    then oret (tt, set_openfaces (Vec.update (openfaces s) p (fun _ => x)) s)
    else Undefined.

(** [openfaces.insert(openfaces.begin() + p, x)] *)
Definition openfaces_insert (p x : nat) : M unit :=
  fun s =>
    (l <- Vec.insert (openfaces s) p x ;; oret (tt, set_openfaces l s))%outcome.

(** [startpt(faces[i])], [endpt(faces[i])] and [faces[i][0]] *)
Definition startpt_of (i : nat) : M nat :=
  reads (fun s => f <- face s i ;; startpt s f)%outcome.
Definition endpt_of (i : nat) : M nat :=
  reads (fun s => f <- face s i ;; endpt s f)%outcome.
Definition front_of (i : nat) : M nat :=
  reads (fun s => f <- face s i ;; Vec.get f 0)%outcome.

(** [assert(c)] where [c] reads the state: [planar-fast.cc] has no such
    statement and does not evaluate [c]. *)
Definition assert_that (c : GraphState -> outcome bool) : M unit :=
  match tu with
  | Planar => fun s => (b <- c s ;; assert_ b ;;; oret (tt, s))%outcome
  | PlanarFast => mret tt
  end.

Definition face_size_is (i k : nat) (s : GraphState) : outcome bool :=
  (f <- face s i ;; oret (length f =? k))%outcome.

(** The final loop of [addEdges]: one iteration, for the dead slot [ef]. *)
Definition erase_dead (ef : nat) : M unit :=
  (modify (fun s =>
     set_openfaces (map (fun o => if ef <? o then o - 1 else o) (openfaces s)) s) ;;;
   faces_erase1 ef)%stmt.

Fixpoint erase_all (toerase : list nat) : M unit :=
  match toerase with
  | [] => mret tt
  | ef :: r => (erase_dead ef ;;; erase_all r)%stmt
  end.

(** [std::sort(toerase.rbegin(), toerase.rend())]: descending order. *)
Fixpoint insert_desc (x : nat) (l : list nat) : list nat :=
  match l with
  | [] => [x]
  | y :: r => if y <=? x then x :: l else y :: insert_desc x r
  end.

Definition sort_desc (l : list nat) : list nat :=
  fold_right insert_desc [] l.

(** The erasures of consumed entries of [openfaces], with their explicit
    treatment of the wrap-around.  Case 1: erase [oF] and [noF]. *)
Definition erase_oF_noF (oF noF : nat) : M unit :=
  (if oF <? noF then
     openfaces_erase oF (oF + 2)
   else
     openfaces_erase1 oF ;;;
     openfaces_erase1 noF)%stmt.

(** Cases 3 and 6: erase [oF], [noF], [nnoF], [nnnoF]. *)
Definition erase_oF_to_nnnoF (oF noF nnoF nnnoF : nat) : M unit :=
  (if oF <? nnnoF then
     openfaces_erase oF (oF + 4)
   else if oF <? nnoF then
     openfaces_erase oF (oF + 3) ;;;
     openfaces_erase1 nnnoF
   else if oF <? noF then
     openfaces_erase oF (oF + 2) ;;;
     openfaces_erase nnoF (nnoF + 2)
   else
     openfaces_erase1 oF ;;;
     openfaces_erase noF (noF + 3))%stmt.

(** Cases 4 and 7: erase [ppoF], [poF], [oF], [noF]. *)
Definition erase_ppoF_to_noF (ppoF poF oF noF : nat) : M unit :=
  (if ppoF <? noF then
     openfaces_erase ppoF (noF + 1)
   else if poF <? noF then
     openfaces_erase1 ppoF ;;;
     openfaces_erase poF (noF + 1)
   else if oF <? noF then
     openfaces_erase ppoF (poF + 1) ;;;
     openfaces_erase oF (noF + 1)
   else
     openfaces_erase ppoF (oF + 1) ;;;
     openfaces_erase1 noF)%stmt.

(** Case 8: erase [oF], [noF], [nnoF]. *)
Definition erase_oF_to_nnoF (oF noF nnoF : nat) : M unit :=
  (if oF <? nnoF then
     openfaces_erase oF (oF + 3)
   else if oF <? noF then
     openfaces_erase oF (oF + 2) ;;;
     openfaces_erase1 nnoF
   else
     openfaces_erase1 oF ;;;
     openfaces_erase noF (noF + 2))%stmt.

(** Case 9: erase [ppoF], [poF], [oF]. *)
Definition erase_ppoF_to_oF (ppoF poF oF : nat) : M unit :=
  (if ppoF <? oF then
     openfaces_erase ppoF (oF + 1)
   else if poF <? oF then
     openfaces_erase1 ppoF ;;;
     openfaces_erase poF (oF + 1)
   else
     openfaces_erase ppoF (poF + 1) ;;;
     openfaces_erase1 oF)%stmt.

(** Cases 3 and 6 of the [switch] (case 3 falls through to case 6). *)
Definition addEdges_3_6 (n oF noF nnoF nnnoF pF fF nF nnF nnnF startF endptF : nat)
  : M (list nat) :=
  (e <- endpt_of nF ;;
   edges_emplace_back endptF e ;;;
   k <- edges_size ;;
   faces_push_back fF (k - 1) ;;;
   faces_push_back nF (k - 1) ;;;
   countFace nF ;;;
   faces_append fF nnF ;;;
   e <- endpt_of nnF ;;
   edges_emplace_back startF e ;;;
   k <- edges_size ;;
   faces_push_back fF (k - 1) ;;;
   faces_push_back pF (k - 1) ;;;
   erase_oF_to_nnnoF oF noF nnoF nnnoF ;;;
   if n =? 4 then
     countFace pF ;;;
     mret [nnF]
   else
     faces_append pF nnnF ;;;
     mret [nnF; nnnF])%stmt.

(** Cases 4 and 7 of the [switch] (case 4 falls through to case 7). *)
Definition addEdges_4_7 (n ppoF poF oF noF pppF ppF pF fF nF startF endptF : nat)
  : M (list nat) :=
  (assert_that (fun s => e <- (f <- face s pF ;; endpt s f) ;;
                         oret (e =? startF))%outcome ;;;
   b <- startpt_of pF ;;
   edges_emplace_back b startF ;;;
   k <- edges_size ;;
   faces_push_back fF (k - 1) ;;;
   faces_push_back pF (k - 1) ;;;
   countFace pF ;;;
   faces_append fF ppF ;;;
   b <- startpt_of ppF ;;
   edges_emplace_back b endptF ;;;
   k <- edges_size ;;
   faces_push_back fF (k - 1) ;;;
   faces_push_back pppF (k - 1) ;;;
   erase_ppoF_to_noF ppoF poF oF noF ;;;
   if n =? 4 then
     countFace nF ;;;
     mret [ppF]
   else
     faces_append pppF nF ;;;
     mret [ppF; nF])%stmt.

(** Case 1 of the [switch]. *)
Definition addEdges_1 (n oF noF pF fF nF startF endptF : nat) : M (list nat) :=
  (edges_emplace_back startF endptF ;;;
   k <- edges_size ;;
   faces_push_back fF (k - 1) ;;;
   faces_push_back pF (k - 1) ;;;
   erase_oF_noF oF noF ;;;
   if n =? 2 then
     countFace pF ;;;
     mret []
   else
     faces_append pF nF ;;;
     mret [nF])%stmt.

(** Case 2 of the [switch]. *)
Definition addEdges_2 (oF pF fF nF startF endptF : nat) : M (list nat) :=
  (v <- incr_numverts ;;
   edges_emplace_back startF v ;;;
   k <- edges_size ;;
   faces_push_back pF (k - 1) ;;;
   edges_emplace_back v endptF ;;;
   k <- edges_size ;;
   faces_push_back fF (k - 1) ;;;
   faces_push_back fF (k - 2) ;;;
   faces_push_front nF (k - 1) ;;;
   openfaces_erase1 oF ;;;
   mret [])%stmt.

(** Case 5 of the [switch]. *)
Definition addEdges_5 (oF pF fF nF startF endptF : nat) : M (list nat) :=
  (v <- incr_numverts ;;
   edges_emplace_back startF v ;;;
   k <- edges_size ;;
   faces_push_back pF (k - 1) ;;;
   v <- incr_numverts ;;
   edges_emplace_back (v - 1) v ;;;
   k <- edges_size ;;
   faces_emplace_back (k - 1) ;;;
   m <- faces_size ;;
   openfaces_assign oF (m - 1) ;;;
   edges_emplace_back v endptF ;;;
   k <- edges_size ;;
   faces_push_back fF (k - 1) ;;;
   faces_push_back fF (k - 2) ;;;
   faces_push_back fF (k - 3) ;;;
   faces_push_front nF (k - 1) ;;;
   mret [])%stmt.

(** Case 8 of the [switch]. *)
Definition addEdges_8 (oF noF nnoF pF fF nF nnF nnnF startF endptF : nat)
  : M (list nat) :=
  (assert_that (face_size_is nnF 1) ;;;
   assert_that (fun s => b <- (f <- face s nF ;; startpt s f) ;;
                         oret (endptF =? b))%outcome ;;;
   e <- endpt_of nF ;;
   edges_emplace_back endptF e ;;;
   k <- edges_size ;;
   faces_push_back fF (k - 1) ;;;
   assert_that (fun s => a <- (f <- face s nnF ;; endpt s f) ;;
                         b <- (f <- face s nF ;; endpt s f) ;;
                         oret (negb (a =? b)))%outcome ;;;
   faces_push_back nF (k - 1) ;;;
   x <- front_of nnF ;;
   faces_push_back fF x ;;;
   v <- incr_numverts ;;
   e <- endpt_of nnF ;;
   edges_emplace_back v e ;;;
   k <- edges_size ;;
   faces_push_back fF (k - 1) ;;;
   faces_push_front nnnF (k - 1) ;;;
   edges_emplace_back startF v ;;;
   k <- edges_size ;;
   faces_push_back fF (k - 1) ;;;
   faces_push_back pF (k - 1) ;;;
   erase_oF_to_nnoF oF noF nnoF ;;;
   countFace nF ;;;
   mret [nnF])%stmt.

(** Case 9 of the [switch]. *)
Definition addEdges_9 (ppoF poF oF pppF ppF pF fF nF startF endptF : nat)
  : M (list nat) :=
  (assert_that (face_size_is ppF 1) ;;;
   assert_that (fun s => e <- (f <- face s pF ;; endpt s f) ;;
                         oret (e =? startF))%outcome ;;;
   b <- startpt_of pF ;;
   edges_emplace_back b startF ;;;
   k <- edges_size ;;
   faces_push_back fF (k - 1) ;;;
   faces_push_back pF (k - 1) ;;;
   x <- front_of ppF ;;
   faces_push_back fF x ;;;
   assert_that (fun s => a <- (f <- face s ppF ;; startpt s f) ;;
                         b <- (f <- face s pF ;; startpt s f) ;;
                         oret (negb (a =? b)))%outcome ;;;
   b <- startpt_of ppF ;;
   v <- incr_numverts ;;
   edges_emplace_back b v ;;;
   k <- edges_size ;;
   faces_push_back fF (k - 1) ;;;
   faces_push_back pppF (k - 1) ;;;
   edges_emplace_back v endptF ;;;
   k <- edges_size ;;
   faces_push_back fF (k - 1) ;;;
   faces_push_front nF (k - 1) ;;;
   erase_ppoF_to_oF ppoF poF oF ;;;
   countFace pF ;;;
   mret [ppF])%stmt.

(** Case 10 of the [switch]. *)
Definition addEdges_10 (oF pF fF nF startF endptF : nat) : M (list nat) :=
  (v <- incr_numverts ;;
   edges_emplace_back startF v ;;;
   k <- edges_size ;;
   faces_push_back fF (k - 1) ;;;
   faces_push_back pF (k - 1) ;;;
   v <- incr_numverts ;;
   edges_emplace_back (v - 1) v ;;;
   k <- edges_size ;;
   faces_push_back fF (k - 1) ;;;
   faces_emplace_back (k - 1) ;;;
   m <- faces_size ;;
   openfaces_insert oF (m - 1) ;;;
   v <- incr_numverts ;;
   edges_emplace_back (v - 1) v ;;;
   k <- edges_size ;;
   faces_push_back fF (k - 1) ;;;
   faces_emplace_back (k - 1) ;;;
   m <- faces_size ;;
   openfaces_assign (oF + 1) (m - 1) ;;;
   edges_emplace_back v endptF ;;;
   k <- edges_size ;;
   faces_push_back fF (k - 1) ;;;
   faces_push_front nF (k - 1) ;;;
   mret [])%stmt.

(** The [switch] of [addEdges]; its value is [toerase]. *)
Definition addEdges_switch
    (n oF ppoF poF noF nnoF nnnoF pppF ppF pF fF nF nnF nnnF startF endptF
     meth : nat) : M (list nat) :=
  match meth with
  | 1 => addEdges_1 n oF noF pF fF nF startF endptF
  | 2 => addEdges_2 oF pF fF nF startF endptF
  | 3 =>
      (assert_that (face_size_is nnF 1) ;;;
       addEdges_3_6 n oF noF nnoF nnnoF pF fF nF nnF nnnF startF endptF)%stmt
  | 6 => addEdges_3_6 n oF noF nnoF nnnoF pF fF nF nnF nnnF startF endptF
  | 4 =>
      (assert_that (face_size_is ppF 1) ;;;
       addEdges_4_7 n ppoF poF oF noF pppF ppF pF fF nF startF endptF)%stmt
  | 7 => addEdges_4_7 n ppoF poF oF noF pppF ppF pF fF nF startF endptF
  | 5 => addEdges_5 oF pF fF nF startF endptF
  | 8 => addEdges_8 oF noF nnoF pF fF nF nnF nnnF startF endptF
  | 9 => addEdges_9 ppoF poF oF pppF ppF pF fF nF startF endptF
  | 10 => addEdges_10 oF pF fF nF startF endptF
  | _ =>
      match tu with
      | Planar => fun _ => Aborted      (* assert(false) *)
      | PlanarFast => mret []
      end
  end.

(** [addEdges(oF, meth)] *)
Definition addEdges (oF meth : nat) : M unit :=
  (n <- gets (fun s => length (openfaces s)) ;;
   if n =? 0 then (fun _ => Undefined) else
   let pppoF := (oF + 2 * n - 3) mod n in
   let ppoF := (oF + n - 2) mod n in
   let poF := (oF + n - 1) mod n in
   let noF := (oF + 1) mod n in
   let nnoF := (oF + 2) mod n in
   let nnnoF := (oF + 3) mod n in
   pppF <- reads (fun s => Vec.get (openfaces s) pppoF) ;;
   ppF <- reads (fun s => Vec.get (openfaces s) ppoF) ;;
   pF <- reads (fun s => Vec.get (openfaces s) poF) ;;
   fF <- reads (fun s => Vec.get (openfaces s) oF) ;;
   nF <- reads (fun s => Vec.get (openfaces s) noF) ;;
   nnF <- reads (fun s => Vec.get (openfaces s) nnoF) ;;
   nnnF <- reads (fun s => Vec.get (openfaces s) nnnoF) ;;
   startF <- startpt_of fF ;;
   endptF <- endpt_of fF ;;
   toerase <- addEdges_switch n oF ppoF poF noF nnoF nnnoF
                pppF ppF pF fF nF nnF nnnF startF endptF meth ;;
   countFace fF ;;;
   erase_all (sort_desc toerase))%stmt.

(** [addEdges()] *)
Definition addEdges0 : M unit :=
  fun s => addEdges (chosenFace s) (medgadd s) s.

(** [chooseFace()] *)
Definition chooseFace_body (i : nat) : M unit :=
  fun s =>
    (Fi <- openface s i ;;
     Fc <- openface s (chosenFace s) ;;
     oret (tt, if length Fc <? length Fi then set_chosenFace i s else s))%outcome.

Fixpoint for_each {A} (l : list A) (body : A -> M unit) : M unit :=
  match l with
  | [] => mret tt
  | x :: r => (body x ;;; for_each r body)%stmt
  end.

Definition chooseFace : M unit :=
  (modify (set_chosenFace 0) ;;;
   n <- gets (fun s => length (openfaces s)) ;;
   for_each (seq 1 (n - 1)) chooseFace_body ;;;
   modify (set_medgadd 0))%stmt.

(** [int facesoflen[7] = {}]: a table of (signed) counters. *)
Definition facesoflen0 : list Z := repeat 0%Z 7.

Definition tab (a : list Z) (k : nat) : Z := nth k a 0%Z.

(** The first loop of [sizecheck]; [None] stands for [return false]. *)
Fixpoint sizecheck_faces (fs : list (list nat)) (a : list Z) : option (list Z) :=
  match fs with
  | [] => Some a
  | F :: r =>
      if 6 <? length F then None
      else sizecheck_faces r (Vec.update a (length F) Z.succ)
  end.

(** The second loop of [sizecheck]. *)
Fixpoint sizecheck_open (s : GraphState) (os : list nat) (a : list Z)
  : outcome (option (list Z)) :=
  match os with
  | [] => oret (Some a)
  | o :: r =>
      (F <- face s o ;;
       if 5 <? length F then oret None
       else sizecheck_open s r (Vec.update a (length F) Z.pred))%outcome
  end.

(** The assertion shared by [sizecheck] and [sizefinal] of [planar.cc]. *)
Definition counts_agree (s : GraphState) (a : list Z) : bool :=
  (tab a 3 =? 1)%Z && (tab a 4 =? Z.of_nat (nsq s))%Z &&
  (tab a 5 =? Z.of_nat (npent s))%Z && (tab a 6 =? Z.of_nat (nhex s))%Z.

(** [sizecheck()] *)
Definition sizecheck (s : GraphState) : outcome bool :=
  match sizecheck_faces (faces s) facesoflen0 with
  | None => oret false
  | Some a =>
      (r <- sizecheck_open s (openfaces s) a ;;
       match r with
       | None => oret false
       | Some a =>
           if negb (tab a 0 =? 0)%Z || negb (tab a 1 =? 0)%Z
              || negb (tab a 2 =? 0)%Z
           then oret false
           else
             assert_ (counts_agree s a) ;;;
             oret ((tab a 3 <=? Z.of_nat N_TRI)%Z &&
                   (tab a 4 <=? Z.of_nat N_SQ)%Z &&
                   (tab a 5 <=? Z.of_nat N_PENT)%Z)
       end)%outcome
  end.

(** The first loop of [sizefinal]. *)
Fixpoint sizefinal_faces (fs : list (list nat)) (a : list Z) : option (list Z) :=
  match fs with
  | [] => Some a
  | F :: r =>
      if (length F <? 3) || (6 <? length F) then None
      else sizefinal_faces r (Vec.update a (length F) Z.succ)
  end.

(** [++vertdegs[e.v1]; ++vertdegs[e.v2]] over the edges; the table has
    [numverts + 1] entries. *)
Definition bump (d : list nat) (i : nat) : outcome (list nat) :=
  if i <? length d then oret (Vec.update d i S) else Undefined.

Fixpoint vertdegs_of (es : list edge) (d : list nat) : outcome (list nat) :=
  match es with
  | [] => oret d
  | e :: r =>
      (d <- bump d (v1 e) ;;
       d <- bump d (v2 e) ;;
       vertdegs_of r d)%outcome
  end.

(** [*std::min_element(first, last)] and [*std::max_element(first, last)]
    on a range, which must not be empty to be dereferenced. *)
Definition min_element (l : list nat) : outcome nat :=
  match l with
  | [] => Undefined
  | x :: r => oret (fold_left Nat.min r x)
  end.
Definition max_element (l : list nat) : outcome nat :=
  match l with
  | [] => Undefined
  | x :: r => oret (fold_left Nat.max r x)
  end.

(** [sizefinal()] *)
Definition sizefinal (s : GraphState) : outcome bool :=
  match sizefinal_faces (faces s) facesoflen0 with
  | None => oret false
  | Some a =>
      match tu with
      | Planar =>
          (assert_ (counts_agree s a) ;;;
           vertdegs <- vertdegs_of (edges s) (repeat 0 (numverts s + 1)) ;;
           (if negb (nth 0 vertdegs 0 =? 0) then warn VertexZero else oret tt) ;;;
           lo <- min_element (skipn 1 vertdegs) ;;
           hi <- max_element (skipn 1 vertdegs) ;;
           if negb (lo =? 3) || negb (hi =? 3)
           then warn NotCubic ;;; oret false
           else oret ((tab a 3 =? Z.of_nat N_TRI)%Z &&
                      (tab a 4 =? Z.of_nat N_SQ)%Z &&
                      (tab a 5 =? Z.of_nat N_PENT)%Z))%outcome
      | PlanarFast =>
          oret ((tab a 3 =? Z.of_nat N_TRI)%Z &&
                (tab a 4 =? Z.of_nat N_SQ)%Z &&
                (tab a 5 =? Z.of_nat N_PENT)%Z)
      end
  end.

End Methods.

(** ** The canonical-labelling oracle and [canongraph] *)

(** The fields of nauty's [sparsegraph] that [canongraph] sets. *)
Record sparsegraph : Type := mkSG {
  nv : nat;
  nde : nat;
  sg_v : list nat;
  sg_d : list nat;
  sg_e : list nat
}.

(** [sg.e[sg.v[a-1] + sg.d[a-1]] = b - 1; ++sg.d[a-1];] *)
Definition sg_add (sg : sparsegraph) (a b : nat) : outcome sparsegraph :=
  if a =? 0 then Undefined else
  (va <- Vec.get (sg_v sg) (a - 1) ;;
   da <- Vec.get (sg_d sg) (a - 1) ;;
   if va + da <? length (sg_e sg)
   then oret (mkSG (nv sg) (nde sg) (sg_v sg)
                   (Vec.update (sg_d sg) (a - 1) S)
                   (Vec.update (sg_e sg) (va + da) (fun _ => b - 1)))
   else Undefined)%outcome.

Fixpoint sg_fill (es : list edge) (sg : sparsegraph) : outcome sparsegraph :=
  match es with
  | [] => oret sg
  | e :: r =>
      (sg <- sg_add sg (v1 e) (v2 e) ;;
       sg <- sg_add sg (v2 e) (v1 e) ;;
       sg_fill r sg)%outcome
  end.

(** The sparse graph [canongraph] hands to nauty.  [SG_ALLOC] is taken to
    give arrays of exactly the sizes asked for; the slots of [e] that no
    edge writes are beyond the degree of their vertex and are not part of
    the graph. *)
Definition build_sg (s : GraphState) : outcome sparsegraph :=
  sg_fill (edges s)
          (mkSG (numverts s) (2 * length (edges s))
                (map (fun i => 3 * i) (seq 0 (numverts s)))
                (repeat 0 (numverts s))
                (repeat 0 (3 * numverts s))).

Section Registry.

(** [MAX_FACES], the bound on the number of faces. *)
Variable MAX_FACES : nat.

(** [sparsenauty] followed by [sortlists_sg]: the error status
    [stats.errstatus] and the array [canong.e[0 .. canong.nde)]. *)
Variable sparsenauty : sparsegraph -> nat * list nat.

(** [canongraph()]; its value is the content of [canong] that [main]
    reads.  Only [planar.cc] looks at the error status. *)
Definition canongraph (tu : variant) (s : GraphState) : outcome (list nat) :=
  (sg <- build_sg s ;;
   let (errstatus, canong) := sparsenauty sg in
   match tu with
   | Planar =>
       (if negb (errstatus =? 0) then warn (NautyError errstatus) else oret tt) ;;;
       oret canong
   | PlanarFast => oret canong
   end)%outcome.

(** [std::set<vector<int>>::emplace]: the set is a list without
    repetition; the boolean is the [second] component of the result. *)
Definition list_nat_eqb (a b : list nat) : bool :=
  if list_eq_dec Nat.eq_dec a b then true else false.

Definition emplace (x : list nat) (set : list (list nat)) : list (list nat) * bool :=
  if existsb (list_nat_eqb x) set then (set, false) else (x :: set, true).

(** [graphStack.size() > MAX_FACES - 4]: the right-hand side is an [int]
    converted to [size_t]; when it is negative the converted value is
    above every size a container can have. *)
Definition too_deep (graphStack : list GraphState) : bool :=
  (4 <=? MAX_FACES) && (MAX_FACES - 4 <? length graphStack).

End Registry.

(** *** [main] of [planar.cc], with [INFO_LVL] at its default 0 *)

Module PlanarMain.

Section Main.

Variable MAX_FACES : nat.
Variable sparsenauty : sparsegraph -> nat * list nat.

(** What [main] writes to [std::cout]. *)
Inductive line : Type :=
| Solution (nsuccess : nat) (tri : list nat) (sqr : list (list nat))
           (nhex numverts : nat)
| Whoops
| Total (nsuccess : nat).

Record config : Type := mkConfig {
  G : GraphState;
  graphStack : list GraphState;   (* the back of the deque is the head *)
  canonslns : list (list nat);
  nsuccess : nat;
  pop : bool;
  cout : list line
}.

(** [printnbrs(s, face)]: the lengths of the faces that share an edge
    with [face]. *)
Definition nbrs_of_edge (s : GraphState) (i e : nat) : list nat :=
  flat_map (fun fi => if (fst fi =? i) then []
                      else if existsb (Nat.eqb e) (snd fi)
                           then [length (snd fi)] else [])
           (combine (seq 0 (length (faces s))) (faces s)).

Fixpoint printnbrs_edges (s : GraphState) (i : nat) (es : list nat)
  : outcome (list nat) :=
  match es with
  | [] => oret []
  | e :: r =>
      let found := nbrs_of_edge s i e in
      (assert_ Planar (length found =? 1) ;;;
       rest <- printnbrs_edges s i r ;;
       oret (found ++ rest))%outcome
  end.

Definition printnbrs (s : GraphState) (i : nat) : outcome (list nat) :=
  (f <- face s i ;; printnbrs_edges s i f)%outcome.

Fixpoint print_squares (s : GraphState) (idx : list nat)
  : outcome (list (list nat)) :=
  match idx with
  | [] => oret []
  | i :: r =>
      (f <- face s i ;;
       if length f =? 4 then
         x <- printnbrs s i ;;
         rest <- print_squares s r ;;
         oret (x :: rest)
       else print_squares s r)%outcome
  end.

(** [cout << nsuccess << ". " << G] *)
Definition print_solution (k : nat) (s : GraphState) : outcome line :=
  (tri <- printnbrs s 0 ;;
   sqr <- print_squares s (seq 0 (length (faces s))) ;;
   oret (Solution k tri sqr (nhex s) (numverts s)))%outcome.

(** Lines 760-766: a map is dropped when face 2 is longer than a square,
    face 3 is closed and shorter than face 2. *)
Definition seen_by_symmetry (s : GraphState) : outcome bool :=
  (f2 <- face s 2 ;;
   if 4 <? length f2 then
     if negb (existsb (Nat.eqb 3) (openfaces s)) then
       f3 <- face s 3 ;;
       oret (length f3 <? length f2)
     else oret false
   else oret false)%outcome.

Definition set_pop (c : config) : config :=
  mkConfig (G c) (graphStack c) (canonslns c) (nsuccess c) true (cout c).

(** Lines 768-785: the map has no open face left. *)
Definition closed_map (c : config) : outcome config :=
  let c := set_pop c in
  if MAX_FACES <? length (faces (G c)) then oret c else
  (ok <- sizefinal Planar (G c) ;;
   if ok then
     canong <- canongraph sparsenauty Planar (G c) ;;
     let (set, fresh) := emplace canong (canonslns c) in
     if fresh then
       l <- print_solution (S (nsuccess c)) (G c) ;;
       oret (mkConfig (G c) (graphStack c) set (S (nsuccess c)) true
                      (cout c ++ [l]))
     else
       oret (mkConfig (G c) (graphStack c) set (nsuccess c) true (cout c))
   else
     oret (mkConfig (G c) (graphStack c) (canonslns c) (nsuccess c) true
                    (cout c ++ [Whoops])))%outcome.

(** Lines 760-806: what follows [G.addEdges()] in the loop. *)
Definition after_addEdges (c : config) : outcome config :=
  (sym <- seen_by_symmetry (G c) ;;
   if sym then oret (set_pop c) else
   if length (openfaces (G c)) =? 0 then closed_map c else
   if too_deep MAX_FACES (graphStack c) then oret (set_pop c) else
   if length (openfaces (G c)) =? 1 then oret (set_pop c) else
   ok <- sizecheck Planar (G c) ;;
   if negb ok then oret (set_pop c) else
   r <- chooseFace (G c) ;;
   oret (mkConfig (snd r) (graphStack c) (canonslns c) (nsuccess c)
                  false (cout c)))%outcome.

(** One turn of the [for(;;)] loop; [None] is the [break]. *)
Definition loop_body (c : config) : outcome (option config) :=
  let popped :=
    if pop c then
      match graphStack c with
      | [] => None
      | top :: rest =>
          Some (mkConfig top rest (canonslns c) (nsuccess c) false (cout c))
      end
    else Some c in
  match popped with
  | None => oret None
  | Some c =>
      (r <- incMethod Planar (G c) ;;
       if negb (fst r) then
         oret (Some (mkConfig (snd r) (graphStack c) (canonslns c)
                              (nsuccess c) true (cout c)))
       else
         let pushed := snd r :: graphStack c in
         r' <- addEdges0 Planar (snd r) ;;
         c' <- after_addEdges (mkConfig (snd r') pushed (canonslns c)
                                        (nsuccess c) false (cout c)) ;;
         oret (Some c'))%outcome
  end.

Definition init : config := mkConfig seed [] [] 0 false [].

(** What the process has produced when [main] returns. *)
Definition result (c : config) : nat * list (list nat) * list line :=
  (nsuccess c, canonslns c, cout c ++ [Total (nsuccess c)]).

(** [n] turns of the loop, from [c]. *)
Fixpoint turns (n : nat) (c : config) : outcome (option config) :=
  match n with
  | 0 => oret (Some c)
  | S k =>
      (r <- loop_body c ;;
       match r with
       | None => oret None
       | Some c' => turns k c'
       end)%outcome
  end.

(** The loop with a bound on the number of its turns: [None] when the
    bound is reached before the [break]. *)
Fixpoint main_loop (fuel : nat) (c : config)
  : outcome (option (nat * list (list nat) * list line)) :=
  match fuel with
  | 0 => oret None
  | S k =>
      (r <- loop_body c ;;
       match r with
       | None => oret (Some (result c))
       | Some c' => main_loop k c'
       end)%outcome
  end.

(** The loop, started at [c], leaves through its [break] having written
    [d] to [std::cerr], and [main] returns with the result [r]. *)
Inductive run : config -> list diag -> nat * list (list nat) * list line -> Prop :=
| run_break c d :
    loop_body c = Done None d -> run c d (result c)
| run_turn c c' d d' r :
    loop_body c = Done (Some c') d -> run c' d' r -> run c (d ++ d') r.

End Main.

End PlanarMain.

(** *** [main] of [planar-fast.cc] *)

Module FastMain.

Section Main.

Variable MAX_FACES : nat.
Variable sparsenauty : sparsegraph -> nat * list nat.

Record config : Type := mkConfig {
  G : GraphState;
  graphStack : list GraphState;   (* the back of the deque is the head *)
  canonslns : list (list nat);
  nsuccess : list nat;
  pop : bool
}.

Definition set_pop (c : config) : config :=
  mkConfig (G c) (graphStack c) (canonslns c) (nsuccess c) true.

(** Lines 605-616: the map has no open face left. *)
Definition closed_map (c : config) : outcome config :=
  (ok <- sizefinal PlanarFast (G c) ;;
   if ok && (length (faces (G c)) <=? MAX_FACES) then
     canong <- canongraph sparsenauty PlanarFast (G c) ;;
     let (set, fresh) := emplace canong (canonslns c) in
     if fresh then
       t <- bump (nsuccess c) (nhex (G c)) ;;
       oret (mkConfig (G c) (graphStack c) set t true)
     else
       oret (mkConfig (G c) (graphStack c) set (nsuccess c) true)
   else oret (set_pop c))%outcome.

(** Lines 605-631: what follows [G.addEdges()] in the loop. *)
Definition after_addEdges (c : config) : outcome config :=
  if length (openfaces (G c)) =? 0 then closed_map c else
  if too_deep MAX_FACES (graphStack c) then oret (set_pop c) else
  if length (openfaces (G c)) =? 1 then oret (set_pop c) else
  (ok <- sizecheck PlanarFast (G c) ;;
   if negb ok then oret (set_pop c) else
   r <- chooseFace (G c) ;;
   oret (mkConfig (snd r) (graphStack c) (canonslns c) (nsuccess c) false))%outcome.

(** One turn of the [for(;;)] loop; [None] is the [break]. *)
Definition loop_body (c : config) : outcome (option config) :=
  let popped :=
    if pop c then
      match graphStack c with
      | [] => None
      | top :: rest => Some (mkConfig top rest (canonslns c) (nsuccess c) false)
      end
    else Some c in
  match popped with
  | None => oret None
  | Some c =>
      (r <- incMethod PlanarFast (G c) ;;
       if negb (fst r) then
         oret (Some (mkConfig (snd r) (graphStack c) (canonslns c)
                              (nsuccess c) true))
       else
         let pushed := snd r :: graphStack c in
         r' <- addEdges0 PlanarFast (snd r) ;;
         c' <- after_addEdges (mkConfig (snd r') pushed (canonslns c)
                                        (nsuccess c) false) ;;
         oret (Some c'))%outcome
  end.

(** [vector<int> nsuccess(MAX_FACES - 6)]: a negative size converts to a
    [size_t] above [max_size()] and the constructor throws. *)
Definition init : outcome config :=
  if MAX_FACES <? 6 then Aborted
  else oret (mkConfig seed [] [] (repeat 0 (MAX_FACES - 6)) false).

(** What the process has produced when [main] returns: the tallies, the
    registry, and the lines [i: nsuccess[i]] for [1 <= i < MAX_FACES - 7]. *)
Definition result (c : config) : list nat * list (list nat) * list (nat * nat) :=
  (nsuccess c, canonslns c,
   map (fun i => (i, nth i (nsuccess c) 0)) (seq 1 (MAX_FACES - 7 - 1))).

(** [n] turns of the loop, from [c]. *)
Fixpoint turns (n : nat) (c : config) : outcome (option config) :=
  match n with
  | 0 => oret (Some c)
  | S k =>
      (r <- loop_body c ;;
       match r with
       | None => oret None
       | Some c' => turns k c'
       end)%outcome
  end.

(** The loop with a bound on the number of its turns: [None] when the
    bound is reached before the [break]. *)
Fixpoint main_loop (fuel : nat) (c : config)
  : outcome (option (list nat * list (list nat) * list (nat * nat))) :=
  match fuel with
  | 0 => oret None
  | S k =>
      (r <- loop_body c ;;
       match r with
       | None => oret (Some (result c))
       | Some c' => main_loop k c'
       end)%outcome
  end.

(** The loop, started at [c], leaves through its [break] and [main]
    returns with the result [r]. *)
Inductive run : config -> list diag -> list nat * list (list nat) * list (nat * nat) -> Prop :=
| run_break c d :
    loop_body c = Done None d -> run c d (result c)
| run_turn c c' d d' r :
    loop_body c = Done (Some c') d -> run c' d' r -> run c (d ++ d') r.

End Main.

End FastMain.

(** ** Notions the properties are stated with *)

(** Face [i] is open when some entry of [openfaces] refers to it. *)
Definition is_open (s : GraphState) (i : nat) : bool :=
  existsb (Nat.eqb i) (openfaces s).

(** The closed faces, in the order of the face sequence. *)
Fixpoint closed_from (s : GraphState) (i : nat) (fs : list (list nat))
  : list (list nat) :=
  match fs with
  | [] => []
  | f :: r =>
      if is_open s i then closed_from s (S i) r
      else f :: closed_from s (S i) r
  end.

Definition closed_faces (s : GraphState) : list (list nat) :=
  closed_from s 0 (faces s).

(** The length of face [i], and of the face at position [p] of the
    open-boundary sequence. *)
Definition face_len (s : GraphState) (i : nat) : nat :=
  length (nth i (faces s) []).

Definition open_len (s : GraphState) (p : nat) : nat :=
  face_len s (nth p (openfaces s) 0).

(** The number of edge ends at vertex [v], and the number of faces of
    length [k]. *)
Definition degree_in (es : list edge) (v : nat) : nat :=
  length (filter (fun e => v1 e =? v) es) + length (filter (fun e => v2 e =? v) es).

Definition degree (s : GraphState) (v : nat) : nat := degree_in (edges s) v.

Definition count_len (k : nat) (fs : list (list nat)) : nat :=
  length (filter (fun f => length f =? k) fs).

(** The face profile the completion test asks for. *)
Definition profile_1_2_5 (s : GraphState) : Prop :=
  Forall (fun f => 3 <= length f <= 6) (faces s) /\
  count_len 3 (faces s) = N_TRI /\
  count_len 4 (faces s) = N_SQ /\
  count_len 5 (faces s) = N_PENT.

(** A state without open face that meets the face profile although it has
    no edge at all. *)
Definition edgeless : GraphState :=
  {| numverts := 1; nsq := 2; npent := 5; nhex := 0;
     edges := [];
     faces := [ [0; 0; 0]; [0; 0; 0; 0]; [0; 0; 0; 0];
                [0; 0; 0; 0; 0]; [0; 0; 0; 0; 0]; [0; 0; 0; 0; 0];
                [0; 0; 0; 0; 0]; [0; 0; 0; 0; 0] ];
     openfaces := [];
     medgadd := 0; chosenFace := 0 |}.

(** What a whole run of the search lets one observe: what [main] has
    computed and printed when it returns, and what went to [std::cerr]. *)
Inductive output : Type :=
| PlanarOutput (r : nat * list (list nat) * list PlanarMain.line) (cerr : list diag)
| FastOutput (r : list nat * list (list nat) * list (nat * nat)) (cerr : list diag).

(** [search tu MAX_FACES sparsenauty o]: the program built from the
    translation unit [tu] with the bound [MAX_FACES] terminates with the
    output [o]. *)
Definition search (tu : variant) (MAX_FACES : nat)
    (sparsenauty : sparsegraph -> nat * list nat) (o : output) : Prop :=
  match tu with
  | Planar =>
      exists r d, PlanarMain.run MAX_FACES sparsenauty PlanarMain.init d r /\
                  o = PlanarOutput r d
  | PlanarFast =>
      exists c0 r d, FastMain.init MAX_FACES = Done c0 [] /\
                     FastMain.run MAX_FACES sparsenauty c0 d r /\
                     o = FastOutput r d
  end.

(** An oracle that reports the error status [err] and leaves the
    adjacency array of its argument in [canong]. *)
Definition failing_nauty (err : nat) (sg : sparsegraph) : nat * list nat :=
  (err, sg_e sg).

(** The output of the program built from [planar.cc] with
    [MAX_FACES = 9] and an oracle that reports no error. *)
Definition output_9 : output :=
  PlanarOutput
    (1,
     [[1; 2; 6; 0; 2; 8; 1; 0; 3; 2; 4; 9; 3; 5; 12; 4; 6; 13; 5; 0;
       7; 6; 8; 10; 7; 1; 9; 8; 3; 11; 7; 11; 13; 10; 9; 12; 11; 4;
       13; 5; 10; 12]],
     [PlanarMain.Solution 1 [5; 5; 6] [[5; 6; 5; 4]; [5; 5; 5; 4]] 1 14;
      PlanarMain.Total 1])
    [].

(** The seed after move 5 on its first open face and [chooseFace]. *)
Definition seed_5 : GraphState :=
  {| numverts := 9; nsq := 0; npent := 1; nhex := 1;
     edges := [ mkEdge 1 2; mkEdge 2 3; mkEdge 1 3; mkEdge 3 4;
                mkEdge 4 5; mkEdge 5 6; mkEdge 6 7; mkEdge 7 1;
                mkEdge 7 8; mkEdge 8 9; mkEdge 9 2 ];
     faces := [ [0; 1; 2]; [2; 3; 4; 5; 6; 7]; [7; 0; 10; 9; 8];
                [10; 1; 3]; [4]; [5]; [6; 8]; [9] ];
     openfaces := [7; 3; 4; 5; 6];
     medgadd := 0; chosenFace := 1 |}.

(** [seed_5] after move 1 on its second open face. *)
Definition seed_5_1 : GraphState :=
  {| numverts := 9; nsq := 1; npent := 1; nhex := 1;
     edges := [ mkEdge 1 2; mkEdge 2 3; mkEdge 1 3; mkEdge 3 4;
                mkEdge 4 5; mkEdge 5 6; mkEdge 6 7; mkEdge 7 1;
                mkEdge 7 8; mkEdge 8 9; mkEdge 9 2; mkEdge 9 4 ];
     faces := [ [0; 1; 2]; [2; 3; 4; 5; 6; 7]; [7; 0; 10; 9; 8];
                [10; 1; 3; 11]; [5]; [6; 8]; [9; 11; 4] ];
     openfaces := [6; 4; 5];
     medgadd := 1; chosenFace := 1 |}.

(** The configuration of [planar.cc] with [MAX_FACES = 6] after 16 turns
    of its loop, and after 17. *)
Definition config_16 : PlanarMain.config :=
  PlanarMain.mkConfig seed_5 [set_medgadd 5 seed] [] 0 false [].

Definition config_17 : PlanarMain.config :=
  PlanarMain.mkConfig seed_5_1 [set_medgadd 1 seed_5; set_medgadd 5 seed]
                      [] 0 true [].

(** The same stack and state in a configuration of [planar-fast.cc]. *)
Definition fast_config_17 : FastMain.config :=
  FastMain.mkConfig seed_5_1 [set_medgadd 1 seed_5; set_medgadd 5 seed]
                    [] [] false.

(** The test of lines 760-766 of [planar.cc] holds on [s]. *)
Definition seen_by_symmetry_holds (s : GraphState) : Prop :=
  exists d, PlanarMain.seen_by_symmetry s = Done true d.

(** [sound tu o Q]: the piece of program with outcome [o] has no
    undefined behaviour and writes no diagnostic; it stops at an assertion
    only in [planar.cc]; when it returns, its value satisfies [Q]. *)
Definition sound {A} (tu : variant) (o : outcome A) (Q : A -> Prop) : Prop :=
  match o with
  | Done a d => Q a /\ d = []
  | Undefined => False
  | Aborted => tu = Planar
  end.

(** The same for a statement run from the state [s]. *)
Definition wp {A} (tu : variant) (c : M A) (Q : A -> GraphState -> Prop)
    (s : GraphState) : Prop :=
  sound tu (c s) (fun r => Q (fst r) (snd r)).

(** The first map the search of [planar.cc] accepts with [MAX_FACES = 9]
    (14 vertices, 21 edges, 9 faces), in a configuration with an empty
    registry. *)
Definition closed_9 : GraphState :=
  {| numverts := 14; nsq := 2; npent := 5; nhex := 1;
     edges := [ mkEdge 1 2; mkEdge 2 3; mkEdge 1 3; mkEdge 3 4;
                mkEdge 4 5; mkEdge 5 6; mkEdge 6 7; mkEdge 7 1;
                mkEdge 7 8; mkEdge 8 9; mkEdge 9 2; mkEdge 9 10;
                mkEdge 10 4; mkEdge 8 11; mkEdge 11 12; mkEdge 12 10;
                mkEdge 12 13; mkEdge 13 5; mkEdge 6 14; mkEdge 14 11;
                mkEdge 14 13 ];
     faces := [ [0; 1; 2]; [2; 3; 4; 5; 6; 7]; [7; 0; 10; 9; 8];
                [10; 1; 3; 12; 11]; [15; 12; 4; 17; 16]; [17; 5; 18; 20];
                [6; 8; 13; 19; 18]; [9; 11; 15; 14; 13]; [19; 14; 16; 20] ];
     openfaces := [];
     medgadd := 1; chosenFace := 0 |}.

Definition closed_9_config : PlanarMain.config :=
  PlanarMain.mkConfig closed_9 [] [] 0 false [].

(** What [canongraph] leaves in [canong] for [closed_9] when the oracle
    is [failing_nauty]. *)
Definition closed_9_canong : list nat :=
  [1; 2; 6; 0; 2; 8; 1; 0; 3; 2; 4; 9; 3; 5; 12; 4; 6; 13; 5; 0;
   7; 6; 8; 10; 7; 1; 9; 8; 3; 11; 7; 11; 13; 10; 9; 12; 11; 4;
   13; 5; 10; 12].

(** ** The invariant of the construction *)

(** The length of face [i] of a face sequence. *)
Definition flen (fs : list (list nat)) (i : nat) : nat := length (nth i fs []).

(** [cnt k l]: how many entries of [l] are [k], as the (signed) counters
    of [sizecheck] hold it. *)
Definition ind (x k : nat) : Z := if x =? k then 1%Z else 0%Z.

Fixpoint cnt (k : nat) (l : list nat) : Z :=
  match l with
  | [] => 0%Z
  | x :: r => (ind x k + cnt k r)%Z
  end.

(** [cl k fs ofs]: the number of faces of length [k], minus the number of
    entries of the open-boundary sequence that refer to a face of length
    [k].  This is what [sizecheck] has in [facesoflen[k]] after its two
    loops: the number of closed faces of length [k]. *)
Definition cl (k : nat) (fs : list (list nat)) (ofs : list nat) : Z :=
  (cnt k (map (@length nat) fs) - cnt k (map (flen fs) ofs))%Z.

(** The closed faces the counters of the state announce. *)
Definition announced (k : nat) (s : GraphState) : Z :=
  (ind 3 k + Z.of_nat (nsq s) * ind 4 k + Z.of_nat (npent s) * ind 5 k
   + Z.of_nat (nhex s) * ind 6 k)%Z.

(** Every face has an edge, and the faces refer to existing edges. *)
Definition good_faces (fs : list (list nat)) (nE : nat) : Prop :=
  Forall (fun f => f <> [] /\ Forall (fun e => e < nE) f) fs.

(** The entries of the open-boundary sequence are distinct indices into
    the face sequence. *)
Definition good_open (fs : list (list nat)) (ofs : list nat) : Prop :=
  NoDup ofs /\ Forall (fun o => o < length fs) ofs.

Record Inv (s : GraphState) : Prop := mkInv {
  inv_open : good_open (faces s) (openfaces s);
  inv_faces : good_faces (faces s) (length (edges s));
  inv_degrees :
    2 * length (edges s) + length (openfaces s) = 3 * numverts s;
  inv_euler :
    numverts s + length (faces s) =
    length (edges s) + length (openfaces s)
    + (if length (openfaces s) =? 0 then 2 else 1);
  inv_closed :
    forall k, cl k (faces s) (openfaces s) = announced k s
}.

(** The sum of [ind (flen fs d) k] over the slots [d] of [D]. *)
Definition dead_cnt (k : nat) (fs : list (list nat)) (D : list nat) : Z :=
  cnt k (map (flen fs) D).

(** [s'] is [s] without the face slots [D]: the effect of the final loop
    of [addEdges] that the invariant needs. *)
Definition erased (D : list nat) (s s' : GraphState) : Prop :=
  numverts s' = numverts s /\ nsq s' = nsq s /\ npent s' = npent s /\
  nhex s' = nhex s /\ edges s' = edges s /\
  medgadd s' = medgadd s /\ chosenFace s' = chosenFace s /\
  length (faces s') + length D = length (faces s) /\
  length (openfaces s') = length (openfaces s) /\
  good_open (faces s') (openfaces s') /\
  good_faces (faces s') (length (edges s')) /\
  forall k, cl k (faces s') (openfaces s')
            = (cl k (faces s) (openfaces s) - dead_cnt k (faces s) D)%Z.

(** The effect of [countFace] on a face of length [L] in [4..6]. *)
Definition bump_counters (L : nat) (s : GraphState) : GraphState :=
  mkGraphState (numverts s)
               (nsq s + (if L =? 4 then 1 else 0))
               (npent s + (if L =? 5 then 1 else 0))
               (nhex s + (if L =? 6 then 1 else 0))
               (edges s) (faces s) (openfaces s) (medgadd s) (chosenFace s).

(** What holds when the [switch] of [addEdges] is left, from the state
    [s0], with the dead slots [D] and the state [s1]: the chosen face [fF]
    is closed with a length in [4..6] and not yet counted; the slots of
    [D] are no longer open; the counts are those of the invariant once
    [fF] is counted and the slots of [D] are removed. *)
Definition Mid (s0 : GraphState) (fF : nat) (D : list nat) (s1 : GraphState)
  : Prop :=
  good_open (faces s1) (openfaces s1) /\
  good_faces (faces s1) (length (edges s1)) /\
  fF < length (faces s1) /\
  4 <= flen (faces s1) fF <= 6 /\
  NoDup D /\
  Forall (fun e => e < length (faces s1)) D /\
  Forall (fun e => ~ In e (openfaces s1)) D /\
  2 * length (edges s1) + length (openfaces s1) = 3 * numverts s1 /\
  numverts s1 + length (faces s1) =
    length (edges s1) + length (openfaces s1) + length D
    + (if length (openfaces s1) =? 0 then 2 else 1) /\
  (forall k, (cl k (faces s1) (openfaces s1) - dead_cnt k (faces s1) D
              = announced k s1 + ind (flen (faces s1) fF) k)%Z) /\
  medgadd s1 = medgadd s0 /\ chosenFace s1 = chosenFace s0.

(** ** Predicates of the proofs *)

(** Position [c] holds the first longest face among the positions before
    [b]. *)
Definition first_longest (s : GraphState) (c b : nat) : Prop :=
  (forall p, p < b -> open_len s p <= open_len s c) /\
  (forall p, p < c -> open_len s p < open_len s c).

(** The move id [k] is legal for the chosen face of [s]. *)
Definition legal (tu : variant) (s : GraphState) (k : nat) : Prop :=
  isValid tu (chosenFace s) k s = Done true [].

(** What [isValid] has checked when it returns [true]: the lengths of the
    faces the move closes, and the number of open faces it needs. *)
Definition checked (n : nat) (prprF prevF F nextF nnF : list nat) (m : nat)
  : Prop :=
  match m with
  | 1 => 4 <= length F + 1 <= 6 /\ (n = 2 -> 4 <= length nextF + 1 <= 6)
  | 2 => 4 <= length F + 2 <= 6
  | 3 | 6 =>
      4 <= n /\ n <> 5 /\ 4 <= length F + length nnF + 2 <= 6 /\
      4 <= length nextF + 1 <= 6 /\ (n = 4 -> 4 <= length prevF + 1 <= 6)
  | 4 | 7 =>
      6 <= n /\ 4 <= length F + length prprF + 2 <= 6 /\
      4 <= length prevF + 1 <= 6
  | 5 => 4 <= length F + 3 <= 6
  | 8 => 5 <= n /\ 4 <= length F + 4 <= 6 /\ 4 <= length nextF + 1 <= 6
  | 9 => 5 <= n /\ 4 <= length F + 4 <= 6 /\ 4 <= length prevF + 1 <= 6
  | 10 => 4 <= length F + 4 <= 6
  | _ => False
  end.

(** [s'] is the map of [s]: they differ in [medgadd] and [chosenFace]
    only. *)
Definition same_graph (s s' : GraphState) : Prop :=
  numverts s' = numverts s /\ nsq s' = nsq s /\ npent s' = npent s /\
  nhex s' = nhex s /\ edges s' = edges s /\ faces s' = faces s /\
  openfaces s' = openfaces s.

(** A state from which the search goes on: the invariant holds and there
    are at least two open faces. *)
Definition ready (s : GraphState) : Prop :=
  Inv s /\ 2 <= length (openfaces s).

(** What the invariant says of a configuration of [planar-fast.cc]. *)
Definition fast_ok (c : FastMain.config) : Prop :=
  Inv (FastMain.G c) /\
  (FastMain.pop c = false -> 2 <= length (openfaces (FastMain.G c))) /\
  Forall ready (FastMain.graphStack c).

(** What the invariant says of a configuration of [planar.cc]. *)
Definition planar_ok (c : PlanarMain.config) : Prop :=
  Inv (PlanarMain.G c) /\
  (PlanarMain.pop c = false -> 2 <= length (openfaces (PlanarMain.G c))) /\
  Forall ready (PlanarMain.graphStack c).

(** The entries of [l] that refer to the slots [i .. i + n), and the
    length of the face an entry [o] refers to when the slot [i] is the
    head of [fs]. *)
Definition window (i n : nat) (l : list nat) : list nat :=
  filter (fun o => (i <=? o) && (o <? i + n)) l.

Definition len_from (i : nat) (fs : list (list nat)) (o : nat) : nat :=
  length (nth (o - i) fs []).

(** The closed faces of a state: one triangle, and the squares, pentagons
    and hexagons its counters announce. *)
Definition closed_profile (s : GraphState) : Prop :=
  Forall (fun f => 3 <= length f <= 6) (closed_faces s) /\
  count_len 3 (closed_faces s) = 1 /\
  count_len 4 (closed_faces s) = nsq s /\
  count_len 5 (closed_faces s) = npent s /\
  count_len 6 (closed_faces s) = nhex s.

(** [s] is the map a driver holds after some turns of its loop. *)
Definition visited (tu : variant) (MAX_FACES : nat)
    (sparsenauty : sparsegraph -> nat * list nat) (s : GraphState) : Prop :=
  match tu with
  | Planar =>
      exists n c d,
        PlanarMain.turns MAX_FACES sparsenauty n PlanarMain.init
        = Done (Some c) d /\ PlanarMain.G c = s
  | PlanarFast =>
      exists n c0 d0 c d,
        FastMain.init MAX_FACES = Done c0 d0 /\
        FastMain.turns MAX_FACES sparsenauty n c0 = Done (Some c) d /\
        FastMain.G c = s
  end.

(** [s] is a map the search accepts: no open face is left, the
    completion test passes, and the faces are within the bound. *)
Definition accepted (tu : variant) (MAX_FACES : nat)
    (sparsenauty : sparsegraph -> nat * list nat) (s : GraphState) : Prop :=
  visited tu MAX_FACES sparsenauty s /\
  openfaces s = [] /\
  sizefinal tu s = Done true [] /\
  length (faces s) <= MAX_FACES.

(** The map [planar.cc] holds after 8 turns with [MAX_FACES = 9]: one
    open face, of length 4, is left, and the driver drops the map. *)
Definition one_open : GraphState :=
  {| numverts := 11; nsq := 1; npent := 3; nhex := 1;
     edges := [ mkEdge 1 2; mkEdge 2 3; mkEdge 1 3; mkEdge 3 4;
                mkEdge 4 5; mkEdge 5 6; mkEdge 6 7; mkEdge 7 1;
                mkEdge 7 8; mkEdge 8 2; mkEdge 8 9; mkEdge 9 4;
                mkEdge 6 10; mkEdge 10 9; mkEdge 10 11; mkEdge 11 5 ];
     faces := [ [0; 1; 2]; [2; 3; 4; 5; 6; 7]; [7; 0; 9; 8];
                [9; 1; 3; 11; 10]; [13; 11; 4; 15; 14]; [15; 5; 12; 14];
                [6; 8; 10; 13; 12] ];
     openfaces := [5];
     medgadd := 2; chosenFace := 0 |}.

(** ** Predicates of the further properties *)

(** The statement [c] adds [dv] vertices and [de] edges, and leaves the
    edges it finds as they are. *)
Definition adds {A} (dv de : nat) (c : M A) : Prop :=
  forall s r d, c s = Done r d ->
    numverts (snd r) = numverts s + dv /\
    exists l, edges (snd r) = edges s ++ l /\ length l = de.

(** The vertices and the edges the [switch] of [addEdges] adds for each
    move id. *)
Definition new_verts (m : nat) : nat :=
  match m with
  | 2 | 8 | 9 => 1
  | 5 => 2
  | 10 => 3
  | _ => 0
  end.

Definition new_edges (m : nat) : nat :=
  match m with
  | 1 => 1
  | 2 | 3 | 4 | 6 | 7 => 2
  | 5 | 8 | 9 => 3
  | 10 => 4
  | _ => 0
  end.

(** The statement [cF] of [planar-fast.cc] does what the statement [cP]
    of [planar.cc] does, whenever [cP] returns; it writes nothing to
    [std::cerr]. *)
Definition refines {A} (cP cF : M A) : Prop :=
  forall s r d, cP s = Done r d -> cF s = Done r [].

(** The numbers of the solution lines of an output, in their order. *)
Fixpoint solution_numbers (l : list PlanarMain.line) : list nat :=
  match l with
  | [] => []
  | PlanarMain.Solution k _ _ _ _ :: r => k :: solution_numbers r
  | _ :: r => solution_numbers r
  end.

(** The registry and the tally of [planar.cc] agree: the tally is the
    number of canonical forms recorded, none is recorded twice, and the
    solution lines printed so far are numbered from 1 to the tally. *)
Definition planar_tally_ok (c : PlanarMain.config) : Prop :=
  PlanarMain.nsuccess c = length (PlanarMain.canonslns c) /\
  NoDup (PlanarMain.canonslns c) /\
  solution_numbers (PlanarMain.cout c) = seq 1 (PlanarMain.nsuccess c).

(** A solution line of a map within the bound: the number of vertices is
    fixed by the number of hexagons, the triangle line has an entry for
    each edge of face 0, and there are two square lines of four entries. *)
Definition solution_ok (MAX_FACES : nat) (l : PlanarMain.line) : Prop :=
  match l with
  | PlanarMain.Solution _ tri sqr h v =>
      v = 2 * h + 12 /\ h + 8 <= MAX_FACES /\
      3 <= length tri <= 6 /\
      length sqr = N_SQ /\ Forall (fun q => length q = 4) sqr
  | _ => True
  end.

(** The registry and the tallies of [planar-fast.cc] agree: the tallies
    add up to the number of canonical forms recorded, none is recorded
    twice, and a tally beyond [MAX_FACES - 8] hexagons is 0. *)
Definition fast_tally_ok (MAX_FACES : nat) (c : FastMain.config) : Prop :=
  list_sum (FastMain.nsuccess c) = length (FastMain.canonslns c) /\
  NoDup (FastMain.canonslns c) /\
  length (FastMain.nsuccess c) = MAX_FACES - 6 /\
  forall i, MAX_FACES < i + 8 -> nth i (FastMain.nsuccess c) 0 = 0.

(** What [canongraph] keeps of a sparse graph while it fills it: the
    sizes, the offsets [v], the lengths of [d] and [e]. *)
Definition same_frame (sg sg' : sparsegraph) : Prop :=
  nv sg' = nv sg /\ nde sg' = nde sg /\ sg_v sg' = sg_v sg /\
  length (sg_d sg') = length (sg_d sg) /\
  length (sg_e sg') = length (sg_e sg).

(** [l] without the [k] entries at the positions [a], [a + 1], ...,
    [a + k - 1] taken modulo its length; the other entries keep their
    order. *)
Definition cyclic_erase (a k : nat) (l : list nat) : list nat :=
  skipn (a + k - length l) (firstn a l) ++ skipn (a + k) l.

(** Exactly one face other than [i] has the edge [e], and its length is
    [k]. *)
Definition sole_neighbour (s : GraphState) (i e k : nat) : Prop :=
  exists j f,
    j <> i /\ nth_error (faces s) j = Some f /\ In e f /\ k = length f /\
    forall j' f', j' <> i -> nth_error (faces s) j' = Some f' -> In e f' ->
                  j' = j.

(** The neighbours of the vertex [v], numbered from 0 as nauty has them,
    in the order in which the loop of [canongraph] meets them. *)
Definition nbrs_in (es : list edge) (v : nat) : list nat :=
  flat_map (fun e => (if v1 e =? v then [v2 e - 1] else [])
                     ++ (if v2 e =? v then [v1 e - 1] else [])) es.

(** The arrays of a sparse graph as [canongraph] allocates and fills
    them for [n] vertices. *)
Definition sg_framed (n : nat) (sg : sparsegraph) : Prop :=
  sg_v sg = map (fun i => 3 * i) (seq 0 n) /\
  length (sg_d sg) = n /\ length (sg_e sg) = 3 * n.

(** What [sizecheck] accepts: no face has more than 6 edges, no open face
    more than 5, and at most [N_SQ] squares and [N_PENT] pentagons are
    counted. *)
Definition within_limits (s : GraphState) : Prop :=
  Forall (fun f => length f <= 6) (faces s) /\
  Forall (fun o => flen (faces s) o <= 5) (openfaces s) /\
  nsq s <= N_SQ /\ npent s <= N_PENT.

(** The position of a driver in the tree of moves, as a number in base 12
    with one digit for each map of the stack (the move id [medgadd] it was
    pushed with), bottom first, for a stack of at most [D] maps: the digit
    at depth [k] has the weight [12 ^ (D - k)].  The map the driver goes on
    with contributes its move id one level deeper; a driver that
    backtracks has exhausted everything below the top of its stack. *)
Definition wt (D k : nat) : nat := 12 ^ (D - k).

Fixpoint stack_value (D : nat) (st : list GraphState) : nat :=
  match st with
  | [] => 0
  | top :: rest => medgadd top * wt D (length rest) + stack_value D rest
  end.

Definition progress (D : nat) (st : list GraphState) (pop : bool)
    (g : GraphState) : nat :=
  stack_value D st
  + (if pop then 12 * wt D (length st) - 1
     else medgadd g * wt D (length st)).

(** What the bound on the number of turns needs of a configuration: the
    stack is not deeper than [D], the maps on it were pushed with a move
    id, and the map the driver goes on with has room for one more. *)
Definition on_path (D : nat) (st : list GraphState) (pop : bool)
    (g : GraphState) : Prop :=
  length st <= D /\
  Forall (fun s => medgadd s <= NUM_METH) st /\
  (pop = false -> length st < D /\ medgadd g <= NUM_METH).

(** The chosen position is a position of the open-boundary sequence. *)
Definition aimed (s : GraphState) : Prop :=
  chosenFace s < length (openfaces s).

(** From the map [g] a turn of the loop selects and applies its move
    safely: [incMethod] has no undefined behaviour and writes no
    diagnostic, and when it finds a move, neither has [addEdges]. *)
Definition turn_safe (tu : variant) (g : GraphState) : Prop :=
  sound tu (incMethod tu g)
    (fun r => fst r = true ->
              wp tu (addEdges0 tu) (fun _ _ => True) (snd r)).

(** ** The final loop of [addEdges] *)

(** [addEdges(oF, meth)] up to its final loop: the [switch] and the count
    of the chosen face.  Its value is [toerase]. *)
Definition addEdges_before_erase (tu : variant) (oF meth : nat) : M (list nat) :=
  (n <- gets (fun s => length (openfaces s)) ;;
   if n =? 0 then (fun _ => Undefined) else
   let pppoF := (oF + 2 * n - 3) mod n in
   let ppoF := (oF + n - 2) mod n in
   let poF := (oF + n - 1) mod n in
   let noF := (oF + 1) mod n in
   let nnoF := (oF + 2) mod n in
   let nnnoF := (oF + 3) mod n in
   pppF <- reads (fun s => Vec.get (openfaces s) pppoF) ;;
   ppF <- reads (fun s => Vec.get (openfaces s) ppoF) ;;
   pF <- reads (fun s => Vec.get (openfaces s) poF) ;;
   fF <- reads (fun s => Vec.get (openfaces s) oF) ;;
   nF <- reads (fun s => Vec.get (openfaces s) noF) ;;
   nnF <- reads (fun s => Vec.get (openfaces s) nnoF) ;;
   nnnF <- reads (fun s => Vec.get (openfaces s) nnnoF) ;;
   startF <- startpt_of tu fF ;;
   endptF <- endpt_of tu fF ;;
   toerase <- addEdges_switch tu n oF ppoF poF noF nnoF nnnoF
                pppF ppF pF fF nF nnF nnnF startF endptF meth ;;
   countFace tu fF ;;;
   mret toerase)%stmt.

(** The face slots a move absorbs into another face, as [toerase] lists
    them: entries of the open-boundary sequence [ofs] around the position
    [oF]. *)
Definition absorbed (meth : nat) (ofs : list nat) (oF : nat) : list nat :=
  let n := length ofs in
  let slot k := nth (k mod n) ofs 0 in
  match meth with
  | 1 => if n =? 2 then [] else [slot (oF + 1)]
  | 3 | 6 => if n =? 4 then [slot (oF + 2)] else [slot (oF + 2); slot (oF + 3)]
  | 4 | 7 => if n =? 4 then [slot (oF + n - 2)]
             else [slot (oF + n - 2); slot (oF + 1)]
  | 8 => [slot (oF + 2)]
  | 9 => [slot (oF + n - 2)]
  | _ => []
  end.

(** The index of the slot [o] once the slots of [D] below it are gone. *)
Definition renumber (D : list nat) (o : nat) : nat :=
  o - length (filter (fun e => e <? o) D).

(** Whenever the statement [c] returns, its value satisfies [P]. *)
Definition returns {A} (P : A -> Prop) (c : M A) : Prop :=
  forall s r d, c s = Done r d -> P (fst r).

(** ** The boundary of the map under construction *)

(** The vertex the face [f] starts from and the vertex it ends at, as
    [startpt] and [endpt] compute them from the edges [es]. *)
Definition sp (es : list edge) (f : list nat) : nat :=
  v1 (nth (nth 0 f 0) es (mkEdge 0 0)).

Definition ep (es : list edge) (f : list nat) : nat :=
  v2 (nth (nth (length f - 1) f 0) es (mkEdge 0 0)).

(** The first and the last vertex of face [o], and of each open face in
    the order of the open-boundary sequence. *)
Definition pair_of (es : list edge) (fs : list (list nat)) (o : nat)
  : nat * nat :=
  (sp es (nth o fs []), ep es (nth o fs [])).

Definition bounds (s : GraphState) : list (nat * nat) :=
  map (pair_of (edges s) (faces s)) (openfaces s).

(** [linked a l b]: the pairs of [l] form a path from [a] to [b], each
    pair starting where the one before it ends. *)
Fixpoint linked (a : nat) (l : list (nat * nat)) (b : nat) : Prop :=
  match l with
  | [] => a = b
  | p :: r => fst p = a /\ linked (snd p) r b
  end.

(** What the search keeps true of the boundary of its map: the edges join
    vertices that exist; the open faces, in the cyclic order of the
    open-boundary sequence, each start at the vertex where the one before
    ends; these vertices are distinct and have two edges, and every other
    vertex has three. *)
Record Bnd (s : GraphState) : Prop := mkBnd {
  bnd_verts : 7 <= numverts s;
  bnd_edges :
    Forall (fun e => 1 <= v1 e <= numverts s /\ 1 <= v2 e <= numverts s)
           (edges s);
  bnd_chain : exists a, linked a (bounds s) a;
  bnd_nodup : NoDup (map fst (bounds s));
  bnd_two : forall v, In v (map fst (bounds s)) -> degree s v = 2;
  bnd_three :
    forall v, 1 <= v <= numverts s -> ~ In v (map fst (bounds s)) ->
              degree s v = 3
}.

(** [l] turned so that it starts at its position [a]; and [l'] is [l]
    turned by some number of positions. *)
Definition rotl {A} (a : nat) (l : list A) : list A :=
  skipn a l ++ firstn a l.

Definition Rot {A} (l l' : list A) : Prop :=
  exists u v, l = u ++ v /\ l' = v ++ u.

(** The two ends of each edge of a list. *)
Definition ends_of (es : list edge) : list nat :=
  flat_map (fun e => [v1 e; v2 e]) es.

(** ** The behaviours of the whole program *)

(** [defined o Q]: the piece of program with outcome [o] has no undefined
    behaviour; it may stop at an assertion and it may write diagnostics;
    when it returns, its value satisfies [Q]. *)
Definition defined {A} (o : outcome A) (Q : A -> Prop) : Prop :=
  match o with
  | Done a _ => Q a
  | Undefined => False
  | Aborted => True
  end.

(** What the configurations of the drivers keep true: the invariant of
    the map and of the stacked maps, a chosen position that exists, and
    the boundary invariant. *)
Definition planar_safe (c : PlanarMain.config) : Prop :=
  planar_ok c /\
  Forall aimed (PlanarMain.graphStack c) /\
  (PlanarMain.pop c = false -> aimed (PlanarMain.G c)) /\
  Bnd (PlanarMain.G c) /\
  Forall Bnd (PlanarMain.graphStack c).

Definition fast_safe (MAX_FACES : nat) (c : FastMain.config) : Prop :=
  fast_ok c /\
  fast_tally_ok MAX_FACES c /\
  Forall aimed (FastMain.graphStack c) /\
  (FastMain.pop c = false -> aimed (FastMain.G c)) /\
  Bnd (FastMain.G c) /\
  Forall Bnd (FastMain.graphStack c).

(** The whole program, with a bound [fuel] on the number of turns of its
    loop: [main] returns with an output, or the bound is reached
    ([None]), or the program stops at an assertion or at the exception of
    a constructor, or its behaviour is undefined. *)
Definition program (tu : variant) (MAX_FACES : nat)
    (sparsenauty : sparsegraph -> nat * list nat) (fuel : nat)
  : outcome (option output) :=
  match tu with
  | Planar =>
      match PlanarMain.main_loop MAX_FACES sparsenauty fuel PlanarMain.init with
      | Done (Some r) d => Done (Some (PlanarOutput r d)) d
      | Done None d => Done None d
      | Undefined => Undefined
      | Aborted => Aborted
      end
  | PlanarFast =>
      match FastMain.init MAX_FACES with
      | Done c0 d0 =>
          match FastMain.main_loop MAX_FACES sparsenauty fuel c0 with
          | Done (Some r) d => Done (Some (FastOutput r d)) (d0 ++ d)
          | Done None d => Done None (d0 ++ d)
          | Undefined => Undefined
          | Aborted => Aborted
          end
      | Undefined => Undefined
      | Aborted => Aborted
      end
  end.

(** What one can observe of an execution of the program. *)
Inductive behaviour : Type :=
| Returns (o : output)
| Aborts
| Diverges.

(** [may tu MAX_FACES sparsenauty b]: the program built from [tu] with
    the bound [MAX_FACES] can behave as [b].  An execution that reaches
    undefined behaviour can behave in any way; otherwise the program
    returns or stops after some number of turns, or it never leaves its
    loop. *)
Definition may (tu : variant) (MAX_FACES : nat)
    (sparsenauty : sparsegraph -> nat * list nat) (b : behaviour) : Prop :=
  (exists fuel,
     match program tu MAX_FACES sparsenauty fuel with
     | Done (Some o) _ => b = Returns o
     | Done None _ => False
     | Aborted => b = Aborts
     | Undefined => True
     end) \/
  (b = Diverges /\
   forall fuel, exists d,
     program tu MAX_FACES sparsenauty fuel = Done None d).

(* ==== PROOFS ==== *)

(** ** The seed *)

(** C3, as the specification states it, fails: the second closed face of
    the seed is not a face of length 2. *)
Lemma seed_closed_not_digon :
  ~ (numverts seed = 7 /\ length (edges seed) = 8 /\ length (faces seed) = 7 /\
     length (openfaces seed) = 5 /\ length (closed_faces seed) = 2 /\
     Permutation (map (@length nat) (closed_faces seed)) [3; 2]).
Proof.
  intros (_ & _ & _ & _ & _ & H).
  apply (Permutation_in 6) in H; [| vm_compute; auto].
  simpl in H. intuition discriminate.
Qed.

(** C3 (amended): the seed has 7 vertices, 8 edges and 7 faces; 5 faces
    are open, of lengths 2, 2, 1, 1, 1, and 2 are closed: the triangle and
    a hexagon (which [nhex = 1] counts). *)
Theorem seed_shape :
  numverts seed = 7 /\ length (edges seed) = 8 /\ length (faces seed) = 7 /\
  length (openfaces seed) = 5 /\
  map (open_len seed) (seq 0 5) = [2; 2; 1; 1; 1] /\
  map (@length nat) (closed_faces seed) = [3; 6] /\
  nsq seed = 0 /\ npent seed = 0 /\ nhex seed = 1.
Proof. repeat split. Qed.

(** ** Outcomes and vector accesses *)

Lemma obind_Done {A B} (o : outcome A) (k : A -> outcome B) b d :
  obind o k = Done b d ->
  exists a d1 d2, o = Done a d1 /\ k a = Done b d2 /\ d = d1 ++ d2.
Proof.
  unfold obind. destruct o as [a d1| |]; try discriminate.
  destruct (k a) as [b' d2| |] eqn:E; try discriminate.
  intros [= <- <-]. now exists a, d1, d2.
Qed.

Lemma get_lt {A} (dflt : A) (l : list A) i :
  i < length l -> Vec.get l i = Done (nth i l dflt) [].
Proof.
  intros H. unfold Vec.get.
  rewrite (nth_error_nth' l dflt H). reflexivity.
Qed.

Lemma get_Done {A} (dflt : A) (l : list A) i x d :
  Vec.get l i = Done x d -> i < length l /\ x = nth i l dflt /\ d = [].
Proof.
  unfold Vec.get. destruct (nth_error l i) eqn:E; try discriminate.
  intros [= <- <-]. split; [| split; [| reflexivity]].
  - apply nth_error_Some. congruence.
  - symmetry. now apply nth_error_nth.
Qed.

Lemma face_lt s i :
  i < length (faces s) -> face s i = Done (nth i (faces s) []) [].
Proof. intros; unfold face; now apply get_lt. Qed.

Lemma openface_lt (s : GraphState) p :
  p < length (openfaces s) ->
  Forall (fun o => o < length (faces s)) (openfaces s) ->
  openface s p = Done (nth (nth p (openfaces s) 0) (faces s) []) [].
Proof.
  intros Hp Hr. unfold openface.
  rewrite (get_lt 0 _ _ Hp). cbn.
  rewrite face_lt; [reflexivity |].
  rewrite Forall_forall in Hr. apply Hr. now apply nth_In.
Qed.

(** ** [chooseFace] *)

Lemma open_len_set_chosenFace s c p :
  open_len (set_chosenFace c s) p = open_len s p.
Proof. reflexivity. Qed.

Lemma chooseFace_loop s : forall k a,
  Forall (fun o => o < length (faces s)) (openfaces s) ->
  a + k <= length (openfaces s) ->
  chosenFace s < a ->
  first_longest s (chosenFace s) a ->
  exists c, for_each (seq a k) chooseFace_body s
              = Done (tt, set_chosenFace c s) [] /\
            c < a + k /\ first_longest s c (a + k).
Proof.
  intros k. revert s. induction k as [|k IH]; intros s a Hr Hk Hc Hf.
  - exists (chosenFace s). rewrite Nat.add_0_r. destruct s; cbn in *. auto.
  - cbn [seq for_each]. unfold mbind at 1. unfold chooseFace_body at 1.
    rewrite (openface_lt s a) by (auto; lia).
    rewrite (openface_lt s (chosenFace s)) by (auto; lia).
    cbn [obind oret fst snd app].
    change (length (nth (nth a (openfaces s) 0) (faces s) [])) with (open_len s a).
    change (length (nth (nth (chosenFace s) (openfaces s) 0) (faces s) []))
      with (open_len s (chosenFace s)).
    destruct (Nat.ltb_spec (open_len s (chosenFace s)) (open_len s a)) as [Hlt|Hge].
    + destruct (IH (set_chosenFace a s) (S a)) as (c & E & Hc' & Hf').
      * exact Hr.
      * cbn. lia.
      * cbn. lia.
      * destruct Hf as [Hmax Hfirst]. split; cbn [chosenFace set_chosenFace];
          intros p Hp; rewrite !open_len_set_chosenFace.
        -- destruct (Nat.eq_dec p a) as [->|]; [lia|].
           specialize (Hmax p). lia.
        -- specialize (Hmax p). lia.
      * exists c. rewrite E. cbn. replace (a + S k) with (S a + k) by lia.
        destruct s; cbn in *. auto.
    + destruct (IH s (S a)) as (c & E & Hc' & Hf').
      * exact Hr.
      * lia.
      * lia.
      * destruct Hf as [Hmax Hfirst]. split; [| exact Hfirst].
        intros p Hp. destruct (Nat.eq_dec p a) as [->|]; [lia|].
        apply Hmax. lia.
      * exists c. rewrite E. cbn. replace (a + S k) with (S a + k) by lia. auto.
Qed.

(** C6: on a state whose open-boundary sequence is not empty (and refers
    to existing faces), [chooseFace] returns, sets [chosenFace] to the
    lowest position holding an open face of greatest length, and resets
    [medgadd] to 0; it changes nothing else. *)
Theorem chooseFace_first_longest (s : GraphState) :
  openfaces s <> [] ->
  Forall (fun o => o < length (faces s)) (openfaces s) ->
  exists c,
    chooseFace s = Done (tt, set_medgadd 0 (set_chosenFace c s)) [] /\
    c < length (openfaces s) /\
    (forall p, p < length (openfaces s) -> open_len s p <= open_len s c) /\
    (forall p, p < c -> open_len s p < open_len s c).
Proof.
  intros Hne Hr.
  assert (Hn : 1 <= length (openfaces s)) by (destruct (openfaces s); cbn; [congruence | lia]).
  destruct (chooseFace_loop (set_chosenFace 0 s) (length (openfaces s) - 1) 1)
    as (c & E & Hc & Hmax & Hfirst).
  - exact Hr.
  - cbn. lia.
  - cbn. lia.
  - split; cbn [chosenFace set_chosenFace]; intros p Hp; [|lia].
    replace p with 0 by lia. lia.
  - exists c. unfold chooseFace, mbind, modify, gets. cbn [obind oret fst snd].
    cbn [openfaces set_chosenFace] in *. rewrite E. cbn.
    replace (1 + (length (openfaces s) - 1)) with (length (openfaces s)) in * by lia.
    repeat split; auto.
Qed.

Lemma chooseFace_first_longest_witness :
  exists c,
    chooseFace seed = Done (tt, set_medgadd 0 (set_chosenFace c seed)) [] /\
    c < length (openfaces seed) /\
    (forall p, p < length (openfaces seed) -> open_len seed p <= open_len seed c) /\
    (forall p, p < c -> open_len seed p < open_len seed c).
Proof.
  apply (chooseFace_first_longest seed).
  - discriminate.
  - cbn. repeat constructor.
Defined.

(** ** [isValid] and [incMethod] *)

Lemma openface_Done s p x d : openface s p = Done x d -> d = [].
Proof.
  unfold openface, face. intros H.
  apply obind_Done in H. destruct H as (i & d1 & d2 & H1 & H2 & ->).
  apply (get_Done 0) in H1. apply (get_Done []) in H2.
  destruct H1 as (_ & _ & ->), H2 as (_ & _ & ->). reflexivity.
Qed.

Lemma assert_Done tu c x d : assert_ tu c = Done x d -> d = [].
Proof. unfold assert_, oret. destruct tu, c; intros H; inversion H; reflexivity. Qed.

(** Whether [isValid] returns does not depend on the move id, and it
    writes no diagnostic. *)
Lemma isValid_Done tu oF m s b d :
  isValid tu oF m s = Done b d ->
  d = [] /\
  exists n pppF prprF prevF F nextF nnF nnnF fc,
    forall m', isValid tu oF m' s
               = Done (isValid_switch n pppF prprF prevF F nextF nnF nnnF fc m') [].
Proof.
  unfold isValid. destruct (length (openfaces s) =? 0); [discriminate|].
  intros H.
  repeat (apply obind_Done in H;
          let x := fresh "x" in let d1 := fresh "d" in let d2 := fresh "d" in
          let E := fresh "E" in
          destruct H as (x & d1 & d2 & E & H & ->)).
  repeat match goal with
         | E : openface _ _ = Done _ ?d |- _ =>
             pose proof (openface_Done _ _ _ _ E); subst d
         | E : assert_ _ _ = Done _ ?d |- _ =>
             pose proof (assert_Done _ _ _ _ E); subst d
         end.
  injection H as <- <-. split; [reflexivity|].
  do 9 eexists. intros m'.
  repeat match goal with
         | E : _ = Done _ _ |- _ => rewrite E; clear E; cbn [obind]
         end.
  reflexivity.
Qed.

Lemma isValid_beyond tu oF m s b d :
  isValid tu oF m s = Done b d -> NUM_METH < m -> b = false.
Proof.
  intros H Hm. destruct (isValid_Done _ _ _ _ _ _ H) as (_ & n & a1 & a2 & a3 & a4 & a5 & a6 & a7 & fc & E).
  rewrite E in H. injection H as <-.
  unfold NUM_METH in Hm.
  do 11 (destruct m as [|m]; [lia|]). reflexivity.
Qed.

Lemma incMethod_loop_scans tu s0 : forall fuel m,
  (exists b d, isValid tu (chosenFace s0) 0 s0 = Done b d) ->
  NUM_METH + 1 <= fuel + m ->
  (exists m', m < m' <= NUM_METH /\ legal tu s0 m' /\
              (forall k, m < k < m' -> ~ legal tu s0 k) /\
              incMethod_loop tu fuel (set_medgadd m s0)
              = Done (true, set_medgadd m' s0) [])
  \/
  ((forall k, m < k <= NUM_METH -> ~ legal tu s0 k) /\
   incMethod_loop tu fuel (set_medgadd m s0)
   = Done (false, set_medgadd (Nat.max m (NUM_METH + 1)) s0) []).
Proof.
  intros fuel m (b0 & d0 & Hdef).
  destruct (isValid_Done _ _ _ _ _ _ Hdef)
    as (_ & n & a1 & a2 & a3 & a4 & a5 & a6 & a7 & fc & E).
  clear Hdef b0 d0.
  revert m. induction fuel as [|fuel IH]; intros m Hfuel.
  - right. split; [intros; lia|]. cbn [incMethod_loop medgadd set_medgadd].
    destruct (Nat.leb_spec m NUM_METH); [lia|].
    replace (Nat.max m (NUM_METH + 1)) with m by lia. reflexivity.
  - cbn [incMethod_loop medgadd set_medgadd].
    destruct (Nat.leb_spec m NUM_METH) as [Hle|Hgt].
    + unfold isValid0. cbn [chosenFace medgadd set_medgadd].
      change (isValid tu (chosenFace s0) (S m) (set_medgadd (S m) (set_medgadd m s0)))
        with (isValid tu (chosenFace s0) (S m) s0).
      rewrite E. cbn [obind oret app].
      change (set_medgadd (S m) (set_medgadd m s0)) with (set_medgadd (S m) s0).
      destruct (isValid_switch n a1 a2 a3 a4 a5 a6 a7 fc (S m)) eqn:Ev.
      * left. exists (S m).
        assert (S m <= NUM_METH).
        { destruct (Nat.eq_dec m NUM_METH) as [->|]; [|lia].
          cbn in Ev. discriminate. }
        repeat split; try lia.
        unfold legal. rewrite E, Ev. reflexivity.
      * destruct (IH (S m)) as [(m' & Hm' & Hl & Hfirst & Hrun) | (Hnone & Hrun)];
          [lia | left | right].
        -- exists m'. repeat split; try lia; auto.
           ++ intros k Hk. destruct (Nat.eq_dec k (S m)) as [->|].
              ** unfold legal. rewrite E, Ev. discriminate.
              ** apply Hfirst. lia.
           ++ destruct (incMethod_loop tu fuel (set_medgadd (S m) s0)); congruence.
        -- split.
           ++ intros k Hk. destruct (Nat.eq_dec k (S m)) as [->|].
              ** unfold legal. rewrite E, Ev. discriminate.
              ** apply Hnone. lia.
           ++ replace (Nat.max m (NUM_METH + 1))
                with (Nat.max (S m) (NUM_METH + 1)) by lia.
              rewrite Hrun. reflexivity.
    + right. split; [intros; lia|].
      replace (Nat.max m (NUM_METH + 1)) with m by lia. reflexivity.
Qed.

(** C7: when [isValid] can run on the state, [incMethod] returns, and it
    has tried the ids after [medgadd] in ascending order: either it returns
    [true] with [medgadd] at the first legal id among
    [medgadd + 1 .. NUM_METH], or no id of that range is legal and it
    returns [false].  Nothing but [medgadd] changes. *)
Theorem incMethod_first_legal (tu : variant) (s : GraphState) :
  (exists b d, isValid tu (chosenFace s) 0 s = Done b d) ->
  (exists m', medgadd s < m' <= NUM_METH /\ legal tu s m' /\
              (forall k, medgadd s < k < m' -> ~ legal tu s k) /\
              incMethod tu s = Done (true, set_medgadd m' s) [])
  \/
  ((forall k, medgadd s < k <= NUM_METH -> ~ legal tu s k) /\
   exists m', incMethod tu s = Done (false, set_medgadd m' s) []).
Proof.
  intros Hdef.
  destruct (incMethod_loop_scans tu s (NUM_METH + 1 - medgadd s) (medgadd s) Hdef)
    as [(m' & H1 & H2 & H3 & H4) | (H1 & H2)]; [lia | left | right].
  - exists m'. repeat split; auto; try lia.
    unfold incMethod. destruct s; exact H4.
  - split; [exact H1|]. eexists. unfold incMethod. destruct s; exact H2.
Qed.

Lemma incMethod_first_legal_witness :
  (exists m', medgadd seed < m' <= NUM_METH /\ legal Planar seed m' /\
              (forall k, medgadd seed < k < m' -> ~ legal Planar seed k) /\
              incMethod Planar seed = Done (true, set_medgadd m' seed) [])
  \/
  ((forall k, medgadd seed < k <= NUM_METH -> ~ legal Planar seed k) /\
   exists m', incMethod Planar seed = Done (false, set_medgadd m' seed) []).
Proof.
  apply (incMethod_first_legal Planar seed).
  exists false, []. reflexivity.
Defined.

(** ** [sizefinal] *)

Lemma length_update {A} (l : list A) i f : length (Vec.update l i f) = length l.
Proof.
  revert i; induction l as [|x l IH]; intros [|i]; cbn; auto.
Qed.

Lemma nth_update {A} (l : list A) i f k d :
  nth k (Vec.update l i f) d =
  if (k =? i) && (i <? length l) then f (nth i l d) else nth k l d.
Proof.
  revert i k; induction l as [|x l IH]; intros [|i] [|k]; cbn; auto;
    try (now rewrite andb_false_r).
Qed.

Lemma tab_update a i f k :
  i < length a ->
  tab (Vec.update a i f) k = if k =? i then f (tab a i) else tab a k.
Proof.
  intros Hi. unfold tab. rewrite nth_update.
  destruct (Nat.eqb_spec k i); destruct (Nat.ltb_spec i (length a));
    cbn [andb]; try reflexivity; lia.
Qed.

Lemma count_len_cons k f fs :
  count_len k (f :: fs) = (if length f =? k then 1 else 0) + count_len k fs.
Proof. unfold count_len. cbn. destruct (length f =? k); reflexivity. Qed.

Lemma sizefinal_faces_Some : forall fs a a',
  length a = 7 ->
  sizefinal_faces fs a = Some a' ->
  length a' = 7 /\
  Forall (fun f => 3 <= length f <= 6) fs /\
  forall k, tab a' k = (tab a k + Z.of_nat (count_len k fs))%Z.
Proof.
  induction fs as [|f fs IH]; intros a a' Ha H; cbn [sizefinal_faces] in H.
  - injection H as <-. repeat split; auto. intros k. cbn. lia.
  - destruct (Nat.ltb_spec (length f) 3); [discriminate|].
    destruct (Nat.ltb_spec 6 (length f)); [discriminate|]. cbn [orb] in H.
    apply IH in H; [|now rewrite length_update].
    destruct H as (Hl & Hf & Hk). repeat split; auto.
    intros k. rewrite Hk, tab_update by lia. rewrite count_len_cons.
    destruct (Nat.eqb_spec k (length f)) as [->|];
      [rewrite Nat.eqb_refl | destruct (Nat.eqb_spec (length f) k); [congruence|]];
      lia.
Qed.

Lemma sizefinal_faces_None : forall fs a,
  sizefinal_faces fs a = None -> ~ Forall (fun f => 3 <= length f <= 6) fs.
Proof.
  induction fs as [|f fs IH]; intros a H; cbn [sizefinal_faces] in H;
    [discriminate|].
  intros HF. inversion HF as [|? ? Hf HF']; subst.
  destruct (Nat.ltb_spec (length f) 3); [lia|].
  destruct (Nat.ltb_spec 6 (length f)); [lia|]. cbn [orb] in H.
  now apply IH in H.
Qed.

Lemma bump_Done d i d' dd :
  bump d i = Done d' dd ->
  length d' = length d /\ i < length d /\
  forall v, nth v d' 0 = nth v d 0 + (if i =? v then 1 else 0).
Proof.
  unfold bump. destruct (Nat.ltb_spec i (length d)) as [Hi|]; [|discriminate].
  intros [= <- <-]. rewrite length_update. repeat split; auto.
  intros v. rewrite nth_update. rewrite (Nat.eqb_sym i v).
  destruct (Nat.eqb_spec v i) as [->|]; destruct (Nat.ltb_spec i (length d));
    cbn [andb]; lia.
Qed.

Lemma vertdegs_of_Done : forall es d d' dd,
  vertdegs_of es d = Done d' dd ->
  length d' = length d /\
  forall v, nth v d' 0 = nth v d 0 + degree_in es v.
Proof.
  induction es as [|e es IH]; intros d d' dd H; cbn in H.
  - injection H as <- <-. split; [reflexivity | intros v; cbn; lia].
  - apply obind_Done in H. destruct H as (d1 & ? & ? & H1 & H & ->).
    apply obind_Done in H. destruct H as (d2 & ? & ? & H2 & H & ->).
    apply bump_Done in H1. destruct H1 as (L1 & _ & N1).
    apply bump_Done in H2. destruct H2 as (L2 & _ & N2).
    apply IH in H. destruct H as (L & N). split; [congruence|].
    intros v. rewrite N, N2, N1. unfold degree_in. cbn.
    destruct (v1 e =? v), (v2 e =? v); cbn; lia.
Qed.

Lemma fold_min_le : forall r x y,
  fold_left Nat.min r x <= x /\ (In y r -> fold_left Nat.min r x <= y).
Proof.
  induction r as [|z r IH]; intros x y; cbn; [split; [lia | tauto]|].
  destruct (IH (Nat.min x z) y) as [A B]. destruct (IH (Nat.min x z) z) as [A' _].
  split; [lia|]. intros [->|H]; [lia | auto].
Qed.

Lemma fold_max_ge : forall r x y,
  x <= fold_left Nat.max r x /\ (In y r -> y <= fold_left Nat.max r x).
Proof.
  induction r as [|z r IH]; intros x y; cbn; [split; [lia | tauto]|].
  destruct (IH (Nat.max x z) y) as [A B]. destruct (IH (Nat.max x z) z) as [A' _].
  split; [lia|]. intros [->|H]; [lia | auto].
Qed.

Lemma min_max_all l lo hi d1 d2 x :
  min_element l = Done lo d1 -> max_element l = Done hi d2 ->
  In x l -> lo <= x <= hi.
Proof.
  destruct l as [|y r]; [discriminate|]. cbn.
  intros [= <- <-] [= <- <-] [->|H].
  - split; [exact (proj1 (fold_min_le r x x)) | exact (proj1 (fold_max_ge r x x))].
  - split; [exact (proj2 (fold_min_le r y x) H) | exact (proj2 (fold_max_ge r y x) H)].
Qed.

Lemma sizefinal_planar_true (s : GraphState) d :
  sizefinal Planar s = Done true d ->
  profile_1_2_5 s /\
  forall v, 1 <= v <= numverts s -> degree s v = 3.
Proof.
  intros H. unfold sizefinal in H.
  destruct (sizefinal_faces (faces s) facesoflen0) as [a|] eqn:Ea;
    [|discriminate].
  apply sizefinal_faces_Some in Ea; [|reflexivity].
  destruct Ea as (La & HF & Htab).
  apply obind_Done in H. destruct H as (? & ? & ? & _ & H & ->).
  apply obind_Done in H. destruct H as (vd & ? & ? & Hvd & H & ->).
  apply obind_Done in H. destruct H as (? & ? & ? & _ & H & ->).
  apply obind_Done in H. destruct H as (lo & ? & ? & Hlo & H & ->).
  apply obind_Done in H. destruct H as (hi & ? & ? & Hhi & H & ->).
  apply vertdegs_of_Done in Hvd. destruct Hvd as (Lvd & Nvd).
  destruct (Nat.eqb_spec lo 3) as [->|]; [|discriminate].
  destruct (Nat.eqb_spec hi 3) as [->|]; [|discriminate].
  cbn [negb orb] in H. injection H as H _.
  apply andb_prop in H. destruct H as [H H5].
  apply andb_prop in H. destruct H as [H3 H4].
  apply Z.eqb_eq in H3, H4, H5. rewrite Htab in H3, H4, H5.
  unfold facesoflen0, tab, N_TRI, N_SQ, N_PENT in *. cbn [repeat nth] in *.
  split; [repeat split; auto; unfold N_TRI, N_SQ, N_PENT; lia|].
  intros v Hv.
  assert (Hin : In (nth v vd 0) (skipn 1 vd)).
  { destruct vd as [|z vd]; [rewrite repeat_length in Lvd; cbn in Lvd; lia|].
    destruct v as [|v]; [lia|]. cbn. apply nth_In.
    rewrite repeat_length in Lvd. cbn in Lvd. lia. }
  pose proof (min_max_all _ _ _ _ _ _ Hlo Hhi Hin) as Hb.
  rewrite Nvd in Hb. rewrite nth_repeat in Hb. unfold degree. lia.
Qed.

(** C1, as the specification states it, fails on [planar-fast.cc]: its
    completion test accepts a state without open face whose vertex has
    degree 0. *)
Lemma sizefinal_fast_ignores_degrees :
  openfaces edgeless = [] /\
  1 <= 1 <= numverts edgeless /\ degree edgeless 1 <> 3 /\
  sizefinal PlanarFast edgeless = Done true [].
Proof. repeat split; cbn; try lia; discriminate. Qed.

(** C1 (amended): in [planar.cc], [sizefinal] returns [true] only on a
    state whose faces all have a length in [3,6], with one face of length
    3, two of length 4 and five of length 5, and whose vertices
    [1 .. numverts] all have degree 3; so it never returns [true] on a
    state with a vertex of another degree.  In [planar-fast.cc],
    [sizefinal] always returns, and returns [true] exactly on the states
    with that face profile: it does not look at the degrees. *)
Theorem sizefinal_profile (s : GraphState) :
  (forall d, sizefinal Planar s = Done true d ->
     profile_1_2_5 s /\
     forall v, 1 <= v <= numverts s -> degree s v = 3) /\
  (forall v, 1 <= v <= numverts s -> degree s v <> 3 ->
     forall d, sizefinal Planar s <> Done true d) /\
  (exists b, sizefinal PlanarFast s = Done b [] /\
             (b = true <-> profile_1_2_5 s)).
Proof.
  pose proof (sizefinal_planar_true s) as HP.
  split; [exact HP|]. split.
  - intros v Hv Hd d H. apply HP in H. destruct H as [_ H]. now apply Hd, H.
  - unfold sizefinal.
    destruct (sizefinal_faces (faces s) facesoflen0) as [a|] eqn:Ea.
    + apply sizefinal_faces_Some in Ea; [|reflexivity].
      destruct Ea as (La & HF & Htab). eexists. split; [reflexivity|].
      rewrite !Htab. unfold facesoflen0, tab, profile_1_2_5. cbn [repeat nth].
      rewrite !andb_true_iff, !Z.eqb_eq. split.
      * intros [[H3 H4] H5]. repeat split; auto; lia.
      * intros (_ & H3 & H4 & H5). repeat split; lia.
    + exists false. split; [reflexivity|]. split; [discriminate|].
      intros (HF & _). now apply sizefinal_faces_None in Ea.
Qed.

Lemma sizefinal_profile_witness :
  (forall d, sizefinal Planar edgeless = Done true d ->
     profile_1_2_5 edgeless /\
     forall v, 1 <= v <= numverts edgeless -> degree edgeless v = 3) /\
  (forall v, 1 <= v <= numverts edgeless -> degree edgeless v <> 3 ->
     forall d, sizefinal Planar edgeless <> Done true d) /\
  (exists b, sizefinal PlanarFast edgeless = Done b [] /\
             (b = true <-> profile_1_2_5 edgeless)).
Proof. exact (sizefinal_profile edgeless). Defined.

(** [chooseFace] writes no diagnostic and has no assertion. *)
Lemma chooseFace_body_total i s :
  (exists s', chooseFace_body i s = Done (tt, s') []) \/
  chooseFace_body i s = Undefined.
Proof.
  unfold chooseFace_body, openface, face, Vec.get.
  destruct (nth_error (openfaces s) i) as [o|]; [|right; reflexivity].
  cbn [obind oret app].
  destruct (nth_error (faces s) o) as [Fi|]; [|right; reflexivity].
  cbn [obind oret app].
  destruct (nth_error (openfaces s) (chosenFace s)) as [o'|]; [|right; reflexivity].
  cbn [obind oret app].
  destruct (nth_error (faces s) o') as [Fc|]; [|right; reflexivity].
  left. eexists. reflexivity.
Qed.

Lemma for_each_choose_total : forall l s,
  (exists x, for_each l chooseFace_body s = Done x []) \/
  for_each l chooseFace_body s = Undefined.
Proof.
  induction l as [|i l IH]; intros s; cbn [for_each].
  - left. eexists. reflexivity.
  - unfold mbind.
    destruct (chooseFace_body_total i s) as [(s' & E)|E]; rewrite E;
      [|right; reflexivity].
    cbn [obind fst snd].
    destruct (IH s') as [(x & E')|E']; rewrite E';
      [left; eexists|right]; reflexivity.
Qed.

Lemma chooseFace_total s :
  (exists x, chooseFace s = Done x []) \/ chooseFace s = Undefined.
Proof.
  unfold chooseFace, mbind, modify, gets. cbn [obind oret fst snd app].
  destruct (for_each_choose_total
              (seq 1 (length (openfaces (set_chosenFace 0 s)) - 1))
              (set_chosenFace 0 s)) as [([[] s'] & E)|E]; rewrite E;
    [left; eexists|right]; reflexivity.
Qed.

(** ** The drivers *)

Lemma planar_run_deterministic MAX orc c d1 r1 :
  PlanarMain.run MAX orc c d1 r1 ->
  forall d2 r2, PlanarMain.run MAX orc c d2 r2 -> d1 = d2 /\ r1 = r2.
Proof.
  induction 1 as [c d E | c c' d d' r E _ IH]; intros d2 r2 H2;
    inversion H2 as [? ? E2 | ? c2 ? ? ? E2 H2']; subst;
    rewrite E in E2; try discriminate.
  - injection E2 as <-. auto.
  - injection E2 as <- <-. destruct (IH _ _ H2') as [<- <-]. auto.
Qed.

Lemma fast_run_deterministic MAX orc c d1 r1 :
  FastMain.run MAX orc c d1 r1 ->
  forall d2 r2, FastMain.run MAX orc c d2 r2 -> d1 = d2 /\ r1 = r2.
Proof.
  induction 1 as [c d E | c c' d d' r E _ IH]; intros d2 r2 H2;
    inversion H2 as [? ? E2 | ? c2 ? ? ? E2 H2']; subst;
    rewrite E in E2; try discriminate.
  - injection E2 as <-. auto.
  - injection E2 as <- <-. destruct (IH _ _ H2') as [<- <-]. auto.
Qed.

Lemma planar_main_loop_run MAX orc : forall fuel c r d,
  PlanarMain.main_loop MAX orc fuel c = Done (Some r) d ->
  PlanarMain.run MAX orc c d r.
Proof.
  induction fuel as [|fuel IH]; intros c r d H; cbn [PlanarMain.main_loop] in H;
    [discriminate|].
  apply obind_Done in H. destruct H as ([c'|] & d1 & d2 & E & H & ->).
  - apply PlanarMain.run_turn with c'; auto.
  - injection H as <- <-. rewrite app_nil_r. now apply PlanarMain.run_break.
Qed.

Lemma fast_main_loop_run MAX orc : forall fuel c r d,
  FastMain.main_loop MAX orc fuel c = Done (Some r) d ->
  FastMain.run MAX orc c d r.
Proof.
  induction fuel as [|fuel IH]; intros c r d H; cbn [FastMain.main_loop] in H;
    [discriminate|].
  apply obind_Done in H. destruct H as ([c'|] & d1 & d2 & E & H & ->).
  - apply FastMain.run_turn with c'; auto.
  - injection H as <- <-. rewrite app_nil_r. now apply FastMain.run_break.
Qed.

Lemma sizecheck_open_Done s : forall os a r d,
  sizecheck_open s os a = Done r d -> d = [].
Proof.
  induction os as [|o os IH]; intros a r d E; cbn [sizecheck_open] in E.
  - now injection E as _ <-.
  - apply obind_Done in E. destruct E as (F & e1 & e2 & E1 & E & ->).
    apply (get_Done []) in E1. destruct E1 as (_ & _ & ->).
    destruct (5 <? length F); [now injection E as _ <-|].
    now apply IH in E.
Qed.

Lemma sizecheck_Done tu s b d : sizecheck tu s = Done b d -> d = [].
Proof.
  unfold sizecheck.
  destruct (sizecheck_faces (faces s) facesoflen0) as [a|]; [|now intros [= _ <-]].
  intros H. apply obind_Done in H. destruct H as (r & d1 & d2 & E & H & ->).
  apply sizecheck_open_Done in E. subst d1.
  destruct r as [a'|]; [|now injection H as _ <-].
  destruct (_ || _); [now injection H as _ <-|].
  apply obind_Done in H. destruct H as (? & e1 & e2 & E1 & H & ->).
  apply assert_Done in E1. subst. now injection H as _ <-.
Qed.

(** C5, as the specification states it, fails on [planar.cc]: with
    [MAX_FACES = 6] the 17th turn of the loop applies move 1, which leaves
    three open faces; the stack holds 2 states, which is not more than
    [MAX_FACES - 4]; the prune test succeeds; and yet the driver
    backtracks, because of the test of lines 760-766. *)
Lemma planar_backtracks_by_symmetry :
  PlanarMain.turns 6 (failing_nauty 0) 16 PlanarMain.init = Done (Some config_16) [] /\
  PlanarMain.loop_body 6 (failing_nauty 0) config_16 = Done (Some config_17) [] /\
  addEdges0 Planar (set_medgadd 1 seed_5) = Done (tt, PlanarMain.G config_17) [] /\
  PlanarMain.pop config_17 = true /\
  openfaces (PlanarMain.G config_17) <> [] /\
  ~ (6 - 4 < length (PlanarMain.graphStack config_17)) /\
  length (openfaces (PlanarMain.G config_17)) <> 1 /\
  sizecheck Planar (PlanarMain.G config_17) = Done true [].
Proof.
  repeat split; try (vm_compute; reflexivity); cbn; try lia; discriminate.
Qed.

(** C5 (amended): let the bound be at least 4 and let a move application
    leave the open-boundary sequence non-empty.  In [planar-fast.cc] the
    driver backtracks if and only if the stack depth exceeds
    [MAX_FACES - 4], or exactly one open face remains, or [sizecheck]
    fails; [planar.cc] backtracks in these cases and also when the test
    of its lines 760-766 holds (face 2 longer than 4, face 3 closed and
    shorter than face 2).  In every other case the driver calls
    [chooseFace] and goes on with the same stack, registry and tally. *)
Theorem after_addEdges_backtracks (MAX_FACES : nat)
    (sparsenauty : sparsegraph -> nat * list nat)
    (cf cf' : FastMain.config) (df : list diag)
    (cp cp' : PlanarMain.config) (dp : list diag) :
  4 <= MAX_FACES ->
  openfaces (FastMain.G cf) <> [] ->
  openfaces (PlanarMain.G cp) <> [] ->
  FastMain.after_addEdges MAX_FACES sparsenauty cf = Done cf' df ->
  PlanarMain.after_addEdges MAX_FACES sparsenauty cp = Done cp' dp ->
  ((FastMain.pop cf' = true <->
      (MAX_FACES - 4 < length (FastMain.graphStack cf) \/
       length (openfaces (FastMain.G cf)) = 1 \/
       sizecheck PlanarFast (FastMain.G cf) = Done false [])) /\
   (FastMain.pop cf' = false ->
      chooseFace (FastMain.G cf) = Done (tt, FastMain.G cf') [] /\
      FastMain.graphStack cf' = FastMain.graphStack cf /\
      FastMain.canonslns cf' = FastMain.canonslns cf /\
      FastMain.nsuccess cf' = FastMain.nsuccess cf))
  /\
  ((PlanarMain.pop cp' = true <->
      (seen_by_symmetry_holds (PlanarMain.G cp) \/
       MAX_FACES - 4 < length (PlanarMain.graphStack cp) \/
       length (openfaces (PlanarMain.G cp)) = 1 \/
       sizecheck Planar (PlanarMain.G cp) = Done false [])) /\
   (PlanarMain.pop cp' = false ->
      chooseFace (PlanarMain.G cp) = Done (tt, PlanarMain.G cp') [] /\
      PlanarMain.graphStack cp' = PlanarMain.graphStack cp /\
      PlanarMain.canonslns cp' = PlanarMain.canonslns cp /\
      PlanarMain.nsuccess cp' = PlanarMain.nsuccess cp)).
Proof.
  intros HM Hf Hp Ef Ep.
  assert (Hnf : (length (openfaces (FastMain.G cf)) =? 0) = false).
  { apply Nat.eqb_neq. destruct (openfaces (FastMain.G cf)); cbn; congruence. }
  assert (Hnp : (length (openfaces (PlanarMain.G cp)) =? 0) = false).
  { apply Nat.eqb_neq. destruct (openfaces (PlanarMain.G cp)); cbn; congruence. }
  split.
  - unfold FastMain.after_addEdges in Ef. rewrite Hnf in Ef.
    unfold too_deep in Ef.
    destruct (Nat.leb_spec 4 MAX_FACES) as [_|]; [|lia]. cbn [andb] in Ef.
    destruct (Nat.ltb_spec (MAX_FACES - 4) (length (FastMain.graphStack cf))) as [Hd|Hd].
    { injection Ef as <- <-. cbn. split; [tauto | discriminate]. }
    destruct (Nat.eqb_spec (length (openfaces (FastMain.G cf))) 1) as [H1|H1].
    { injection Ef as <- <-. cbn. split; [tauto | discriminate]. }
    apply obind_Done in Ef. destruct Ef as (ok & d1 & d2 & Es & Ef & ->).
    pose proof (sizecheck_Done _ _ _ _ Es) as ->.
    destruct ok; cbn [negb] in Ef.
    + apply obind_Done in Ef. destruct Ef as ([[] s'] & e1 & e2 & Ec & Ef & ->).
      injection Ef as <- <-. cbn.
      assert (e1 = []) as ->.
      { destruct (chooseFace_total (FastMain.G cf)) as [(x & E)|E];
          rewrite E in Ec; [now injection Ec | discriminate]. }
      split; [|auto]. split; [discriminate|].
      intros [H|[H|H]]; [lia | lia | rewrite Es in H; discriminate].
    + injection Ef as <- <-. cbn. split; [tauto | discriminate].
  - unfold PlanarMain.after_addEdges in Ep.
    apply obind_Done in Ep. destruct Ep as (sym & d0 & d1 & Esym & Ep & ->).
    unfold seen_by_symmetry_holds.
    destruct sym.
    { injection Ep as <- <-. cbn. split; [|discriminate].
      split; [|reflexivity]. intros _. left. eauto. }
    assert (Hsym : ~ (exists d, PlanarMain.seen_by_symmetry (PlanarMain.G cp) = Done true d)).
    { intros (d & E). rewrite E in Esym. discriminate. }
    rewrite Hnp in Ep. unfold too_deep in Ep.
    destruct (Nat.leb_spec 4 MAX_FACES) as [_|]; [|lia]. cbn [andb] in Ep.
    destruct (Nat.ltb_spec (MAX_FACES - 4) (length (PlanarMain.graphStack cp))) as [Hd|Hd].
    { injection Ep as <- <-. cbn. split; [tauto | discriminate]. }
    destruct (Nat.eqb_spec (length (openfaces (PlanarMain.G cp))) 1) as [H1|H1].
    { injection Ep as <- <-. cbn. split; [tauto | discriminate]. }
    apply obind_Done in Ep. destruct Ep as (ok & d2 & d3 & Es & Ep & ->).
    pose proof (sizecheck_Done _ _ _ _ Es) as ->.
    destruct ok; cbn [negb] in Ep.
    + apply obind_Done in Ep. destruct Ep as ([[] s'] & e1 & e2 & Ec & Ep & ->).
      injection Ep as <- <-. cbn.
      assert (e1 = []) as ->.
      { destruct (chooseFace_total (PlanarMain.G cp)) as [(x & E)|E];
          rewrite E in Ec; [now injection Ec | discriminate]. }
      split; [|auto]. split; [discriminate|].
      intros [H|[H|[H|H]]]; [tauto | lia | lia | rewrite Es in H; discriminate].
    + injection Ep as <- <-. cbn. split; [tauto | discriminate].
Qed.

(** ** Running without undefined behaviour *)

Lemma sound_ret {A} tu (a : A) (Q : A -> Prop) : Q a -> sound tu (oret a) Q.
Proof. cbn. auto. Qed.

Lemma sound_bind {A B} tu (o : outcome A) (k : A -> outcome B) P Q :
  sound tu o P -> (forall a, P a -> sound tu (k a) Q) ->
  sound tu (obind o k) Q.
Proof.
  destruct o as [a d| |]; cbn; auto.
  intros [Ha ->] Hk. specialize (Hk a Ha).
  destruct (k a); cbn in *; auto.
Qed.

Lemma sound_weaken {A} tu (o : outcome A) (P Q : A -> Prop) :
  sound tu o P -> (forall a, P a -> Q a) -> sound tu o Q.
Proof. destruct o; cbn; intuition. Qed.

Lemma sound_Done {A} tu (o : outcome A) Q a d :
  sound tu o Q -> o = Done a d -> Q a /\ d = [].
Proof. intros H ->. exact H. Qed.

Lemma sound_get {A} tu (dflt : A) (l : list A) i (Q : A -> Prop) :
  i < length l -> Q (nth i l dflt) -> sound tu (Vec.get l i) Q.
Proof. intros Hi HQ. rewrite (get_lt dflt) by exact Hi. cbn. auto. Qed.

Lemma sound_assert tu c (Q : unit -> Prop) :
  Q tt -> sound tu (assert_ tu c) Q.
Proof. intros HQ. unfold assert_. destruct tu, c; cbn; auto. Qed.

Lemma sound_face tu s i (Q : list nat -> Prop) :
  i < length (faces s) -> Q (nth i (faces s) []) -> sound tu (face s i) Q.
Proof. intros. unfold face. now apply sound_get with (dflt := []). Qed.

(** ** The accepted maps of [planar.cc] and the oracle *)

Lemma printnbrs_edges_sound s i : forall es,
  sound Planar (PlanarMain.printnbrs_edges s i es) (fun _ => True).
Proof.
  induction es as [|e es IH]; cbn [PlanarMain.printnbrs_edges].
  - now apply sound_ret.
  - apply sound_bind with (P := fun _ => True); [now apply sound_assert|].
    intros _ _. apply sound_bind with (P := fun _ => True); [exact IH|].
    intros. now apply sound_ret.
Qed.

Lemma printnbrs_sound s i :
  i < length (faces s) -> sound Planar (PlanarMain.printnbrs s i) (fun _ => True).
Proof.
  intros Hi. unfold PlanarMain.printnbrs.
  apply sound_bind with (P := fun _ => True); [now apply sound_face|].
  intros. apply printnbrs_edges_sound.
Qed.

Lemma print_squares_sound s : forall idx,
  Forall (fun i => i < length (faces s)) idx ->
  sound Planar (PlanarMain.print_squares s idx) (fun _ => True).
Proof.
  induction idx as [|i idx IH]; intros Hr; cbn [PlanarMain.print_squares].
  - now apply sound_ret.
  - inversion Hr; subst.
    apply sound_bind with (P := fun _ => True); [now apply sound_face|].
    intros f _. destruct (length f =? 4); [|auto].
    apply sound_bind with (P := fun _ => True); [now apply printnbrs_sound|].
    intros x _. apply sound_bind with (P := fun _ => True); [auto|].
    intros. now apply sound_ret.
Qed.

Lemma print_solution_sound k s :
  faces s <> [] -> sound Planar (PlanarMain.print_solution k s) (fun _ => True).
Proof.
  intros Hne. unfold PlanarMain.print_solution.
  apply sound_bind with (P := fun _ => True).
  - apply printnbrs_sound. destruct (faces s); cbn; [congruence | lia].
  - intros x _. apply sound_bind with (P := fun _ => True).
    + apply print_squares_sound. apply Forall_forall. intros i Hi.
      apply in_seq in Hi. lia.
    + intros. now apply sound_ret.
Qed.

(** C4, as the specification states it, fails: with an oracle that
    reports the error status 1, the closed map [closed_9] (which the search
    with [MAX_FACES = 9] reaches at its 141st turn) is warned about and
    then recorded in the registry, and the tally goes from 0 to 1. *)
Lemma nauty_error_is_recorded :
  match PlanarMain.turns 9 (failing_nauty 1) 141 PlanarMain.init with
  | Done (Some c) d =>
      d = [NautyError 1] /\ PlanarMain.G c = closed_9 /\
      PlanarMain.nsuccess c = 1 /\ PlanarMain.canonslns c = [closed_9_canong]
  | _ => False
  end /\
  match PlanarMain.closed_map 9 (failing_nauty 1) closed_9_config with
  | Done c' d =>
      d = [NautyError 1] /\
      PlanarMain.nsuccess closed_9_config = 0 /\
      PlanarMain.nsuccess c' = 1 /\
      PlanarMain.canonslns closed_9_config = [] /\
      PlanarMain.canonslns c' = [closed_9_canong]
  | _ => False
  end.
Proof.
  split; vm_compute; repeat split.
Qed.

(** C4 (amended): when the oracle reports an error status for a completed
    map that passed the completion test, [planar.cc] writes a warning to
    [std::cerr] and goes on exactly as without the error: the content of
    [canong] is submitted to the registry, and when it was not yet there it
    is recorded and the tally is incremented.  The search then continues
    by backtracking; only the assertion of [printnbrs], reached when a new
    solution is printed, can stop it. *)
Theorem closed_map_warns_and_records (MAX_FACES : nat)
    (sparsenauty : sparsegraph -> nat * list nat)
    (c : PlanarMain.config) (d0 : list diag) (sg : sparsegraph)
    (err : nat) (canong : list nat) :
  length (faces (PlanarMain.G c)) <= MAX_FACES ->
  sizefinal Planar (PlanarMain.G c) = Done true d0 ->
  build_sg (PlanarMain.G c) = Done sg [] ->
  sparsenauty sg = (err, canong) ->
  err <> 0 ->
  match PlanarMain.closed_map MAX_FACES sparsenauty c with
  | Done c' d =>
      d = d0 ++ [NautyError err] /\
      PlanarMain.pop c' = true /\
      PlanarMain.G c' = PlanarMain.G c /\
      PlanarMain.graphStack c' = PlanarMain.graphStack c /\
      PlanarMain.canonslns c' = fst (emplace canong (PlanarMain.canonslns c)) /\
      PlanarMain.nsuccess c' =
        (if snd (emplace canong (PlanarMain.canonslns c))
         then S (PlanarMain.nsuccess c) else PlanarMain.nsuccess c)
  | Aborted => snd (emplace canong (PlanarMain.canonslns c)) = true
  | Undefined => False
  end.
Proof.
  intros HM Hfin Hsg Horc Herr.
  assert (Hne : faces (PlanarMain.G c) <> []).
  { apply sizefinal_planar_true in Hfin. destruct Hfin as [(_ & H3 & _) _].
    intros E. rewrite E in H3. discriminate. }
  unfold PlanarMain.closed_map.
  cbn [PlanarMain.G PlanarMain.set_pop PlanarMain.graphStack
       PlanarMain.canonslns PlanarMain.nsuccess PlanarMain.cout].
  destruct (Nat.ltb_spec MAX_FACES (length (faces (PlanarMain.G c)))); [lia|].
  rewrite Hfin. cbn [obind]. unfold canongraph. rewrite Hsg. cbn [obind].
  rewrite Horc.
  destruct (Nat.eqb_spec err 0) as [|_]; [contradiction|].
  cbn [negb warn obind oret app].
  destruct (emplace canong (PlanarMain.canonslns c)) as [set fresh].
  destruct fresh; cbn [fst snd].
  - pose proof (print_solution_sound (S (PlanarMain.nsuccess c)) _ Hne) as Hp.
    destruct (PlanarMain.print_solution (S (PlanarMain.nsuccess c)) (PlanarMain.G c))
      as [l dl| |]; cbn in Hp |- *; [|contradiction|reflexivity].
    destruct Hp as [_ ->]. repeat split.
  - unfold oret. repeat split.
Qed.

Lemma closed_map_warns_and_records_witness :
  match PlanarMain.closed_map 9 (failing_nauty 1) closed_9_config with
  | Done c' d =>
      d = [] ++ [NautyError 1] /\
      PlanarMain.pop c' = true /\
      PlanarMain.G c' = PlanarMain.G closed_9_config /\
      PlanarMain.graphStack c' = PlanarMain.graphStack closed_9_config /\
      PlanarMain.canonslns c' =
        fst (emplace closed_9_canong (PlanarMain.canonslns closed_9_config)) /\
      PlanarMain.nsuccess c' =
        (if snd (emplace closed_9_canong (PlanarMain.canonslns closed_9_config))
         then S (PlanarMain.nsuccess closed_9_config)
         else PlanarMain.nsuccess closed_9_config)
  | Aborted =>
      snd (emplace closed_9_canong (PlanarMain.canonslns closed_9_config)) = true
  | Undefined => False
  end.
Proof.
  apply (closed_map_warns_and_records 9 (failing_nauty 1) closed_9_config []
           (mkSG 14 42 (map (fun i => 3 * i) (seq 0 14)) (repeat 3 14) closed_9_canong)
           1 closed_9_canong).
  - cbn. lia.
  - vm_compute. reflexivity.
  - vm_compute. reflexivity.
  - reflexivity.
  - discriminate.
Defined.

Lemma after_addEdges_backtracks_witness :
  ((FastMain.pop (FastMain.mkConfig (set_medgadd 0 (set_chosenFace 0 seed_5_1))
                    (FastMain.graphStack fast_config_17) [] [] false) = true <->
      (6 - 4 < length (FastMain.graphStack fast_config_17) \/
       length (openfaces (FastMain.G fast_config_17)) = 1 \/
       sizecheck PlanarFast (FastMain.G fast_config_17) = Done false [])) /\
   (FastMain.pop (FastMain.mkConfig (set_medgadd 0 (set_chosenFace 0 seed_5_1))
                    (FastMain.graphStack fast_config_17) [] [] false) = false ->
      chooseFace (FastMain.G fast_config_17)
      = Done (tt, set_medgadd 0 (set_chosenFace 0 seed_5_1)) [] /\
      FastMain.graphStack fast_config_17 = FastMain.graphStack fast_config_17 /\
      @nil (list nat) = FastMain.canonslns fast_config_17 /\
      @nil nat = FastMain.nsuccess fast_config_17))
  /\
  ((PlanarMain.pop config_17 = true <->
      (seen_by_symmetry_holds seed_5_1 \/
       6 - 4 < length (PlanarMain.graphStack config_17) \/
       length (openfaces seed_5_1) = 1 \/
       sizecheck Planar seed_5_1 = Done false [])) /\
   (PlanarMain.pop config_17 = false ->
      chooseFace seed_5_1 = Done (tt, PlanarMain.G config_17) [] /\
      PlanarMain.graphStack config_17 = PlanarMain.graphStack config_17 /\
      PlanarMain.canonslns config_17 = @nil (list nat) /\
      PlanarMain.nsuccess config_17 = 0)).
Proof.
  apply (after_addEdges_backtracks 6 (failing_nauty 0)
           fast_config_17
           (FastMain.mkConfig (set_medgadd 0 (set_chosenFace 0 seed_5_1))
              (FastMain.graphStack fast_config_17) [] [] false) []
           (PlanarMain.mkConfig seed_5_1 (PlanarMain.graphStack config_17) [] 0 false [])
           config_17 []).
  - lia.
  - discriminate.
  - discriminate.
  - vm_compute. reflexivity.
  - vm_compute. reflexivity.
Defined.

(** ** Lists: updates, erasures, counting *)

Lemma update_map {A B} (g : A -> B) (l : list A) i f h :
  (forall x, g (f x) = h (g x)) ->
  map g (Vec.update l i f) = Vec.update (map g l) i h.
Proof.
  intros E. revert i; induction l as [|x l IH]; intros [|i]; cbn; auto.
  - now rewrite E.
  - now rewrite IH.
Qed.

Lemma flen_update fs i f j :
  flen (Vec.update fs i f) j =
  if (j =? i) && (i <? length fs) then length (f (nth i fs [])) else flen fs j.
Proof. unfold flen. rewrite nth_update. now destruct (_ && _). Qed.

Lemma flen_update_eq fs i f :
  i < length fs -> flen (Vec.update fs i f) i = length (f (nth i fs [])).
Proof.
  intros H. rewrite flen_update, Nat.eqb_refl.
  destruct (Nat.ltb_spec i (length fs)); [reflexivity | lia].
Qed.

Lemma flen_update_ne fs i f j :
  j <> i -> flen (Vec.update fs i f) j = flen fs j.
Proof.
  intros H. rewrite flen_update.
  destruct (Nat.eqb_spec j i); [contradiction | reflexivity].
Qed.

Lemma flen_snoc fs g j :
  j < length fs -> flen (fs ++ [g]) j = flen fs j.
Proof. intros H. unfold flen. now rewrite app_nth1. Qed.

Lemma flen_snoc_new fs g : flen (fs ++ [g]) (length fs) = length g.
Proof. unfold flen. now rewrite nth_middle. Qed.

Lemma cnt_app k l1 l2 : cnt k (l1 ++ l2) = (cnt k l1 + cnt k l2)%Z.
Proof. induction l1 as [|x l1 IH]; cbn; [reflexivity | rewrite IH; lia]. Qed.

Lemma cnt_perm k l1 l2 : Permutation l1 l2 -> cnt k l1 = cnt k l2.
Proof. induction 1; cbn; lia. Qed.

Lemma cnt_update k l i y :
  i < length l ->
  cnt k (Vec.update l i (fun _ => y)) = (cnt k l - ind (nth i l 0%nat) k + ind y k)%Z.
Proof.
  revert i; induction l as [|x l IH]; intros [|i] H; cbn in *; try lia.
  rewrite IH by lia. lia.
Qed.

Lemma cnt_map_ext k (g h : nat -> nat) l :
  (forall x, In x l -> g x = h x) -> cnt k (map g l) = cnt k (map h l).
Proof.
  induction l as [|x l IH]; intros E; cbn; [reflexivity|].
  rewrite E by (now left). rewrite IH; [reflexivity|].
  intros y Hy. apply E. now right.
Qed.

(** Two length functions that differ at one index only. *)
Lemma cnt_map_at k (g h : nat -> nat) i l :
  NoDup l -> In i l -> (forall x, x <> i -> g x = h x) ->
  cnt k (map g l) = (cnt k (map h l) - ind (h i) k + ind (g i) k)%Z.
Proof.
  intros Hnd Hin E. induction l as [|x l IH]; [contradiction|].
  inversion Hnd as [|? ? Hx Hnd']; subst. cbn.
  destruct Hin as [->|Hin].
  - rewrite (cnt_map_ext k g h l); [lia|].
    intros y Hy. apply E. intros ->. contradiction.
  - rewrite IH by assumption.
    rewrite (E x); [lia|]. intros ->. contradiction.
Qed.

Lemma cnt_length_update k fs i f :
  i < length fs ->
  cnt k (map (@length nat) (Vec.update fs i f)) =
  (cnt k (map (@length nat) fs) - ind (flen fs i) k
   + ind (length (f (nth i fs []))) k)%Z.
Proof.
  intros H. revert i H; induction fs as [|x fs IH]; intros [|i] H;
    cbn in *; try lia.
  rewrite IH by lia. unfold flen. lia.
Qed.

(** An update of an open face does not change the closed faces. *)
Lemma cl_update_open k fs ofs i f :
  NoDup ofs -> In i ofs -> i < length fs ->
  cl k (Vec.update fs i f) ofs = cl k fs ofs.
Proof.
  intros Hnd Hin Hi. unfold cl.
  rewrite cnt_length_update by assumption.
  rewrite (cnt_map_at k (flen (Vec.update fs i f)) (flen fs) i ofs Hnd Hin).
  - rewrite flen_update_eq by assumption. lia.
  - intros x Hx. now apply flen_update_ne.
Qed.

Lemma cl_update_closed k fs ofs i f :
  ~ In i ofs -> i < length fs ->
  cl k (Vec.update fs i f) ofs =
  (cl k fs ofs - ind (flen fs i) k + ind (length (f (nth i fs []))) k)%Z.
Proof.
  intros Hin Hi. unfold cl.
  rewrite cnt_length_update by assumption.
  rewrite (cnt_map_ext k (flen (Vec.update fs i f)) (flen fs) ofs); [lia|].
  intros x Hx. apply flen_update_ne. intros ->. contradiction.
Qed.

Lemma cl_snoc k fs ofs g :
  Forall (fun o => o < length fs) ofs ->
  cl k (fs ++ [g]) ofs = (cl k fs ofs + ind (length g) k)%Z.
Proof.
  intros Hr. unfold cl. rewrite map_app, cnt_app. cbn.
  rewrite (cnt_map_ext k (flen (fs ++ [g])) (flen fs) ofs); [lia|].
  intros x Hx. apply flen_snoc. rewrite Forall_forall in Hr. now apply Hr.
Qed.

Lemma cl_perm k fs ofs ofs' :
  Permutation ofs ofs' -> cl k fs ofs = cl k fs ofs'.
Proof.
  intros H. unfold cl. f_equal. apply cnt_perm. now apply Permutation_map.
Qed.

Lemma cl_cons k fs x ofs :
  cl k fs (x :: ofs) = (cl k fs ofs - ind (flen fs x) k)%Z.
Proof. unfold cl. cbn. lia. Qed.

(** Erasing an element of a list. *)
Lemma skipn_nth {A} (d : A) : forall (l : list A) e,
  e < length l -> skipn e l = nth e l d :: skipn (S e) l.
Proof.
  induction l as [|x l IH]; intros [|e] H; cbn in *; try lia; auto.
  apply IH. lia.
Qed.

Lemma erase1_perm {A} (d : A) (l : list A) e :
  e < length l ->
  Permutation l (nth e l d :: (firstn e l ++ skipn (S e) l)).
Proof.
  intros H. rewrite <- (firstn_skipn e l) at 1.
  rewrite (skipn_nth d) by assumption.
  symmetry. apply Permutation_middle.
Qed.

(** ** The final loop of [addEdges] *)

Lemma nth_remove {A} (d : A) (l : list A) e j :
  e < length l ->
  nth j (firstn e l ++ skipn (S e) l) d = nth (if j <? e then j else S j) l d.
Proof.
  intros He.
  assert (Hl : length (firstn e l) = e) by (rewrite length_firstn; lia).
  destruct (Nat.ltb_spec j e) as [Hj|Hj].
  - rewrite app_nth1 by lia. now rewrite nth_firstn, (proj2 (Nat.ltb_lt j e) Hj).
  - rewrite app_nth2 by lia. rewrite Hl, nth_skipn. f_equal. lia.
Qed.

Lemma length_remove {A} (l : list A) e :
  e < length l -> length (firstn e l ++ skipn (S e) l) + 1 = length l.
Proof.
  intros He. rewrite length_app, length_firstn, length_skipn. lia.
Qed.

Lemma flen_remove fs e o :
  e < length fs -> o <> e ->
  flen (firstn e fs ++ skipn (S e) fs) (if e <? o then o - 1 else o) = flen fs o.
Proof.
  intros He Ho. unfold flen. rewrite nth_remove by assumption.
  destruct (Nat.ltb_spec e o).
  - destruct (Nat.ltb_spec (o - 1) e); [lia|]. f_equal. f_equal. lia.
  - destruct (Nat.ltb_spec o e); [reflexivity | lia].
Qed.

Lemma cl_erase_dead k fs ofs e :
  e < length fs -> ~ In e ofs ->
  cl k (firstn e fs ++ skipn (S e) fs)
       (map (fun o => if e <? o then o - 1 else o) ofs)
  = (cl k fs ofs - ind (flen fs e) k)%Z.
Proof.
  intros He Hin. unfold cl.
  rewrite (cnt_perm k _ _ (Permutation_map (@length nat) (erase1_perm [] fs e He))).
  cbn [map cnt]. rewrite map_map.
  rewrite (cnt_map_ext k _ (flen fs) ofs).
  - unfold flen. lia.
  - intros o Ho. apply flen_remove; [assumption|]. intros ->. contradiction.
Qed.

Lemma good_open_erase_dead fs ofs e :
  good_open fs ofs -> e < length fs -> ~ In e ofs ->
  good_open (firstn e fs ++ skipn (S e) fs)
            (map (fun o => if e <? o then o - 1 else o) ofs).
Proof.
  intros [Hnd Hr] He Hin. rewrite Forall_forall in Hr. split.
  - apply NoDup_map_NoDup_ForallPairs; [|assumption].
    intros a b Ha Hb E.
    assert (a <> e /\ b <> e) as [Hae Hbe] by (split; intros ->; contradiction).
    destruct (Nat.ltb_spec e a), (Nat.ltb_spec e b); lia.
  - apply Forall_forall. intros x Hx. apply in_map_iff in Hx.
    destruct Hx as (o & <- & Ho). specialize (Hr o Ho).
    assert (o <> e) by (intros ->; contradiction).
    pose proof (length_remove fs e He).
    destruct (Nat.ltb_spec e o); lia.
Qed.

Lemma In_firstn {A} (x : A) : forall n l, In x (firstn n l) -> In x l.
Proof.
  induction n as [|n IH]; intros [|y l]; cbn; auto; try tauto.
  intros [H|H]; auto.
Qed.

Lemma In_skipn {A} (x : A) : forall n l, In x (skipn n l) -> In x l.
Proof.
  induction n as [|n IH]; intros [|y l]; cbn; auto.
Qed.

Lemma good_faces_remove fs nE e :
  good_faces fs nE -> good_faces (firstn e fs ++ skipn (S e) fs) nE.
Proof.
  unfold good_faces. intros H. rewrite Forall_forall in *.
  intros f Hf. apply H. apply in_app_or in Hf.
  destruct Hf as [Hf|Hf]; [now apply In_firstn in Hf | now apply In_skipn in Hf].
Qed.

Lemma good_faces_mono fs nE nE' :
  nE <= nE' -> good_faces fs nE -> good_faces fs nE'.
Proof.
  unfold good_faces. intros Hle H. eapply Forall_impl; [|exact H].
  cbn. intros f [Hf He]. split; [assumption|].
  eapply Forall_impl; [|exact He]. cbn. intros; lia.
Qed.

Lemma insert_desc_perm x l : Permutation (insert_desc x l) (x :: l).
Proof.
  induction l as [|y l IH]; cbn; [reflexivity|].
  destruct (y <=? x); [reflexivity|].
  rewrite IH. apply perm_swap.
Qed.

Lemma sort_desc_perm l : Permutation (sort_desc l) l.
Proof.
  induction l as [|x l IH]; cbn; [reflexivity|].
  rewrite insert_desc_perm. now constructor.
Qed.

Lemma insert_desc_sorted x l :
  ~ In x l -> StronglySorted gt l -> StronglySorted gt (insert_desc x l).
Proof.
  intros Hx Hs. induction Hs as [|y l Hs IH Hy]; cbn.
  - repeat constructor.
  - destruct (Nat.leb_spec y x) as [Hle|Hgt].
    + assert (y <> x) by (intros ->; apply Hx; now left).
      constructor; [now constructor|]. constructor; [lia|].
      eapply Forall_impl; [|exact Hy]. cbn. intros; lia.
    + constructor.
      * apply IH. intros H. apply Hx. now right.
      * rewrite Forall_forall in *. intros z Hz.
        apply (Permutation_in _ (insert_desc_perm x l)) in Hz.
        destruct Hz as [<-|Hz]; [lia | now apply Hy].
Qed.

Lemma sort_desc_sorted l : NoDup l -> StronglySorted gt (sort_desc l).
Proof.
  induction 1 as [|x l Hx Hnd IH]; cbn; [constructor|].
  apply insert_desc_sorted; [|assumption].
  intros H. apply Hx. now apply (Permutation_in _ (sort_desc_perm l)).
Qed.

(** ** Statements: weakest preconditions *)

(** Projections of an explicit state, and nothing more. *)
Ltac simpl_state :=
  cbn [numverts nsq npent nhex edges faces openfaces medgadd chosenFace
       set_numverts set_nsq set_npent set_nhex set_edges set_faces
       set_openfaces set_medgadd set_chosenFace bump_counters fst snd] in *.

Lemma wp_ret {A} tu (a : A) Q s : Q a s -> wp tu (mret a) Q s.
Proof. unfold wp, mret. cbn. auto. Qed.

Lemma wp_bind {A B} tu (c : M A) (k : A -> M B) Q s :
  wp tu c (fun a s' => wp tu (k a) Q s') s -> wp tu (mbind c k) Q s.
Proof.
  unfold wp, mbind. destruct (c s) as [[a s'] d| |]; cbn; auto.
  intros [H ->]. destruct (k a s'); cbn in *; auto.
Qed.

Lemma wp_gets {A} tu (f : GraphState -> A) Q s :
  Q (f s) s -> wp tu (gets f) Q s.
Proof. unfold wp, gets. cbn. auto. Qed.

Lemma wp_modify tu f (Q : unit -> GraphState -> Prop) s :
  Q tt (f s) -> wp tu (modify f) Q s.
Proof. unfold wp, modify. cbn. auto. Qed.

Lemma wp_reads {A} tu (f : GraphState -> outcome A) Q s :
  sound tu (f s) (fun a => Q a s) -> wp tu (reads f) Q s.
Proof.
  unfold wp, reads. destruct (f s) as [a d| |]; cbn; auto.
  intros [H ->]. auto.
Qed.

Lemma wp_weaken {A} tu (c : M A) (P Q : A -> GraphState -> Prop) s :
  wp tu c P s -> (forall a s', P a s' -> Q a s') -> wp tu c Q s.
Proof.
  unfold wp. intros H HPQ. eapply sound_weaken; [exact H|].
  intros [a s']. cbn. apply HPQ.
Qed.

Lemma wp_faces_modify tu i f (Q : unit -> GraphState -> Prop) s :
  i < length (faces s) ->
  Q tt (set_faces (Vec.update (faces s) i f) s) ->
  wp tu (faces_modify i f) Q s.
Proof.
  intros Hi HQ. unfold wp, faces_modify.
  destruct (Nat.ltb_spec i (length (faces s))); [|lia]. cbn. auto.
Qed.

Lemma wp_faces_append tu i j (Q : unit -> GraphState -> Prop) s :
  i <> j -> i < length (faces s) -> j < length (faces s) ->
  Q tt (set_faces (Vec.update (faces s) i (fun f => f ++ nth j (faces s) [])) s) ->
  wp tu (faces_append i j) Q s.
Proof.
  intros Hij Hi Hj HQ. unfold wp, faces_append.
  destruct (Nat.eqb_spec i j); [contradiction|].
  rewrite face_lt by assumption. cbn [obind].
  unfold faces_modify.
  destruct (Nat.ltb_spec i (length (faces s))); [|lia]. cbn. auto.
Qed.

Lemma wp_openfaces_erase tu a b (Q : unit -> GraphState -> Prop) s :
  a <= b <= length (openfaces s) ->
  Q tt (set_openfaces (firstn a (openfaces s) ++ skipn b (openfaces s)) s) ->
  wp tu (openfaces_erase a b) Q s.
Proof.
  intros [Ha Hb] HQ. unfold wp, openfaces_erase, Vec.erase.
  destruct (Nat.leb_spec a b); [|lia].
  destruct (Nat.leb_spec b (length (openfaces s))); [|lia]. cbn. auto.
Qed.

Lemma wp_openfaces_erase1 tu a (Q : unit -> GraphState -> Prop) s :
  a < length (openfaces s) ->
  Q tt (set_openfaces (firstn a (openfaces s) ++ skipn (S a) (openfaces s)) s) ->
  wp tu (openfaces_erase1 a) Q s.
Proof.
  intros Ha HQ. unfold wp, openfaces_erase1, Vec.erase1.
  destruct (Nat.ltb_spec a (length (openfaces s))); [|lia]. cbn. auto.
Qed.

Lemma wp_openfaces_assign tu p x (Q : unit -> GraphState -> Prop) s :
  p < length (openfaces s) ->
  Q tt (set_openfaces (Vec.update (openfaces s) p (fun _ => x)) s) ->
  wp tu (openfaces_assign p x) Q s.
Proof.
  intros Hp HQ. unfold wp, openfaces_assign.
  destruct (Nat.ltb_spec p (length (openfaces s))); [|lia]. cbn. auto.
Qed.

Lemma wp_openfaces_insert tu p x (Q : unit -> GraphState -> Prop) s :
  p <= length (openfaces s) ->
  Q tt (set_openfaces (firstn p (openfaces s) ++ x :: skipn p (openfaces s)) s) ->
  wp tu (openfaces_insert p x) Q s.
Proof.
  intros Hp HQ. unfold wp, openfaces_insert, Vec.insert.
  destruct (Nat.leb_spec p (length (openfaces s))); [|lia]. cbn. auto.
Qed.

Lemma wp_faces_erase1 tu i (Q : unit -> GraphState -> Prop) s :
  i < length (faces s) ->
  Q tt (set_faces (firstn i (faces s) ++ skipn (S i) (faces s)) s) ->
  wp tu (faces_erase1 i) Q s.
Proof.
  intros Hi HQ. unfold wp, faces_erase1, Vec.erase1.
  destruct (Nat.ltb_spec i (length (faces s))); [|lia]. cbn. auto.
Qed.

Lemma good_faces_nth fs nE i :
  good_faces fs nE -> i < length fs ->
  nth i fs [] <> [] /\ Forall (fun e => e < nE) (nth i fs []).
Proof.
  unfold good_faces. rewrite Forall_forall. intros H Hi.
  apply H. now apply nth_In.
Qed.

Lemma sound_back tu (f : list nat) (Q : nat -> Prop) :
  f <> [] -> Q (nth (length f - 1) f 0) -> sound tu (Vec.back f) Q.
Proof.
  intros Hf HQ. unfold Vec.back. destruct f as [|x r]; [contradiction|].
  apply sound_get with (dflt := 0); [cbn; lia | exact HQ].
Qed.

Lemma sound_startpt tu s f :
  f <> [] -> Forall (fun e => e < length (edges s)) f ->
  sound tu (startpt tu s f) (fun _ => True).
Proof.
  intros Hf He. rewrite Forall_forall in He. unfold startpt.
  assert (Hl : 0 < length f) by (destruct f; cbn; [congruence | lia]).
  apply sound_bind with (P := fun i => i < length (edges s)).
  { apply sound_get with (dflt := 0); [lia|]. apply He. now apply nth_In. }
  intros i0 Hi0.
  apply sound_bind with (P := fun _ => True).
  { now apply sound_get with (dflt := mkEdge 0 0). }
  intros first _. destruct tu; [|now apply sound_ret].
  destruct (length f =? 1) eqn:E1; [now apply sound_ret|].
  apply Nat.eqb_neq in E1.
  apply sound_bind with (P := fun i => i < length (edges s)).
  { apply sound_get with (dflt := 0); [lia|]. apply He. apply nth_In. lia. }
  intros i1 Hi1.
  apply sound_bind with (P := fun _ => True).
  { now apply sound_get with (dflt := mkEdge 0 0). }
  intros sec _.
  apply sound_bind with (P := fun _ => True); [now apply sound_assert|].
  intros. now apply sound_ret.
Qed.

Lemma sound_endpt tu s f :
  f <> [] -> Forall (fun e => e < length (edges s)) f ->
  sound tu (endpt tu s f) (fun _ => True).
Proof.
  intros Hf He. rewrite Forall_forall in He. unfold endpt.
  assert (Hl : 0 < length f) by (destruct f; cbn; [congruence | lia]).
  apply sound_bind with (P := fun i => i < length (edges s)).
  { apply sound_back; [assumption|]. apply He. apply nth_In. lia. }
  intros il Hil.
  apply sound_bind with (P := fun _ => True).
  { now apply sound_get with (dflt := mkEdge 0 0). }
  intros laste _. destruct tu; [|now apply sound_ret].
  destruct (length f =? 1) eqn:E1; [now apply sound_ret|].
  apply Nat.eqb_neq in E1.
  apply sound_bind with (P := fun i => i < length (edges s)).
  { apply sound_get with (dflt := 0); [lia|]. apply He. apply nth_In. lia. }
  intros ip Hip.
  apply sound_bind with (P := fun _ => True).
  { now apply sound_get with (dflt := mkEdge 0 0). }
  intros pene _.
  apply sound_bind with (P := fun _ => True); [now apply sound_assert|].
  intros. now apply sound_ret.
Qed.

Lemma sound_face_startpt tu s i :
  good_faces (faces s) (length (edges s)) -> i < length (faces s) ->
  sound tu (f <- face s i ;; startpt tu s f)%outcome (fun _ => True).
Proof.
  intros Hg Hi. destruct (good_faces_nth _ _ _ Hg Hi) as [Hne He].
  apply sound_bind with (P := fun f => f = nth i (faces s) []).
  { now apply sound_face. }
  intros f ->. now apply sound_startpt.
Qed.

Lemma sound_face_endpt tu s i :
  good_faces (faces s) (length (edges s)) -> i < length (faces s) ->
  sound tu (f <- face s i ;; endpt tu s f)%outcome (fun _ => True).
Proof.
  intros Hg Hi. destruct (good_faces_nth _ _ _ Hg Hi) as [Hne He].
  apply sound_bind with (P := fun f => f = nth i (faces s) []).
  { now apply sound_face. }
  intros f ->. now apply sound_endpt.
Qed.

Lemma wp_startpt_of tu i (Q : nat -> GraphState -> Prop) s :
  good_faces (faces s) (length (edges s)) -> i < length (faces s) ->
  (forall x, Q x s) -> wp tu (startpt_of tu i) Q s.
Proof.
  intros Hg Hi HQ. unfold startpt_of. apply wp_reads.
  eapply sound_weaken; [now apply sound_face_startpt|]. auto.
Qed.

Lemma wp_endpt_of tu i (Q : nat -> GraphState -> Prop) s :
  good_faces (faces s) (length (edges s)) -> i < length (faces s) ->
  (forall x, Q x s) -> wp tu (endpt_of tu i) Q s.
Proof.
  intros Hg Hi HQ. unfold endpt_of. apply wp_reads.
  eapply sound_weaken; [now apply sound_face_endpt|]. auto.
Qed.

Lemma wp_front_of tu i (Q : nat -> GraphState -> Prop) s :
  good_faces (faces s) (length (edges s)) -> i < length (faces s) ->
  (forall x, x < length (edges s) -> Q x s) -> wp tu (front_of i) Q s.
Proof.
  intros Hg Hi HQ. destruct (good_faces_nth _ _ _ Hg Hi) as [Hne He].
  unfold front_of. apply wp_reads.
  apply sound_bind with (P := fun f => f = nth i (faces s) []).
  { now apply sound_face. }
  intros f ->. rewrite Forall_forall in He.
  assert (Hl : 0 < length (nth i (faces s) []))
    by (destruct (nth i (faces s) []); cbn; [congruence | lia]).
  apply sound_get with (dflt := 0); [lia|].
  apply HQ. apply He. now apply nth_In.
Qed.

Lemma wp_assert_that tu c (Q : unit -> GraphState -> Prop) s :
  sound tu (c s) (fun _ => True) -> Q tt s ->
  wp tu (assert_that tu c) Q s.
Proof.
  intros Hc HQ. unfold assert_that. destruct tu; [|now apply wp_ret].
  unfold wp. apply sound_bind with (P := fun _ => True); [exact Hc|].
  intros b _. apply sound_bind with (P := fun _ => True); [now apply sound_assert|].
  intros. now apply sound_ret.
Qed.

Lemma wp_countFace tu i L (Q : unit -> GraphState -> Prop) s :
  i < length (faces s) -> flen (faces s) i = L -> 4 <= L <= 6 ->
  Q tt (bump_counters L s) -> wp tu (countFace tu i) Q s.
Proof.
  intros Hi HL HR HQ. unfold wp, countFace.
  rewrite face_lt by assumption. cbn [obind]. unfold flen in HL. rewrite HL.
  assert (Hc : L = 4 \/ L = 5 \/ L = 6) by lia.
  destruct Hc as [Hc|[Hc|Hc]]; subst L; rewrite Hc in *;
    cbn [oret sound fst snd app]; (split; [|reflexivity]);
    destruct s; unfold bump_counters, set_nsq, set_npent, set_nhex in *;
    cbn in *; rewrite ?Nat.add_0_r, ?Nat.add_1_r in HQ; exact HQ.
Qed.

Lemma erased_nil s : 
  good_open (faces s) (openfaces s) ->
  good_faces (faces s) (length (edges s)) -> erased [] s s.
Proof.
  intros Ho Hg. unfold erased, dead_cnt. cbn.
  repeat split; auto; try lia; try apply Ho.
Qed.

Lemma wp_erase_all tu : forall D s (Q : unit -> GraphState -> Prop),
  StronglySorted gt D ->
  Forall (fun e => e < length (faces s)) D ->
  Forall (fun e => ~ In e (openfaces s)) D ->
  good_open (faces s) (openfaces s) ->
  good_faces (faces s) (length (edges s)) ->
  (forall s', erased D s s' -> Q tt s') ->
  wp tu (erase_all D) Q s.
Proof.
  induction D as [|e D IH]; intros s Q Hs Hr Hn Ho Hg HQ; cbn [erase_all].
  - apply wp_ret. apply HQ. now apply erased_nil.
  - inversion Hs as [|? ? Hs' Hgt]; subst.
    inversion Hr as [|? ? He Hr']; subst.
    inversion Hn as [|? ? Hne Hn']; subst.
    rewrite Forall_forall in Hgt, Hr', Hn'.
    apply wp_bind. unfold erase_dead. apply wp_bind. apply wp_modify.
    apply wp_faces_erase1; [exact He|].
    destruct s as [nv sq pt hx es fs ofs md cf]; simpl_state.
    pose proof (length_remove fs e He) as Hlen.
    apply IH; simpl_state.
    + exact Hs'.
    + apply Forall_forall. intros d Hd. specialize (Hgt d Hd). lia.
    + apply Forall_forall. intros d Hd Hin. apply in_map_iff in Hin.
      destruct Hin as (o & Eo & Ho').
      specialize (Hgt d Hd). specialize (Hn' d Hd).
      destruct (Nat.ltb_spec e o); [lia|]. subst o. contradiction.
    + now apply good_open_erase_dead.
    + now apply good_faces_remove.
    + intros s' (E1 & E2 & E3 & E4 & E5 & E6 & E7 & E8 & E9 & E10 & E11 & E12).
      simpl_state. apply HQ. unfold erased. simpl_state. cbn [length].
      repeat split; auto; try lia; try apply E10.
      * rewrite E9. now rewrite length_map.
      * intros k. rewrite E12. rewrite cl_erase_dead by assumption.
        unfold dead_cnt. cbn [map cnt].
        rewrite (cnt_map_ext k (flen (firstn e fs ++ skipn (S e) fs)) (flen fs) D);
          [lia|].
        intros d Hd. specialize (Hgt d Hd). unfold flen.
        rewrite nth_remove by assumption.
        destruct (Nat.ltb_spec d e); [reflexivity | lia].
Qed.

Lemma announced_bump k L s :
  4 <= L <= 6 ->
  announced k (bump_counters L s) = (announced k s + ind L k)%Z.
Proof.
  intros HL. unfold announced, bump_counters. cbn.
  assert (Hc : L = 4 \/ L = 5 \/ L = 6) by lia.
  destruct Hc as [-> | [-> | ->]]; cbn; lia.
Qed.

(** The end of [addEdges]: the chosen face is counted and the dead slots
    are removed. *)
Lemma wp_tail tu fF D L (Q : unit -> GraphState -> Prop) s :
  good_open (faces s) (openfaces s) ->
  good_faces (faces s) (length (edges s)) ->
  fF < length (faces s) -> flen (faces s) fF = L -> 4 <= L <= 6 ->
  NoDup D ->
  Forall (fun e => e < length (faces s)) D ->
  Forall (fun e => ~ In e (openfaces s)) D ->
  (forall s', erased (sort_desc D) (bump_counters L s) s' -> Q tt s') ->
  wp tu (countFace tu fF ;;; erase_all (sort_desc D))%stmt Q s.
Proof.
  intros Ho Hg HfF HL HR Hnd Hr Hn HQ.
  apply wp_bind. apply wp_countFace with L; auto.
  apply wp_erase_all; simpl_state; auto.
  - now apply sort_desc_sorted.
  - rewrite Forall_forall in *. intros d Hd. apply Hr.
    now apply (Permutation_in _ (sort_desc_perm D)).
  - rewrite Forall_forall in *. intros d Hd. apply Hn.
    now apply (Permutation_in _ (sort_desc_perm D)).
Qed.

(** From the state before the end of [addEdges] to the invariant. *)
Lemma Inv_of_erased D L s s' :
  erased (sort_desc D) (bump_counters L s) s' ->
  4 <= L <= 6 ->
  2 * length (edges s) + length (openfaces s) = 3 * numverts s ->
  numverts s + length (faces s) =
    length (edges s) + length (openfaces s) + length D
    + (if length (openfaces s) =? 0 then 2 else 1) ->
  (forall k, (cl k (faces s) (openfaces s) - dead_cnt k (faces s) D
              = announced k s + ind L k)%Z) ->
  Inv s' /\ medgadd s' = medgadd s /\ chosenFace s' = chosenFace s.
Proof.
  intros (E1 & E2 & E3 & E4 & E5 & E6 & E7 & E8 & E9 & E10 & E11 & E12)
         HL Hdeg Heu Hcl.
  simpl_state.
  pose proof (Permutation_length (sort_desc_perm D)) as HlenD.
  split; [|auto]. constructor; auto.
  - rewrite E5, E9, E1. exact Hdeg.
  - rewrite E5, E9, E1. lia.
  - intros k. rewrite E12.
    unfold dead_cnt.
    rewrite (cnt_perm k _ _ (Permutation_map (flen (faces s)) (sort_desc_perm D))).
    fold (dead_cnt k (faces s) D).
    transitivity (announced k (bump_counters L s)).
    + rewrite announced_bump by assumption. specialize (Hcl k). lia.
    + unfold announced, bump_counters. cbn. now rewrite E2, E3, E4.
Qed.

(** ** Positions in the cyclic open-boundary sequence *)

Lemma mod_eq a n r q : a = q * n + r -> r < n -> a mod n = r.
Proof.
  intros -> Hr. rewrite Nat.add_comm, Nat.Div0.mod_add.
  now apply Nat.mod_small.
Qed.

Lemma mod_neq x y n q r :
  y = x + q * n + r -> 0 < r < n -> x mod n <> y mod n.
Proof.
  intros -> Hr E.
  replace (x + q * n + r) with (x + r + q * n) in E by lia.
  rewrite Nat.Div0.mod_add in E.
  rewrite <- Nat.Div0.add_mod_idemp_l in E.
  assert (Hm : x mod n < n) by (apply Nat.mod_upper_bound; lia).
  destruct (Nat.lt_ge_cases (x mod n + r) n) as [Hlt|Hge].
  - rewrite (Nat.mod_small _ _ Hlt) in E. lia.
  - rewrite (mod_eq (x mod n + r) n (x mod n + r - n) 1) in E by lia. lia.
Qed.

Lemma nth_neq (l : list nat) p q :
  NoDup l -> p < length l -> q < length l -> p <> q ->
  nth p l 0 <> nth q l 0.
Proof.
  intros Hnd Hp Hq Hpq E. apply Hpq.
  now apply (proj1 (NoDup_nth l 0) Hnd).
Qed.

(** A window of [k] consecutive positions from [a]. *)
Lemma window_nth (l : list nat) : forall k a,
  a + k <= length l ->
  firstn k (skipn a l) = map (fun i => nth i l 0) (seq a k).
Proof.
  induction k as [|k IH]; intros a H; [reflexivity|].
  rewrite (skipn_nth 0) by lia. cbn [firstn seq map].
  f_equal. apply IH. lia.
Qed.

Lemma perm_window (l : list nat) a k :
  a + k <= length l ->
  Permutation l (map (fun i => nth i l 0) (seq a k)
                 ++ (firstn a l ++ skipn (a + k) l)).
Proof.
  intros H. rewrite <- window_nth by assumption.
  rewrite <- (firstn_skipn a l) at 1.
  rewrite <- (firstn_skipn k (skipn a l)) at 1.
  rewrite skipn_skipn, (Nat.add_comm k a).
  apply Permutation_app_swap_app.
Qed.

Lemma window_low (l x : list nat) a j :
  j <= a -> a <= length l ->
  firstn j (firstn a l ++ x) = firstn j l.
Proof.
  intros Hj Ha.
  rewrite firstn_app, length_firstn.
  replace (j - Nat.min a (length l)) with 0 by lia.
  cbn [firstn]. rewrite app_nil_r, firstn_firstn.
  f_equal. lia.
Qed.

(** A window that wraps: the positions from [a] to the end, then the
    first [j] positions.  The upper part is erased first. *)
Lemma perm_window_wrap (l : list nat) a j :
  j <= a -> a <= length l ->
  Permutation l (map (fun i => nth i l 0) (seq a (length l - a))
                 ++ map (fun i => nth i l 0) (seq 0 j)
                 ++ skipn j (firstn a l)).
Proof.
  intros Hj Ha.
  rewrite (perm_window l a (length l - a)) at 1 by lia.
  apply Permutation_app_head.
  replace (a + (length l - a)) with (length l) by lia.
  rewrite skipn_all, app_nil_r.
  rewrite <- (firstn_skipn j (firstn a l)) at 1.
  rewrite firstn_firstn. replace (Nat.min j a) with j by lia.
  rewrite <- (window_nth l j 0) by lia. reflexivity.
Qed.

Lemma erase_wrap (l : list nat) a j :
  j <= a -> a <= length l ->
  firstn 0 (firstn a l ++ skipn (length l) l)
  ++ skipn j (firstn a l ++ skipn (length l) l)
  = skipn j (firstn a l).
Proof.
  intros Hj Ha. rewrite skipn_all, app_nil_r. reflexivity.
Qed.

(** ** The erasures of consumed entries *)

Ltac len_simpl :=
  repeat first [ rewrite length_app | rewrite length_firstn
               | rewrite length_skipn | rewrite length_update
               | rewrite length_map ].

Ltac succ_norm oF :=
  replace (oF + 1) with (S oF) in * by lia;
  replace (oF + 2) with (S (S oF)) in * by lia;
  replace (oF + 3) with (S (S (S oF))) in * by lia.

Ltac erase_step :=
  first [ apply wp_bind; apply wp_openfaces_erase; [simpl_state; len_simpl; lia|]
        | apply wp_bind; apply wp_openfaces_erase1; [simpl_state; len_simpl; lia|]
        | apply wp_openfaces_erase; [simpl_state; len_simpl; lia|]
        | apply wp_openfaces_erase1; [simpl_state; len_simpl; lia|] ];
  simpl_state.

Lemma wp_erase_oF_to_nnnoF tu oF (Q : unit -> GraphState -> Prop) s :
  oF < length (openfaces s) -> 4 <= length (openfaces s) ->
  (forall ofs',
     Permutation (openfaces s)
       (nth oF (openfaces s) 0
        :: nth ((oF + 1) mod length (openfaces s)) (openfaces s) 0
        :: nth ((oF + 2) mod length (openfaces s)) (openfaces s) 0
        :: nth ((oF + 3) mod length (openfaces s)) (openfaces s) 0
        :: ofs') ->
     Q tt (set_openfaces ofs' s)) ->
  wp tu (erase_oF_to_nnnoF oF ((oF + 1) mod length (openfaces s))
           ((oF + 2) mod length (openfaces s))
           ((oF + 3) mod length (openfaces s))) Q s.
Proof.
  destruct s as [nv sq pt hx es fs l md cf]. simpl_state.
  set (n := length l). intros HoF Hn. unfold erase_oF_to_nnnoF.
  destruct (Nat.lt_ge_cases (oF + 3) n) as [H3|H3];
    [|destruct (Nat.lt_ge_cases (oF + 2) n) as [H2|H2];
      [|destruct (Nat.lt_ge_cases (oF + 1) n) as [H1|H1]]].
  - rewrite (mod_eq (oF + 1) n (oF + 1) 0), (mod_eq (oF + 2) n (oF + 2) 0),
      (mod_eq (oF + 3) n (oF + 3) 0) by lia.
    intros HQ.
    destruct (Nat.ltb_spec oF (oF + 3)); [|lia].
    erase_step. apply HQ.
    rewrite (perm_window l oF 4) at 1 by (fold n; lia).
    succ_norm oF. reflexivity.
  - rewrite (mod_eq (oF + 1) n (oF + 1) 0), (mod_eq (oF + 2) n (oF + 2) 0),
      (mod_eq (oF + 3) n 0 1) by lia.
    intros HQ.
    destruct (Nat.ltb_spec oF 0); [lia|].
    destruct (Nat.ltb_spec oF (oF + 2)); [|lia].
    erase_step. erase_step. apply HQ.
    replace (oF + 3) with (length l) by (fold n; lia).
    rewrite erase_wrap by (fold n; lia).
    rewrite (perm_window_wrap l oF 1) at 1 by (fold n; lia).
    replace (length l - oF) with 3 by (fold n; lia).
    succ_norm oF. reflexivity.
  - rewrite (mod_eq (oF + 1) n (oF + 1) 0), (mod_eq (oF + 2) n 0 1),
      (mod_eq (oF + 3) n 1 1) by lia.
    intros HQ.
    destruct (Nat.ltb_spec oF 1); [lia|].
    destruct (Nat.ltb_spec oF 0); [lia|].
    destruct (Nat.ltb_spec oF (oF + 1)); [|lia].
    erase_step. erase_step. apply HQ.
    replace (oF + 2) with (length l) by (fold n; lia).
    rewrite erase_wrap by (fold n; lia).
    rewrite (perm_window_wrap l oF 2) at 1 by (fold n; lia).
    replace (length l - oF) with 2 by (fold n; lia).
    succ_norm oF. reflexivity.
  - rewrite (mod_eq (oF + 1) n 0 1), (mod_eq (oF + 2) n 1 1),
      (mod_eq (oF + 3) n 2 1) by lia.
    intros HQ.
    destruct (Nat.ltb_spec oF 2); [lia|].
    destruct (Nat.ltb_spec oF 1); [lia|].
    destruct (Nat.ltb_spec oF 0); [lia|].
    erase_step. erase_step. apply HQ.
    replace (S oF) with (length l) by (fold n; lia).
    rewrite erase_wrap by (fold n; lia).
    rewrite (perm_window_wrap l oF 3) at 1 by (fold n; lia).
    replace (length l - oF) with 1 by (fold n; lia).
    succ_norm oF. reflexivity.
Qed.

Lemma wp_erase_oF_noF tu oF (Q : unit -> GraphState -> Prop) s :
  oF < length (openfaces s) -> 2 <= length (openfaces s) ->
  (forall ofs',
     Permutation (openfaces s)
       (nth oF (openfaces s) 0
        :: nth ((oF + 1) mod length (openfaces s)) (openfaces s) 0
        :: ofs') ->
     Q tt (set_openfaces ofs' s)) ->
  wp tu (erase_oF_noF oF ((oF + 1) mod length (openfaces s))) Q s.
Proof.
  destruct s as [nv sq pt hx es fs l md cf]. simpl_state.
  set (n := length l). intros HoF Hn. unfold erase_oF_noF.
  destruct (Nat.lt_ge_cases (oF + 1) n) as [H1|H1].
  - rewrite (mod_eq (oF + 1) n (oF + 1) 0) by lia.
    intros HQ.
    destruct (Nat.ltb_spec oF (oF + 1)); [|lia].
    erase_step. apply HQ.
    rewrite (perm_window l oF 2) at 1 by (fold n; lia).
    succ_norm oF. reflexivity.
  - rewrite (mod_eq (oF + 1) n 0 1) by lia.
    intros HQ.
    destruct (Nat.ltb_spec oF 0); [lia|].
    erase_step. erase_step. apply HQ.
    replace (S oF) with (length l) by (fold n; lia).
    rewrite erase_wrap by (fold n; lia).
    rewrite (perm_window_wrap l oF 1) at 1 by (fold n; lia).
    replace (length l - oF) with 1 by (fold n; lia).
    succ_norm oF. reflexivity.
Qed.

Lemma wp_erase_oF_to_nnoF tu oF (Q : unit -> GraphState -> Prop) s :
  oF < length (openfaces s) -> 3 <= length (openfaces s) ->
  (forall ofs',
     Permutation (openfaces s)
       (nth oF (openfaces s) 0
        :: nth ((oF + 1) mod length (openfaces s)) (openfaces s) 0
        :: nth ((oF + 2) mod length (openfaces s)) (openfaces s) 0
        :: ofs') ->
     Q tt (set_openfaces ofs' s)) ->
  wp tu (erase_oF_to_nnoF oF ((oF + 1) mod length (openfaces s))
           ((oF + 2) mod length (openfaces s))) Q s.
Proof.
  destruct s as [nv sq pt hx es fs l md cf]. simpl_state.
  set (n := length l). intros HoF Hn. unfold erase_oF_to_nnoF.
  destruct (Nat.lt_ge_cases (oF + 2) n) as [H2|H2];
    [|destruct (Nat.lt_ge_cases (oF + 1) n) as [H1|H1]].
  - rewrite (mod_eq (oF + 1) n (oF + 1) 0), (mod_eq (oF + 2) n (oF + 2) 0) by lia.
    intros HQ.
    destruct (Nat.ltb_spec oF (oF + 2)); [|lia].
    erase_step. apply HQ.
    rewrite (perm_window l oF 3) at 1 by (fold n; lia).
    succ_norm oF. reflexivity.
  - rewrite (mod_eq (oF + 1) n (oF + 1) 0), (mod_eq (oF + 2) n 0 1) by lia.
    intros HQ.
    destruct (Nat.ltb_spec oF 0); [lia|].
    destruct (Nat.ltb_spec oF (oF + 1)); [|lia].
    erase_step. erase_step. apply HQ.
    replace (oF + 2) with (length l) by (fold n; lia).
    rewrite erase_wrap by (fold n; lia).
    rewrite (perm_window_wrap l oF 1) at 1 by (fold n; lia).
    replace (length l - oF) with 2 by (fold n; lia).
    succ_norm oF. reflexivity.
  - rewrite (mod_eq (oF + 1) n 0 1), (mod_eq (oF + 2) n 1 1) by lia.
    intros HQ.
    destruct (Nat.ltb_spec oF 1); [lia|].
    destruct (Nat.ltb_spec oF 0); [lia|].
    erase_step. erase_step. apply HQ.
    replace (S oF) with (length l) by (fold n; lia).
    rewrite erase_wrap by (fold n; lia).
    rewrite (perm_window_wrap l oF 2) at 1 by (fold n; lia).
    replace (length l - oF) with 1 by (fold n; lia).
    succ_norm oF. reflexivity.
Qed.

Lemma wp_erase_ppoF_to_noF tu oF (Q : unit -> GraphState -> Prop) s :
  oF < length (openfaces s) -> 4 <= length (openfaces s) ->
  (forall ofs',
     Permutation (openfaces s)
       (nth ((oF + length (openfaces s) - 2) mod length (openfaces s)) (openfaces s) 0
        :: nth ((oF + length (openfaces s) - 1) mod length (openfaces s)) (openfaces s) 0
        :: nth oF (openfaces s) 0
        :: nth ((oF + 1) mod length (openfaces s)) (openfaces s) 0
        :: ofs') ->
     Q tt (set_openfaces ofs' s)) ->
  wp tu (erase_ppoF_to_noF
           ((oF + length (openfaces s) - 2) mod length (openfaces s))
           ((oF + length (openfaces s) - 1) mod length (openfaces s))
           oF ((oF + 1) mod length (openfaces s))) Q s.
Proof.
  destruct s as [nv sq pt hx es fs l md cf]. simpl_state.
  set (n := length l). intros HoF Hn. unfold erase_ppoF_to_noF.
  destruct (Nat.eq_dec oF 0) as [->|H0];
    [|destruct (Nat.eq_dec oF 1) as [->|H1];
      [|destruct (Nat.lt_ge_cases (oF + 1) n) as [Hn1|Hn1]]].
  - rewrite (mod_eq (0 + n - 2) n (n - 2) 0), (mod_eq (0 + n - 1) n (n - 1) 0),
      (mod_eq (0 + 1) n 1 0) by lia.
    intros HQ.
    destruct (Nat.ltb_spec (n - 2) 1); [lia|].
    destruct (Nat.ltb_spec (n - 1) 1); [lia|].
    destruct (Nat.ltb_spec 0 1); [|lia].
    erase_step. erase_step. apply HQ.
    replace (n - 1 + 1) with (length l) by (fold n; lia).
    rewrite erase_wrap by (fold n; lia).
    rewrite (perm_window_wrap l (n - 2) 2) at 1 by (fold n; lia).
    replace (length l - (n - 2)) with 2 by (fold n; lia).
    cbn [seq map app]. replace (S (n - 2)) with (n - 1) by lia. reflexivity.
  - rewrite (mod_eq (1 + n - 2) n (n - 1) 0), (mod_eq (1 + n - 1) n 0 1),
      (mod_eq (1 + 1) n 2 0) by lia.
    intros HQ.
    destruct (Nat.ltb_spec (n - 1) 2); [lia|].
    destruct (Nat.ltb_spec 0 2); [|lia].
    erase_step. erase_step. apply HQ.
    replace (S (n - 1)) with (length l) by (fold n; lia).
    rewrite erase_wrap by (fold n; lia).
    rewrite (perm_window_wrap l (n - 1) 3) at 1 by (fold n; lia).
    replace (length l - (n - 1)) with 1 by (fold n; lia).
    reflexivity.
  - rewrite (mod_eq (oF + n - 2) n (oF - 2) 1), (mod_eq (oF + n - 1) n (oF - 1) 1),
      (mod_eq (oF + 1) n (oF + 1) 0) by lia.
    intros HQ.
    destruct (Nat.ltb_spec (oF - 2) (oF + 1)); [|lia].
    erase_step. apply HQ.
    replace (oF + 1 + 1) with (oF - 2 + 4) by lia.
    rewrite (perm_window l (oF - 2) 4) at 1 by (fold n; lia).
    cbn [seq map app].
    replace (S (oF - 2)) with (oF - 1) by lia.
    replace (S (oF - 1)) with oF by lia.
    replace (oF + 1) with (S oF) by lia. reflexivity.
  - rewrite (mod_eq (oF + n - 2) n (oF - 2) 1), (mod_eq (oF + n - 1) n (oF - 1) 1),
      (mod_eq (oF + 1) n 0 1) by lia.
    intros HQ.
    destruct (Nat.ltb_spec (oF - 2) 0); [lia|].
    destruct (Nat.ltb_spec (oF - 1) 0); [lia|].
    destruct (Nat.ltb_spec oF 0); [lia|].
    erase_step. erase_step. apply HQ.
    replace (oF + 1) with (length l) by (fold n; lia).
    rewrite erase_wrap by (fold n; lia).
    rewrite (perm_window_wrap l (oF - 2) 1) at 1 by (fold n; lia).
    replace (length l - (oF - 2)) with 3 by (fold n; lia).
    cbn [seq map app].
    replace (S (oF - 2)) with (oF - 1) by lia.
    replace (S (oF - 1)) with oF by lia. reflexivity.
Qed.

Lemma wp_erase_ppoF_to_oF tu oF (Q : unit -> GraphState -> Prop) s :
  oF < length (openfaces s) -> 3 <= length (openfaces s) ->
  (forall ofs',
     Permutation (openfaces s)
       (nth ((oF + length (openfaces s) - 2) mod length (openfaces s)) (openfaces s) 0
        :: nth ((oF + length (openfaces s) - 1) mod length (openfaces s)) (openfaces s) 0
        :: nth oF (openfaces s) 0
        :: ofs') ->
     Q tt (set_openfaces ofs' s)) ->
  wp tu (erase_ppoF_to_oF
           ((oF + length (openfaces s) - 2) mod length (openfaces s))
           ((oF + length (openfaces s) - 1) mod length (openfaces s))
           oF) Q s.
Proof.
  destruct s as [nv sq pt hx es fs l md cf]. simpl_state.
  set (n := length l). intros HoF Hn. unfold erase_ppoF_to_oF.
  destruct (Nat.eq_dec oF 0) as [->|H0];
    [|destruct (Nat.eq_dec oF 1) as [->|H1]].
  - rewrite (mod_eq (0 + n - 2) n (n - 2) 0), (mod_eq (0 + n - 1) n (n - 1) 0) by lia.
    intros HQ.
    destruct (Nat.ltb_spec (n - 2) 0); [lia|].
    destruct (Nat.ltb_spec (n - 1) 0); [lia|].
    erase_step. erase_step. apply HQ.
    replace (n - 1 + 1) with (length l) by (fold n; lia).
    rewrite erase_wrap by (fold n; lia).
    rewrite (perm_window_wrap l (n - 2) 1) at 1 by (fold n; lia).
    replace (length l - (n - 2)) with 2 by (fold n; lia).
    cbn [seq map app]. replace (S (n - 2)) with (n - 1) by lia. reflexivity.
  - rewrite (mod_eq (1 + n - 2) n (n - 1) 0), (mod_eq (1 + n - 1) n 0 1) by lia.
    intros HQ.
    destruct (Nat.ltb_spec (n - 1) 1); [lia|].
    destruct (Nat.ltb_spec 0 1); [|lia].
    erase_step. erase_step. apply HQ.
    replace (S (n - 1)) with (length l) by (fold n; lia).
    rewrite erase_wrap by (fold n; lia).
    rewrite (perm_window_wrap l (n - 1) 2) at 1 by (fold n; lia).
    replace (length l - (n - 1)) with 1 by (fold n; lia).
    reflexivity.
  - rewrite (mod_eq (oF + n - 2) n (oF - 2) 1), (mod_eq (oF + n - 1) n (oF - 1) 1) by lia.
    intros HQ.
    destruct (Nat.ltb_spec (oF - 2) oF); [|lia].
    erase_step. apply HQ.
    replace (oF + 1) with (oF - 2 + 3) by lia.
    rewrite (perm_window l (oF - 2) 3) at 1 by (fold n; lia).
    cbn [seq map app].
    replace (S (oF - 2)) with (oF - 1) by lia.
    replace (S (oF - 1)) with oF by lia. reflexivity.
Qed.

(** ** Faces under the edits of [addEdges] *)

Lemma good_faces_update fs nE i f :
  good_faces fs nE ->
  (forall g, g <> [] -> Forall (fun e => e < nE) g ->
             f g <> [] /\ Forall (fun e => e < nE) (f g)) ->
  good_faces (Vec.update fs i f) nE.
Proof.
  unfold good_faces. intros H Hf. revert i.
  induction H as [|g fs [Hg He] H IH]; intros [|i]; cbn; constructor; auto.
Qed.

Lemma good_faces_push_back fs nE i x :
  x < nE -> good_faces fs nE ->
  good_faces (Vec.update fs i (fun f => f ++ [x])) nE.
Proof.
  intros Hx H. apply good_faces_update; [assumption|].
  intros g Hg He. split.
  - destruct g; discriminate.
  - apply Forall_app. split; [assumption | now constructor].
Qed.

Lemma good_faces_push_front fs nE i x :
  x < nE -> good_faces fs nE ->
  good_faces (Vec.update fs i (fun f => x :: f)) nE.
Proof.
  intros Hx H. apply good_faces_update; [assumption|].
  intros g Hg He. split; [discriminate | now constructor].
Qed.

Lemma good_faces_append fs fs' nE i j :
  good_faces fs' nE -> good_faces fs nE ->
  good_faces (Vec.update fs i (fun f => f ++ nth j fs' [])) nE.
Proof.
  intros H' H. apply good_faces_update; [assumption|].
  intros g Hg He. split.
  - destruct g; [contradiction | discriminate].
  - apply Forall_app. split; [assumption|].
    destruct (Nat.lt_ge_cases j (length fs')) as [Hj|Hj].
    + now apply good_faces_nth.
    + rewrite nth_overflow by assumption. constructor.
Qed.

Lemma good_faces_snoc fs nE x :
  x < nE -> good_faces fs nE -> good_faces (fs ++ [[x]]) nE.
Proof.
  intros Hx H. unfold good_faces. apply Forall_app. split; [assumption|].
  constructor; [|constructor]. split; [discriminate | now constructor].
Qed.

Lemma flen_push_back fs i x :
  i < length fs -> flen (Vec.update fs i (fun f => f ++ [x])) i = S (flen fs i).
Proof.
  intros H. rewrite flen_update_eq by assumption.
  rewrite length_app. unfold flen. cbn. lia.
Qed.

Lemma flen_push_front fs i x :
  i < length fs -> flen (Vec.update fs i (fun f => x :: f)) i = S (flen fs i).
Proof. intros H. now rewrite flen_update_eq by assumption. Qed.

Lemma flen_append fs i g :
  i < length fs ->
  flen (Vec.update fs i (fun f => f ++ g)) i = flen fs i + length g.
Proof.
  intros H. rewrite flen_update_eq by assumption. now rewrite length_app.
Qed.

(** The closed faces when entries [X] have left the open-boundary
    sequence and entries [Y] have joined it. *)
Lemma cl_moved k fs ofs ofs' X Y :
  Permutation (Y ++ ofs) (X ++ ofs') ->
  cl k fs ofs' = (cl k fs ofs + cnt k (map (flen fs) X) - cnt k (map (flen fs) Y))%Z.
Proof.
  intros H. unfold cl.
  pose proof (cnt_perm k _ _ (Permutation_map (flen fs) H)) as E.
  rewrite !map_app, !cnt_app in E. lia.
Qed.

Lemma perm_NoDup_tail (X ofs ofs' : list nat) :
  Permutation ofs (X ++ ofs') -> NoDup ofs -> NoDup (X ++ ofs').
Proof. intros H Hnd. now apply (Permutation_NoDup H). Qed.

Lemma perm_range (X ofs ofs' : list nat) (P : nat -> Prop) :
  Permutation ofs (X ++ ofs') -> Forall P ofs -> Forall P ofs'.
Proof.
  intros H Hr. rewrite Forall_forall in *. intros x Hx. apply Hr.
  apply (Permutation_in _ (Permutation_sym H)). apply in_or_app. now right.
Qed.

Lemma Forall_lt_mono (l : list nat) a b :
  a <= b -> Forall (fun o => o < a) l -> Forall (fun o => o < b) l.
Proof.
  intros Hab H. eapply Forall_impl; [|exact H]. cbn. intros; lia.
Qed.

Lemma wp_incr_numverts tu (Q : nat -> GraphState -> Prop) s :
  Q (S (numverts s)) (set_numverts (S (numverts s)) s) ->
  wp tu incr_numverts Q s.
Proof. unfold wp, incr_numverts. cbn. auto. Qed.

Lemma wp_edges_emplace_back tu a b (Q : unit -> GraphState -> Prop) s :
  Q tt (set_edges (edges s ++ [mkEdge a b]) s) ->
  wp tu (edges_emplace_back a b) Q s.
Proof. exact (wp_modify tu _ Q s). Qed.

Lemma wp_faces_emplace_back tu x (Q : unit -> GraphState -> Prop) s :
  Q tt (set_faces (faces s ++ [[x]]) s) ->
  wp tu (faces_emplace_back x) Q s.
Proof. exact (wp_modify tu _ Q s). Qed.

Lemma wp_edges_size tu (Q : nat -> GraphState -> Prop) s :
  Q (length (edges s)) s -> wp tu edges_size Q s.
Proof. exact (wp_gets tu (fun s => length (edges s)) Q s). Qed.

Lemma wp_faces_size tu (Q : nat -> GraphState -> Prop) s :
  Q (length (faces s)) s -> wp tu faces_size Q s.
Proof. exact (wp_gets tu (fun s => length (faces s)) Q s). Qed.

Lemma wp_faces_push_back tu i x (Q : unit -> GraphState -> Prop) s :
  i < length (faces s) ->
  Q tt (set_faces (Vec.update (faces s) i (fun f => f ++ [x])) s) ->
  wp tu (faces_push_back i x) Q s.
Proof. exact (wp_faces_modify tu i _ Q s). Qed.

Lemma wp_faces_push_front tu i x (Q : unit -> GraphState -> Prop) s :
  i < length (faces s) ->
  Q tt (set_faces (Vec.update (faces s) i (fun f => x :: f)) s) ->
  wp tu (faces_push_front i x) Q s.
Proof. exact (wp_faces_modify tu i _ Q s). Qed.

Lemma length_snoc_pred {A} (l : list A) x : length (l ++ [x]) - 1 = length l.
Proof. rewrite length_app. cbn. lia. Qed.

Lemma flen_snoc_at fs g j :
  j = length fs -> flen (fs ++ [g]) j = length g.
Proof. intros ->. apply flen_snoc_new. Qed.

(** ** The ten moves *)

(** From here on a setter is unfolded when its state is explicit. *)
Arguments set_numverts x !s /.
Arguments set_nsq x !s /.
Arguments set_npent x !s /.
Arguments set_nhex x !s /.
Arguments set_edges x !s /.
Arguments set_faces x !s /.
Arguments set_openfaces x !s /.
Arguments set_medgadd x !s /.
Arguments set_chosenFace x !s /.


Ltac len_all :=
  repeat first
    [ rewrite length_app in * | rewrite length_firstn in *
    | rewrite length_skipn in * | rewrite length_update in *
    | rewrite length_map in * | progress cbn [length] in * ].

Ltac side := simpl_state; len_all; lia.

Ltac edge_lt := simpl_state; len_all; lia.

Ltac solve_good H :=
  simpl_state;
  repeat first
    [ apply good_faces_push_back; [edge_lt|]
    | apply good_faces_push_front; [edge_lt|]
    | apply good_faces_append
    | apply good_faces_snoc; [edge_lt|] ];
  (eapply good_faces_mono; [|exact H]; len_all; lia).

Ltac flen_simpl :=
  repeat first
    [ rewrite flen_push_back by side
    | rewrite flen_push_front by side
    | rewrite flen_append by side
    | rewrite flen_update_ne by lia
    | rewrite flen_snoc_at by side
    | rewrite flen_snoc by side
    | match goal with
      | |- context [length (nth ?j ?l [])] => fold (flen l j)
      end ].

(** A step that is a [countFace] of a face of length [L]. *)
Ltac wcount i L :=
  apply wp_bind; apply (wp_countFace _ i L);
  [side | simpl_state; flen_simpl; lia | lia |];
  simpl_state.

(** A step that is one of the erase blocks, by its lemma [lem]. *)
Ltac werase lem oF ofs1 HP :=
  apply wp_bind;
  match goal with |- wp ?tu _ _ ?s => apply (lem tu oF _ s) end;
  [side | side | intros ofs1 HP]; simpl_state.

Ltac sound_reads H :=
  repeat first
    [ apply sound_ret; exact I
    | apply sound_face_startpt; [solve_good H | side]
    | apply sound_face_endpt; [solve_good H | side]
    | apply sound_face; [side | exact I]
    | eapply sound_bind with (P := fun _ => True); [|intros ? _] ].

Ltac wstep_head H :=
  lazymatch goal with
  | |- wp _ (mret _) _ _ => apply wp_ret
  | |- wp _ (edges_emplace_back _ _) _ _ => apply wp_edges_emplace_back
  | |- wp _ (faces_emplace_back _) _ _ => apply wp_faces_emplace_back
  | |- wp _ edges_size _ _ => apply wp_edges_size
  | |- wp _ faces_size _ _ => apply wp_faces_size
  | |- wp _ incr_numverts _ _ => apply wp_incr_numverts
  | |- wp _ (faces_push_back _ _) _ _ => apply wp_faces_push_back; [side|]
  | |- wp _ (faces_push_front _ _) _ _ => apply wp_faces_push_front; [side|]
  | |- wp _ (faces_append _ _) _ _ =>
      apply wp_faces_append; [lia | side | side |]
  | |- wp _ (openfaces_assign _ _) _ _ => apply wp_openfaces_assign; [side|]
  | |- wp _ (openfaces_insert _ _) _ _ => apply wp_openfaces_insert; [side|]
  | |- wp _ (openfaces_erase1 _) _ _ => apply wp_openfaces_erase1; [side|]
  | |- wp _ (startpt_of _ _) _ _ =>
      apply wp_startpt_of; [solve_good H | side | intros ?]
  | |- wp _ (endpt_of _ _) _ _ =>
      apply wp_endpt_of; [solve_good H | side | intros ?]
  | |- wp _ (front_of _) _ _ =>
      apply wp_front_of; [solve_good H | side | intros ? ?]
  | |- wp _ (assert_that _ _) _ _ =>
      apply wp_assert_that; [unfold face_size_is; sound_reads H|]
  end.

Ltac wstep H :=
  lazymatch goal with
  | |- wp _ (mbind _ _) _ _ => apply wp_bind; wstep_head H
  | |- _ => wstep_head H
  end;
  simpl_state; rewrite ?length_snoc_pred, ?length_update.

Lemma new_notin (l : list nat) m y :
  Forall (fun o => o < m) l -> m <= y -> ~ In y l.
Proof.
  intros H Hy Hin. rewrite Forall_forall in H. apply H in Hin. lia.
Qed.

Lemma nodup_app_notin (X l : list nat) d :
  NoDup (X ++ l) -> In d X -> ~ In d l.
Proof.
  induction X as [|x X IH]; cbn [app In]; intros H Hd Hl; [easy|].
  inversion H as [|? ? Hx HX]; subst. destruct Hd as [->|Hd].
  - apply Hx, in_or_app. now right.
  - exact (IH HX Hd Hl).
Qed.

Lemma perm_range_app (X Y ofs ofs' : list nat) (P : nat -> Prop) :
  Permutation (Y ++ ofs) (X ++ ofs') -> Forall P (Y ++ ofs) -> Forall P ofs'.
Proof.
  intros H Hr. rewrite Forall_forall in *. intros x Hx. apply Hr.
  apply (Permutation_in _ (Permutation_sym H)). apply in_or_app. now right.
Qed.

Lemma announced_bump_rec k L nv sq pt hx es fs ofs md cf :
  4 <= L <= 6 ->
  announced k (mkGraphState nv (sq + (if L =? 4 then 1 else 0))
                 (pt + (if L =? 5 then 1 else 0))
                 (hx + (if L =? 6 then 1 else 0)) es fs ofs md cf)
  = (announced k (mkGraphState nv sq pt hx es fs ofs md cf) + ind L k)%Z.
Proof. intros HL. exact (announced_bump k L (mkGraphState _ _ _ _ _ _ _ _ _) HL). Qed.

Lemma update_app_r {A} (l1 l2 : list A) j f :
  Vec.update (l1 ++ l2) (length l1 + j) f = l1 ++ Vec.update l2 j f.
Proof. induction l1 as [|x l1 IH]; cbn; [reflexivity | now rewrite IH]. Qed.

Lemma update_split {A} (d : A) (l : list A) e f :
  e < length l ->
  Vec.update l e f = firstn e l ++ f (nth e l d) :: skipn (S e) l.
Proof.
  revert e; induction l as [|x l IH]; intros [|e] H; cbn in *; try lia; auto.
  now rewrite IH by lia.
Qed.

(** [openfaces[e] = y] *)
Lemma assign_perm (l : list nat) e y :
  e < length l ->
  Permutation (y :: l) (nth e l 0 :: Vec.update l e (fun _ => y)).
Proof.
  intros H. rewrite (update_split 0) by assumption.
  rewrite <- (firstn_skipn e l) at 1. rewrite (skipn_nth 0) by assumption.
  rewrite <- !Permutation_middle. apply perm_swap.
Qed.

(** [openfaces.insert(begin + e, a)] and then [openfaces[e + 1] = b] *)
Lemma insert_assign_perm (l : list nat) e a b :
  e < length l ->
  Permutation (a :: b :: l)
    (nth e l 0
     :: Vec.update (firstn e l ++ a :: skipn e l) (e + 1) (fun _ => b)).
Proof.
  intros H.
  assert (E : e + 1 = length (firstn e l) + 1) by (rewrite length_firstn; lia).
  rewrite E, update_app_r, (skipn_nth 0) by assumption. cbn [Vec.update].
  rewrite <- (firstn_skipn e l) at 1. rewrite (skipn_nth 0) by assumption.
  set (x := nth e l 0). set (F := firstn e l). set (R := skipn (S e) l).
  transitivity (a :: b :: x :: F ++ R).
  - do 2 apply perm_skip. symmetry. apply Permutation_middle.
  - transitivity (x :: a :: b :: F ++ R).
    + symmetry. apply (Permutation_middle [a; b]).
    + apply perm_skip.
      change (Permutation ([a; b] ++ F ++ R) (F ++ [a; b] ++ R)).
      rewrite !app_assoc. apply Permutation_app_tail, Permutation_app_comm.
Qed.

Ltac cl_peel Hnd Hrange :=
  repeat first
    [ rewrite cl_update_open by first [exact Hnd | assumption | side]
    | rewrite cl_snoc
        by (eapply Forall_lt_mono; [|exact Hrange]; len_all; lia) ].

(** [Y ++ ofs] has no repetition: the entries of [Y] are new slots. *)
Ltac nodup_new Hnd Hrange :=
  cbn [app];
  repeat (constructor;
          [ cbn [In];
            repeat (let H := fresh in
                    intros H; destruct H as [H|H]; [side | revert H]);
            apply (new_notin _ _ _ Hrange); side
          | ]);
  exact Hnd.

(** The state reached at the end of a case of the [switch] satisfies
    [Mid].  [HP] relates the final open-boundary sequence to the initial
    one: the entries [X] have left it and the entries [Y] have joined. *)
Ltac mid_finish Hgood Hnd Hrange Hcl HP Y X :=
  unfold Mid; simpl_state;
  let HPY := fresh "HPY" in
  let HND := fresh "HND" in
  let HLEN := fresh "HLEN" in
  assert (HPY : Permutation (Y ++ _) (X ++ _)) by exact HP;
  pose proof (Permutation_length HPY) as HLEN;
  assert (HND : NoDup (X ++ _))
    by (apply (Permutation_NoDup HPY); nodup_new Hnd Hrange);
  repeat split;
  [ exact (NoDup_app_remove_l _ _ HND)
  | apply (perm_range_app X Y _ _ _ HPY); apply Forall_app; split;
    [ repeat (constructor; [side|]); constructor
    | eapply Forall_lt_mono; [|exact Hrange]; side ]
  | solve_good Hgood
  | side
  | flen_simpl; lia
  | flen_simpl; lia
  | repeat (constructor; [cbn [In]; intuition lia|]); constructor
  | repeat (constructor; [side|]); constructor
  | repeat (constructor;
            [apply (nodup_app_notin X); [exact HND | cbn [In]; tauto]|]);
    constructor
  | side
  | match goal with |- context [?a =? 0] => destruct (Nat.eqb_spec a 0) end; side
  | intros k; rewrite (cl_moved k _ _ _ X Y HPY); unfold dead_cnt;
    cbn [map cnt app]; cl_peel Hnd Hrange; rewrite (Hcl k); flen_simpl;
    repeat match goal with x := _ : GraphState |- _ => subst x end;
    rewrite ?announced_bump by lia; rewrite ?announced_bump_rec by lia;
    unfold announced, dead_cnt; simpl_state; cbn [map cnt]; try lia ].

Section Moves.

Variable tu : variant.
Variables nv sq pt hx : nat.
Variable es : list edge.
Variable fs : list (list nat).
Variable ofs : list nat.
Variables md cf : nat.

Let s0 : GraphState := mkGraphState nv sq pt hx es fs ofs md cf.

Hypothesis Hnd : NoDup ofs.
Hypothesis Hrange : Forall (fun o => o < length fs) ofs.
Hypothesis Hgood : good_faces fs (length es).
Hypothesis Hdeg : 2 * length es + length ofs = 3 * nv.
Hypothesis Heul : nv + length fs = length es + length ofs + 1.
Hypothesis Hcl : forall k, cl k fs ofs = announced k s0.

Variable oF : nat.
Hypothesis HoF : oF < length ofs.

Lemma open_pos p :
  p < length ofs -> In (nth p ofs 0) ofs /\ nth p ofs 0 < length fs.
Proof.
  intros Hp. assert (Hin : In (nth p ofs 0) ofs) by now apply nth_In.
  split; [assumption|]. rewrite Forall_forall in Hrange. now apply Hrange.
Qed.

Lemma open_mod a :
  In (nth (a mod length ofs) ofs 0) ofs /\
  nth (a mod length ofs) ofs 0 < length fs.
Proof. apply open_pos. apply Nat.mod_upper_bound. lia. Qed.

Lemma open_neq a r :
  0 < r < length ofs ->
  nth (a mod length ofs) ofs 0 <> nth ((a + r) mod length ofs) ofs 0.
Proof.
  intros Hr. apply nth_neq; auto; try (apply Nat.mod_upper_bound; lia).
  apply (mod_neq a (a + r) (length ofs) 0 r); lia.
Qed.

Lemma open_neq_at r :
  0 < r < length ofs ->
  nth oF ofs 0 <> nth ((oF + r) mod length ofs) ofs 0.
Proof.
  intros Hr. pose proof (open_neq oF r Hr) as H.
  now rewrite (Nat.mod_small oF) in H by assumption.
Qed.

Lemma open_neq_gen a b q r :
  b = a + q * length ofs + r -> 0 < r < length ofs ->
  nth (a mod length ofs) ofs 0 <> nth (b mod length ofs) ofs 0.
Proof.
  intros Hb Hr. apply nth_neq; auto; try (apply Nat.mod_upper_bound; lia).
  now apply (mod_neq a b (length ofs) q r).
Qed.

Lemma prev_neq :
  2 <= length ofs ->
  nth ((oF + length ofs - 1) mod length ofs) ofs 0 <> nth oF ofs 0.
Proof.
  intros Hn. destruct (open_pos oF HoF) as [HfI HfL].
  apply nth_neq; auto; [apply Nat.mod_upper_bound; lia|].
  destruct (Nat.eq_dec oF 0) as [->|].
  - rewrite (mod_eq (0 + length ofs - 1) _ (length ofs - 1) 0) by lia. lia.
  - rewrite (mod_eq (oF + length ofs - 1) _ (oF - 1) 1) by lia. lia.
Qed.

Lemma next_neq :
  2 <= length ofs -> nth ((oF + 1) mod length ofs) ofs 0 <> nth oF ofs 0.
Proof.
  intros Hn. destruct (open_pos oF HoF) as [HfI HfL].
  apply nth_neq; auto; [apply Nat.mod_upper_bound; lia|].
  destruct (Nat.eq_dec (oF + 1) (length ofs)) as [E|].
  - rewrite (mod_eq (oF + 1) _ 0 1) by lia. lia.
  - rewrite (mod_eq (oF + 1) _ (oF + 1) 0) by lia. lia.
Qed.

Lemma mid_2 startF endptF :
  2 <= length ofs ->
  4 <= flen fs (nth oF ofs 0) + 2 <= 6 ->
  wp tu (addEdges_2 oF (nth ((oF + length ofs - 1) mod length ofs) ofs 0)
           (nth oF ofs 0) (nth ((oF + 1) mod length ofs) ofs 0)
           startF endptF)
     (fun D s1 => Mid s0 (nth oF ofs 0) D s1) s0.
Proof.
  intros Hn HL.
  destruct (open_mod (oF + length ofs - 1)) as [HpI HpL].
  destruct (open_mod (oF + 1)) as [HnI HnL].
  destruct (open_pos oF HoF) as [HfI HfL].
  assert (Hpf : nth ((oF + length ofs - 1) mod length ofs) ofs 0 <> nth oF ofs 0).
  { apply nth_neq; auto; [apply Nat.mod_upper_bound; lia|].
    destruct (Nat.eq_dec oF 0) as [->|].
    - rewrite (mod_eq (0 + length ofs - 1) _ (length ofs - 1) 0) by lia. lia.
    - rewrite (mod_eq (oF + length ofs - 1) _ (oF - 1) 1) by lia. lia. }
  assert (Hnf : nth ((oF + 1) mod length ofs) ofs 0 <> nth oF ofs 0).
  { apply nth_neq; auto; [apply Nat.mod_upper_bound; lia|].
    destruct (Nat.eq_dec (oF + 1) (length ofs)) as [E|].
    - rewrite (mod_eq (oF + 1) _ 0 1) by lia. lia.
    - rewrite (mod_eq (oF + 1) _ (oF + 1) 0) by lia. lia. }
  set (pF := nth ((oF + length ofs - 1) mod length ofs) ofs 0) in *.
  set (nF := nth ((oF + 1) mod length ofs) ofs 0) in *.
  set (fF := nth oF ofs 0) in *.
  unfold addEdges_2, s0.
  do 11 wstep Hgood.
  pose proof (erase1_perm 0 ofs oF HoF) as HP. fold fF in HP.
  set (ofs1 := firstn oF ofs ++ skipn (S oF) ofs) in *. clearbody ofs1.
  mid_finish Hgood Hnd Hrange Hcl HP (@nil nat) [fF].
Qed.

Lemma mid_5 startF endptF :
  2 <= length ofs ->
  4 <= flen fs (nth oF ofs 0) + 3 <= 6 ->
  wp tu (addEdges_5 oF (nth ((oF + length ofs - 1) mod length ofs) ofs 0)
           (nth oF ofs 0) (nth ((oF + 1) mod length ofs) ofs 0)
           startF endptF)
     (fun D s1 => Mid s0 (nth oF ofs 0) D s1) s0.
Proof.
  intros Hn HL.
  destruct (open_mod (oF + length ofs - 1)) as [HpI HpL].
  destruct (open_mod (oF + 1)) as [HnI HnL].
  destruct (open_pos oF HoF) as [HfI HfL].
  pose proof (prev_neq Hn) as Hpf. pose proof (next_neq Hn) as Hnf.
  set (pF := nth ((oF + length ofs - 1) mod length ofs) ofs 0) in *.
  set (nF := nth ((oF + 1) mod length ofs) ofs 0) in *.
  set (fF := nth oF ofs 0) in *.
  unfold addEdges_5, s0.
  do 17 wstep Hgood.
  pose proof (assign_perm ofs oF (length fs) HoF) as HP. fold fF in HP.
  set (ofs1 := Vec.update ofs oF _) in *. clearbody ofs1.
  mid_finish Hgood Hnd Hrange Hcl HP [length fs] [fF].
Qed.

Lemma mid_1 startF endptF :
  2 <= length ofs ->
  4 <= flen fs (nth oF ofs 0) + 1 <= 6 ->
  (length ofs = 2 ->
   4 <= flen fs (nth ((oF + 1) mod length ofs) ofs 0) + 1 <= 6) ->
  wp tu (addEdges_1 tu (length ofs) oF ((oF + 1) mod length ofs)
           (nth ((oF + length ofs - 1) mod length ofs) ofs 0)
           (nth oF ofs 0) (nth ((oF + 1) mod length ofs) ofs 0)
           startF endptF)
     (fun D s1 => Mid s0 (nth oF ofs 0) D s1) s0.
Proof.
  intros Hn HL HL2.
  destruct (open_mod (oF + length ofs - 1)) as [HpI HpL].
  destruct (open_mod (oF + 1)) as [HnI HnL].
  destruct (open_pos oF HoF) as [HfI HfL].
  pose proof (prev_neq Hn) as Hpf. pose proof (next_neq Hn) as Hnf.
  unfold addEdges_1, s0.
  destruct (Nat.eqb_spec (length ofs) 2) as [E2|E2].
  - specialize (HL2 E2).
    replace (oF + length ofs - 1) with (oF + 1) in * by lia.
    set (nF := nth ((oF + 1) mod length ofs) ofs 0) in *.
    set (fF := nth oF ofs 0) in *.
    do 4 wstep Hgood.
    werase wp_erase_oF_noF oF ofs1 HP.
    wcount nF (S (flen fs nF)).
    wstep Hgood.
    mid_finish Hgood Hnd Hrange Hcl HP (@nil nat) [fF; nF].
  - assert (Hpn : nth ((oF + length ofs - 1) mod length ofs) ofs 0
                  <> nth ((oF + 1) mod length ofs) ofs 0).
    { apply nth_neq; auto; try (apply Nat.mod_upper_bound; lia).
      apply not_eq_sym.
      apply (mod_neq (oF + 1) (oF + length ofs - 1) (length ofs) 0
                     (length ofs - 2)); lia. }
    set (pF := nth ((oF + length ofs - 1) mod length ofs) ofs 0) in *.
    set (nF := nth ((oF + 1) mod length ofs) ofs 0) in *.
    set (fF := nth oF ofs 0) in *.
    do 4 wstep Hgood.
    werase wp_erase_oF_noF oF ofs1 HP.
    do 2 wstep Hgood.
    mid_finish Hgood Hnd Hrange Hcl HP (@nil nat) [fF; nF].
Qed.

Lemma mid_3_6 startF endptF :
  4 <= length ofs -> length ofs <> 5 ->
  4 <= flen fs (nth oF ofs 0)
       + flen fs (nth ((oF + 2) mod length ofs) ofs 0) + 2 <= 6 ->
  4 <= flen fs (nth ((oF + 1) mod length ofs) ofs 0) + 1 <= 6 ->
  (length ofs = 4 ->
   4 <= flen fs (nth ((oF + length ofs - 1) mod length ofs) ofs 0) + 1 <= 6) ->
  wp tu (addEdges_3_6 tu (length ofs) oF ((oF + 1) mod length ofs)
           ((oF + 2) mod length ofs) ((oF + 3) mod length ofs)
           (nth ((oF + length ofs - 1) mod length ofs) ofs 0)
           (nth oF ofs 0) (nth ((oF + 1) mod length ofs) ofs 0)
           (nth ((oF + 2) mod length ofs) ofs 0)
           (nth ((oF + 3) mod length ofs) ofs 0)
           startF endptF)
     (fun D s1 => Mid s0 (nth oF ofs 0) D s1) s0.
Proof.
  intros Hn Hn5 HL HLn HLp.
  destruct (open_mod (oF + length ofs - 1)) as [HpI HpL].
  destruct (open_mod (oF + 1)) as [HnI HnL].
  destruct (open_mod (oF + 2)) as [HnnI HnnL].
  destruct (open_mod (oF + 3)) as [HnnnI HnnnL].
  destruct (open_pos oF HoF) as [HfI HfL].
  pose proof (open_neq_at 1 ltac:(lia)) as D01.
  pose proof (open_neq_at 2 ltac:(lia)) as D02.
  pose proof (open_neq_at 3 ltac:(lia)) as D03.
  pose proof (open_neq (oF + 1) 1 ltac:(lia)) as D12.
  pose proof (open_neq (oF + 1) 2 ltac:(lia)) as D13.
  pose proof (open_neq (oF + 2) 1 ltac:(lia)) as D23.
  replace (oF + 1 + 1) with (oF + 2) in * by lia.
  replace (oF + 1 + 2) with (oF + 3) in * by lia.
  replace (oF + 2 + 1) with (oF + 3) in * by lia.
  unfold addEdges_3_6, s0.
  destruct (Nat.eqb_spec (length ofs) 4) as [E4|E4].
  - specialize (HLp E4).
    replace (oF + length ofs - 1) with (oF + 3) in * by lia.
    set (nF := nth ((oF + 1) mod length ofs) ofs 0) in *.
    set (nnF := nth ((oF + 2) mod length ofs) ofs 0) in *.
    set (nnnF := nth ((oF + 3) mod length ofs) ofs 0) in *.
    set (fF := nth oF ofs 0) in *.
    do 5 wstep Hgood.
    wcount nF (S (flen fs nF)).
    do 6 wstep Hgood.
    werase wp_erase_oF_to_nnnoF oF ofs1 HP.
    wcount nnnF (S (flen fs nnnF)).
    wstep Hgood.
    mid_finish Hgood Hnd Hrange Hcl HP (@nil nat) [fF; nF; nnF; nnnF].
  - pose proof (open_neq_at (length ofs - 1) ltac:(lia)) as D0p.
    pose proof (open_neq (oF + 1) (length ofs - 2) ltac:(lia)) as D1p.
    pose proof (open_neq (oF + 2) (length ofs - 3) ltac:(lia)) as D2p.
    pose proof (open_neq (oF + 3) (length ofs - 4) ltac:(lia)) as D3p.
    replace (oF + (length ofs - 1)) with (oF + length ofs - 1) in * by lia.
    replace (oF + 1 + (length ofs - 2)) with (oF + length ofs - 1) in * by lia.
    replace (oF + 2 + (length ofs - 3)) with (oF + length ofs - 1) in * by lia.
    replace (oF + 3 + (length ofs - 4)) with (oF + length ofs - 1) in * by lia.
    set (pF := nth ((oF + length ofs - 1) mod length ofs) ofs 0) in *.
    set (nF := nth ((oF + 1) mod length ofs) ofs 0) in *.
    set (nnF := nth ((oF + 2) mod length ofs) ofs 0) in *.
    set (nnnF := nth ((oF + 3) mod length ofs) ofs 0) in *.
    set (fF := nth oF ofs 0) in *.
    do 5 wstep Hgood.
    wcount nF (S (flen fs nF)).
    do 6 wstep Hgood.
    werase wp_erase_oF_to_nnnoF oF ofs1 HP.
    do 2 wstep Hgood.
    mid_finish Hgood Hnd Hrange Hcl HP (@nil nat) [fF; nF; nnF; nnnF].
Qed.

Lemma mid_4_7 startF endptF :
  6 <= length ofs ->
  4 <= flen fs (nth oF ofs 0)
       + flen fs (nth ((oF + length ofs - 2) mod length ofs) ofs 0) + 2 <= 6 ->
  4 <= flen fs (nth ((oF + length ofs - 1) mod length ofs) ofs 0) + 1 <= 6 ->
  wp tu (addEdges_4_7 tu (length ofs) ((oF + length ofs - 2) mod length ofs)
           ((oF + length ofs - 1) mod length ofs) oF ((oF + 1) mod length ofs)
           (nth ((oF + 2 * length ofs - 3) mod length ofs) ofs 0)
           (nth ((oF + length ofs - 2) mod length ofs) ofs 0)
           (nth ((oF + length ofs - 1) mod length ofs) ofs 0)
           (nth oF ofs 0) (nth ((oF + 1) mod length ofs) ofs 0)
           startF endptF)
     (fun D s1 => Mid s0 (nth oF ofs 0) D s1) s0.
Proof.
  intros Hn HL HLp.
  destruct (open_mod (oF + 2 * length ofs - 3)) as [HpppI HpppL].
  destruct (open_mod (oF + length ofs - 2)) as [HppI HppL].
  destruct (open_mod (oF + length ofs - 1)) as [HpI HpL].
  destruct (open_mod (oF + 1)) as [HnI HnL].
  destruct (open_pos oF HoF) as [HfI HfL].
  pose proof (open_neq_gen oF (oF + 1) 0 1 ltac:(lia) ltac:(lia)) as D0n.
  pose proof (open_neq_gen oF (oF + length ofs - 1) 0 (length ofs - 1)
                ltac:(lia) ltac:(lia)) as D0p.
  pose proof (open_neq_gen oF (oF + length ofs - 2) 0 (length ofs - 2)
                ltac:(lia) ltac:(lia)) as D0pp.
  pose proof (open_neq_gen oF (oF + 2 * length ofs - 3) 1 (length ofs - 3)
                ltac:(lia) ltac:(lia)) as D0ppp.
  rewrite (Nat.mod_small oF) in D0n, D0p, D0pp, D0ppp by assumption.
  pose proof (open_neq_gen (oF + 1) (oF + length ofs - 1) 0 (length ofs - 2)
                ltac:(lia) ltac:(lia)) as Dnp.
  pose proof (open_neq_gen (oF + 1) (oF + length ofs - 2) 0 (length ofs - 3)
                ltac:(lia) ltac:(lia)) as Dnpp.
  pose proof (open_neq_gen (oF + 1) (oF + 2 * length ofs - 3) 1 (length ofs - 4)
                ltac:(lia) ltac:(lia)) as Dnppp.
  pose proof (open_neq_gen (oF + length ofs - 2) (oF + length ofs - 1) 0 1
                ltac:(lia) ltac:(lia)) as Dppp.
  pose proof (open_neq_gen (oF + length ofs - 2) (oF + 2 * length ofs - 3) 0
                (length ofs - 1) ltac:(lia) ltac:(lia)) as Dpp3.
  pose proof (open_neq_gen (oF + length ofs - 1) (oF + 2 * length ofs - 3) 0
                (length ofs - 2) ltac:(lia) ltac:(lia)) as Dp3.
  unfold addEdges_4_7, s0.
  destruct (Nat.eqb_spec (length ofs) 4) as [E4|E4]; [lia|].
  set (pppF := nth ((oF + 2 * length ofs - 3) mod length ofs) ofs 0) in *.
  set (ppF := nth ((oF + length ofs - 2) mod length ofs) ofs 0) in *.
  set (pF := nth ((oF + length ofs - 1) mod length ofs) ofs 0) in *.
  set (nF := nth ((oF + 1) mod length ofs) ofs 0) in *.
  set (fF := nth oF ofs 0) in *.
  do 6 wstep Hgood.
  wcount pF (S (flen fs pF)).
  do 6 wstep Hgood.
  werase wp_erase_ppoF_to_noF oF ofs1 HP.
  do 2 wstep Hgood.
  mid_finish Hgood Hnd Hrange Hcl HP (@nil nat) [ppF; pF; fF; nF].
Qed.

Lemma mid_8 startF endptF :
  5 <= length ofs ->
  4 <= flen fs (nth oF ofs 0) + 4 <= 6 ->
  4 <= flen fs (nth ((oF + 1) mod length ofs) ofs 0) + 1 <= 6 ->
  wp tu (addEdges_8 tu oF ((oF + 1) mod length ofs) ((oF + 2) mod length ofs)
           (nth ((oF + length ofs - 1) mod length ofs) ofs 0)
           (nth oF ofs 0) (nth ((oF + 1) mod length ofs) ofs 0)
           (nth ((oF + 2) mod length ofs) ofs 0)
           (nth ((oF + 3) mod length ofs) ofs 0)
           startF endptF)
     (fun D s1 => Mid s0 (nth oF ofs 0) D s1) s0.
Proof.
  intros Hn HL HLn.
  destruct (open_mod (oF + length ofs - 1)) as [HpI HpL].
  destruct (open_mod (oF + 1)) as [HnI HnL].
  destruct (open_mod (oF + 2)) as [HnnI HnnL].
  destruct (open_mod (oF + 3)) as [HnnnI HnnnL].
  destruct (open_pos oF HoF) as [HfI HfL].
  pose proof (open_neq_gen oF (oF + 1) 0 1 ltac:(lia) ltac:(lia)) as D01.
  pose proof (open_neq_gen oF (oF + 2) 0 2 ltac:(lia) ltac:(lia)) as D02.
  pose proof (open_neq_gen oF (oF + 3) 0 3 ltac:(lia) ltac:(lia)) as D03.
  pose proof (open_neq_gen oF (oF + length ofs - 1) 0 (length ofs - 1)
                ltac:(lia) ltac:(lia)) as D0p.
  rewrite (Nat.mod_small oF) in D01, D02, D03, D0p by assumption.
  pose proof (open_neq_gen (oF + 1) (oF + 2) 0 1 ltac:(lia) ltac:(lia)) as D12.
  pose proof (open_neq_gen (oF + 1) (oF + 3) 0 2 ltac:(lia) ltac:(lia)) as D13.
  pose proof (open_neq_gen (oF + 2) (oF + 3) 0 1 ltac:(lia) ltac:(lia)) as D23.
  pose proof (open_neq_gen (oF + 1) (oF + length ofs - 1) 0 (length ofs - 2)
                ltac:(lia) ltac:(lia)) as D1p.
  pose proof (open_neq_gen (oF + 2) (oF + length ofs - 1) 0 (length ofs - 3)
                ltac:(lia) ltac:(lia)) as D2p.
  pose proof (open_neq_gen (oF + 3) (oF + length ofs - 1) 0 (length ofs - 4)
                ltac:(lia) ltac:(lia)) as D3p.
  unfold addEdges_8, s0.
  set (pF := nth ((oF + length ofs - 1) mod length ofs) ofs 0) in *.
  set (nF := nth ((oF + 1) mod length ofs) ofs 0) in *.
  set (nnF := nth ((oF + 2) mod length ofs) ofs 0) in *.
  set (nnnF := nth ((oF + 3) mod length ofs) ofs 0) in *.
  set (fF := nth oF ofs 0) in *.
  do 20 wstep Hgood.
  werase wp_erase_oF_to_nnoF oF ofs1 HP.
  wcount nF (S (flen fs nF)).
  wstep Hgood.
  mid_finish Hgood Hnd Hrange Hcl HP (@nil nat) [fF; nF; nnF].
Qed.

Lemma mid_9 startF endptF :
  5 <= length ofs ->
  4 <= flen fs (nth oF ofs 0) + 4 <= 6 ->
  4 <= flen fs (nth ((oF + length ofs - 1) mod length ofs) ofs 0) + 1 <= 6 ->
  wp tu (addEdges_9 tu ((oF + length ofs - 2) mod length ofs)
           ((oF + length ofs - 1) mod length ofs) oF
           (nth ((oF + 2 * length ofs - 3) mod length ofs) ofs 0)
           (nth ((oF + length ofs - 2) mod length ofs) ofs 0)
           (nth ((oF + length ofs - 1) mod length ofs) ofs 0)
           (nth oF ofs 0) (nth ((oF + 1) mod length ofs) ofs 0)
           startF endptF)
     (fun D s1 => Mid s0 (nth oF ofs 0) D s1) s0.
Proof.
  intros Hn HL HLp.
  destruct (open_mod (oF + 2 * length ofs - 3)) as [HpppI HpppL].
  destruct (open_mod (oF + length ofs - 2)) as [HppI HppL].
  destruct (open_mod (oF + length ofs - 1)) as [HpI HpL].
  destruct (open_mod (oF + 1)) as [HnI HnL].
  destruct (open_pos oF HoF) as [HfI HfL].
  pose proof (open_neq_gen oF (oF + 1) 0 1 ltac:(lia) ltac:(lia)) as D0n.
  pose proof (open_neq_gen oF (oF + length ofs - 1) 0 (length ofs - 1)
                ltac:(lia) ltac:(lia)) as D0p.
  pose proof (open_neq_gen oF (oF + length ofs - 2) 0 (length ofs - 2)
                ltac:(lia) ltac:(lia)) as D0pp.
  pose proof (open_neq_gen oF (oF + 2 * length ofs - 3) 1 (length ofs - 3)
                ltac:(lia) ltac:(lia)) as D0ppp.
  rewrite (Nat.mod_small oF) in D0n, D0p, D0pp, D0ppp by assumption.
  pose proof (open_neq_gen (oF + 1) (oF + length ofs - 1) 0 (length ofs - 2)
                ltac:(lia) ltac:(lia)) as Dnp.
  pose proof (open_neq_gen (oF + 1) (oF + length ofs - 2) 0 (length ofs - 3)
                ltac:(lia) ltac:(lia)) as Dnpp.
  pose proof (open_neq_gen (oF + 1) (oF + 2 * length ofs - 3) 1 (length ofs - 4)
                ltac:(lia) ltac:(lia)) as Dnppp.
  pose proof (open_neq_gen (oF + length ofs - 2) (oF + length ofs - 1) 0 1
                ltac:(lia) ltac:(lia)) as Dppp.
  pose proof (open_neq_gen (oF + length ofs - 2) (oF + 2 * length ofs - 3) 0
                (length ofs - 1) ltac:(lia) ltac:(lia)) as Dpp3.
  pose proof (open_neq_gen (oF + length ofs - 1) (oF + 2 * length ofs - 3) 0
                (length ofs - 2) ltac:(lia) ltac:(lia)) as Dp3.
  unfold addEdges_9, s0.
  set (pppF := nth ((oF + 2 * length ofs - 3) mod length ofs) ofs 0) in *.
  set (ppF := nth ((oF + length ofs - 2) mod length ofs) ofs 0) in *.
  set (pF := nth ((oF + length ofs - 1) mod length ofs) ofs 0) in *.
  set (nF := nth ((oF + 1) mod length ofs) ofs 0) in *.
  set (fF := nth oF ofs 0) in *.
  do 20 wstep Hgood.
  werase wp_erase_ppoF_to_oF oF ofs1 HP.
  wcount pF (S (flen fs pF)).
  wstep Hgood.
  mid_finish Hgood Hnd Hrange Hcl HP (@nil nat) [ppF; pF; fF].
Qed.

Lemma mid_10 startF endptF :
  2 <= length ofs ->
  4 <= flen fs (nth oF ofs 0) + 4 <= 6 ->
  wp tu (addEdges_10 oF (nth ((oF + length ofs - 1) mod length ofs) ofs 0)
           (nth oF ofs 0) (nth ((oF + 1) mod length ofs) ofs 0)
           startF endptF)
     (fun D s1 => Mid s0 (nth oF ofs 0) D s1) s0.
Proof.
  intros Hn HL.
  destruct (open_mod (oF + length ofs - 1)) as [HpI HpL].
  destruct (open_mod (oF + 1)) as [HnI HnL].
  destruct (open_pos oF HoF) as [HfI HfL].
  pose proof (prev_neq Hn) as Hpf. pose proof (next_neq Hn) as Hnf.
  set (pF := nth ((oF + length ofs - 1) mod length ofs) ofs 0) in *.
  set (nF := nth ((oF + 1) mod length ofs) ofs 0) in *.
  set (fF := nth oF ofs 0) in *.
  unfold addEdges_10, s0.
  do 24 wstep Hgood.
  len_all.
  pose proof (insert_assign_perm ofs oF (length fs) (length fs + 1) HoF) as HP.
  fold fF in HP.
  set (ofs1 := Vec.update _ (oF + 1) _) in *. clearbody ofs1.
  mid_finish Hgood Hnd Hrange Hcl HP [length fs; length fs + 1] [fF].
Qed.

End Moves.

(** ** Legality *)

(** The face at position [p] of the open-boundary sequence. *)
Lemma get_ge {A} (l : list A) i : length l <= i -> Vec.get l i = Undefined.
Proof.
  intros H. unfold Vec.get.
  now rewrite (proj2 (nth_error_None l i) H).
Qed.

Lemma add_true c size :
  fst (faceCounter.add c size) = true -> 1 <= faceCounter.ntri c ->
  4 <= size <= 6 /\ 1 <= faceCounter.ntri (snd (faceCounter.add c size)).
Proof.
  unfold faceCounter.add, N_TRI.
  destruct size as [|[|[|[|[|[|[|size]]]]]]]; cbn [fst snd];
    try discriminate; try (intros; cbn; lia).
  destruct (Nat.leb_spec (S (faceCounter.ntri c)) 1); [lia | discriminate].
Qed.

Lemma reject_false cond c size :
  fst (faceCounter.reject_if cond c size) = false -> 1 <= faceCounter.ntri c ->
  (cond = true -> 4 <= size <= 6) /\
  1 <= faceCounter.ntri (snd (faceCounter.reject_if cond c size)).
Proof.
  unfold faceCounter.reject_if. destruct cond; cbn [fst snd]; intros H Hc.
  - apply negb_false_iff in H. destruct (add_true c size H Hc). auto.
  - split; [discriminate | assumption].
Qed.

Lemma isValid_true tu oF m s d :
  Forall (fun o => o < length (faces s)) (openfaces s) ->
  isValid tu oF m s = Done true d ->
  let n := length (openfaces s) in
  let fc p := nth (nth p (openfaces s) 0) (faces s) [] in
  oF < n /\
  isValid_switch n (fc ((oF + 2 * n - 3) mod n)) (fc ((oF + n - 2) mod n))
    (fc ((oF + n - 1) mod n)) (fc oF) (fc ((oF + 1) mod n))
    (fc ((oF + 2) mod n)) (fc ((oF + 3) mod n))
    (faceCounter.mk 1 (nsq s) (npent s)) m = true.
Proof.
  intros Hr H n fc. unfold isValid in H. fold n in H.
  destruct (Nat.eqb_spec n 0) as [E|E]; [discriminate|].
  cbv zeta in H.
  rewrite !(openface_lt s (_ mod n)) in H
    by (assumption || (apply Nat.mod_upper_bound; exact E)).
  cbn [obind app] in H.
  destruct (Nat.lt_ge_cases oF n) as [HoF|HoF].
  - rewrite (openface_lt s oF HoF Hr) in H. cbn [obind app] in H.
    split; [assumption|].
    unfold assert_ in H.
    destruct tu, (1 <? length (nth (nth oF (openfaces s) 0) (faces s) []));
      cbn in H; try discriminate; injection H as H _; exact H.
  - unfold openface in H at 1. rewrite get_ge in H by exact HoF.
    discriminate.
Qed.

Lemma add_pair c size a c' :
  faceCounter.add c size = (a, c') -> a = true -> 1 <= faceCounter.ntri c ->
  4 <= size <= 6 /\ 1 <= faceCounter.ntri c'.
Proof.
  intros E -> Hc. pose proof (add_true c size) as H. rewrite E in H.
  now apply H.
Qed.

Lemma reject_pair cond c size r c' :
  faceCounter.reject_if cond c size = (r, c') -> r = false ->
  1 <= faceCounter.ntri c ->
  (cond = true -> 4 <= size <= 6) /\ 1 <= faceCounter.ntri c'.
Proof.
  intros E -> Hc. pose proof (reject_false cond c size) as H. rewrite E in H.
  now apply H.
Qed.

Ltac switch_split H :=
  repeat first
    [ match type of H with
      | (if ?b then false else _) = true =>
          let E := fresh "E" in destruct b eqn:E; [discriminate H|]
      end
    | match type of H with
      | context [faceCounter.add ?c ?sz] =>
          let E := fresh "A" in
          destruct (faceCounter.add c sz) as [? ?] eqn:E
      end
    | match type of H with
      | context [faceCounter.reject_if ?b ?c ?sz] =>
          let E := fresh "R" in
          destruct (faceCounter.reject_if b c sz) as [? ?] eqn:E
      end ].

Lemma isValid_switch_checked n pppF prprF prevF F nextF nnF nnnF c m :
  1 <= faceCounter.ntri c ->
  isValid_switch n pppF prprF prevF F nextF nnF nnnF c m = true ->
  checked n prprF prevF F nextF nnF m.
Proof.
  intros Hc H.
  destruct m as [|[|[|[|[|[|[|[|[|[|[|m]]]]]]]]]]];
    cbn [isValid_switch checked] in *; try discriminate.
  all: switch_split H; cbn [fst snd negb] in *.
  all: repeat match goal with
       | E : negb _ = false |- _ => apply negb_false_iff in E
       | E : (_ || _) = false |- _ => apply orb_false_iff in E; destruct E
       | E : (_ <? _) = false |- _ => apply Nat.ltb_ge in E
       | E : (_ =? _) = false |- _ => apply Nat.eqb_neq in E
       | E : (_ =? _) = true |- _ => apply Nat.eqb_eq in E
       end.
  all: repeat match goal with
       | A : faceCounter.add ?c _ = (?a, ?c'), Ha : ?a = true |- _ =>
           let X := fresh in
           assert (X : 1 <= faceCounter.ntri c) by assumption;
           destruct (add_pair _ _ _ _ A Ha X); clear A
       | A : faceCounter.add ?c _ = (true, ?c') |- _ =>
           let X := fresh in
           assert (X : 1 <= faceCounter.ntri c) by assumption;
           destruct (add_pair _ _ _ _ A eq_refl X); clear A
       | A : faceCounter.reject_if _ ?c _ = (false, ?c') |- _ =>
           let X := fresh in
           assert (X : 1 <= faceCounter.ntri c) by assumption;
           destruct (reject_pair _ _ _ _ _ A eq_refl X); clear A
       end.
  all: repeat split; try lia.
  all: intros;
       repeat match goal with
       | Hx : (?a =? ?b) = true -> _, Hy : ?a = ?b |- _ =>
           specialize (Hx (proj2 (Nat.eqb_eq a b) Hy))
       end; lia.
Qed.

(** ** [addEdges] keeps the invariant *)

Lemma Mid_tail tu s0 fF D s1 :
  Mid s0 fF D s1 ->
  wp tu (countFace tu fF ;;; erase_all (sort_desc D))%stmt
     (fun _ s' => Inv s' /\ medgadd s' = medgadd s0 /\
                  chosenFace s' = chosenFace s0) s1.
Proof.
  intros (Ho & Hg & HfF & HL & Hnd & Hr & Hn & Hdeg & Heul & Hcl & Em & Ec).
  apply (wp_tail tu fF D (flen (faces s1) fF)); auto.
  intros s' He.
  destruct (Inv_of_erased D _ s1 s' He HL Hdeg Heul Hcl) as (HI & E1 & E2).
  split; [assumption|]. split; congruence.
Qed.

Ltac read_open :=
  apply wp_bind, wp_reads; cbv beta; simpl_state;
  apply sound_get with (dflt := 0);
  [first [assumption | apply Nat.mod_upper_bound; lia]|].

Lemma addEdges_inv tu oF m s d :
  Inv s -> 2 <= length (openfaces s) ->
  isValid tu oF m s = Done true d ->
  wp tu (addEdges tu oF m)
     (fun _ s' => Inv s' /\ medgadd s' = medgadd s /\
                  chosenFace s' = chosenFace s) s.
Proof.
  intros [[Hnd Hrange] Hgood Hdeg Heul Hcl] Hn Hv.
  destruct (isValid_true tu oF m s d Hrange Hv) as [HoF Hsw].
  apply isValid_switch_checked in Hsw; [|cbn; lia].
  destruct s as [nv sq pt hx es fs ofs md cf]. simpl_state.
  assert (Heul' : nv + length fs = length es + length ofs + 1).
  { destruct (Nat.eqb_spec (length ofs) 0); lia. }
  clear Heul Hv.
  destruct (Forall_forall (fun o => o < length fs) ofs) as [Hlt _].
  specialize (Hlt Hrange).
  unfold addEdges. apply wp_bind, wp_gets. simpl_state.
  destruct (Nat.eqb_spec (length ofs) 0) as [E0|E0]; [lia|].
  cbv zeta. do 7 read_open.
  apply wp_bind, wp_startpt_of; [assumption | apply Hlt; now apply nth_In |].
  intros startF.
  apply wp_bind, wp_endpt_of; [assumption | apply Hlt; now apply nth_In |].
  intros endptF.
  apply wp_bind.
  apply wp_weaken
    with (P := fun D s1 => Mid (mkGraphState nv sq pt hx es fs ofs md cf)
                             (nth oF ofs 0) D s1);
    [| intros D s1 HM;
       exact (Mid_tail tu (mkGraphState nv sq pt hx es fs ofs md cf) _ D s1 HM)].
  pose proof (Hlt _ (nth_In ofs 0 (Nat.mod_upper_bound (oF + 2) _ E0))).
  pose proof (Hlt _ (nth_In ofs 0
                       (Nat.mod_upper_bound (oF + length ofs - 2) _ E0))).
  destruct m as [|[|[|[|[|[|[|[|[|[|[|m]]]]]]]]]]];
    cbn [checked addEdges_switch] in *; try contradiction;
    [ apply mid_1 | apply mid_2
    | apply wp_bind, wp_assert_that;
      [unfold face_size_is; sound_reads Hgood | apply mid_3_6]
    | apply wp_bind, wp_assert_that;
      [unfold face_size_is; sound_reads Hgood | apply mid_4_7]
    | apply mid_5 | apply mid_3_6 | apply mid_4_7 | apply mid_8 | apply mid_9
    | apply mid_10 ];
    auto; unfold flen; intuition lia.
Qed.

(** ** The drivers keep the invariant *)

Lemma same_graph_refl s : same_graph s s.
Proof. repeat split. Qed.

Lemma same_graph_trans s1 s2 s3 :
  same_graph s1 s2 -> same_graph s2 s3 -> same_graph s1 s3.
Proof. unfold same_graph. intuition congruence. Qed.

Lemma Inv_same s s' : same_graph s s' -> Inv s -> Inv s'.
Proof.
  intros (E1 & E2 & E3 & E4 & E5 & E6 & E7) [[Hnd Hr] Hg Hd He Hc].
  destruct s, s'. cbn in *. subst.
  constructor; cbn; auto. split; auto.
Qed.

Lemma chooseFace_body_same i s x s' d :
  chooseFace_body i s = Done (x, s') d -> same_graph s s'.
Proof.
  unfold chooseFace_body.
  destruct (openface s i) as [Fi ?| |]; cbn [obind]; try discriminate.
  destruct (openface s (chosenFace s)) as [Fc ?| |]; cbn [obind];
    try discriminate.
  cbn [oret]. destruct (length Fc <? length Fi); intros [= <- <- <-];
    repeat split.
Qed.

Lemma for_each_choose_same : forall l s x s' d,
  for_each l chooseFace_body s = Done (x, s') d -> same_graph s s'.
Proof.
  induction l as [|i l IH]; intros s x s' d; cbn [for_each].
  - intros [= <- <- <-]. apply same_graph_refl.
  - unfold mbind.
    destruct (chooseFace_body i s) as [[y s1] d1| |] eqn:E; cbn [obind];
      try discriminate.
    cbn [fst snd].
    destruct (for_each l chooseFace_body s1) as [[z s2] d2| |] eqn:E';
      try discriminate.
    intros [= <- <- <-].
    apply (same_graph_trans s s1 s2).
    + exact (chooseFace_body_same _ _ _ _ _ E).
    + exact (IH _ _ _ _ E').
Qed.

Lemma chooseFace_same s x s' d :
  chooseFace s = Done (x, s') d -> same_graph s s'.
Proof.
  unfold chooseFace, mbind, modify, gets. cbn [obind oret fst snd app].
  destruct (for_each _ chooseFace_body (set_chosenFace 0 s))
    as [[y s1] d1| |] eqn:E; try discriminate.
  cbn [fst snd]. intros [= <- <- <-].
  apply for_each_choose_same in E.
  destruct E as (E1 & E2 & E3 & E4 & E5 & E6 & E7).
  destruct s, s1; cbn in *. repeat split; assumption.
Qed.

Lemma incMethod_loop_same tu : forall fuel s b s' d,
  incMethod_loop tu fuel s = Done (b, s') d ->
  same_graph s s' /\
  (b = true -> exists d', isValid0 tu s' = Done true d').
Proof.
  induction fuel as [|fuel IH]; intros s b s' d; cbn [incMethod_loop];
    destruct (medgadd s <=? NUM_METH).
  - discriminate.
  - intros [= <- <- <-]. split; [apply same_graph_refl | discriminate].
  - destruct (isValid0 tu (set_medgadd (S (medgadd s)) s))
      as [[|] d0| |] eqn:E; cbn [obind]; try discriminate.
    + intros [= <- <- <-]. split; [repeat split | intros _; now exists d0].
    + destruct (incMethod_loop tu fuel (set_medgadd (S (medgadd s)) s))
        as [[b1 s1] d1| |] eqn:E'; try discriminate.
      intros [= <- <- <-]. destruct (IH _ _ _ _ E') as [Hs Hb].
      split; [|exact Hb].
      destruct Hs as (E1 & E2 & E3 & E4 & E5 & E6 & E7).
      destruct s, s1; cbn in *. repeat split; assumption.
  - intros [= <- <- <-]. split; [apply same_graph_refl | discriminate].
Qed.

Lemma addEdges0_inv tu s r d d0 :
  ready s -> isValid0 tu s = Done true d0 ->
  addEdges0 tu s = Done r d -> Inv (snd r) /\ d = [].
Proof.
  intros [HI Hn] Hv H.
  pose proof (addEdges_inv tu (chosenFace s) (medgadd s) s d0 HI Hn Hv) as W.
  unfold wp in W. unfold addEdges0 in H. rewrite H in W. cbn in W.
  tauto.
Qed.

Lemma Inv_seed : Inv seed.
Proof.
  constructor; cbn.
  - split; [repeat constructor; cbn; intuition lia | repeat constructor].
  - repeat constructor; cbn; try discriminate; lia.
  - reflexivity.
  - reflexivity.
  - intros k. unfold cl, announced. cbn.
    do 7 (destruct k as [|k]; [vm_compute; reflexivity|]).
    unfold ind. cbn. lia.
Qed.

(** Case analysis on the calls of a driver's step [H : _ = Done _ _]. *)
Ltac crunch H :=
  repeat first
    [ discriminate H
    | match type of H with
      | context [match ?x with _ => _ end] =>
          lazymatch x with
          | context [match _ with _ => _ end] => fail
          | _ => destruct x eqn:?; cbn [obind oret fst snd] in H
          end
      end ].

Lemma fast_closed_map MAX orc c c' d :
  FastMain.closed_map MAX orc c = Done c' d ->
  FastMain.G c' = FastMain.G c /\
  FastMain.graphStack c' = FastMain.graphStack c /\ FastMain.pop c' = true.
Proof.
  unfold FastMain.closed_map, FastMain.set_pop, obind. intros H.
  crunch H; injection H as <- _; cbn; auto.
Qed.

Lemma fast_after_addEdges MAX orc c c' d :
  Inv (FastMain.G c) -> Forall ready (FastMain.graphStack c) ->
  FastMain.after_addEdges MAX orc c = Done c' d -> fast_ok c'.
Proof.
  intros HI HS H. unfold FastMain.after_addEdges, oret in H.
  destruct (Nat.eqb_spec (length (openfaces (FastMain.G c))) 0) as [E0|E0].
  { apply fast_closed_map in H. destruct H as (E1 & E2 & E3).
    unfold fast_ok. rewrite E1, E2, E3.
    split; [assumption|]. split; [discriminate | assumption]. }
  destruct (too_deep MAX (FastMain.graphStack c)).
  { injection H as <- _. unfold fast_ok. cbn.
    split; [assumption|]. split; [discriminate | assumption]. }
  destruct (Nat.eqb_spec (length (openfaces (FastMain.G c))) 1) as [E1|E1].
  { injection H as <- _. unfold fast_ok. cbn.
    split; [assumption|]. split; [discriminate | assumption]. }
  destruct (sizecheck PlanarFast (FastMain.G c)) as [[|] ?| |];
    cbn [obind negb] in H; try discriminate.
  - destruct (chooseFace (FastMain.G c)) as [[x s'] ?| |] eqn:EC;
      cbn [obind] in H; try discriminate.
    injection H as <- _. unfold fast_ok. cbn.
    pose proof (chooseFace_same _ _ _ _ EC) as Hs.
    split; [exact (Inv_same _ _ Hs HI)|]. split; [|assumption].
    intros _. destruct Hs as (_ & _ & _ & _ & _ & _ & ->). lia.
  - injection H as <- _. unfold fast_ok. cbn.
    split; [assumption|]. split; [discriminate | assumption].
Qed.

Lemma fast_loop_body MAX orc c c' d :
  fast_ok c -> FastMain.loop_body MAX orc c = Done (Some c') d -> fast_ok c'.
Proof.
  intros (HI & Hn & HS) H. unfold FastMain.loop_body in H.
  assert (HP : exists g st cs ns,
             ready g /\ Forall ready st /\
             (r <- incMethod PlanarFast g ;;
              if negb (fst r)
              then oret (Some (FastMain.mkConfig (snd r) st cs ns true))
              else
                r' <- addEdges0 PlanarFast (snd r) ;;
                c' <- FastMain.after_addEdges MAX orc
                        (FastMain.mkConfig (snd r') (snd r :: st) cs ns false) ;;
                oret (Some c'))%outcome = Done (Some c') d).
  { destruct (FastMain.pop c) eqn:Ep.
    - destruct (FastMain.graphStack c) as [|top rest] eqn:Es;
        [discriminate|].
      inversion HS; subst. exists top, rest. do 2 eexists.
      split; [assumption|]. split; [assumption|]. exact H.
    - exists (FastMain.G c), (FastMain.graphStack c). do 2 eexists.
      split; [split; auto|]. split; [assumption|]. exact H. }
  clear H HI Hn HS. destruct HP as (g & st & cs & ns & Hg & Hst & H).
  unfold incMethod in H.
  destruct (incMethod_loop PlanarFast _ g) as [[b s1] d1| |] eqn:EI;
    cbn [obind fst snd] in H; try discriminate.
  destruct (incMethod_loop_same _ _ _ _ _ _ EI) as [Hs Hb].
  assert (Hr1 : ready s1).
  { destruct Hg as [HI Hn]. split; [exact (Inv_same _ _ Hs HI)|].
    destruct Hs as (_ & _ & _ & _ & _ & _ & ->). exact Hn. }
  destruct b; cbn [negb] in H.
  - destruct (Hb eq_refl) as [d0 Hv].
    destruct (addEdges0 PlanarFast s1) as [r' d2| |] eqn:EA;
      cbn [obind] in H; try discriminate.
    destruct (addEdges0_inv _ _ _ _ _ Hr1 Hv EA) as [HI' _].
    destruct (FastMain.after_addEdges MAX orc _) as [c2 d3| |] eqn:EF;
      cbn [obind] in H; try discriminate.
    injection H as <- _.
    eapply fast_after_addEdges; [| | exact EF]; cbn;
      [exact HI' | constructor; assumption].
  - injection H as <- _. unfold fast_ok. cbn.
    destruct Hr1. split; [assumption|]. split; [discriminate | assumption].
Qed.

Lemma fast_turns MAX orc : forall n c c' d,
  fast_ok c -> FastMain.turns MAX orc n c = Done (Some c') d -> fast_ok c'.
Proof.
  induction n as [|n IH]; intros c c' d Hc; cbn [FastMain.turns].
  - intros [= <- _]. exact Hc.
  - destruct (FastMain.loop_body MAX orc c) as [[c1|] d1| |] eqn:E;
      cbn [obind]; try discriminate.
    destruct (FastMain.turns MAX orc n c1) as [r d2| |] eqn:E';
      try discriminate.
    intros [= -> _]. apply (IH c1 c' d2); [|exact E'].
    exact (fast_loop_body _ _ _ _ _ Hc E).
Qed.

Lemma planar_closed_map MAX orc c c' d :
  PlanarMain.closed_map MAX orc c = Done c' d ->
  PlanarMain.G c' = PlanarMain.G c /\
  PlanarMain.graphStack c' = PlanarMain.graphStack c /\ PlanarMain.pop c' = true.
Proof.
  unfold PlanarMain.closed_map, PlanarMain.set_pop, obind, oret. intros H.
  cbn [PlanarMain.G PlanarMain.graphStack PlanarMain.canonslns
       PlanarMain.nsuccess PlanarMain.cout] in H.
  crunch H; injection H as <- _; cbn; auto.
Qed.

Lemma planar_after_addEdges MAX orc c c' d :
  Inv (PlanarMain.G c) -> Forall ready (PlanarMain.graphStack c) ->
  PlanarMain.after_addEdges MAX orc c = Done c' d -> planar_ok c'.
Proof.
  intros HI HS H. unfold PlanarMain.after_addEdges, oret in H.
  destruct (PlanarMain.seen_by_symmetry (PlanarMain.G c)) as [[|] ?| |];
    cbn [obind] in H; try discriminate.
  { injection H as <- _. unfold planar_ok. cbn.
    split; [assumption|]. split; [discriminate | assumption]. }
  match type of H with
  | match ?r with _ => _ end = _ =>
      destruct r as [c2 d2| |] eqn:ER; [|discriminate H|discriminate H]
  end.
  injection H as <- _. clear d. rename ER into H.
  destruct (Nat.eqb_spec (length (openfaces (PlanarMain.G c))) 0) as [E0|E0].
  { apply planar_closed_map in H. destruct H as (E1 & E2 & E3).
    unfold planar_ok. rewrite E1, E2, E3.
    split; [assumption|]. split; [discriminate | assumption]. }
  destruct (too_deep MAX (PlanarMain.graphStack c)).
  { injection H as <- _. unfold planar_ok. cbn.
    split; [assumption|]. split; [discriminate | assumption]. }
  destruct (Nat.eqb_spec (length (openfaces (PlanarMain.G c))) 1) as [E1|E1].
  { injection H as <- _. unfold planar_ok. cbn.
    split; [assumption|]. split; [discriminate | assumption]. }
  destruct (sizecheck Planar (PlanarMain.G c)) as [[|] ?| |];
    cbn [obind negb] in H; try discriminate.
  - destruct (chooseFace (PlanarMain.G c)) as [[x s'] ?| |] eqn:EC;
      cbn [obind] in H; try discriminate.
    injection H as <- _. unfold planar_ok. cbn.
    pose proof (chooseFace_same _ _ _ _ EC) as Hs.
    split; [exact (Inv_same _ _ Hs HI)|]. split; [|assumption].
    intros _. destruct Hs as (_ & _ & _ & _ & _ & _ & ->). lia.
  - injection H as <- _. unfold planar_ok. cbn.
    split; [assumption|]. split; [discriminate | assumption].
Qed.

Lemma planar_loop_body MAX orc c c' d :
  planar_ok c -> PlanarMain.loop_body MAX orc c = Done (Some c') d -> planar_ok c'.
Proof.
  intros (HI & Hn & HS) H. unfold PlanarMain.loop_body in H.
  assert (HP : exists g st cs ns co,
             ready g /\ Forall ready st /\
             (r <- incMethod Planar g ;;
              if negb (fst r)
              then oret (Some (PlanarMain.mkConfig (snd r) st cs ns true co))
              else
                r' <- addEdges0 Planar (snd r) ;;
                c' <- PlanarMain.after_addEdges MAX orc
                        (PlanarMain.mkConfig (snd r') (snd r :: st) cs ns false co) ;;
                oret (Some c'))%outcome = Done (Some c') d).
  { destruct (PlanarMain.pop c) eqn:Ep.
    - destruct (PlanarMain.graphStack c) as [|top rest] eqn:Es;
        [discriminate|].
      inversion HS; subst. exists top, rest. do 3 eexists.
      split; [assumption|]. split; [assumption|]. exact H.
    - exists (PlanarMain.G c), (PlanarMain.graphStack c). do 3 eexists.
      split; [split; auto|]. split; [assumption|]. exact H. }
  clear H HI Hn HS. destruct HP as (g & st & cs & ns & co & Hg & Hst & H).
  unfold incMethod in H.
  destruct (incMethod_loop Planar _ g) as [[b s1] d1| |] eqn:EI;
    cbn [obind fst snd] in H; try discriminate.
  destruct (incMethod_loop_same _ _ _ _ _ _ EI) as [Hs Hb].
  assert (Hr1 : ready s1).
  { destruct Hg as [HI Hn]. split; [exact (Inv_same _ _ Hs HI)|].
    destruct Hs as (_ & _ & _ & _ & _ & _ & ->). exact Hn. }
  destruct b; cbn [negb] in H.
  - destruct (Hb eq_refl) as [d0 Hv].
    destruct (addEdges0 Planar s1) as [r' d2| |] eqn:EA;
      cbn [obind] in H; try discriminate.
    destruct (addEdges0_inv _ _ _ _ _ Hr1 Hv EA) as [HI' _].
    destruct (PlanarMain.after_addEdges MAX orc _) as [c2 d3| |] eqn:EF;
      cbn [obind] in H; try discriminate.
    injection H as <- _.
    eapply planar_after_addEdges; [| | exact EF]; cbn;
      [exact HI' | constructor; assumption].
  - injection H as <- _. unfold planar_ok. cbn.
    destruct Hr1. split; [assumption|]. split; [discriminate | assumption].
Qed.

Lemma planar_turns MAX orc : forall n c c' d,
  planar_ok c -> PlanarMain.turns MAX orc n c = Done (Some c') d -> planar_ok c'.
Proof.
  induction n as [|n IH]; intros c c' d Hc; cbn [PlanarMain.turns].
  - intros [= <- _]. exact Hc.
  - destruct (PlanarMain.loop_body MAX orc c) as [[c1|] d1| |] eqn:E;
      cbn [obind]; try discriminate.
    destruct (PlanarMain.turns MAX orc n c1) as [r d2| |] eqn:E';
      try discriminate.
    intros [= -> _]. apply (IH c1 c' d2); [|exact E'].
    exact (planar_loop_body _ _ _ _ _ Hc E).
Qed.

(** ** The closed faces *)

Lemma existsb_eqb_false i (l : list nat) :
  ~ In i l -> existsb (Nat.eqb i) l = false.
Proof.
  intros H. destruct (existsb (Nat.eqb i) l) eqn:E; [|reflexivity].
  apply existsb_exists in E. destruct E as (x & Hx & Ex).
  apply Nat.eqb_eq in Ex. subst. contradiction.
Qed.

Lemma window_step k f r i (l : list nat) :
  NoDup l ->
  cnt k (map (len_from i (f :: r)) (window i (S (length r)) l))
  = ((if existsb (Nat.eqb i) l then ind (length f) k else 0)
     + cnt k (map (len_from (S i) r) (window (S i) (length r) l)))%Z.
Proof.
  unfold window, len_from.
  induction 1 as [|o l Ho Hnd IH]; [reflexivity|].
  cbn [filter existsb].
  destruct (Nat.eqb_spec i o) as [<-|Hne].
  - rewrite Nat.leb_refl.
    destruct (Nat.ltb_spec i (i + S (length r))); [|lia].
    destruct (Nat.leb_spec (S i) i); [lia|].
    cbn [andb orb map cnt]. rewrite IH, (existsb_eqb_false i l Ho).
    rewrite Nat.sub_diag. cbn [nth]. lia.
  - cbn [orb].
    destruct (Nat.leb_spec i o), (Nat.ltb_spec o (i + S (length r))),
      (Nat.leb_spec (S i) o), (Nat.ltb_spec o (S i + length r));
      cbn [andb map cnt]; try lia; rewrite IH; try lia.
    replace (o - i) with (S (o - S i)) by lia. cbn [nth]. lia.
Qed.

Lemma closed_window k s :
  NoDup (openfaces s) -> forall fs i,
  (cnt k (map (@length nat) (closed_from s i fs))
   + cnt k (map (len_from i fs) (window i (length fs) (openfaces s)))
   = cnt k (map (@length nat) fs))%Z.
Proof.
  intros Hnd. induction fs as [|f r IH]; intros i.
  - cbn [closed_from map cnt length].
    assert (E : window i 0 (openfaces s) = []).
    { unfold window. clear Hnd.
      induction (openfaces s) as [|o l IHl]; [reflexivity|]. cbn [filter].
      destruct (Nat.leb_spec i o), (Nat.ltb_spec o (i + 0)); cbn [andb];
        try lia; apply IHl. }
    rewrite E. reflexivity.
  - cbn [closed_from length]. rewrite (window_step k f r i _ Hnd).
    unfold is_open. specialize (IH (S i)).
    destruct (existsb (Nat.eqb i) (openfaces s)); cbn [map cnt]; lia.
Qed.

Lemma cnt_count_len k (l : list (list nat)) :
  cnt k (map (@length nat) l) = Z.of_nat (count_len k l).
Proof.
  unfold count_len. induction l as [|f l IH]; [reflexivity|].
  cbn [map cnt filter]. unfold ind at 1.
  destruct (length f =? k); cbn [length]; lia.
Qed.

(** [cl] counts the closed faces. *)
Lemma cl_closed_faces k s :
  good_open (faces s) (openfaces s) ->
  cl k (faces s) (openfaces s) = Z.of_nat (count_len k (closed_faces s)).
Proof.
  intros [Hnd Hr]. rewrite <- cnt_count_len. unfold cl, closed_faces.
  pose proof (closed_window k s Hnd (faces s) 0) as H.
  assert (E : map (len_from 0 (faces s))
                (window 0 (length (faces s)) (openfaces s))
              = map (flen (faces s)) (openfaces s)).
  { clear H Hnd. unfold window, len_from.
    induction Hr as [|o l Ho Hr IH]; [reflexivity|].
    cbn [filter].
    destruct (Nat.ltb_spec o (0 + length (faces s))); [|lia].
    change (0 <=? o) with true. cbn [andb map].
    rewrite IH, Nat.sub_0_r. reflexivity. }
  rewrite E in H. lia.
Qed.

Lemma count_len_In (f : list nat) l : In f l -> 1 <= count_len (length f) l.
Proof.
  unfold count_len. induction l as [|g l IH]; [contradiction|].
  intros [->|H]; cbn [filter].
  - rewrite Nat.eqb_refl. cbn. lia.
  - specialize (IH H). destruct (length g =? length f); cbn; lia.
Qed.

Lemma announced_outside k s :
  k <> 3 -> k <> 4 -> k <> 5 -> k <> 6 -> announced k s = 0%Z.
Proof.
  intros. unfold announced, ind.
  destruct (Nat.eqb_spec 3 k), (Nat.eqb_spec 4 k), (Nat.eqb_spec 5 k),
    (Nat.eqb_spec 6 k); lia.
Qed.

Lemma Inv_closed_profile s : Inv s -> closed_profile s.
Proof.
  intros [Ho _ _ _ Hc].
  assert (E : forall k, Z.of_nat (count_len k (closed_faces s)) = announced k s).
  { intros k. rewrite <- (cl_closed_faces k s Ho). apply Hc. }
  unfold closed_profile. repeat split.
  - rewrite Forall_forall. intros f Hf.
    pose proof (count_len_In f _ Hf) as H1. specialize (E (length f)).
    destruct (Nat.eq_dec (length f) 3), (Nat.eq_dec (length f) 4),
      (Nat.eq_dec (length f) 5), (Nat.eq_dec (length f) 6); try lia.
    rewrite announced_outside in E by assumption. lia.
  - specialize (E 3). unfold announced, ind in E. cbn [Nat.eqb] in E. lia.
  - specialize (E 4). unfold announced, ind in E. cbn [Nat.eqb] in E. lia.
  - specialize (E 5). unfold announced, ind in E. cbn [Nat.eqb] in E. lia.
  - specialize (E 6). unfold announced, ind in E. cbn [Nat.eqb] in E. lia.
Qed.

(** ** The states the search visits *)

Lemma visited_Inv tu MAX orc s : visited tu MAX orc s -> Inv s.
Proof.
  destruct tu; cbn [visited].
  - intros (n & c & d & E & <-).
    assert (H0 : planar_ok PlanarMain.init).
    { split; [exact Inv_seed|]. split; [cbn; lia | constructor]. }
    exact (proj1 (planar_turns MAX orc n _ _ _ H0 E)).
  - intros (n & c0 & d0 & c & d & E0 & E & <-).
    assert (H0 : fast_ok c0).
    { unfold FastMain.init in E0. destruct (MAX <? 6); [discriminate|].
      injection E0 as <- _.
      split; [exact Inv_seed|]. split; [cbn; lia | constructor]. }
    exact (proj1 (fast_turns MAX orc n _ _ _ H0 E)).
Qed.

Lemma erase_dead_run ef s :
  ef < length (faces s) ->
  erase_dead ef s
  = Done (tt, set_faces (firstn ef (faces s) ++ skipn (S ef) (faces s))
                (set_openfaces
                   (map (fun o => if ef <? o then o - 1 else o) (openfaces s))
                   s)) [].
Proof.
  intros H. destruct s as [nv sq pt hx es fs ofs md cf]. simpl_state.
  unfold erase_dead, mbind, modify, faces_erase1, Vec.erase1.
  cbn [obind oret fst snd app]. simpl_state.
  destruct (Nat.ltb_spec ef (length fs)); [reflexivity | lia].
Qed.

(** C2: a map the search accepts (it is the map a driver holds after some
    turns of its loop, no open face is left, the completion test passes
    and the faces are within the bound) satisfies [V - E + F = 2] and
    [2 E = 3 V]; this holds for both programs. *)
Theorem accepted_euler (tu : variant) (MAX_FACES : nat)
    (sparsenauty : sparsegraph -> nat * list nat) (s : GraphState) :
  accepted tu MAX_FACES sparsenauty s ->
  (Z.of_nat (numverts s) - Z.of_nat (length (edges s))
   + Z.of_nat (length (faces s)) = 2)%Z /\
  2 * length (edges s) = 3 * numverts s.
Proof.
  intros (Hv & Ho & _ & _).
  destruct (visited_Inv _ _ _ _ Hv) as [_ _ Hd He _].
  rewrite Ho in *. cbn in *. lia.
Qed.

Lemma accepted_euler_witness :
  (Z.of_nat (numverts closed_9) - Z.of_nat (length (edges closed_9))
   + Z.of_nat (length (faces closed_9)) = 2)%Z /\
  2 * length (edges closed_9) = 3 * numverts closed_9.
Proof.
  apply (accepted_euler Planar 9 (failing_nauty 0) closed_9).
  split; [|split; [reflexivity | split; [vm_compute; reflexivity | cbn; lia]]].
  assert (H : match PlanarMain.turns 9 (failing_nauty 0) 141 PlanarMain.init with
              | Done (Some c) _ => PlanarMain.G c = closed_9
              | _ => False
              end) by (vm_compute; reflexivity).
  destruct (PlanarMain.turns 9 (failing_nauty 0) 141 PlanarMain.init)
    as [[c|] d| |] eqn:E; try contradiction.
  exists 141, c, d. split; [exact E | exact H].
Defined.



Lemma wp_Done {A} tu (c : M A) (Q : A -> GraphState -> Prop) s a s' d :
  wp tu c Q s -> c s = Done (a, s') d -> Q a s' /\ d = [].
Proof. unfold wp. intros W E. rewrite E in W. exact W. Qed.


(** * Further properties of the code *)

(** ** What a move adds *)

Lemma adds_bind {A B} a b a' b' dv de (c : M A) (k : A -> M B) :
  adds a b c -> (forall x, adds a' b' (k x)) ->
  dv = a + a' -> de = b + b' -> adds dv de (mbind c k).
Proof.
  intros Hc Hk -> -> s r d H. unfold mbind in H.
  destruct (c s) as [[x s1] d1| |] eqn:E; cbn [obind fst snd] in H;
    try discriminate.
  destruct (k x s1) as [r2 d2| |] eqn:E2; try discriminate.
  injection H as <- _.
  destruct (Hc _ _ _ E) as (V1 & l1 & E1 & L1). cbn [snd] in *.
  destruct (Hk x _ _ _ E2) as (V2 & l2 & E2' & L2).
  split; [lia|]. exists (l1 ++ l2).
  rewrite E2', E1, <- app_assoc, length_app. split; [reflexivity | lia].
Qed.

Lemma adds_if {A} dv de (b : bool) (c1 c2 : M A) :
  adds dv de c1 -> adds dv de c2 -> adds dv de (if b then c1 else c2).
Proof. now destruct b. Qed.

Lemma adds_undefined {A} dv de : adds dv de (fun _ : GraphState => @Undefined (A * GraphState)).
Proof. intros s r d H. discriminate. Qed.

Lemma adds_aborted {A} dv de : adds dv de (fun _ : GraphState => @Aborted (A * GraphState)).
Proof. intros s r d H. discriminate. Qed.

(** A statement that returns in a state with the same vertices and
    edges. *)
Lemma adds_none {A} (c : M A) :
  (forall s r d, c s = Done r d ->
     numverts (snd r) = numverts s /\ edges (snd r) = edges s) ->
  adds 0 0 c.
Proof.
  intros H s r d E. destruct (H s r d E) as [-> ->].
  split; [lia|]. exists []. now rewrite app_nil_r.
Qed.

Ltac keeps :=
  apply adds_none;
  let H := fresh "H" in
  intros [nv sq pt hx es fs ofs md cf] r d H;
  cbv [mret gets reads modify faces_modify faces_push_back faces_push_front
       faces_append faces_emplace_back faces_erase1 openfaces_erase
       openfaces_erase1 openfaces_assign openfaces_insert startpt_of
       endpt_of front_of assert_that countFace edges_size faces_size
       Vec.erase Vec.erase1 Vec.insert obind oret warn] in H;
  simpl_state;
  crunch H;
  injection H as <- _; split; reflexivity.

Lemma adds_ret {A} (a : A) : adds 0 0 (mret a).
Proof. keeps. Qed.
Lemma adds_gets {A} (f : GraphState -> A) : adds 0 0 (gets f).
Proof. keeps. Qed.
Lemma adds_reads {A} (f : GraphState -> outcome A) : adds 0 0 (reads f).
Proof. keeps. Qed.

Lemma adds_edges_emplace_back a b : adds 0 1 (edges_emplace_back a b).
Proof.
  intros [nv sq pt hx es fs ofs md cf] r d H.
  injection H as <- _. simpl_state. split; [lia|]. now exists [mkEdge a b].
Qed.

Lemma adds_incr_numverts : adds 1 0 incr_numverts.
Proof.
  intros [nv sq pt hx es fs ofs md cf] r d H.
  injection H as <- _. simpl_state. split; [lia|]. exists [].
  now rewrite app_nil_r.
Qed.

Lemma adds_edges_size : adds 0 0 edges_size.
Proof. keeps. Qed.
Lemma adds_faces_size : adds 0 0 faces_size.
Proof. keeps. Qed.
Lemma adds_faces_push_back i x : adds 0 0 (faces_push_back i x).
Proof. keeps. Qed.
Lemma adds_faces_push_front i x : adds 0 0 (faces_push_front i x).
Proof. keeps. Qed.
Lemma adds_faces_append i j : adds 0 0 (faces_append i j).
Proof. keeps. Qed.
Lemma adds_faces_emplace_back x : adds 0 0 (faces_emplace_back x).
Proof. keeps. Qed.
Lemma adds_faces_erase1 i : adds 0 0 (faces_erase1 i).
Proof. keeps. Qed.
Lemma adds_openfaces_erase a b : adds 0 0 (openfaces_erase a b).
Proof. keeps. Qed.
Lemma adds_openfaces_erase1 a : adds 0 0 (openfaces_erase1 a).
Proof. keeps. Qed.
Lemma adds_openfaces_assign p x : adds 0 0 (openfaces_assign p x).
Proof. keeps. Qed.
Lemma adds_openfaces_insert p x : adds 0 0 (openfaces_insert p x).
Proof. keeps. Qed.
Lemma adds_startpt_of tu i : adds 0 0 (startpt_of tu i).
Proof. keeps. Qed.
Lemma adds_endpt_of tu i : adds 0 0 (endpt_of tu i).
Proof. keeps. Qed.
Lemma adds_front_of i : adds 0 0 (front_of i).
Proof. keeps. Qed.
Lemma adds_assert_that tu c : adds 0 0 (assert_that tu c).
Proof. destruct tu; keeps. Qed.
Lemma adds_countFace tu i : adds 0 0 (countFace tu i).
Proof. destruct tu; keeps. Qed.

Lemma adds_aborted_0 {A} :
  adds 0 0 (fun _ : GraphState => @Aborted (A * GraphState)).
Proof. apply adds_aborted. Qed.

Create HintDb adds_db.
#[export] Hint Resolve adds_ret adds_gets adds_reads adds_edges_emplace_back
  adds_incr_numverts adds_edges_size adds_faces_size adds_faces_push_back
  adds_faces_push_front adds_faces_append adds_faces_emplace_back
  adds_faces_erase1 adds_openfaces_erase adds_openfaces_erase1
  adds_openfaces_assign adds_openfaces_insert adds_startpt_of adds_endpt_of
  adds_front_of adds_assert_that adds_countFace adds_aborted_0 : adds_db.

(** The counts of a sequence are the sums of the counts of its
    statements. *)
Ltac adds_step :=
  lazymatch goal with
  | |- adds _ _ (mbind _ _) =>
      eapply adds_bind; [ | intros ? | | ]
  | |- adds _ _ (if _ then _ else _) => apply adds_if
  | |- _ = _ => reflexivity
  | |- _ => solve [eauto with adds_db]
  end.

Ltac adds_all := repeat adds_step.

Lemma adds_erase_oF_noF oF noF : adds 0 0 (erase_oF_noF oF noF).
Proof. unfold erase_oF_noF. adds_all. Qed.
Lemma adds_erase_oF_to_nnnoF a b c d : adds 0 0 (erase_oF_to_nnnoF a b c d).
Proof. unfold erase_oF_to_nnnoF. adds_all. Qed.
Lemma adds_erase_ppoF_to_noF a b c d : adds 0 0 (erase_ppoF_to_noF a b c d).
Proof. unfold erase_ppoF_to_noF. adds_all. Qed.
Lemma adds_erase_oF_to_nnoF a b c : adds 0 0 (erase_oF_to_nnoF a b c).
Proof. unfold erase_oF_to_nnoF. adds_all. Qed.
Lemma adds_erase_ppoF_to_oF a b c : adds 0 0 (erase_ppoF_to_oF a b c).
Proof. unfold erase_ppoF_to_oF. adds_all. Qed.

#[export] Hint Resolve adds_erase_oF_noF adds_erase_oF_to_nnnoF
  adds_erase_ppoF_to_noF adds_erase_oF_to_nnoF adds_erase_ppoF_to_oF
  : adds_db.

Lemma adds_erase_all : forall D, adds 0 0 (erase_all D).
Proof.
  induction D as [|ef D IH]; cbn [erase_all]; [apply adds_ret|].
  unfold erase_dead. adds_all. all: try keeps. all: reflexivity.
Qed.

#[export] Hint Resolve adds_erase_all : adds_db.

Lemma adds_addEdges tu oF m :
  adds (new_verts m) (new_edges m) (addEdges tu oF m).
Proof.
  unfold addEdges.
  destruct tu, m as [|[|[|[|[|[|[|[|[|[|[|m]]]]]]]]]]];
    cbn [addEdges_switch new_verts new_edges];
    unfold addEdges_1, addEdges_2, addEdges_3_6, addEdges_4_7, addEdges_5,
      addEdges_8, addEdges_9, addEdges_10;
    (eapply adds_bind;
     [ apply adds_gets
     | intros n; apply adds_if; [apply adds_undefined | cbv zeta; adds_all]
     | reflexivity | reflexivity ]).
Qed.

(** ** [planar-fast.cc] against [planar.cc] *)

Lemma refines_bind {A B} (cP cF : M A) (kP kF : A -> M B) :
  refines cP cF -> (forall x, refines (kP x) (kF x)) ->
  refines (mbind cP kP) (mbind cF kF).
Proof.
  intros Hc Hk s r d H. unfold mbind in *.
  destruct (cP s) as [[x s1] d1| |] eqn:E; cbn [obind fst snd] in H;
    try discriminate.
  rewrite (Hc _ _ _ E). cbn [obind fst snd].
  destruct (kP x s1) as [r2 d2| |] eqn:E2; try discriminate.
  injection H as <- _. now rewrite (Hk x _ _ _ E2).
Qed.

Lemma refines_if {A} (b : bool) (c1 c2 c1' c2' : M A) :
  refines c1 c1' -> refines c2 c2' ->
  refines (if b then c1 else c2) (if b then c1' else c2').
Proof. now destruct b. Qed.

Lemma refines_undefined {A} (c : M A) :
  refines (fun _ : GraphState => Undefined) c.
Proof. intros s r d H. discriminate. Qed.

Lemma refines_aborted {A} (c : M A) :
  refines (fun _ : GraphState => Aborted) c.
Proof. intros s r d H. discriminate. Qed.

(** A statement that is the same in both programs and writes nothing to
    [std::cerr]. *)
Lemma refines_quiet {A} (c : M A) :
  (forall s r d, c s = Done r d -> d = []) -> refines c c.
Proof. intros H s r d E. now rewrite E, (H s r d E). Qed.

Ltac quiet :=
  apply refines_quiet;
  let H := fresh "H" in
  intros [nv sq pt hx es fs ofs md cf] r d H;
  cbv [mret gets reads modify faces_modify faces_push_back faces_push_front
       faces_append faces_emplace_back faces_erase1 openfaces_erase
       openfaces_erase1 openfaces_assign openfaces_insert front_of face
       edges_size faces_size edges_emplace_back incr_numverts
       Vec.get Vec.erase Vec.erase1 Vec.insert obind oret] in H;
  simpl_state;
  crunch H;
  injection H as _ <-; reflexivity.

Lemma refines_ret {A} (a : A) : refines (mret a) (mret a).
Proof. quiet. Qed.
Lemma refines_gets {A} (f : GraphState -> A) : refines (gets f) (gets f).
Proof. quiet. Qed.
Lemma refines_get_open p :
  refines (reads (fun s => Vec.get (openfaces s) p))
          (reads (fun s => Vec.get (openfaces s) p)).
Proof. quiet. Qed.
Lemma refines_edges_emplace_back a b :
  refines (edges_emplace_back a b) (edges_emplace_back a b).
Proof. quiet. Qed.
Lemma refines_incr_numverts : refines incr_numverts incr_numverts.
Proof. quiet. Qed.
Lemma refines_edges_size : refines edges_size edges_size.
Proof. quiet. Qed.
Lemma refines_faces_size : refines faces_size faces_size.
Proof. quiet. Qed.
Lemma refines_faces_push_back i x :
  refines (faces_push_back i x) (faces_push_back i x).
Proof. quiet. Qed.
Lemma refines_faces_push_front i x :
  refines (faces_push_front i x) (faces_push_front i x).
Proof. quiet. Qed.
Lemma refines_faces_append i j : refines (faces_append i j) (faces_append i j).
Proof. quiet. Qed.
Lemma refines_faces_emplace_back x :
  refines (faces_emplace_back x) (faces_emplace_back x).
Proof. quiet. Qed.
Lemma refines_faces_erase1 i : refines (faces_erase1 i) (faces_erase1 i).
Proof. quiet. Qed.
Lemma refines_openfaces_erase a b :
  refines (openfaces_erase a b) (openfaces_erase a b).
Proof. quiet. Qed.
Lemma refines_openfaces_erase1 a :
  refines (openfaces_erase1 a) (openfaces_erase1 a).
Proof. quiet. Qed.
Lemma refines_openfaces_assign p x :
  refines (openfaces_assign p x) (openfaces_assign p x).
Proof. quiet. Qed.
Lemma refines_openfaces_insert p x :
  refines (openfaces_insert p x) (openfaces_insert p x).
Proof. quiet. Qed.
Lemma refines_front_of i : refines (front_of i) (front_of i).
Proof. quiet. Qed.

Lemma get_quiet {A} (l : list A) i x d : Vec.get l i = Done x d -> d = [].
Proof.
  unfold Vec.get. destruct (nth_error l i); [|discriminate].
  now intros [= _ <-].
Qed.

(** [startpt] and [endpt]: without the assertion, the same vertex. *)
Lemma startpt_agrees s f x d :
  startpt Planar s f = Done x d -> startpt PlanarFast s f = Done x [].
Proof.
  unfold startpt.
  destruct (Vec.get f 0) as [i0 d0| |] eqn:E0; cbn [obind]; try discriminate.
  apply get_quiet in E0 as ->.
  destruct (Vec.get (edges s) i0) as [e0 d1| |] eqn:E1; cbn [obind];
    try discriminate.
  apply get_quiet in E1 as ->.
  destruct (length f =? 1); [now intros [= <- _]|].
  destruct (Vec.get f 1) as [i1 d2| |] eqn:E2; cbn [obind]; try discriminate.
  destruct (Vec.get (edges s) i1) as [e1 d3| |] eqn:E3; cbn [obind];
    try discriminate.
  unfold assert_. destruct (_ && _); cbn; [|discriminate].
  now intros [= <- _].
Qed.

Lemma back_quiet (f : list nat) x d : Vec.back f = Done x d -> d = [].
Proof. unfold Vec.back. destruct f; [discriminate | apply get_quiet]. Qed.

Lemma endpt_agrees s f x d :
  endpt Planar s f = Done x d -> endpt PlanarFast s f = Done x [].
Proof.
  unfold endpt.
  destruct (Vec.back f) as [il d0| |] eqn:E0; cbn [obind]; try discriminate.
  apply back_quiet in E0 as ->.
  destruct (Vec.get (edges s) il) as [e0 d1| |] eqn:E1; cbn [obind];
    try discriminate.
  apply get_quiet in E1 as ->.
  destruct (length f =? 1); [now intros [= <- _]|].
  destruct (Vec.get f (length f - 2)) as [i1 d2| |] eqn:E2; cbn [obind];
    try discriminate.
  destruct (Vec.get (edges s) i1) as [e1 d3| |] eqn:E3; cbn [obind];
    try discriminate.
  unfold assert_. destruct (_ && _); cbn; [|discriminate].
  now intros [= <- _].
Qed.

Lemma refines_startpt_of i :
  refines (startpt_of Planar i) (startpt_of PlanarFast i).
Proof.
  intros s r d. unfold startpt_of, reads, face.
  destruct (Vec.get (faces s) i) as [f d0| |] eqn:E0; cbn [obind];
    try discriminate.
  apply get_quiet in E0 as ->.
  destruct (startpt Planar s f) as [x d1| |] eqn:E; cbn [obind];
    try discriminate.
  rewrite (startpt_agrees _ _ _ _ E). cbn. now intros [= <- _].
Qed.

Lemma refines_endpt_of i :
  refines (endpt_of Planar i) (endpt_of PlanarFast i).
Proof.
  intros s r d. unfold endpt_of, reads, face.
  destruct (Vec.get (faces s) i) as [f d0| |] eqn:E0; cbn [obind];
    try discriminate.
  apply get_quiet in E0 as ->.
  destruct (endpt Planar s f) as [x d1| |] eqn:E; cbn [obind];
    try discriminate.
  rewrite (endpt_agrees _ _ _ _ E). cbn. now intros [= <- _].
Qed.

Lemma refines_assert_that c c' :
  refines (assert_that Planar c) (assert_that PlanarFast c').
Proof.
  intros s r d. unfold assert_that, mret, assert_.
  destruct (c s) as [[|] d0| |]; cbn; try discriminate.
  now intros [= <- _].
Qed.

Lemma refines_countFace i :
  refines (countFace Planar i) (countFace PlanarFast i).
Proof.
  intros s r d. unfold countFace, face.
  destruct (Vec.get (faces s) i) as [f d0| |] eqn:E0; cbn [obind];
    try discriminate.
  apply get_quiet in E0 as ->.
  destruct (length f) as [|[|[|[|[|[|[|k]]]]]]]; cbn;
    now intros [= <- _].
Qed.

Create HintDb refines_db.
#[export] Hint Resolve refines_ret refines_gets refines_get_open
  refines_edges_emplace_back refines_incr_numverts refines_edges_size
  refines_faces_size refines_faces_push_back refines_faces_push_front
  refines_faces_append refines_faces_emplace_back refines_faces_erase1
  refines_openfaces_erase refines_openfaces_erase1 refines_openfaces_assign
  refines_openfaces_insert refines_front_of refines_startpt_of
  refines_endpt_of refines_assert_that refines_countFace refines_undefined
  refines_aborted : refines_db.

Ltac refines_step :=
  lazymatch goal with
  | |- refines (mbind _ _) (mbind _ _) => apply refines_bind; [ | intros ? ]
  | |- refines (if _ then _ else _) (if _ then _ else _) => apply refines_if
  | |- _ => solve [eauto with refines_db]
  end.

Ltac refines_all := repeat refines_step.

Lemma refines_erase_all : forall D, refines (erase_all D) (erase_all D).
Proof.
  induction D as [|ef D IH]; cbn [erase_all]; [apply refines_ret|].
  apply refines_bind; [|intros ?; exact IH].
  unfold erase_dead. apply refines_bind; [quiet | intros ?; refines_all].
Qed.

#[export] Hint Resolve refines_erase_all : refines_db.

Lemma refines_addEdges oF m :
  refines (addEdges Planar oF m) (addEdges PlanarFast oF m).
Proof.
  unfold addEdges.
  apply refines_bind; [apply refines_gets | intros n].
  apply refines_if; [apply refines_undefined|]. cbv zeta.
  destruct m as [|[|[|[|[|[|[|[|[|[|[|m]]]]]]]]]]];
    cbn [addEdges_switch];
    unfold addEdges_1, addEdges_2, addEdges_3_6, addEdges_4_7, addEdges_5,
      addEdges_8, addEdges_9, addEdges_10,
      erase_oF_noF, erase_oF_to_nnnoF, erase_ppoF_to_noF, erase_oF_to_nnoF,
      erase_ppoF_to_oF;
    refines_all.
Qed.

Lemma isValid_agrees oF m s b d :
  isValid Planar oF m s = Done b d -> isValid PlanarFast oF m s = Done b [].
Proof.
  unfold isValid. destruct (length (openfaces s) =? 0); [discriminate|].
  cbv zeta.
  repeat match goal with
         | |- context [openface s ?p] =>
             let E := fresh "E" in
             destruct (openface s p) as [? ?| |] eqn:E; cbn [obind];
             [apply openface_Done in E; subst | discriminate | discriminate]
         end.
  unfold assert_. destruct (1 <? _); cbn; [|discriminate].
  now intros [= <- _].
Qed.

Lemma incMethod_loop_agrees : forall fuel s r d,
  incMethod_loop Planar fuel s = Done r d ->
  incMethod_loop PlanarFast fuel s = Done r [].
Proof.
  induction fuel as [|fuel IH]; intros s r d; cbn [incMethod_loop];
    destruct (medgadd s <=? NUM_METH); try discriminate;
    try (now intros [= <- _]).
  unfold isValid0.
  destruct (isValid Planar _ _ (set_medgadd (S (medgadd s)) s))
    as [b d0| |] eqn:E; cbn [obind]; try discriminate.
  rewrite (isValid_agrees _ _ _ _ _ E). cbn [obind].
  destruct b; [now intros [= <- _]|].
  destruct (incMethod_loop Planar fuel _) as [r1 d1| |] eqn:E1;
    try discriminate.
  intros [= <- _]. now rewrite (IH _ _ _ E1).
Qed.

Lemma sizecheck_agrees s b d :
  sizecheck Planar s = Done b d -> sizecheck PlanarFast s = Done b [].
Proof.
  unfold sizecheck. destruct (sizecheck_faces (faces s) facesoflen0) as [a|];
    [|now intros [= <- _]].
  destruct (sizecheck_open s (openfaces s) a) as [[a'|] d0| |] eqn:E;
    cbn [obind]; try discriminate;
    apply sizecheck_open_Done in E; subst; [|now intros [= <- _]].
  destruct (_ || _); [now intros [= <- _]|].
  unfold assert_. destruct (counts_agree s a'); cbn; [|discriminate].
  now intros [= <- _].
Qed.

Lemma sizefinal_agrees s d :
  sizefinal Planar s = Done true d -> sizefinal PlanarFast s = Done true [].
Proof.
  unfold sizefinal. destruct (sizefinal_faces (faces s) facesoflen0) as [a|];
    [|discriminate].
  unfold obind, oret, warn, assert_. intros H.
  crunch H; injection H as H _; f_equal; exact H.
Qed.

(** ** The prune test *)

Lemma tab_succ a i k :
  i < length a -> tab (Vec.update a i Z.succ) k = (tab a k + ind i k)%Z.
Proof.
  intros H. rewrite tab_update by assumption. unfold ind.
  destruct (Nat.eqb_spec k i) as [->|]; [rewrite Nat.eqb_refl; lia|].
  destruct (Nat.eqb_spec i k); [congruence | lia].
Qed.

Lemma tab_pred a i k :
  i < length a -> tab (Vec.update a i Z.pred) k = (tab a k - ind i k)%Z.
Proof.
  intros H. rewrite tab_update by assumption. unfold ind.
  destruct (Nat.eqb_spec k i) as [->|]; [rewrite Nat.eqb_refl; lia|].
  destruct (Nat.eqb_spec i k); [congruence | lia].
Qed.

Lemma sizecheck_faces_long : forall fs a,
  forallb (fun f => length f <=? 6) fs = false -> sizecheck_faces fs a = None.
Proof.
  induction fs as [|f fs IH]; intros a H; cbn [forallb sizecheck_faces] in *;
    [discriminate|].
  destruct (Nat.ltb_spec 6 (length f)); [reflexivity|].
  destruct (Nat.leb_spec (length f) 6); [|lia]. now apply IH.
Qed.

Lemma sizecheck_faces_short : forall fs a,
  forallb (fun f => length f <=? 6) fs = true -> length a = 7 ->
  exists a', sizecheck_faces fs a = Some a' /\ length a' = 7 /\
             forall k, tab a' k = (tab a k + cnt k (map (@length nat) fs))%Z.
Proof.
  induction fs as [|f fs IH]; intros a H Ha; cbn [forallb sizecheck_faces] in *.
  - exists a. repeat split; auto. intros k. cbn. lia.
  - apply andb_true_iff in H. destruct H as [Hf H].
    apply Nat.leb_le in Hf.
    destruct (Nat.ltb_spec 6 (length f)); [lia|].
    destruct (IH (Vec.update a (length f) Z.succ) H) as (a' & E & Hl & Hk);
      [now rewrite length_update|].
    exists a'. repeat split; auto. intros k.
    rewrite Hk, tab_succ by lia. cbn [map cnt]. lia.
Qed.

Lemma sizecheck_open_long s : forall os a,
  Forall (fun o => o < length (faces s)) os ->
  forallb (fun o => flen (faces s) o <=? 5) os = false ->
  sizecheck_open s os a = Done None [].
Proof.
  induction os as [|o os IH]; intros a Hr H; cbn [forallb sizecheck_open] in *;
    [discriminate|].
  inversion Hr as [|? ? Ho Hr']; subst.
  rewrite face_lt by assumption. cbn [obind]. fold (flen (faces s) o).
  destruct (Nat.ltb_spec 5 (flen (faces s) o)); [reflexivity|].
  destruct (Nat.leb_spec (flen (faces s) o) 5); [|lia].
  cbn [andb] in H. now rewrite (IH _ Hr' H).
Qed.

Lemma sizecheck_open_short s : forall os a,
  Forall (fun o => o < length (faces s)) os ->
  forallb (fun o => flen (faces s) o <=? 5) os = true -> length a = 7 ->
  exists a', sizecheck_open s os a = Done (Some a') [] /\ length a' = 7 /\
             forall k, tab a' k
                       = (tab a k - cnt k (map (flen (faces s)) os))%Z.
Proof.
  induction os as [|o os IH]; intros a Hr H Ha;
    cbn [forallb sizecheck_open] in *.
  - exists a. repeat split; auto. intros k. cbn. lia.
  - inversion Hr as [|? ? Ho Hr']; subst.
    apply andb_true_iff in H. destruct H as [Hf H].
    apply Nat.leb_le in Hf.
    rewrite face_lt by assumption. cbn [obind]. fold (flen (faces s) o).
    destruct (Nat.ltb_spec 5 (flen (faces s) o)); [lia|].
    destruct (IH (Vec.update a (flen (faces s) o) Z.pred) Hr' H)
      as (a' & E & Hl & Hk); [now rewrite length_update|].
    exists a'. rewrite E. repeat split; auto. intros k.
    rewrite Hk, tab_pred by lia. cbn [map cnt]. lia.
Qed.

Lemma tab_facesoflen0 k : tab facesoflen0 k = 0%Z.
Proof.
  unfold tab, facesoflen0.
  do 7 (destruct k as [|k]; [reflexivity|]). now destruct k.
Qed.

(** The value of [sizecheck] on a state that satisfies the invariant. *)
Lemma sizecheck_Inv tu s :
  Inv s ->
  sizecheck tu s
  = Done (forallb (fun f => length f <=? 6) (faces s)
          && forallb (fun o => flen (faces s) o <=? 5) (openfaces s)
          && (nsq s <=? N_SQ) && (npent s <=? N_PENT)) [].
Proof.
  intros [[Hnd Hr] _ _ _ Hc]. unfold sizecheck.
  destruct (forallb (fun f => length f <=? 6) (faces s)) eqn:E1.
  2:{ now rewrite (sizecheck_faces_long _ _ E1). }
  destruct (sizecheck_faces_short _ facesoflen0 E1 eq_refl)
    as (a & -> & Ha & Hk).
  destruct (forallb (fun o => flen (faces s) o <=? 5) (openfaces s)) eqn:E2.
  2:{ now rewrite (sizecheck_open_long s _ a Hr E2). }
  destruct (sizecheck_open_short s _ a Hr E2 Ha) as (a' & -> & Ha' & Hk').
  cbn [obind andb app].
  assert (T : forall k, tab a' k = announced k s).
  { intros k. rewrite Hk', Hk, tab_facesoflen0, <- Hc. unfold cl. lia. }
  assert (T0 : tab a' 0 = 0%Z) by (rewrite T; now apply announced_outside).
  assert (T1 : tab a' 1 = 0%Z) by (rewrite T; now apply announced_outside).
  assert (T2 : tab a' 2 = 0%Z) by (rewrite T; now apply announced_outside).
  assert (T3 : tab a' 3 = 1%Z).
  { rewrite T. unfold announced, ind. cbn [Nat.eqb]. lia. }
  assert (T4 : tab a' 4 = Z.of_nat (nsq s)).
  { rewrite T. unfold announced, ind. cbn [Nat.eqb]. lia. }
  assert (T5 : tab a' 5 = Z.of_nat (npent s)).
  { rewrite T. unfold announced, ind. cbn [Nat.eqb]. lia. }
  assert (T6 : tab a' 6 = Z.of_nat (nhex s)).
  { rewrite T. unfold announced, ind. cbn [Nat.eqb]. lia. }
  unfold counts_agree. rewrite T0, T1, T2, T3, T4, T5, T6.
  rewrite !Z.eqb_refl. cbn [negb orb andb].
  unfold assert_. replace (match tu with Planar => oret tt | PlanarFast => oret tt end)
    with (oret tt) by now destruct tu.
  cbn [obind oret app]. f_equal. unfold N_TRI, N_SQ, N_PENT.
  destruct (Nat.leb_spec (nsq s) 2), (Nat.leb_spec (npent s) 5),
    (Z.leb_spec (Z.of_nat (nsq s)) (Z.of_nat 2)),
    (Z.leb_spec (Z.of_nat (npent s)) (Z.of_nat 5)); cbn; try reflexivity; lia.
Qed.

(** ** [startpt] and [endpt] *)

Lemma get_Some {A} (l : list A) i x d :
  Vec.get l i = Done x d <-> nth_error l i = Some x /\ d = [].
Proof.
  unfold Vec.get. destruct (nth_error l i) as [y|]; split.
  - now intros [= <- <-].
  - now intros [[= <-] ->].
  - discriminate.
  - now intros [[=] _].
Qed.

Lemma back_Some (f : list nat) x d :
  Vec.back f = Done x d <->
  f <> [] /\ nth_error f (length f - 1) = Some x /\ d = [].
Proof.
  unfold Vec.back. destruct f as [|y f].
  - split; [discriminate | now intros [[] _]].
  - rewrite get_Some. split; [intros [H ->] | intros (_ & H & ->)]; auto.
    repeat split; [discriminate | exact H].
Qed.

(** Whenever [startpt] of [planar.cc] returns, it returns the first
    vertex of the first edge of the face, which is what [planar-fast.cc]
    writes in its place; and that vertex is not on the second edge. *)
Lemma startpt_value s f x d :
  startpt Planar s f = Done x d ->
  d = [] /\ startpt PlanarFast s f = Done x [] /\
  exists i e,
    nth_error f 0 = Some i /\ nth_error (edges s) i = Some e /\ x = v1 e /\
    (length f <> 1 ->
     exists j e', nth_error f 1 = Some j /\ nth_error (edges s) j = Some e' /\
                  v1 e <> v1 e' /\ v1 e <> v2 e').
Proof.
  unfold startpt.
  destruct (Vec.get f 0) as [i0 d0| |] eqn:E0; cbn [obind]; try discriminate.
  apply get_Some in E0. destruct E0 as [E0 ->].
  destruct (Vec.get (edges s) i0) as [e0 d1| |] eqn:E1; cbn [obind];
    try discriminate.
  apply get_Some in E1. destruct E1 as [E1 ->].
  destruct (Nat.eqb_spec (length f) 1) as [L|L].
  { intros [= <- <-]. repeat split. exists i0, e0. repeat split; auto.
    intros; contradiction. }
  destruct (Vec.get f 1) as [i1 d2| |] eqn:E2; cbn [obind]; try discriminate.
  apply get_Some in E2. destruct E2 as [E2 ->].
  destruct (Vec.get (edges s) i1) as [e1 d3| |] eqn:E3; cbn [obind];
    try discriminate.
  apply get_Some in E3. destruct E3 as [E3 ->].
  unfold assert_.
  destruct (Nat.eqb_spec (v1 e0) (v1 e1)), (Nat.eqb_spec (v1 e0) (v2 e1));
    cbn; try discriminate.
  intros [= <- <-]. repeat split. exists i0, e0. repeat split; auto.
  intros _. exists i1, e1. auto.
Qed.

(** The same for [endpt]: the second vertex of the last edge, which is
    not on the edge before it. *)
Lemma endpt_value s f x d :
  endpt Planar s f = Done x d ->
  d = [] /\ endpt PlanarFast s f = Done x [] /\
  exists i e,
    nth_error f (length f - 1) = Some i /\ nth_error (edges s) i = Some e /\
    x = v2 e /\
    (length f <> 1 ->
     exists j e', nth_error f (length f - 2) = Some j /\
                  nth_error (edges s) j = Some e' /\
                  v2 e <> v1 e' /\ v2 e <> v2 e').
Proof.
  unfold endpt.
  destruct (Vec.back f) as [il d0| |] eqn:E0; cbn [obind]; try discriminate.
  apply back_Some in E0. destruct E0 as (_ & E0 & ->).
  destruct (Vec.get (edges s) il) as [e0 d1| |] eqn:E1; cbn [obind];
    try discriminate.
  apply get_Some in E1. destruct E1 as [E1 ->].
  destruct (Nat.eqb_spec (length f) 1) as [L|L].
  { intros [= <- <-]. repeat split. exists il, e0. repeat split; auto.
    intros; contradiction. }
  destruct (Vec.get f (length f - 2)) as [i1 d2| |] eqn:E2; cbn [obind];
    try discriminate.
  apply get_Some in E2. destruct E2 as [E2 ->].
  destruct (Vec.get (edges s) i1) as [e1 d3| |] eqn:E3; cbn [obind];
    try discriminate.
  apply get_Some in E3. destruct E3 as [E3 ->].
  unfold assert_.
  destruct (Nat.eqb_spec (v2 e0) (v1 e1)), (Nat.eqb_spec (v2 e0) (v2 e1));
    cbn; try discriminate.
  intros [= <- <-]. repeat split. exists il, e0. repeat split; auto.
  intros _. exists i1, e1. auto.
Qed.

(** ** The loops of the two drivers, step by step *)

Lemma emplace_spec x set set' fresh :
  emplace x set = (set', fresh) ->
  (fresh = false /\ set' = set /\ In x set) \/
  (fresh = true /\ set' = x :: set /\ ~ In x set).
Proof.
  unfold emplace. destruct (existsb (list_nat_eqb x) set) eqn:E;
    intros [= <- <-]; [left | right]; repeat split.
  - apply existsb_exists in E. destruct E as (y & Hy & E).
    unfold list_nat_eqb in E. destruct (list_eq_dec Nat.eq_dec x y);
      [now subst | discriminate].
  - intros Hx. assert (E' : existsb (list_nat_eqb x) set = true).
    { apply existsb_exists. exists x. split; [assumption|].
      unfold list_nat_eqb. now destruct (list_eq_dec Nat.eq_dec x x). }
    congruence.
Qed.

(** What [closed_map] of [planar.cc] leaves: the map and the stack are
    kept, [pop] is set, and either the registry and the tally are kept,
    or the map is within the bound and passes the completion test, a new
    canonical form is recorded and counted, and its line is printed. *)
Lemma planar_closed_map_cases MAX orc c c' d :
  PlanarMain.closed_map MAX orc c = Done c' d ->
  PlanarMain.G c' = PlanarMain.G c /\
  PlanarMain.graphStack c' = PlanarMain.graphStack c /\
  PlanarMain.pop c' = true /\
  ((PlanarMain.canonslns c' = PlanarMain.canonslns c /\
    PlanarMain.nsuccess c' = PlanarMain.nsuccess c /\
    (PlanarMain.cout c' = PlanarMain.cout c \/
     PlanarMain.cout c' = PlanarMain.cout c ++ [PlanarMain.Whoops])) \/
   (exists canong l d0 d2,
      length (faces (PlanarMain.G c)) <= MAX /\
      sizefinal Planar (PlanarMain.G c) = Done true d0 /\
      ~ In canong (PlanarMain.canonslns c) /\
      PlanarMain.canonslns c' = canong :: PlanarMain.canonslns c /\
      PlanarMain.nsuccess c' = S (PlanarMain.nsuccess c) /\
      PlanarMain.print_solution (S (PlanarMain.nsuccess c)) (PlanarMain.G c)
      = Done l d2 /\
      PlanarMain.cout c' = PlanarMain.cout c ++ [l])).
Proof.
  unfold PlanarMain.closed_map, PlanarMain.set_pop. intros H.
  cbn [PlanarMain.G PlanarMain.graphStack PlanarMain.canonslns
       PlanarMain.nsuccess PlanarMain.cout] in H.
  destruct (Nat.ltb_spec MAX (length (faces (PlanarMain.G c)))) as [HM|HM].
  { injection H as <- _. cbn. repeat split. left. auto. }
  destruct (sizefinal Planar (PlanarMain.G c)) as [[|] d0| |] eqn:ES;
    cbn [obind] in H; try discriminate.
  2:{ injection H as <- _. cbn. repeat split. left. auto. }
  destruct (canongraph orc Planar (PlanarMain.G c)) as [canong d1| |];
    cbn [obind] in H; try discriminate.
  destruct (emplace canong (PlanarMain.canonslns c)) as [set fresh] eqn:E.
  apply emplace_spec in E.
  destruct E as [(-> & -> & Hin)|(-> & -> & Hin)].
  - injection H as <- _. cbn. repeat split. left. auto.
  - destruct (PlanarMain.print_solution _ _) as [l d2| |] eqn:EP;
      cbn [obind] in H; try discriminate.
    injection H as <- _. cbn. repeat split. right.
    exists canong, l, d0, d2. auto 10.
Qed.

(** What follows [G.addEdges()] in [planar.cc]: the driver backtracks with
    the map and the stack it has, or runs [closed_map], or goes on, not too
    deep, with at least two open faces and the face [chooseFace] picks. *)
Lemma planar_after_addEdges_cases MAX orc c c' d :
  PlanarMain.after_addEdges MAX orc c = Done c' d ->
  c' = PlanarMain.set_pop c \/
  (openfaces (PlanarMain.G c) = [] /\
   exists d', PlanarMain.closed_map MAX orc c = Done c' d') \/
  (too_deep MAX (PlanarMain.graphStack c) = false /\
   2 <= length (openfaces (PlanarMain.G c)) /\
   sizecheck Planar (PlanarMain.G c) = Done true [] /\
   exists s', chooseFace (PlanarMain.G c) = Done (tt, s') [] /\
     c' = PlanarMain.mkConfig s' (PlanarMain.graphStack c)
            (PlanarMain.canonslns c) (PlanarMain.nsuccess c) false
            (PlanarMain.cout c)).
Proof.
  unfold PlanarMain.after_addEdges. intros H.
  destruct (PlanarMain.seen_by_symmetry (PlanarMain.G c)) as [[|] d0| |];
    cbn [obind] in H; try discriminate.
  { left. now injection H as <- _. }
  destruct (Nat.eqb_spec (length (openfaces (PlanarMain.G c))) 0) as [E0|E0].
  { right. left. split; [now apply length_zero_iff_nil|].
    destruct (PlanarMain.closed_map MAX orc c) as [c2 d2| |];
      try discriminate.
    injection H as <- _. now exists d2. }
  destruct (too_deep MAX (PlanarMain.graphStack c)) eqn:ET.
  { left. now injection H as <- _. }
  destruct (Nat.eqb_spec (length (openfaces (PlanarMain.G c))) 1) as [E1|E1].
  { left. now injection H as <- _. }
  destruct (sizecheck Planar (PlanarMain.G c)) as [[|] d1| |] eqn:ES;
    cbn [obind negb] in H; try discriminate.
  2:{ left. now injection H as <- _. }
  pose proof (sizecheck_Done _ _ _ _ ES). subst d1.
  destruct (chooseFace (PlanarMain.G c)) as [[[] s'] d2| |] eqn:EC;
    cbn [obind] in H; try discriminate.
  right. right. split; [reflexivity|]. split; [lia|]. split; [reflexivity|].
  destruct (chooseFace_total (PlanarMain.G c)) as [(x & EC')|EC'];
    [|congruence].
  rewrite EC' in EC. injection EC as -> <-.
  exists s'. split; [reflexivity|]. now injection H as <- _.
Qed.

(** One turn of the loop of [planar.cc] that does not leave it: the map
    [g] taken from the stack or kept, [incMethod], and then either the
    backtrack or [addEdges] and what follows it. *)
Lemma planar_loop_body_cases MAX orc c c' d :
  PlanarMain.loop_body MAX orc c = Done (Some c') d ->
  exists g st,
    ((PlanarMain.pop c = true /\ PlanarMain.graphStack c = g :: st) \/
     (PlanarMain.pop c = false /\ g = PlanarMain.G c /\
      st = PlanarMain.graphStack c)) /\
    exists b s1 d1,
      incMethod Planar g = Done (b, s1) d1 /\
      ((b = false /\
        c' = PlanarMain.mkConfig s1 st (PlanarMain.canonslns c)
               (PlanarMain.nsuccess c) true (PlanarMain.cout c)) \/
       (b = true /\
        exists s2 d2 d3,
          addEdges0 Planar s1 = Done (tt, s2) d2 /\
          PlanarMain.after_addEdges MAX orc
            (PlanarMain.mkConfig s2 (s1 :: st) (PlanarMain.canonslns c)
               (PlanarMain.nsuccess c) false (PlanarMain.cout c))
          = Done c' d3)).
Proof.
  unfold PlanarMain.loop_body. intros H.
  assert (HP : exists g st,
             ((PlanarMain.pop c = true /\ PlanarMain.graphStack c = g :: st) \/
              (PlanarMain.pop c = false /\ g = PlanarMain.G c /\
               st = PlanarMain.graphStack c)) /\
             (r <- incMethod Planar g ;;
              if negb (fst r)
              then oret (Some (PlanarMain.mkConfig (snd r) st
                                 (PlanarMain.canonslns c)
                                 (PlanarMain.nsuccess c) true
                                 (PlanarMain.cout c)))
              else
                r' <- addEdges0 Planar (snd r) ;;
                c' <- PlanarMain.after_addEdges MAX orc
                        (PlanarMain.mkConfig (snd r') (snd r :: st)
                           (PlanarMain.canonslns c) (PlanarMain.nsuccess c)
                           false (PlanarMain.cout c)) ;;
                oret (Some c'))%outcome = Done (Some c') d).
  { destruct (PlanarMain.pop c) eqn:Ep.
    - destruct (PlanarMain.graphStack c) as [|top rest] eqn:Es;
        [discriminate|].
      exists top, rest. split; [left; auto | exact H].
    - exists (PlanarMain.G c), (PlanarMain.graphStack c).
      split; [right; auto | exact H]. }
  clear H. destruct HP as (g & st & Hp & H). exists g, st.
  split; [exact Hp|].
  destruct (incMethod Planar g) as [[b s1] d1| |];
    cbn [obind fst snd] in H; try discriminate.
  exists b, s1, d1. split; [reflexivity|].
  destruct b; cbn [negb] in H.
  - right. split; [reflexivity|].
    destruct (addEdges0 Planar s1) as [[[] s2] d2| |];
      cbn [obind fst snd] in H; try discriminate.
    destruct (PlanarMain.after_addEdges MAX orc _) as [c2 d3| |] eqn:EF;
      cbn [obind] in H; try discriminate.
    unfold oret in H. assert (c2 = c') by congruence. subst c2.
    exists s2, d2, d3. split; [reflexivity | exact EF].
  - left. split; [reflexivity|]. unfold oret in H. congruence.
Qed.

(** What [closed_map] of [planar-fast.cc] leaves: the map and the stack
    are kept, [pop] is set, and either the registry and the tallies are
    kept, or the map passes the completion test within the bound, a new
    canonical form is recorded and the tally of its number of hexagons is
    incremented. *)
Lemma fast_closed_map_cases MAX orc c c' d :
  FastMain.closed_map MAX orc c = Done c' d ->
  FastMain.G c' = FastMain.G c /\
  FastMain.graphStack c' = FastMain.graphStack c /\
  FastMain.pop c' = true /\
  ((FastMain.canonslns c' = FastMain.canonslns c /\
    FastMain.nsuccess c' = FastMain.nsuccess c) \/
   (exists canong d0,
      length (faces (FastMain.G c)) <= MAX /\
      sizefinal PlanarFast (FastMain.G c) = Done true d0 /\
      ~ In canong (FastMain.canonslns c) /\
      FastMain.canonslns c' = canong :: FastMain.canonslns c /\
      nhex (FastMain.G c) < length (FastMain.nsuccess c) /\
      FastMain.nsuccess c'
      = Vec.update (FastMain.nsuccess c) (nhex (FastMain.G c)) S)).
Proof.
  unfold FastMain.closed_map, FastMain.set_pop. intros H.
  destruct (sizefinal PlanarFast (FastMain.G c)) as [ok d0| |] eqn:ES;
    cbn [obind] in H; try discriminate.
  destruct ok; cbn [andb] in H.
  2:{ injection H as <- _. cbn. repeat split. left. auto. }
  destruct (Nat.leb_spec (length (faces (FastMain.G c))) MAX) as [HM|HM].
  2:{ injection H as <- _. cbn. repeat split. left. auto. }
  destruct (canongraph orc PlanarFast (FastMain.G c)) as [canong d1| |];
    cbn [obind] in H; try discriminate.
  destruct (emplace canong (FastMain.canonslns c)) as [set fresh] eqn:E.
  apply emplace_spec in E.
  destruct E as [(-> & -> & Hin)|(-> & -> & Hin)].
  - injection H as <- _. cbn. repeat split. left. auto.
  - unfold bump in H.
    destruct (Nat.ltb_spec (nhex (FastMain.G c)) (length (FastMain.nsuccess c)));
      cbn [obind oret] in H; try discriminate.
    injection H as <- _. cbn. repeat split. right.
    exists canong, d0. auto 10.
Qed.

Lemma fast_after_addEdges_cases MAX orc c c' d :
  FastMain.after_addEdges MAX orc c = Done c' d ->
  c' = FastMain.set_pop c \/
  (openfaces (FastMain.G c) = [] /\
   exists d', FastMain.closed_map MAX orc c = Done c' d') \/
  (too_deep MAX (FastMain.graphStack c) = false /\
   2 <= length (openfaces (FastMain.G c)) /\
   sizecheck PlanarFast (FastMain.G c) = Done true [] /\
   exists s', chooseFace (FastMain.G c) = Done (tt, s') [] /\
     c' = FastMain.mkConfig s' (FastMain.graphStack c)
            (FastMain.canonslns c) (FastMain.nsuccess c) false).
Proof.
  unfold FastMain.after_addEdges. intros H.
  destruct (Nat.eqb_spec (length (openfaces (FastMain.G c))) 0) as [E0|E0].
  { right. left. split; [now apply length_zero_iff_nil|]. now exists d. }
  destruct (too_deep MAX (FastMain.graphStack c)) eqn:ET.
  { left. now injection H as <- _. }
  destruct (Nat.eqb_spec (length (openfaces (FastMain.G c))) 1) as [E1|E1].
  { left. now injection H as <- _. }
  destruct (sizecheck PlanarFast (FastMain.G c)) as [[|] d1| |] eqn:ES;
    cbn [obind negb] in H; try discriminate.
  2:{ left. now injection H as <- _. }
  pose proof (sizecheck_Done _ _ _ _ ES). subst d1.
  destruct (chooseFace (FastMain.G c)) as [[[] s'] d2| |] eqn:EC;
    cbn [obind] in H; try discriminate.
  right. right. split; [reflexivity|]. split; [lia|]. split; [reflexivity|].
  destruct (chooseFace_total (FastMain.G c)) as [(x & EC')|EC'];
    [|congruence].
  rewrite EC' in EC. injection EC as -> <-.
  exists s'. split; [reflexivity|]. now injection H as <- _.
Qed.

Lemma fast_loop_body_cases MAX orc c c' d :
  FastMain.loop_body MAX orc c = Done (Some c') d ->
  exists g st,
    ((FastMain.pop c = true /\ FastMain.graphStack c = g :: st) \/
     (FastMain.pop c = false /\ g = FastMain.G c /\
      st = FastMain.graphStack c)) /\
    exists b s1 d1,
      incMethod PlanarFast g = Done (b, s1) d1 /\
      ((b = false /\
        c' = FastMain.mkConfig s1 st (FastMain.canonslns c)
               (FastMain.nsuccess c) true) \/
       (b = true /\
        exists s2 d2 d3,
          addEdges0 PlanarFast s1 = Done (tt, s2) d2 /\
          FastMain.after_addEdges MAX orc
            (FastMain.mkConfig s2 (s1 :: st) (FastMain.canonslns c)
               (FastMain.nsuccess c) false)
          = Done c' d3)).
Proof.
  unfold FastMain.loop_body. intros H.
  assert (HP : exists g st,
             ((FastMain.pop c = true /\ FastMain.graphStack c = g :: st) \/
              (FastMain.pop c = false /\ g = FastMain.G c /\
               st = FastMain.graphStack c)) /\
             (r <- incMethod PlanarFast g ;;
              if negb (fst r)
              then oret (Some (FastMain.mkConfig (snd r) st
                                 (FastMain.canonslns c)
                                 (FastMain.nsuccess c) true))
              else
                r' <- addEdges0 PlanarFast (snd r) ;;
                c' <- FastMain.after_addEdges MAX orc
                        (FastMain.mkConfig (snd r') (snd r :: st)
                           (FastMain.canonslns c) (FastMain.nsuccess c)
                           false) ;;
                oret (Some c'))%outcome = Done (Some c') d).
  { destruct (FastMain.pop c) eqn:Ep.
    - destruct (FastMain.graphStack c) as [|top rest] eqn:Es;
        [discriminate|].
      exists top, rest. split; [left; auto | exact H].
    - exists (FastMain.G c), (FastMain.graphStack c).
      split; [right; auto | exact H]. }
  clear H. destruct HP as (g & st & Hp & H). exists g, st.
  split; [exact Hp|].
  destruct (incMethod PlanarFast g) as [[b s1] d1| |];
    cbn [obind fst snd] in H; try discriminate.
  exists b, s1, d1. split; [reflexivity|].
  destruct b; cbn [negb] in H.
  - right. split; [reflexivity|].
    destruct (addEdges0 PlanarFast s1) as [[[] s2] d2| |];
      cbn [obind fst snd] in H; try discriminate.
    destruct (FastMain.after_addEdges MAX orc _) as [c2 d3| |] eqn:EF;
      cbn [obind] in H; try discriminate.
    unfold oret in H. assert (c2 = c') by congruence. subst c2.
    exists s2, d2, d3. split; [reflexivity | exact EF].
  - left. split; [reflexivity|]. unfold oret in H. congruence.
Qed.

(** ** The depth of the stack *)

Lemma planar_depth_step MAX orc c c' d :
  4 <= MAX ->
  length (PlanarMain.graphStack c) <= MAX - 3 ->
  (PlanarMain.pop c = false -> length (PlanarMain.graphStack c) <= MAX - 4) ->
  PlanarMain.loop_body MAX orc c = Done (Some c') d ->
  length (PlanarMain.graphStack c') <= MAX - 3 /\
  (PlanarMain.pop c' = false -> length (PlanarMain.graphStack c') <= MAX - 4).
Proof.
  intros HM H3 H4 H.
  destruct (planar_loop_body_cases _ _ _ _ _ H)
    as (g & st & Hp & b & s1 & d1 & _ & Hb).
  assert (Hst : length st <= MAX - 4).
  { destruct Hp as [[_ E]|(Ep & _ & ->)]; [|auto].
    rewrite E in H3. cbn in H3. lia. }
  destruct Hb as [(_ & ->)|(_ & s2 & d2 & d3 & _ & HA)]; [cbn; lia|].
  apply planar_after_addEdges_cases in HA.
  destruct HA as [->|[(_ & d' & HC)|(HT & _ & _ & s' & _ & ->)]].
  - cbn. split; [lia | discriminate].
  - apply planar_closed_map_cases in HC. destruct HC as (_ & -> & -> & _).
    cbn. split; [lia | discriminate].
  - cbn in *. unfold too_deep in HT.
    destruct (Nat.leb_spec 4 MAX); [|lia].
    cbn [andb length] in HT. apply Nat.ltb_ge in HT.
    split; [lia | intros _; lia].
Qed.

Lemma fast_depth_step MAX orc c c' d :
  4 <= MAX ->
  length (FastMain.graphStack c) <= MAX - 3 ->
  (FastMain.pop c = false -> length (FastMain.graphStack c) <= MAX - 4) ->
  FastMain.loop_body MAX orc c = Done (Some c') d ->
  length (FastMain.graphStack c') <= MAX - 3 /\
  (FastMain.pop c' = false -> length (FastMain.graphStack c') <= MAX - 4).
Proof.
  intros HM H3 H4 H.
  destruct (fast_loop_body_cases _ _ _ _ _ H)
    as (g & st & Hp & b & s1 & d1 & _ & Hb).
  assert (Hst : length st <= MAX - 4).
  { destruct Hp as [[_ E]|(Ep & _ & ->)]; [|auto].
    rewrite E in H3. cbn in H3. lia. }
  destruct Hb as [(_ & ->)|(_ & s2 & d2 & d3 & _ & HA)]; [cbn; lia|].
  apply fast_after_addEdges_cases in HA.
  destruct HA as [->|[(_ & d' & HC)|(HT & _ & _ & s' & _ & ->)]].
  - cbn. split; [lia | discriminate].
  - apply fast_closed_map_cases in HC. destruct HC as (_ & -> & -> & _).
    cbn. split; [lia | discriminate].
  - cbn in *. unfold too_deep in HT.
    destruct (Nat.leb_spec 4 MAX); [|lia].
    cbn [andb length] in HT. apply Nat.ltb_ge in HT.
    split; [lia | intros _; lia].
Qed.

Lemma planar_depth_turns MAX orc : forall n c c' d,
  4 <= MAX ->
  length (PlanarMain.graphStack c) <= MAX - 3 ->
  (PlanarMain.pop c = false -> length (PlanarMain.graphStack c) <= MAX - 4) ->
  PlanarMain.turns MAX orc n c = Done (Some c') d ->
  length (PlanarMain.graphStack c') <= MAX - 3 /\
  (PlanarMain.pop c' = false -> length (PlanarMain.graphStack c') <= MAX - 4).
Proof.
  induction n as [|n IH]; intros c c' d HM H3 H4; cbn [PlanarMain.turns].
  - intros [= <- _]. auto.
  - destruct (PlanarMain.loop_body MAX orc c) as [[c1|] d1| |] eqn:E;
      cbn [obind]; try discriminate.
    destruct (PlanarMain.turns MAX orc n c1) as [r d2| |] eqn:E';
      try discriminate.
    intros [= -> _].
    destruct (planar_depth_step _ _ _ _ _ HM H3 H4 E) as [H3' H4'].
    exact (IH c1 c' d2 HM H3' H4' E').
Qed.

Lemma fast_depth_turns MAX orc : forall n c c' d,
  4 <= MAX ->
  length (FastMain.graphStack c) <= MAX - 3 ->
  (FastMain.pop c = false -> length (FastMain.graphStack c) <= MAX - 4) ->
  FastMain.turns MAX orc n c = Done (Some c') d ->
  length (FastMain.graphStack c') <= MAX - 3 /\
  (FastMain.pop c' = false -> length (FastMain.graphStack c') <= MAX - 4).
Proof.
  induction n as [|n IH]; intros c c' d HM H3 H4; cbn [FastMain.turns].
  - intros [= <- _]. auto.
  - destruct (FastMain.loop_body MAX orc c) as [[c1|] d1| |] eqn:E;
      cbn [obind]; try discriminate.
    destruct (FastMain.turns MAX orc n c1) as [r d2| |] eqn:E';
      try discriminate.
    intros [= -> _].
    destruct (fast_depth_step _ _ _ _ _ HM H3 H4 E) as [H3' H4'].
    exact (IH c1 c' d2 HM H3' H4' E').
Qed.

(** ** The maps the search accepts *)

Lemma sizefinal_true_profile tu s d :
  sizefinal tu s = Done true d -> profile_1_2_5 s.
Proof.
  destruct tu; [intros H; exact (proj1 (sizefinal_planar_true s d H))|].
  unfold sizefinal.
  destruct (sizefinal_faces (faces s) facesoflen0) as [a|] eqn:Ea;
    [|discriminate].
  apply sizefinal_faces_Some in Ea; [|reflexivity].
  destruct Ea as (La & HF & Htab). intros [= H].
  rewrite !Htab in H. unfold facesoflen0, tab in H. cbn [repeat nth] in H.
  rewrite !andb_true_iff, !Z.eqb_eq in H. destruct H as [[H3 H4] H5].
  unfold profile_1_2_5, N_TRI, N_SQ, N_PENT in *. repeat split; auto; lia.
Qed.

Lemma length_by_count_len (fs : list (list nat)) :
  Forall (fun f => 3 <= length f <= 6) fs ->
  length fs = count_len 3 fs + count_len 4 fs + count_len 5 fs + count_len 6 fs.
Proof.
  induction 1 as [|f fs Hf _ IH]; [reflexivity|].
  rewrite !count_len_cons. cbn [length]. rewrite IH.
  destruct (Nat.eqb_spec (length f) 3), (Nat.eqb_spec (length f) 4),
    (Nat.eqb_spec (length f) 5), (Nat.eqb_spec (length f) 6); lia.
Qed.

Lemma closed_counts s k :
  Inv s -> openfaces s = [] ->
  Z.of_nat (count_len k (faces s)) = announced k s.
Proof.
  intros HI Ho. rewrite <- (inv_closed s HI k). rewrite Ho.
  unfold cl. cbn [map cnt]. rewrite cnt_count_len. lia.
Qed.

Lemma closed_sizes tu s d :
  Inv s -> openfaces s = [] -> sizefinal tu s = Done true d ->
  nsq s = N_SQ /\ npent s = N_PENT /\
  length (faces s) = nhex s + 8 /\
  numverts s = 2 * nhex s + 12 /\
  length (edges s) = 3 * nhex s + 18.
Proof.
  intros HI Ho Hf.
  apply sizefinal_true_profile in Hf. destruct Hf as (HF & H3 & H4 & H5).
  pose proof (closed_counts s 4 HI Ho) as C4.
  pose proof (closed_counts s 5 HI Ho) as C5.
  pose proof (closed_counts s 6 HI Ho) as C6.
  unfold announced, ind in C4, C5, C6. cbn [Nat.eqb] in C4, C5, C6.
  pose proof (length_by_count_len _ HF) as HL.
  destruct HI as [_ _ Hd He _]. rewrite Ho in Hd, He. cbn in Hd, He.
  unfold N_TRI, N_SQ, N_PENT in *. lia.
Qed.

(** ** What [operator<<] prints *)

Lemma in_combine_seq {A} (fs : list A) : forall a j f,
  In (j, f) (combine (seq a (length fs)) fs) ->
  a <= j /\ nth_error fs (j - a) = Some f.
Proof.
  induction fs as [|x fs IH]; intros a j f; cbn [length seq combine];
    [intros []|].
  intros [[= <- <-]|H].
  - split; [lia|]. now rewrite Nat.sub_diag.
  - apply IH in H. destruct H as [H1 H2]. split; [lia|].
    replace (j - a) with (S (j - S a)) by lia. exact H2.
Qed.

Lemma get_nth_error {A} (l : list A) i x d :
  Vec.get l i = Done x d -> nth_error l i = Some x /\ d = [].
Proof.
  unfold Vec.get. destruct (nth_error l i); [|discriminate].
  now intros [= <- <-].
Qed.

Lemma skipn_nth_error {A} : forall (l : list A) a x,
  nth_error l a = Some x -> skipn a l = x :: skipn (S a) l.
Proof.
  induction l as [|y l IH]; intros [|a] x; cbn [nth_error]; try discriminate.
  - now intros [= <-].
  - intros H. apply IH in H. exact H.
Qed.

(** An entry of [nbrs_of_edge s i e] is the length of a face other than
    [i] that has the edge [e]. *)
Lemma nbrs_of_edge_In s i e k :
  In k (PlanarMain.nbrs_of_edge s i e) ->
  exists j f, j <> i /\ nth_error (faces s) j = Some f /\ In e f /\
              k = length f.
Proof.
  unfold PlanarMain.nbrs_of_edge. intros H.
  apply in_flat_map in H. destruct H as ([j f] & Hin & Hk).
  cbn [fst snd] in Hk.
  destruct (Nat.eqb_spec j i) as [|Hne]; [destruct Hk|].
  destruct (existsb (Nat.eqb e) f) eqn:Ex; [|destruct Hk].
  destruct Hk as [<-|[]].
  apply in_combine_seq in Hin. destruct Hin as [_ Hn].
  rewrite Nat.sub_0_r in Hn.
  apply existsb_exists in Ex. destruct Ex as (e' & He' & Ee).
  apply Nat.eqb_eq in Ee. subst e'.
  now exists j, f.
Qed.

Lemma printnbrs_edges_Done s i : forall es x d,
  PlanarMain.printnbrs_edges s i es = Done x d ->
  d = [] /\
  Forall2 (fun e k => PlanarMain.nbrs_of_edge s i e = [k]) es x.
Proof.
  induction es as [|e es IH]; intros x d; cbn [PlanarMain.printnbrs_edges].
  - intros [= <- <-]. split; [reflexivity | constructor].
  - unfold assert_.
    destruct (PlanarMain.nbrs_of_edge s i e) as [|k [|k' r]] eqn:E;
      cbn [length Nat.eqb obind]; try discriminate.
    destruct (PlanarMain.printnbrs_edges s i es) as [rest d1| |] eqn:E1;
      cbn [obind oret app]; try discriminate.
    intros [= <- <-]. destruct (IH _ _ eq_refl) as [-> HF].
    split; [reflexivity|]. cbn [app]. now constructor.
Qed.

Lemma printnbrs_Done s i x d :
  PlanarMain.printnbrs s i = Done x d ->
  d = [] /\
  exists f, nth_error (faces s) i = Some f /\
    Forall2 (fun e k => PlanarMain.nbrs_of_edge s i e = [k]) f x.
Proof.
  unfold PlanarMain.printnbrs. intros H.
  apply obind_Done in H. destruct H as (f & d1 & d2 & Hf & H & ->).
  apply get_nth_error in Hf. destruct Hf as [Hf ->].
  apply printnbrs_edges_Done in H. destruct H as [-> H].
  split; [reflexivity|]. now exists f.
Qed.

Lemma print_squares_Done s : forall m a x d,
  a + m = length (faces s) ->
  PlanarMain.print_squares s (seq a m) = Done x d ->
  d = [] /\
  length x = count_len 4 (skipn a (faces s)) /\
  Forall (fun q => length q = 4) x.
Proof.
  induction m as [|m IH]; intros a x d Ha; cbn [seq PlanarMain.print_squares].
  - intros [= <- <-]. rewrite skipn_all2 by lia. repeat split. constructor.
  - intros H.
    apply obind_Done in H. destruct H as (f & d1 & d2 & Hf & H & ->).
    apply get_nth_error in Hf. destruct Hf as [Hf ->].
    assert (Es : skipn a (faces s) = f :: skipn (S a) (faces s)).
    { now apply skipn_nth_error. }
    rewrite Es, count_len_cons.
    destruct (Nat.eqb_spec (length f) 4) as [E4|E4].
    + apply obind_Done in H. destruct H as (q & d5 & d6 & Hq & H & ->).
      apply obind_Done in H. destruct H as (r & d3 & d4 & Hr & H & ->).
      injection H as <- <-.
      apply printnbrs_Done in Hq. destruct Hq as (-> & f' & Hf' & HF).
      assert (f' = f) by congruence. subst f'.
      apply Forall2_length in HF.
      apply IH in Hr; [|lia]. destruct Hr as (-> & Hl & HA).
      repeat split; [cbn [length]; lia|]. constructor; [congruence | exact HA].
    + apply IH in H; [|lia]. destruct H as (-> & Hl & HA).
      repeat split; [lia | exact HA].
Qed.

Lemma print_solution_Done k s l d :
  PlanarMain.print_solution k s = Done l d ->
  d = [] /\
  exists tri sqr f0,
    l = PlanarMain.Solution k tri sqr (nhex s) (numverts s) /\
    nth_error (faces s) 0 = Some f0 /\
    Forall2 (fun e n => PlanarMain.nbrs_of_edge s 0 e = [n]) f0 tri /\
    length sqr = count_len 4 (faces s) /\
    Forall (fun q => length q = 4) sqr.
Proof.
  unfold PlanarMain.print_solution. intros H.
  apply obind_Done in H. destruct H as (tri & d1 & d2 & Ht & H & ->).
  apply obind_Done in H. destruct H as (sqr & d3 & d4 & Hs & H & ->).
  injection H as <- <-.
  apply printnbrs_Done in Ht. destruct Ht as (-> & f0 & Hf0 & HF).
  apply print_squares_Done in Hs; [|reflexivity].
  destruct Hs as (-> & Hl & HA).
  split; [reflexivity|]. exists tri, sqr, f0. repeat split; auto.
Qed.

Lemma flat_map_single {A B} (g : A -> list B) k : forall l,
  (forall x, length (g x) <= 1) ->
  flat_map g l = [k] ->
  exists l1 x l2, l = l1 ++ x :: l2 /\ g x = [k] /\
    Forall (fun y => g y = []) l1 /\ Forall (fun y => g y = []) l2.
Proof.
  intros l Hg. induction l as [|x l IH]; [discriminate|].
  cbn [flat_map]. specialize (Hg x) as Hx.
  destruct (g x) as [|b [|b' r]] eqn:E; cbn [length] in Hx; [| |lia].
  - cbn [app]. intros H. destruct (IH H) as (l1 & y & l2 & -> & Gy & F1 & F2).
    exists (x :: l1), y, l2. repeat split; auto.
  - cbn [app]. intros [= -> H]. exists [], x, l. repeat split; auto.
    clear IH E. induction l as [|y l IHl]; [constructor|].
    cbn [flat_map] in H. apply app_eq_nil in H. destruct H as [H1 H2].
    constructor; auto.
Qed.

Lemma combine_seq_In {A} (fs : list A) : forall a j f,
  nth_error fs j = Some f -> In (a + j, f) (combine (seq a (length fs)) fs).
Proof.
  induction fs as [|x fs IH]; intros a [|j] f; cbn [nth_error]; try discriminate.
  - intros [= ->]. left. f_equal. lia.
  - intros H. right. cbn [length seq combine].
    replace (a + S j) with (S a + j) by lia. now apply IH.
Qed.

(** [nbrs_of_edge s i e] is a single length exactly when one face other
    than [i] has the edge [e]; it is the length of that face. *)
Lemma nbrs_of_edge_single s i e k :
  PlanarMain.nbrs_of_edge s i e = [k] ->
  exists j f,
    j <> i /\ nth_error (faces s) j = Some f /\ In e f /\ k = length f /\
    forall j' f', j' <> i -> nth_error (faces s) j' = Some f' -> In e f' ->
                  j' = j.
Proof.
  intros H.
  assert (Hk : In k (PlanarMain.nbrs_of_edge s i e)) by (rewrite H; now left).
  unfold PlanarMain.nbrs_of_edge in H.
  apply flat_map_single in H.
  2:{ intros [j f]. cbn [fst snd].
      destruct (j =? i); [cbn; lia|].
      destruct (existsb (Nat.eqb e) f); cbn; lia. }
  destruct H as (l1 & [j f] & l2 & El & Gx & F1 & F2). cbn [fst snd] in Gx.
  destruct (Nat.eqb_spec j i) as [|Hne]; [discriminate|].
  destruct (existsb (Nat.eqb e) f) eqn:Ex; [|discriminate].
  injection Gx as <-.
  assert (Hin : In (j, f) (combine (seq 0 (length (faces s))) (faces s))).
  { rewrite El. apply in_or_app. right. now left. }
  apply in_combine_seq in Hin. destruct Hin as [_ Hn].
  rewrite Nat.sub_0_r in Hn.
  apply existsb_exists in Ex. destruct Ex as (e' & He' & Ee).
  apply Nat.eqb_eq in Ee. subst e'.
  exists j, f. repeat split; auto.
  intros j' f' Hne' Hn' He''.
  pose proof (combine_seq_In (faces s) 0 j' f' Hn') as Hin'.
  cbn [Nat.add] in Hin'. rewrite El in Hin'.
  assert (G : (fun fi : nat * list nat =>
                 if fst fi =? i then []
                 else if existsb (Nat.eqb e) (snd fi)
                      then [length (snd fi)] else []) (j', f') <> []).
  { cbn [fst snd]. destruct (Nat.eqb_spec j' i); [contradiction|].
    assert (Ex' : existsb (Nat.eqb e) f' = true).
    { apply existsb_exists. exists e. split; [assumption | apply Nat.eqb_refl]. }
    rewrite Ex'. discriminate. }
  apply in_app_or in Hin'. destruct Hin' as [Hin'|[Hin'|Hin']].
  - rewrite Forall_forall in F1. now apply F1 in Hin'.
  - now injection Hin'.
  - rewrite Forall_forall in F2. now apply F2 in Hin'.
Qed.

(** ** The graph [canongraph] hands to nauty *)

Lemma list_sum_update_S : forall (l : list nat) i,
  i < length l -> list_sum (Vec.update l i S) = S (list_sum l).
Proof.
  induction l as [|x l IH]; intros [|i] H;
    cbn [length Vec.update] in *; try lia; [reflexivity|].
  change (x + list_sum (Vec.update l i S) = S (x + list_sum l)).
  rewrite IH by lia. lia.
Qed.

Lemma list_sum_repeat_0 n : list_sum (repeat 0 n) = 0.
Proof. induction n; cbn; auto. Qed.

Lemma sg_add_Done sg a b sg' d :
  sg_add sg a b = Done sg' d ->
  d = [] /\ same_frame sg sg' /\
  1 <= a <= length (sg_d sg) /\
  list_sum (sg_d sg') = S (list_sum (sg_d sg)) /\
  forall v, 1 <= v ->
    nth (v - 1) (sg_d sg') 0
    = nth (v - 1) (sg_d sg) 0 + (if a =? v then 1 else 0).
Proof.
  unfold sg_add. destruct (Nat.eqb_spec a 0) as [|Ha]; [discriminate|].
  intros H.
  apply obind_Done in H. destruct H as (va & d1 & d2 & Hva & H & ->).
  apply obind_Done in H. destruct H as (da & d3 & d4 & Hda & H & ->).
  apply (get_Done 0) in Hva. destruct Hva as (_ & _ & ->).
  apply (get_Done 0) in Hda. destruct Hda as (Hlt & _ & ->).
  destruct (va + da <? length (sg_e sg)); [|discriminate].
  injection H as <- <-. cbn [sg_d sg_e sg_v nv nde app].
  split; [reflexivity|]. split.
  { unfold same_frame. cbn. now rewrite !length_update. }
  split; [lia|]. split; [now apply list_sum_update_S|].
  intros v Hv. rewrite nth_update.
  destruct (Nat.eqb_spec (v - 1) (a - 1)) as [E|E];
    destruct (Nat.ltb_spec (a - 1) (length (sg_d sg)));
    destruct (Nat.eqb_spec a v); cbn [andb]; try lia.
  rewrite E. lia.
Qed.

Lemma sg_fill_Done : forall es sg sg' d,
  sg_fill es sg = Done sg' d ->
  d = [] /\ same_frame sg sg' /\
  Forall (fun e => 1 <= v1 e <= length (sg_d sg) /\
                   1 <= v2 e <= length (sg_d sg)) es /\
  list_sum (sg_d sg') = list_sum (sg_d sg) + 2 * length es /\
  forall v, 1 <= v ->
    nth (v - 1) (sg_d sg') 0 = nth (v - 1) (sg_d sg) 0 + degree_in es v.
Proof.
  induction es as [|e es IH]; intros sg sg' d; cbn [sg_fill].
  - intros [= <- <-]. split; [reflexivity|]. split; [now repeat split|].
    split; [constructor|]. split; [cbn; lia|]. intros v _. cbn. lia.
  - intros H.
    apply obind_Done in H. destruct H as (sg1 & d1 & d2 & H1 & H & ->).
    apply obind_Done in H. destruct H as (sg2 & d3 & d4 & H2 & H & ->).
    apply sg_add_Done in H1. destruct H1 as (-> & F1 & R1 & S1 & N1).
    apply sg_add_Done in H2. destruct H2 as (-> & F2 & R2 & S2 & N2).
    apply IH in H. destruct H as (-> & F3 & R3 & S3 & N3).
    unfold same_frame in *.
    destruct F1 as (A1 & B1 & C1 & D1 & E1).
    destruct F2 as (A2 & B2 & C2 & D2 & E2).
    destruct F3 as (A3 & B3 & C3 & D3 & E3).
    split; [reflexivity|]. split; [repeat split; congruence|].
    split.
    { constructor; [lia|]. eapply Forall_impl; [|exact R3].
      cbn beta. intros x Hx. lia. }
    split; [cbn [length]; lia|].
    intros v Hv. rewrite N3, N2, N1 by assumption.
    unfold degree_in. cbn [filter].
    destruct (v1 e =? v), (v2 e =? v); cbn [length]; lia.
Qed.

Lemma build_sg_Done s sg d :
  build_sg s = Done sg d ->
  d = [] /\
  nv sg = numverts s /\
  nde sg = 2 * length (edges s) /\
  sg_v sg = map (fun i => 3 * i) (seq 0 (numverts s)) /\
  length (sg_d sg) = numverts s /\
  length (sg_e sg) = 3 * numverts s /\
  list_sum (sg_d sg) = nde sg /\
  (forall v, 1 <= v <= numverts s -> nth (v - 1) (sg_d sg) 0 = degree s v) /\
  Forall (fun e => 1 <= v1 e <= numverts s /\ 1 <= v2 e <= numverts s)
         (edges s).
Proof.
  unfold build_sg. intros H. apply sg_fill_Done in H.
  cbn [sg_d sg_e sg_v nv nde] in H. unfold same_frame in H.
  cbn [sg_d sg_e sg_v nv nde] in H. rewrite !repeat_length in H.
  rewrite list_sum_repeat_0 in H.
  destruct H as (-> & (A & B & C & D & E) & R & S & N).
  repeat split; try assumption; try lia.
  - intros v Hv. rewrite N by lia. rewrite nth_repeat. reflexivity.
Qed.

(** ** The registry and the tallies *)

Lemma solution_numbers_app l1 l2 :
  solution_numbers (l1 ++ l2) = solution_numbers l1 ++ solution_numbers l2.
Proof.
  induction l1 as [|[k tri sqr h v| |k] l1 IH]; cbn; auto. now rewrite IH.
Qed.

Lemma planar_tally_step MAX orc c c' d :
  planar_tally_ok c ->
  PlanarMain.loop_body MAX orc c = Done (Some c') d -> planar_tally_ok c'.
Proof.
  intros (E1 & E2 & E3) H.
  destruct (planar_loop_body_cases _ _ _ _ _ H)
    as (g & st & _ & b & s1 & d1 & _ & Hb).
  destruct Hb as [(_ & ->)|(_ & s2 & d2 & d3 & _ & HA)];
    [now repeat split|].
  apply planar_after_addEdges_cases in HA.
  destruct HA as [->|[(_ & d' & HC)|(_ & _ & _ & s' & _ & ->)]];
    [now repeat split | | now repeat split].
  apply planar_closed_map_cases in HC. cbn in HC.
  destruct HC as (_ & _ & _ &
    [(Ec & En & Eo)|(cg & l & d0 & d4 & _ & _ & Hn & Ec & En & Hp & Eo)]);
    unfold planar_tally_ok; rewrite Ec, En.
  - repeat split; auto.
    destruct Eo as [->| ->]; [assumption|].
    rewrite solution_numbers_app. cbn. now rewrite app_nil_r.
  - apply print_solution_Done in Hp.
    destruct Hp as (_ & tri & sqr & f0 & -> & _).
    repeat split.
    + cbn. now rewrite E1.
    + now constructor.
    + rewrite Eo, solution_numbers_app, E3, seq_S. reflexivity.
Qed.

Lemma planar_tally_turns MAX orc : forall n c c' d,
  planar_tally_ok c ->
  PlanarMain.turns MAX orc n c = Done (Some c') d -> planar_tally_ok c'.
Proof.
  induction n as [|n IH]; intros c c' d Hc; cbn [PlanarMain.turns].
  - intros [= <- _]. exact Hc.
  - destruct (PlanarMain.loop_body MAX orc c) as [[c1|] d1| |] eqn:E;
      cbn [obind]; try discriminate.
    destruct (PlanarMain.turns MAX orc n c1) as [r d2| |] eqn:E';
      try discriminate.
    intros [= -> _]. apply (IH c1 c' d2); [|exact E'].
    exact (planar_tally_step _ _ _ _ _ Hc E).
Qed.

(** The lines [planar.cc] prints. *)
Lemma print_solution_ok MAX k s l d d0 :
  Inv s -> openfaces s = [] -> length (faces s) <= MAX ->
  sizefinal Planar s = Done true d0 ->
  PlanarMain.print_solution k s = Done l d -> solution_ok MAX l.
Proof.
  intros HI Ho HM Hf Hp.
  pose proof (sizefinal_true_profile _ _ _ Hf) as (HF & _ & H4 & _).
  pose proof (closed_sizes _ _ _ HI Ho Hf) as (_ & _ & EF & EV & _).
  apply print_solution_Done in Hp.
  destruct Hp as (_ & tri & sqr & f0 & -> & Hf0 & Ht & Hl & Hq).
  apply Forall2_length in Ht. apply nth_error_In in Hf0.
  rewrite Forall_forall in HF. specialize (HF f0 Hf0).
  cbn [solution_ok]. repeat split; try assumption; lia.
Qed.

Lemma planar_lines_step MAX orc c c' d :
  planar_ok c -> Forall (solution_ok MAX) (PlanarMain.cout c) ->
  PlanarMain.loop_body MAX orc c = Done (Some c') d ->
  Forall (solution_ok MAX) (PlanarMain.cout c').
Proof.
  intros Hok HL H.
  pose proof (planar_loop_body _ _ _ _ _ Hok H) as (HI' & _).
  destruct (planar_loop_body_cases _ _ _ _ _ H)
    as (g & st & _ & b & s1 & d1 & _ & Hb).
  destruct Hb as [(_ & ->)|(_ & s2 & d2 & d3 & _ & HA)]; [exact HL|].
  apply planar_after_addEdges_cases in HA.
  destruct HA as [->|[(Ho & d' & HC)|(_ & _ & _ & s' & _ & ->)]];
    [exact HL | | exact HL].
  apply planar_closed_map_cases in HC. cbn in HC, Ho.
  destruct HC as (EG & _ & _ &
    [(_ & _ & Eo)|(cg & l & d0 & d4 & HM & Hf & _ & _ & _ & Hp & Eo)]).
  - destruct Eo as [->| ->]; [assumption|].
    apply Forall_app. split; [assumption|]. now repeat constructor.
  - rewrite Eo. apply Forall_app. split; [assumption|]. constructor; [|constructor].
    rewrite EG in HI'.
    exact (print_solution_ok MAX _ s2 l d4 d0 HI' Ho HM Hf Hp).
Qed.

Lemma planar_lines_turns MAX orc : forall n c c' d,
  planar_ok c -> Forall (solution_ok MAX) (PlanarMain.cout c) ->
  PlanarMain.turns MAX orc n c = Done (Some c') d ->
  Forall (solution_ok MAX) (PlanarMain.cout c').
Proof.
  induction n as [|n IH]; intros c c' d Hok Hc; cbn [PlanarMain.turns].
  - intros [= <- _]. exact Hc.
  - destruct (PlanarMain.loop_body MAX orc c) as [[c1|] d1| |] eqn:E;
      cbn [obind]; try discriminate.
    destruct (PlanarMain.turns MAX orc n c1) as [r d2| |] eqn:E';
      try discriminate.
    intros [= -> _]. apply (IH c1 c' d2); [| |exact E'].
    + exact (planar_loop_body _ _ _ _ _ Hok E).
    + exact (planar_lines_step _ _ _ _ _ Hok Hc E).
Qed.

Lemma fast_tally_step MAX orc c c' d :
  fast_ok c -> fast_tally_ok MAX c ->
  FastMain.loop_body MAX orc c = Done (Some c') d -> fast_tally_ok MAX c'.
Proof.
  intros Hok (E1 & E2 & E3 & E4) H.
  pose proof (fast_loop_body _ _ _ _ _ Hok H) as (HI' & _).
  destruct (fast_loop_body_cases _ _ _ _ _ H)
    as (g & st & _ & b & s1 & d1 & _ & Hb).
  destruct Hb as [(_ & ->)|(_ & s2 & d2 & d3 & _ & HA)];
    [now repeat split|].
  apply fast_after_addEdges_cases in HA.
  destruct HA as [->|[(Ho & d' & HC)|(_ & _ & _ & s' & _ & ->)]];
    [now repeat split | | now repeat split].
  apply fast_closed_map_cases in HC. cbn in HC, Ho.
  destruct HC as (EG & _ & _ &
    [(Ec & En)|(cg & d0 & HM & Hf & Hn & Ec & Hi & En)]);
    unfold fast_tally_ok; rewrite Ec, En.
  - repeat split; auto.
  - rewrite EG in HI'.
    pose proof (closed_sizes _ _ _ HI' Ho Hf) as (_ & _ & EF & _).
    repeat split.
    + rewrite list_sum_update_S by assumption. cbn. now rewrite E1.
    + now constructor.
    + now rewrite length_update.
    + intros i Hi'. rewrite nth_update.
      destruct (Nat.eqb_spec i (nhex s2)); cbn [andb]; [lia|]. now apply E4.
Qed.

Lemma fast_tally_turns MAX orc : forall n c c' d,
  fast_ok c -> fast_tally_ok MAX c ->
  FastMain.turns MAX orc n c = Done (Some c') d -> fast_tally_ok MAX c'.
Proof.
  induction n as [|n IH]; intros c c' d Hok Hc; cbn [FastMain.turns].
  - intros [= <- _]. exact Hc.
  - destruct (FastMain.loop_body MAX orc c) as [[c1|] d1| |] eqn:E;
      cbn [obind]; try discriminate.
    destruct (FastMain.turns MAX orc n c1) as [r d2| |] eqn:E';
      try discriminate.
    intros [= -> _]. apply (IH c1 c' d2); [| |exact E'].
    + exact (fast_loop_body _ _ _ _ _ Hok E).
    + exact (fast_tally_step _ _ _ _ _ Hok Hc E).
Qed.

(** ** What [isValid] reads *)

Lemma isValid_switch_lengths n a1 a2 a3 a4 a5 a6 a7 b1 b2 b3 b4 b5 b6 b7 c m :
  length a1 = length b1 -> length a2 = length b2 -> length a3 = length b3 ->
  length a4 = length b4 -> length a5 = length b5 -> length a6 = length b6 ->
  length a7 = length b7 ->
  isValid_switch n a1 a2 a3 a4 a5 a6 a7 c m
  = isValid_switch n b1 b2 b3 b4 b5 b6 b7 c m.
Proof.
  intros E1 E2 E3 E4 E5 E6 E7.
  destruct m as [|[|[|[|[|[|[|[|[|[|[|m]]]]]]]]]]]; cbn [isValid_switch];
    rewrite ?E1, ?E2, ?E3, ?E4, ?E5, ?E6, ?E7; reflexivity.
Qed.

Lemma map_length_nth_error (fs fs' : list (list nat)) :
  map (@length nat) fs' = map (@length nat) fs ->
  forall i, match nth_error fs i, nth_error fs' i with
            | Some f, Some f' => length f' = length f
            | None, None => True
            | _, _ => False
            end.
Proof.
  revert fs'. induction fs as [|f fs IH]; intros [|f' fs'] H [|i];
    cbn in *; try discriminate; auto.
  - now injection H.
  - injection H as _ H. exact (IH fs' H i).
Qed.

Lemma openface_lengths s s' p :
  openfaces s' = openfaces s ->
  map (@length nat) (faces s') = map (@length nat) (faces s) ->
  match openface s p, openface s' p with
  | Done f d, Done f' d' => length f' = length f /\ d = [] /\ d' = []
  | Undefined, Undefined => True
  | _, _ => False
  end.
Proof.
  intros Eo Ef. unfold openface, face, Vec.get. rewrite Eo.
  destruct (nth_error (openfaces s) p) as [i|]; unfold oret; cbn [obind];
    [|exact I].
  pose proof (map_length_nth_error _ _ Ef i) as H.
  destruct (nth_error (faces s) i), (nth_error (faces s') i);
    cbn [app]; try contradiction; repeat split; auto.
Qed.

Lemma isValid_reads tu oF m s s' :
  openfaces s' = openfaces s ->
  map (@length nat) (faces s') = map (@length nat) (faces s) ->
  nsq s' = nsq s -> npent s' = npent s ->
  isValid tu oF m s' = isValid tu oF m s.
Proof.
  intros Eo Ef Es Ep. unfold isValid. rewrite Eo, Es, Ep.
  destruct (length (openfaces s) =? 0); [reflexivity|]. cbv zeta.
  repeat match goal with
         | |- context [openface s' ?p] =>
             let H := fresh "H" in
             pose proof (openface_lengths s s' p Eo Ef) as H;
             destruct (openface s' p) as [? ?| |],
                      (openface s p) as [? ?| |];
             try contradiction; try reflexivity;
             [destruct H as (? & -> & ->)]; cbn [obind app]
         end.
  match goal with
  | H : length ?x = length ?y |- context [1 <? length ?x] => rewrite H
  end.
  match goal with
  | |- context [isValid_switch ?n ?x1 ?x2 ?x3 ?x4 ?x5 ?x6 ?x7 ?c ?k] =>
      match goal with
      | H1 : length x1 = length ?y1, H2 : length x2 = length ?y2,
        H3 : length x3 = length ?y3, H4 : length x4 = length ?y4,
        H5 : length x5 = length ?y5, H6 : length x6 = length ?y6,
        H7 : length x7 = length ?y7 |- _ =>
          rewrite (isValid_switch_lengths n x1 x2 x3 x4 x5 x6 x7
                     y1 y2 y3 y4 y5 y6 y7 c k H1 H2 H3 H4 H5 H6 H7)
      end
  end.
  reflexivity.
Qed.

(** ** What [isValid] asks for *)

Lemma openface_value s p x d :
  openface s p = Done x d ->
  p < length (openfaces s) /\
  x = nth (nth p (openfaces s) 0) (faces s) [] /\ d = [].
Proof.
  unfold openface, face. intros H.
  apply obind_Done in H. destruct H as (i & d1 & d2 & H1 & H2 & ->).
  apply (get_Done 0) in H1. apply (get_Done []) in H2.
  destruct H1 as (Hp & -> & ->), H2 as (_ & -> & ->). auto.
Qed.

Lemma openface_total s p :
  (exists x, openface s p = Done x []) \/ openface s p = Undefined.
Proof.
  unfold openface, face, Vec.get.
  destruct (nth_error (openfaces s) p) as [i|]; unfold oret; cbn [obind app];
    [|now right].
  destruct (nth_error (faces s) i) as [f|]; [left; now exists f | now right].
Qed.

Lemma isValid_out_of_range tu oF m s :
  length (openfaces s) <= oF -> isValid tu oF m s = Undefined.
Proof.
  intros H. unfold isValid.
  destruct (length (openfaces s) =? 0); [reflexivity|]. cbv zeta.
  assert (E : openface s oF = Undefined).
  { unfold openface. now rewrite get_ge. }
  rewrite E. set (n := length (openfaces s)).
  destruct (openface_total s ((oF + 2 * n - 3) mod n)) as [(x1 & ->)| ->];
    cbn [obind]; [|reflexivity].
  destruct (openface_total s ((oF + n - 2) mod n)) as [(x2 & ->)| ->];
    cbn [obind]; [|reflexivity].
  destruct (openface_total s ((oF + n - 1) mod n)) as [(x3 & ->)| ->];
    cbn [obind]; reflexivity.
Qed.

Lemma isValid_true_checked tu oF m s d :
  isValid tu oF m s = Done true d ->
  let n := length (openfaces s) in
  let fc p := nth (nth p (openfaces s) 0) (faces s) [] in
  d = [] /\ oF < n /\ 1 <= m <= NUM_METH /\
  (tu = Planar -> 2 <= length (fc oF)) /\
  checked n (fc ((oF + n - 2) mod n)) (fc ((oF + n - 1) mod n)) (fc oF)
    (fc ((oF + 1) mod n)) (fc ((oF + 2) mod n)) m.
Proof.
  intros H n fc.
  pose proof (isValid_Done _ _ _ _ _ _ H) as [-> _].
  split; [reflexivity|].
  assert (Hm : 1 <= m <= NUM_METH).
  { destruct (Nat.le_gt_cases m NUM_METH) as [Hle|Hgt].
    - split; [|exact Hle]. destruct m; [|lia].
      destruct (isValid_Done _ _ _ _ _ _ H) as (_ & k & a1 & a2 & a3 & a4 & a5 & a6 & a7 & c & E).
      rewrite E in H. discriminate.
    - now pose proof (isValid_beyond _ _ _ _ _ _ H Hgt). }
  unfold isValid in H. fold n in H.
  destruct (n =? 0); [discriminate|]. cbv zeta in H.
  repeat (apply obind_Done in H;
          let x := fresh "x" in let d1 := fresh "d" in let d2 := fresh "d" in
          let E := fresh "E" in
          destruct H as (x & d1 & d2 & E & H & _)).
  repeat match goal with
         | E : openface s _ = Done _ _ |- _ =>
             apply openface_value in E; destruct E as (? & -> & _)
         end.
  injection H as H _.
  split; [assumption|]. split; [exact Hm|]. split.
  - intros ->.
    match goal with
    | E : assert_ Planar (1 <? ?k) = Done _ _ |- _ =>
        unfold assert_ in E; destruct (Nat.ltb_spec 1 k);
        [assumption | discriminate]
    end.
  - eapply isValid_switch_checked; [|exact H]. cbn. lia.
Qed.

(** ** The erasures of consumed entries, exactly *)

Lemma wp_fast_eq (c : M unit) s s' :
  wp PlanarFast c (fun _ x => x = s') s -> c s = Done (tt, s') [].
Proof.
  unfold wp, sound. destruct (c s) as [[[] x] d| |]; cbn [fst snd].
  - now intros [-> ->].
  - intros [].
  - discriminate.
Qed.

Lemma nowrap_exact (l : list nat) a a' b k :
  a' = a -> b = a + k -> a + k <= length l ->
  firstn a' l ++ skipn b l = cyclic_erase a k l.
Proof.
  intros -> -> H. unfold cyclic_erase.
  replace (a + k - length l) with 0 by lia. reflexivity.
Qed.

Lemma wrap_exact (l : list nat) a a' b j k :
  a' = a -> b = length l -> j <= a -> a <= length l ->
  a + k = length l + j ->
  firstn 0 (firstn a' l ++ skipn b l) ++ skipn j (firstn a' l ++ skipn b l)
  = cyclic_erase a k l.
Proof.
  intros -> -> Hj Ha Hk. rewrite erase_wrap by assumption.
  unfold cyclic_erase. rewrite (skipn_all2 l) by lia. rewrite app_nil_r.
  f_equal. lia.
Qed.

Ltac exact_nowrap n :=
  erase_step; f_equal; apply nowrap_exact; fold n; lia.

Ltac exact_wrap n :=
  erase_step; erase_step; f_equal; apply wrap_exact; fold n; lia.

Lemma erase_oF_noF_exact oF s :
  oF < length (openfaces s) -> 2 <= length (openfaces s) ->
  erase_oF_noF oF ((oF + 1) mod length (openfaces s)) s
  = Done (tt, set_openfaces (cyclic_erase oF 2 (openfaces s)) s) [].
Proof.
  destruct s as [nv sq pt hx es fs l md cf]. simpl_state.
  set (n := length l). intros HoF Hn. apply wp_fast_eq.
  unfold erase_oF_noF.
  destruct (Nat.lt_ge_cases (oF + 1) n) as [H1|H1].
  - rewrite (mod_eq (oF + 1) n (oF + 1) 0) by lia.
    destruct (Nat.ltb_spec oF (oF + 1)); [|lia].
    exact_nowrap n.
  - rewrite (mod_eq (oF + 1) n 0 1) by lia.
    destruct (Nat.ltb_spec oF 0); [lia|].
    exact_wrap n.
Qed.

Lemma erase_oF_to_nnoF_exact oF s :
  oF < length (openfaces s) -> 3 <= length (openfaces s) ->
  erase_oF_to_nnoF oF ((oF + 1) mod length (openfaces s))
    ((oF + 2) mod length (openfaces s)) s
  = Done (tt, set_openfaces (cyclic_erase oF 3 (openfaces s)) s) [].
Proof.
  destruct s as [nv sq pt hx es fs l md cf]. simpl_state.
  set (n := length l). intros HoF Hn. apply wp_fast_eq.
  unfold erase_oF_to_nnoF.
  destruct (Nat.lt_ge_cases (oF + 2) n) as [H2|H2];
    [|destruct (Nat.lt_ge_cases (oF + 1) n) as [H1|H1]].
  - rewrite (mod_eq (oF + 1) n (oF + 1) 0), (mod_eq (oF + 2) n (oF + 2) 0) by lia.
    destruct (Nat.ltb_spec oF (oF + 2)); [|lia].
    exact_nowrap n.
  - rewrite (mod_eq (oF + 1) n (oF + 1) 0), (mod_eq (oF + 2) n 0 1) by lia.
    destruct (Nat.ltb_spec oF 0); [lia|].
    destruct (Nat.ltb_spec oF (oF + 1)); [|lia].
    exact_wrap n.
  - rewrite (mod_eq (oF + 1) n 0 1), (mod_eq (oF + 2) n 1 1) by lia.
    destruct (Nat.ltb_spec oF 1); [lia|].
    destruct (Nat.ltb_spec oF 0); [lia|].
    exact_wrap n.
Qed.

Lemma erase_oF_to_nnnoF_exact oF s :
  oF < length (openfaces s) -> 4 <= length (openfaces s) ->
  erase_oF_to_nnnoF oF ((oF + 1) mod length (openfaces s))
    ((oF + 2) mod length (openfaces s)) ((oF + 3) mod length (openfaces s)) s
  = Done (tt, set_openfaces (cyclic_erase oF 4 (openfaces s)) s) [].
Proof.
  destruct s as [nv sq pt hx es fs l md cf]. simpl_state.
  set (n := length l). intros HoF Hn. apply wp_fast_eq.
  unfold erase_oF_to_nnnoF.
  destruct (Nat.lt_ge_cases (oF + 3) n) as [H3|H3];
    [|destruct (Nat.lt_ge_cases (oF + 2) n) as [H2|H2];
      [|destruct (Nat.lt_ge_cases (oF + 1) n) as [H1|H1]]].
  - rewrite (mod_eq (oF + 1) n (oF + 1) 0), (mod_eq (oF + 2) n (oF + 2) 0),
      (mod_eq (oF + 3) n (oF + 3) 0) by lia.
    destruct (Nat.ltb_spec oF (oF + 3)); [|lia].
    exact_nowrap n.
  - rewrite (mod_eq (oF + 1) n (oF + 1) 0), (mod_eq (oF + 2) n (oF + 2) 0),
      (mod_eq (oF + 3) n 0 1) by lia.
    destruct (Nat.ltb_spec oF 0); [lia|].
    destruct (Nat.ltb_spec oF (oF + 2)); [|lia].
    exact_wrap n.
  - rewrite (mod_eq (oF + 1) n (oF + 1) 0), (mod_eq (oF + 2) n 0 1),
      (mod_eq (oF + 3) n 1 1) by lia.
    destruct (Nat.ltb_spec oF 1); [lia|].
    destruct (Nat.ltb_spec oF 0); [lia|].
    destruct (Nat.ltb_spec oF (oF + 1)); [|lia].
    exact_wrap n.
  - rewrite (mod_eq (oF + 1) n 0 1), (mod_eq (oF + 2) n 1 1),
      (mod_eq (oF + 3) n 2 1) by lia.
    destruct (Nat.ltb_spec oF 2); [lia|].
    destruct (Nat.ltb_spec oF 1); [lia|].
    destruct (Nat.ltb_spec oF 0); [lia|].
    exact_wrap n.
Qed.

Lemma erase_ppoF_to_noF_exact oF s :
  oF < length (openfaces s) -> 4 <= length (openfaces s) ->
  erase_ppoF_to_noF
    ((oF + length (openfaces s) - 2) mod length (openfaces s))
    ((oF + length (openfaces s) - 1) mod length (openfaces s))
    oF ((oF + 1) mod length (openfaces s)) s
  = Done (tt, set_openfaces
                (cyclic_erase
                   ((oF + length (openfaces s) - 2) mod length (openfaces s))
                   4 (openfaces s)) s) [].
Proof.
  destruct s as [nv sq pt hx es fs l md cf]. simpl_state.
  set (n := length l). intros HoF Hn. apply wp_fast_eq.
  unfold erase_ppoF_to_noF.
  destruct (Nat.eq_dec oF 0) as [->|H0];
    [|destruct (Nat.eq_dec oF 1) as [->|H1];
      [|destruct (Nat.lt_ge_cases (oF + 1) n) as [Hn1|Hn1]]].
  - rewrite (mod_eq (0 + n - 2) n (n - 2) 0), (mod_eq (0 + n - 1) n (n - 1) 0),
      (mod_eq (0 + 1) n 1 0) by lia.
    destruct (Nat.ltb_spec (n - 2) 1); [lia|].
    destruct (Nat.ltb_spec (n - 1) 1); [lia|].
    destruct (Nat.ltb_spec 0 1); [|lia].
    exact_wrap n.
  - rewrite (mod_eq (1 + n - 2) n (n - 1) 0), (mod_eq (1 + n - 1) n 0 1),
      (mod_eq (1 + 1) n 2 0) by lia.
    destruct (Nat.ltb_spec (n - 1) 2); [lia|].
    destruct (Nat.ltb_spec 0 2); [|lia].
    exact_wrap n.
  - rewrite (mod_eq (oF + n - 2) n (oF - 2) 1), (mod_eq (oF + n - 1) n (oF - 1) 1),
      (mod_eq (oF + 1) n (oF + 1) 0) by lia.
    destruct (Nat.ltb_spec (oF - 2) (oF + 1)); [|lia].
    exact_nowrap n.
  - rewrite (mod_eq (oF + n - 2) n (oF - 2) 1), (mod_eq (oF + n - 1) n (oF - 1) 1),
      (mod_eq (oF + 1) n 0 1) by lia.
    destruct (Nat.ltb_spec (oF - 2) 0); [lia|].
    destruct (Nat.ltb_spec (oF - 1) 0); [lia|].
    destruct (Nat.ltb_spec oF 0); [lia|].
    exact_wrap n.
Qed.

Lemma erase_ppoF_to_oF_exact oF s :
  oF < length (openfaces s) -> 3 <= length (openfaces s) ->
  erase_ppoF_to_oF
    ((oF + length (openfaces s) - 2) mod length (openfaces s))
    ((oF + length (openfaces s) - 1) mod length (openfaces s)) oF s
  = Done (tt, set_openfaces
                (cyclic_erase
                   ((oF + length (openfaces s) - 2) mod length (openfaces s))
                   3 (openfaces s)) s) [].
Proof.
  destruct s as [nv sq pt hx es fs l md cf]. simpl_state.
  set (n := length l). intros HoF Hn. apply wp_fast_eq.
  unfold erase_ppoF_to_oF.
  destruct (Nat.eq_dec oF 0) as [->|H0];
    [|destruct (Nat.eq_dec oF 1) as [->|H1]].
  - rewrite (mod_eq (0 + n - 2) n (n - 2) 0), (mod_eq (0 + n - 1) n (n - 1) 0) by lia.
    destruct (Nat.ltb_spec (n - 2) 0); [lia|].
    destruct (Nat.ltb_spec (n - 1) 0); [lia|].
    exact_wrap n.
  - rewrite (mod_eq (1 + n - 2) n (n - 1) 0), (mod_eq (1 + n - 1) n 0 1) by lia.
    destruct (Nat.ltb_spec (n - 1) 1); [lia|].
    destruct (Nat.ltb_spec 0 1); [|lia].
    exact_wrap n.
  - rewrite (mod_eq (oF + n - 2) n (oF - 2) 1), (mod_eq (oF + n - 1) n (oF - 1) 1) by lia.
    destruct (Nat.ltb_spec (oF - 2) oF); [|lia].
    exact_nowrap n.
Qed.

Lemma window_mod (l : list nat) a q : forall m b c,
  a + b = q * length l + c -> c + m <= length l ->
  map (fun i => nth ((a + i) mod length l) l 0) (seq b m)
  = map (fun i => nth i l 0) (seq c m).
Proof.
  induction m as [|m IH]; intros b c E H; [reflexivity|].
  cbn [seq map]. f_equal.
  - f_equal. apply (mod_eq _ _ c q); lia.
  - apply IH; lia.
Qed.

(** [cyclic_erase a k l] is [l] without its entries at the positions
    [(a + i) mod length l] for [i < k]. *)
Lemma cyclic_erase_perm (l : list nat) a k :
  a < length l -> k <= length l ->
  Permutation l
    (map (fun i => nth ((a + i) mod length l) l 0) (seq 0 k)
     ++ cyclic_erase a k l) /\
  length (cyclic_erase a k l) = length l - k.
Proof.
  intros Ha Hk. unfold cyclic_erase.
  destruct (Nat.le_gt_cases (a + k) (length l)) as [H|H].
  - split.
    + rewrite (window_mod l a 0 k 0 a) by lia.
      replace (a + k - length l) with 0 by lia. cbn [skipn].
      now apply perm_window.
    + rewrite length_app, !length_skipn, length_firstn. lia.
  - split.
    + replace k with ((length l - a) + (a + k - length l)) at 1 by lia.
      rewrite seq_app, map_app.
      rewrite (window_mod l a 0 (length l - a) 0 a) by lia.
      rewrite (window_mod l a 1 (a + k - length l) (0 + (length l - a)) 0) by lia.
      rewrite (skipn_all2 l) by lia. rewrite app_nil_r, <- app_assoc.
      apply perm_window_wrap; lia.
    + rewrite length_app, !length_skipn, length_firstn. lia.
Qed.

(** ** The counters count the closed faces *)

Lemma window_length_step i m (l : list nat) :
  NoDup l ->
  length (window i (S m) l)
  = (if existsb (Nat.eqb i) l then 1 else 0) + length (window (S i) m l).
Proof.
  unfold window.
  induction 1 as [|o l Ho Hnd IH]; [reflexivity|].
  cbn [filter existsb].
  destruct (Nat.eqb_spec i o) as [<-|Hne].
  - rewrite Nat.leb_refl.
    destruct (Nat.ltb_spec i (i + S m)); [|lia].
    destruct (Nat.leb_spec (S i) i); [lia|].
    cbn [andb orb length]. rewrite IH, (existsb_eqb_false i l Ho). lia.
  - cbn [orb].
    destruct (Nat.leb_spec i o), (Nat.ltb_spec o (i + S m)),
      (Nat.leb_spec (S i) o), (Nat.ltb_spec o (S i + m));
      cbn [andb length]; try lia; rewrite IH; lia.
Qed.

Lemma closed_from_length s :
  NoDup (openfaces s) -> forall fs i,
  length (closed_from s i fs) + length (window i (length fs) (openfaces s))
  = length fs.
Proof.
  intros Hnd. induction fs as [|f r IH]; intros i.
  - cbn [closed_from length].
    assert (E : window i 0 (openfaces s) = []).
    { unfold window. clear Hnd.
      induction (openfaces s) as [|o l IHl]; [reflexivity|]. cbn [filter].
      destruct (Nat.leb_spec i o), (Nat.ltb_spec o (i + 0)); cbn [andb];
        try lia; apply IHl. }
    rewrite E. reflexivity.
  - cbn [closed_from length]. rewrite (window_length_step i _ _ Hnd).
    unfold is_open. specialize (IH (S i)).
    destruct (existsb (Nat.eqb i) (openfaces s)); cbn [length]; lia.
Qed.

Lemma closed_faces_length s :
  good_open (faces s) (openfaces s) ->
  length (closed_faces s) + length (openfaces s) = length (faces s).
Proof.
  intros [Hnd Hr]. unfold closed_faces.
  pose proof (closed_from_length s Hnd (faces s) 0) as E.
  assert (W : window 0 (length (faces s)) (openfaces s) = openfaces s).
  { unfold window. clear Hnd E.
    induction Hr as [|o l Ho Hr IH]; [reflexivity|].
    cbn [filter].
    destruct (Nat.ltb_spec o (0 + length (faces s))); [|lia].
    change (0 <=? o) with true. cbn [andb]. now rewrite IH. }
  rewrite W in E. exact E.
Qed.

(** Under the invariant the counters count the closed faces, and their
    sum is fixed by the numbers of vertices and edges. *)
Lemma Inv_counters s :
  Inv s ->
  1 + nsq s + npent s + nhex s + length (openfaces s) = length (faces s) /\
  numverts s + nsq s + npent s + nhex s
  = length (edges s) + (if length (openfaces s) =? 0 then 1 else 0).
Proof.
  intros HI. pose proof (Inv_closed_profile s HI) as (HF & C3 & C4 & C5 & C6).
  pose proof (length_by_count_len _ HF) as HL.
  pose proof (closed_faces_length s (inv_open s HI)) as HC.
  pose proof (inv_euler s HI) as He.
  destruct (length (openfaces s) =? 0); lia.
Qed.

Lemma wp_and_Done {A} tu (c : M A) (Q Q' : A -> GraphState -> Prop) s :
  wp tu c Q s ->
  (forall a s' d, c s = Done (a, s') d -> Q a s' -> Q' a s') ->
  wp tu c Q' s.
Proof.
  unfold wp, sound. intros W H.
  destruct (c s) as [[a s'] d| |]; [|exact W|exact W].
  destruct W as [W ->]. split; [|reflexivity]. exact (H a s' [] eq_refl W).
Qed.

(** What a legal move does to the sizes of the map. *)
Lemma addEdges_effect tu oF m s d0 :
  Inv s -> 2 <= length (openfaces s) ->
  isValid tu oF m s = Done true d0 ->
  wp tu (addEdges tu oF m)
     (fun _ s' =>
        numverts s' = numverts s + new_verts m /\
        length (edges s') = length (edges s) + new_edges m /\
        length (openfaces s') + 2 * new_edges m
        = length (openfaces s) + 3 * new_verts m /\
        nsq s' + npent s' + nhex s' + new_verts m
        = nsq s + npent s + nhex s + new_edges m
          + (if length (openfaces s') =? 0 then 1 else 0)) s.
Proof.
  intros HI Hn Hv.
  apply (wp_and_Done tu _ _ _ s (addEdges_inv tu oF m s d0 HI Hn Hv)).
  intros [] s' d H (HI' & _).
  destruct (adds_addEdges tu oF m s (tt, s') d H) as (Ev & l & Ee & El).
  cbn [snd] in Ev, Ee.
  assert (EE : length (edges s') = length (edges s) + new_edges m).
  { rewrite Ee, length_app, El. reflexivity. }
  pose proof (Inv_counters s HI) as [_ C].
  pose proof (Inv_counters s' HI') as [_ C'].
  pose proof (inv_degrees s HI) as D.
  pose proof (inv_degrees s' HI') as D'.
  destruct (Nat.eqb_spec (length (openfaces s)) 0) as [|_]; [lia|].
  destruct (length (openfaces s') =? 0); repeat split; lia.
Qed.

(** ** Where the drivers start *)

Lemma planar_ok_init : planar_ok PlanarMain.init.
Proof. split; [exact Inv_seed|]. split; [cbn; lia | constructor]. Qed.

Lemma fast_init_Done MAX c0 d0 :
  FastMain.init MAX = Done c0 d0 ->
  6 <= MAX /\ d0 = [] /\
  c0 = FastMain.mkConfig seed [] [] (repeat 0 (MAX - 6)) false.
Proof.
  unfold FastMain.init. destruct (Nat.ltb_spec MAX 6); [discriminate|].
  intros [= <- <-]. auto.
Qed.

Lemma fast_ok_init MAX c0 d0 : FastMain.init MAX = Done c0 d0 -> fast_ok c0.
Proof.
  intros H. apply fast_init_Done in H. destruct H as (_ & _ & ->).
  split; [exact Inv_seed|]. split; [cbn; lia | constructor].
Qed.

(** ** The adjacency array [canongraph] fills *)

Lemma nbrs_in_length es v : length (nbrs_in es v) = degree_in es v.
Proof.
  unfold nbrs_in, degree_in. induction es as [|e es IH]; [reflexivity|].
  cbn [flat_map filter]. rewrite !length_app, IH.
  destruct (v1 e =? v), (v2 e =? v); cbn [length]; lia.
Qed.

Lemma sg_v_nth n i : i < n -> nth i (map (fun i => 3 * i) (seq 0 n)) 0 = 3 * i.
Proof.
  intros H. transitivity ((fun i => 3 * i) (nth i (seq 0 n) 0)).
  - exact (map_nth (fun i => 3 * i) (seq 0 n) 0 i).
  - cbv beta. rewrite seq_nth by assumption. reflexivity.
Qed.

Lemma sg_add_exact n sg a b sg1 dd :
  sg_framed n sg -> sg_add sg a b = Done sg1 dd ->
  dd = [] /\ 1 <= a <= n /\
  3 * (a - 1) + nth (a - 1) (sg_d sg) 0 < 3 * n /\
  sg1 = mkSG (nv sg) (nde sg) (sg_v sg)
             (Vec.update (sg_d sg) (a - 1) S)
             (Vec.update (sg_e sg) (3 * (a - 1) + nth (a - 1) (sg_d sg) 0)
                         (fun _ => b - 1)).
Proof.
  intros (Fv & Fd & Fe). unfold sg_add.
  destruct (Nat.eqb_spec a 0) as [|Ha]; [discriminate|]. intros H.
  apply obind_Done in H. destruct H as (va & d1 & d2 & Hva & H & ->).
  apply obind_Done in H. destruct H as (da & d3 & d4 & Hda & H & ->).
  apply (get_Done 0) in Hva. destruct Hva as (Hlv & -> & ->).
  apply (get_Done 0) in Hda. destruct Hda as (Hld & -> & ->).
  rewrite Fv in *. rewrite length_map, length_seq in Hlv.
  rewrite sg_v_nth in * by assumption.
  destruct (Nat.ltb_spec (3 * (a - 1) + nth (a - 1) (sg_d sg) 0)
                         (length (sg_e sg))) as [Hlt|]; [|discriminate].
  injection H as <- <-. rewrite Fe in Hlt. repeat split; auto; lia.
Qed.

Lemma sg_add_run n sg a b :
  sg_framed n sg -> 1 <= a <= n -> nth (a - 1) (sg_d sg) 0 < 3 ->
  sg_add sg a b
  = Done (mkSG (nv sg) (nde sg) (sg_v sg)
               (Vec.update (sg_d sg) (a - 1) S)
               (Vec.update (sg_e sg) (3 * (a - 1) + nth (a - 1) (sg_d sg) 0)
                           (fun _ => b - 1))) [].
Proof.
  intros (Fv & Fd & Fe) Ha Hd. unfold sg_add.
  destruct (Nat.eqb_spec a 0) as [|_]; [lia|].
  rewrite (get_lt 0) by (rewrite Fv, length_map, length_seq; lia).
  cbn [obind]. rewrite (get_lt 0) by lia. cbn [obind app].
  rewrite Fv, sg_v_nth, <- Fv by lia.
  destruct (Nat.ltb_spec (3 * (a - 1) + nth (a - 1) (sg_d sg) 0)
                         (length (sg_e sg))); [reflexivity | lia].
Qed.

Lemma framed_update n sg a p x :
  sg_framed n sg ->
  sg_framed n (mkSG (nv sg) (nde sg) (sg_v sg)
                 (Vec.update (sg_d sg) a S)
                 (Vec.update (sg_e sg) p (fun _ => x))).
Proof.
  intros (Fv & Fd & Fe). unfold sg_framed. cbn [sg_v sg_d sg_e].
  now rewrite !length_update.
Qed.

Lemma d_update (d : list nat) a v :
  1 <= a <= length d -> 1 <= v ->
  nth (v - 1) (Vec.update d (a - 1) S) 0
  = nth (v - 1) d 0 + (if a =? v then 1 else 0).
Proof.
  intros Ha Hv. rewrite nth_update.
  destruct (Nat.eqb_spec (v - 1) (a - 1)) as [E|E];
    destruct (Nat.ltb_spec (a - 1) (length d));
    destruct (Nat.eqb_spec a v); cbn [andb]; try lia.
  rewrite E. lia.
Qed.

Lemma e_update (l : list nat) p q x :
  q < length l ->
  nth p (Vec.update l q (fun _ => x)) 0 = if p =? q then x else nth p l 0.
Proof.
  intros Hq. rewrite nth_update.
  destruct (Nat.eqb_spec p q); destruct (Nat.ltb_spec q (length l));
    cbn [andb]; try reflexivity; lia.
Qed.

Lemma degree_in_cons e es v :
  degree_in (e :: es) v
  = (if v1 e =? v then 1 else 0) + (if v2 e =? v then 1 else 0)
    + degree_in es v.
Proof.
  unfold degree_in. cbn [filter].
  destruct (v1 e =? v), (v2 e =? v); cbn [length]; lia.
Qed.

Ltac eqb_cases :=
  repeat match goal with
         | |- context [if ?x =? ?y then 1 else 0] =>
             destruct (Nat.eqb_spec x y)
         end;
  repeat match goal with
         | |- context [?x =? ?y] => destruct (Nat.eqb_spec x y)
         end.

(** While every vertex stays within its three slots, the loop of
    [canongraph] keeps what it has written and writes the neighbours of
    each vertex behind them, in the order of the edges. *)
Lemma sg_fill_adj n : forall es sg sg' dd,
  sg_framed n sg -> sg_fill es sg = Done sg' dd ->
  (forall v, 1 <= v <= n -> nth (v - 1) (sg_d sg) 0 + degree_in es v <= 3) ->
  forall v, 1 <= v <= n ->
    (forall k, k < nth (v - 1) (sg_d sg) 0 ->
       nth (3 * (v - 1) + k) (sg_e sg') 0 = nth (3 * (v - 1) + k) (sg_e sg) 0) /\
    (forall k, k < degree_in es v ->
       nth (3 * (v - 1) + nth (v - 1) (sg_d sg) 0 + k) (sg_e sg') 0
       = nth k (nbrs_in es v) 0).
Proof.
  induction es as [|e es IH]; intros sg sg' dd F H P v Hv.
  - cbn [sg_fill] in H. injection H as <- _.
    split; [reflexivity|]. cbn. intros k Hk. lia.
  - destruct e as [a b]. cbn [sg_fill v1 v2] in H.
    apply obind_Done in H. destruct H as (sg1 & d1 & d2 & H1 & H & ->).
    apply obind_Done in H. destruct H as (sg2 & d3 & d4 & H2 & H & ->).
    destruct (sg_add_exact n _ _ _ _ _ F H1) as (_ & Ha & Q1 & ->).
    pose proof (framed_update n sg (a - 1)
                  (3 * (a - 1) + nth (a - 1) (sg_d sg) 0) (b - 1) F)
      as F1.
    destruct (sg_add_exact n _ _ _ _ _ F1 H2) as (_ & Hb & Q2 & ->).
    cbn [sg_d sg_e sg_v nv nde] in *.
    match type of H with
    | sg_fill es ?sg2 = _ => assert (F2 : sg_framed n sg2)
    end.
    { destruct F1 as (A & B & C). unfold sg_framed. cbn [sg_d sg_e sg_v].
      cbn [sg_d sg_e sg_v] in A, B, C. now rewrite !length_update. }
    destruct F as (Fv & Fd & Fe).
    assert (D1 : forall w, 1 <= w ->
              nth (w - 1) (Vec.update (sg_d sg) (a - 1) S) 0
              = nth (w - 1) (sg_d sg) 0 + (if a =? w then 1 else 0)).
    { intros w Hw. apply d_update; lia. }
    assert (D2 : forall w, 1 <= w ->
              nth (w - 1) (Vec.update (Vec.update (sg_d sg) (a - 1) S)
                             (b - 1) S) 0
              = nth (w - 1) (sg_d sg) 0 + (if a =? w then 1 else 0)
                + (if b =? w then 1 else 0)).
    { intros w Hw. rewrite d_update by (rewrite ?length_update; lia).
      rewrite D1 by assumption. reflexivity. }
    assert (P2 : forall w, 1 <= w <= n ->
              nth (w - 1) (Vec.update (Vec.update (sg_d sg) (a - 1) S)
                             (b - 1) S) 0 + degree_in es w <= 3).
    { intros w Hw. rewrite D2 by lia. specialize (P w Hw).
      rewrite degree_in_cons in P. cbn [v1 v2] in P. lia. }
    specialize (IH _ _ _ F2 H P2 v Hv). cbn [sg_d sg_e] in IH.
    destruct IH as [Old New].
    rewrite D2 in Old, New by lia.
    rewrite (D1 b) in Old, Q2 by lia.
    pose proof (P a ltac:(lia)) as Pa.
    pose proof (P b ltac:(lia)) as Pb.
    pose proof (P v Hv) as Pv.
    rewrite degree_in_cons in Pa, Pb, Pv. cbn [v1 v2] in Pa, Pb, Pv.
    rewrite Nat.eqb_refl in Pa.
    rewrite Nat.eqb_refl in Pb.
    set (q1 := 3 * (a - 1) + nth (a - 1) (sg_d sg) 0) in *.
    set (q2 := 3 * (b - 1)
               + (nth (b - 1) (sg_d sg) 0
                  + (if a =? b then 1 else 0))) in *.
    assert (E2 : forall p,
              nth p (Vec.update (Vec.update (sg_e sg) q1 (fun _ => b - 1))
                       q2 (fun _ => a - 1)) 0
              = if p =? q2 then a - 1
                else if p =? q1 then b - 1 else nth p (sg_e sg) 0).
    { intros p. rewrite e_update by (rewrite length_update; lia).
      rewrite e_update by lia. reflexivity. }
    split.
    + intros k Hk. rewrite Old by lia. rewrite E2.
      subst q1 q2.
      destruct (Nat.eqb_spec a b), (Nat.eqb_spec a v),
        (Nat.eqb_spec b v); subst;
        eqb_cases; try reflexivity; lia.
    + intros k Hk. rewrite degree_in_cons in Hk. cbn [v1 v2] in Hk.
      unfold nbrs_in. cbn [flat_map v1 v2]. fold (nbrs_in es v).
      rewrite <- Nat.add_assoc.
      subst q1 q2.
      destruct (Nat.eqb_spec a v) as [Ea|Ea],
        (Nat.eqb_spec b v) as [Eb|Eb]; subst; cbn [app].
      * destruct k as [|[|k]]; cbn [nth].
        -- rewrite (Old (nth (v - 1) (sg_d sg) 0 + 0)) by lia. rewrite E2.
           rewrite ?Nat.eqb_refl in *.
           eqb_cases; try reflexivity; lia.
        -- rewrite (Old (nth (v - 1) (sg_d sg) 0 + 1)) by lia. rewrite E2.
           rewrite ?Nat.eqb_refl in *.
           eqb_cases; try reflexivity; lia.
        -- rewrite <- (New k) by lia. f_equal. lia.
      * destruct k as [|k]; cbn [nth].
        -- rewrite (Old (nth (v - 1) (sg_d sg) 0 + 0)) by lia. rewrite E2.
           eqb_cases; try reflexivity; lia.
        -- rewrite <- (New k) by lia. f_equal. lia.
      * destruct k as [|k]; cbn [nth].
        -- rewrite (Old (nth (v - 1) (sg_d sg) 0 + 0)) by lia. rewrite E2.
           eqb_cases; try reflexivity; lia.
        -- rewrite <- (New k) by lia. f_equal. lia.
      * rewrite <- (New k) by lia. f_equal. lia.
Qed.

Lemma sg_fill_total n : forall es sg,
  sg_framed n sg ->
  Forall (fun e => 1 <= v1 e <= n /\ 1 <= v2 e <= n) es ->
  (forall v, 1 <= v <= n -> nth (v - 1) (sg_d sg) 0 + degree_in es v <= 3) ->
  exists sg', sg_fill es sg = Done sg' [].
Proof.
  induction es as [|[a b] es IH]; intros sg F R P; cbn [sg_fill].
  - now exists sg.
  - inversion R as [|? ? [Ra Rb] R']; subst. cbn [v1 v2] in *.
    pose proof (P a Ra) as Pa. pose proof (P b Rb) as Pb.
    rewrite degree_in_cons in Pa, Pb. cbn [v1 v2] in Pa, Pb.
    rewrite Nat.eqb_refl in Pa. rewrite Nat.eqb_refl in Pb.
    rewrite (sg_add_run n sg a b F Ra) by lia. cbn [obind app].
    pose proof (framed_update n sg (a - 1)
                  (3 * (a - 1) + nth (a - 1) (sg_d sg) 0) (b - 1) F) as F1.
    destruct F as (Fv & Fd & Fe).
    assert (D1 : forall w, 1 <= w ->
              nth (w - 1) (Vec.update (sg_d sg) (a - 1) S) 0
              = nth (w - 1) (sg_d sg) 0 + (if a =? w then 1 else 0)).
    { intros w Hw. apply d_update; lia. }
    rewrite (sg_add_run n _ b a F1 Rb)
      by (cbn [sg_d]; rewrite D1 by lia; destruct (a =? b); lia).
    cbn [obind app sg_d sg_e sg_v nv nde].
    match goal with
    | |- context [sg_fill es ?sg2] => destruct (IH sg2) as (sg' & E)
    end; [| exact R' | | exists sg'; rewrite E; reflexivity].
    + destruct F1 as (A & B & C). unfold sg_framed. cbn [sg_d sg_e sg_v].
      cbn [sg_d sg_e sg_v] in A, B, C. now rewrite !length_update.
    + intros w Hw. cbn [sg_d].
      rewrite d_update by (rewrite ?length_update; lia).
      rewrite D1 by lia. specialize (P w Hw).
      rewrite degree_in_cons in P. cbn [v1 v2] in P. lia.
Qed.

(** When no vertex has more than three edge ends and the edges join
    vertices that exist, [canongraph] builds its graph without undefined
    behaviour, and the slots of each vertex hold its neighbours. *)
Lemma build_sg_cubic s :
  Forall (fun e => 1 <= v1 e <= numverts s /\ 1 <= v2 e <= numverts s)
         (edges s) ->
  (forall v, 1 <= v <= numverts s -> degree s v <= 3) ->
  exists sg,
    build_sg s = Done sg [] /\
    forall v, 1 <= v <= numverts s ->
      nth (v - 1) (sg_v sg) 0 = 3 * (v - 1) /\
      nth (v - 1) (sg_d sg) 0 = degree s v /\
      forall k, k < degree s v ->
        nth (3 * (v - 1) + k) (sg_e sg) 0 = nth k (nbrs_in (edges s) v) 0.
Proof.
  intros R P. unfold build_sg.
  set (sg0 := mkSG (numverts s) (2 * length (edges s))
                (map (fun i => 3 * i) (seq 0 (numverts s)))
                (repeat 0 (numverts s)) (repeat 0 (3 * numverts s))).
  assert (F : sg_framed (numverts s) sg0).
  { unfold sg_framed, sg0. cbn [sg_v sg_d sg_e].
    now rewrite !repeat_length. }
  assert (P0 : forall v, 1 <= v <= numverts s ->
             nth (v - 1) (sg_d sg0) 0 + degree_in (edges s) v <= 3).
  { intros v Hv. unfold sg0. cbn [sg_d]. rewrite nth_repeat.
    exact (P v Hv). }
  destruct (sg_fill_total _ _ _ F R P0) as (sg & E).
  exists sg. split; [exact E|]. intros v Hv.
  pose proof (sg_fill_Done _ _ _ _ E) as (_ & (_ & _ & Ev & _) & _ & _ & N).
  destruct (sg_fill_adj _ _ _ _ _ F E P0 v Hv) as [_ New].
  unfold sg0 in N, New, Ev. cbn [sg_d sg_v] in N, New, Ev.
  repeat split.
  - rewrite Ev. apply sg_v_nth. lia.
  - rewrite N by lia. rewrite nth_repeat. reflexivity.
  - intros k Hk. specialize (New k Hk).
    rewrite nth_repeat, Nat.add_0_r in New. exact New.
Qed.

Lemma vertdegs_of_range : forall es d d' dd,
  vertdegs_of es d = Done d' dd ->
  Forall (fun e => v1 e < length d /\ v2 e < length d) es.
Proof.
  induction es as [|e es IH]; intros d d' dd H; cbn in H; [constructor|].
  apply obind_Done in H. destruct H as (d1 & ? & ? & H1 & H & ->).
  apply obind_Done in H. destruct H as (d2 & ? & ? & H2 & H & ->).
  apply bump_Done in H1. destruct H1 as (L1 & R1 & _).
  apply bump_Done in H2. destruct H2 as (L2 & R2 & _).
  apply IH in H. constructor; [lia|].
  eapply Forall_impl; [|exact H]. cbn beta. intros y Hy. lia.
Qed.

Lemma degree_in_0 es :
  degree_in es 0 = 0 -> Forall (fun e => 1 <= v1 e /\ 1 <= v2 e) es.
Proof.
  induction es as [|e es IH]; [constructor|].
  rewrite degree_in_cons. intros H.
  destruct (Nat.eqb_spec (v1 e) 0), (Nat.eqb_spec (v2 e) 0); try lia.
  constructor; [lia | apply IH; lia].
Qed.

(** What the completion test of [planar.cc] has checked of the edges
    when it returns [true] without a diagnostic. *)
Lemma sizefinal_planar_edges s :
  sizefinal Planar s = Done true [] ->
  Forall (fun e => 1 <= v1 e <= numverts s /\ 1 <= v2 e <= numverts s)
         (edges s) /\
  forall v, 1 <= v <= numverts s -> degree s v = 3.
Proof.
  intros H. split; [|exact (proj2 (sizefinal_planar_true s [] H))].
  unfold sizefinal in H.
  destruct (sizefinal_faces (faces s) facesoflen0) as [a|]; [|discriminate].
  apply obind_Done in H. destruct H as (u1 & d1 & d2 & _ & H & E1).
  apply obind_Done in H. destruct H as (vd & d3 & d4 & Hvd & H & E2).
  apply obind_Done in H. destruct H as (u2 & d5 & d6 & Hw & H & E3).
  subst d2 d4.
  symmetry in E1. apply app_eq_nil in E1. destruct E1 as [_ E1].
  apply app_eq_nil in E1. destruct E1 as [_ E1].
  apply app_eq_nil in E1. destruct E1 as [-> _].
  pose proof (vertdegs_of_range _ _ _ _ Hvd) as R.
  apply vertdegs_of_Done in Hvd. destruct Hvd as (_ & N).
  rewrite repeat_length in R.
  assert (Z0 : degree_in (edges s) 0 = 0).
  { specialize (N 0). rewrite nth_repeat in N.
    destruct (Nat.eqb_spec (nth 0 vd 0) 0) as [E|E]; [lia|].
    cbn in Hw. discriminate. }
  apply degree_in_0 in Z0.
  rewrite Forall_forall in *. intros e He.
  specialize (R e He). specialize (Z0 e He). lia.
Qed.

(** ** The maps the drivers go on with *)

Lemma same_graph_sym s s' : same_graph s s' -> same_graph s' s.
Proof. unfold same_graph. intuition congruence. Qed.

Lemma within_same s s' : same_graph s s' -> within_limits s -> within_limits s'.
Proof.
  intros (E1 & E2 & E3 & E4 & E5 & E6 & E7). unfold within_limits.
  now rewrite E2, E3, E6, E7.
Qed.

Lemma sizecheck_true_limits tu s d :
  Inv s -> sizecheck tu s = Done true d -> within_limits s.
Proof.
  intros HI H. rewrite (sizecheck_Inv tu s HI) in H. injection H as H _.
  apply andb_prop in H. destruct H as [H H4].
  apply andb_prop in H. destruct H as [H H3].
  apply andb_prop in H. destruct H as [H1 H2].
  unfold within_limits. repeat split.
  - rewrite forallb_forall in H1. apply Forall_forall. intros f Hf.
    apply Nat.leb_le. now apply H1.
  - rewrite forallb_forall in H2. apply Forall_forall. intros o Ho.
    apply Nat.leb_le. now apply H2.
  - now apply Nat.leb_le.
  - now apply Nat.leb_le.
Qed.

Lemma within_limits_seed : within_limits seed.
Proof.
  unfold within_limits, N_SQ, N_PENT. cbn.
  repeat split; repeat constructor.
Qed.

Lemma planar_limits_step MAX orc c c' d :
  planar_ok c ->
  Forall within_limits (PlanarMain.graphStack c) ->
  (PlanarMain.pop c = false -> within_limits (PlanarMain.G c)) ->
  PlanarMain.loop_body MAX orc c = Done (Some c') d ->
  Forall within_limits (PlanarMain.graphStack c') /\
  (PlanarMain.pop c' = false -> within_limits (PlanarMain.G c')).
Proof.
  intros Hok HS HG H.
  pose proof (planar_loop_body _ _ _ _ _ Hok H) as (HI' & _).
  destruct (planar_loop_body_cases _ _ _ _ _ H)
    as (g & st & Hp & b & s1 & d1 & Hinc & Hb).
  assert (Hg : within_limits g /\ Forall within_limits st).
  { destruct Hp as [[_ E]|(Ep & -> & ->)]; [|auto].
    rewrite E in HS. inversion HS; subst. auto. }
  destruct Hg as [Hg Hst].
  unfold incMethod in Hinc.
  apply incMethod_loop_same in Hinc. destruct Hinc as [Hsame _].
  pose proof (within_same _ _ Hsame Hg) as H1.
  destruct Hb as [(_ & ->)|(_ & s2 & d2 & d3 & _ & HA)].
  { cbn. split; [assumption | discriminate]. }
  apply planar_after_addEdges_cases in HA.
  destruct HA as [->|[(_ & d' & HC)|(_ & _ & HSz & s' & HCh & ->)]].
  - cbn. split; [now constructor | discriminate].
  - apply planar_closed_map_cases in HC. destruct HC as (_ & -> & -> & _).
    cbn. split; [now constructor | discriminate].
  - cbn in *. split; [now constructor|]. intros _.
    apply chooseFace_same in HCh.
    pose proof (Inv_same _ _ (same_graph_sym _ _ HCh) HI') as HI2.
    exact (within_same _ _ HCh (sizecheck_true_limits _ _ _ HI2 HSz)).
Qed.

Lemma fast_limits_step MAX orc c c' d :
  fast_ok c ->
  Forall within_limits (FastMain.graphStack c) ->
  (FastMain.pop c = false -> within_limits (FastMain.G c)) ->
  FastMain.loop_body MAX orc c = Done (Some c') d ->
  Forall within_limits (FastMain.graphStack c') /\
  (FastMain.pop c' = false -> within_limits (FastMain.G c')).
Proof.
  intros Hok HS HG H.
  pose proof (fast_loop_body _ _ _ _ _ Hok H) as (HI' & _).
  destruct (fast_loop_body_cases _ _ _ _ _ H)
    as (g & st & Hp & b & s1 & d1 & Hinc & Hb).
  assert (Hg : within_limits g /\ Forall within_limits st).
  { destruct Hp as [[_ E]|(Ep & -> & ->)]; [|auto].
    rewrite E in HS. inversion HS; subst. auto. }
  destruct Hg as [Hg Hst].
  unfold incMethod in Hinc.
  apply incMethod_loop_same in Hinc. destruct Hinc as [Hsame _].
  pose proof (within_same _ _ Hsame Hg) as H1.
  destruct Hb as [(_ & ->)|(_ & s2 & d2 & d3 & _ & HA)].
  { cbn. split; [assumption | discriminate]. }
  apply fast_after_addEdges_cases in HA.
  destruct HA as [->|[(_ & d' & HC)|(_ & _ & HSz & s' & HCh & ->)]].
  - cbn. split; [now constructor | discriminate].
  - apply fast_closed_map_cases in HC. destruct HC as (_ & -> & -> & _).
    cbn. split; [now constructor | discriminate].
  - cbn in *. split; [now constructor|]. intros _.
    apply chooseFace_same in HCh.
    pose proof (Inv_same _ _ (same_graph_sym _ _ HCh) HI') as HI2.
    exact (within_same _ _ HCh (sizecheck_true_limits _ _ _ HI2 HSz)).
Qed.

Lemma planar_limits_turns MAX orc : forall n c c' d,
  planar_ok c ->
  Forall within_limits (PlanarMain.graphStack c) ->
  (PlanarMain.pop c = false -> within_limits (PlanarMain.G c)) ->
  PlanarMain.turns MAX orc n c = Done (Some c') d ->
  Forall within_limits (PlanarMain.graphStack c') /\
  (PlanarMain.pop c' = false -> within_limits (PlanarMain.G c')).
Proof.
  induction n as [|n IH]; intros c c' d Hok HS HG; cbn [PlanarMain.turns].
  - intros [= <- _]. auto.
  - destruct (PlanarMain.loop_body MAX orc c) as [[c1|] d1| |] eqn:E;
      cbn [obind]; try discriminate.
    destruct (PlanarMain.turns MAX orc n c1) as [r d2| |] eqn:E';
      try discriminate.
    intros [= -> _].
    destruct (planar_limits_step _ _ _ _ _ Hok HS HG E) as [HS' HG'].
    exact (IH c1 c' d2 (planar_loop_body _ _ _ _ _ Hok E) HS' HG' E').
Qed.

Lemma fast_limits_turns MAX orc : forall n c c' d,
  fast_ok c ->
  Forall within_limits (FastMain.graphStack c) ->
  (FastMain.pop c = false -> within_limits (FastMain.G c)) ->
  FastMain.turns MAX orc n c = Done (Some c') d ->
  Forall within_limits (FastMain.graphStack c') /\
  (FastMain.pop c' = false -> within_limits (FastMain.G c')).
Proof.
  induction n as [|n IH]; intros c c' d Hok HS HG; cbn [FastMain.turns].
  - intros [= <- _]. auto.
  - destruct (FastMain.loop_body MAX orc c) as [[c1|] d1| |] eqn:E;
      cbn [obind]; try discriminate.
    destruct (FastMain.turns MAX orc n c1) as [r d2| |] eqn:E';
      try discriminate.
    intros [= -> _].
    destruct (fast_limits_step _ _ _ _ _ Hok HS HG E) as [HS' HG'].
    exact (IH c1 c' d2 (fast_loop_body _ _ _ _ _ Hok E) HS' HG' E').
Qed.

(** ** What the programs print *)

Lemma planar_run_inv MAX orc (P : PlanarMain.config -> Prop) :
  (forall c c' d, P c -> PlanarMain.loop_body MAX orc c = Done (Some c') d ->
                  P c') ->
  forall c d r, PlanarMain.run MAX orc c d r -> P c ->
  exists c', P c' /\ r = PlanarMain.result c'.
Proof.
  intros Hstep c d r H. induction H as [c d H|c c' d d' r H _ IH]; intros HP.
  - now exists c.
  - apply IH. exact (Hstep c c' d HP H).
Qed.

Lemma fast_run_inv MAX orc (P : FastMain.config -> Prop) :
  (forall c c' d, P c -> FastMain.loop_body MAX orc c = Done (Some c') d ->
                  P c') ->
  forall c d r, FastMain.run MAX orc c d r -> P c ->
  exists c', P c' /\ r = FastMain.result MAX c'.
Proof.
  intros Hstep c d r H. induction H as [c d H|c c' d d' r H _ IH]; intros HP.
  - now exists c.
  - apply IH. exact (Hstep c c' d HP H).
Qed.

Lemma planar_output_ok MAX orc d ns cs out :
  PlanarMain.run MAX orc PlanarMain.init d (ns, cs, out) ->
  ns = length cs /\ NoDup cs /\
  exists lines,
    out = lines ++ [PlanarMain.Total ns] /\
    solution_numbers lines = seq 1 ns /\
    Forall (solution_ok MAX) lines.
Proof.
  intros H.
  apply (planar_run_inv MAX orc
           (fun c => planar_ok c /\ planar_tally_ok c /\
                     Forall (solution_ok MAX) (PlanarMain.cout c))) in H.
  - destruct H as (c & (_ & (E1 & E2 & E3) & HL) & E).
    unfold PlanarMain.result in E. injection E as -> -> ->.
    repeat split; try assumption. now exists (PlanarMain.cout c).
  - intros c c' d' (Hok & Ht & Hl) Hb.
    split; [exact (planar_loop_body _ _ _ _ _ Hok Hb)|].
    split; [exact (planar_tally_step _ _ _ _ _ Ht Hb)|].
    exact (planar_lines_step _ _ _ _ _ Hok Hl Hb).
  - split; [exact planar_ok_init|]. split; [|constructor].
    repeat split. constructor.
Qed.

Lemma list_sum_firstn_0 : forall (l : list nat) k,
  (forall i, k <= i -> nth i l 0 = 0) ->
  list_sum l = list_sum (firstn k l).
Proof.
  induction l as [|x l IH]; intros k H; [now rewrite firstn_nil|].
  destruct k as [|k].
  - cbn [firstn list_sum fold_right].
    change (x + list_sum l = 0).
    rewrite (IH 0) by (intros i Hi; apply (H (S i)); lia).
    specialize (H 0 (le_n 0)). cbn in H. cbn. lia.
  - cbn [firstn]. change (x + list_sum l = x + list_sum (firstn k l)).
    f_equal. apply IH. intros i Hi. apply (H (S i)). lia.
Qed.

Lemma map_nth_seq_firstn : forall (l : list nat) k,
  k <= length l ->
  map (fun i => nth i l 0) (seq 0 k) = firstn k l.
Proof.
  intros l k H. rewrite <- (window_nth l k 0) by lia. reflexivity.
Qed.

(** The tallies [planar-fast.cc] prints and the one it does not. *)
Lemma printed_tallies (MAX : nat) (t : list nat) :
  length t = MAX - 6 ->
  (forall i, MAX < i + 8 -> nth i t 0 = 0) ->
  list_sum (map (fun i => nth i t 0) (seq 1 (MAX - 7 - 1))) + nth 0 t 0
  = list_sum t.
Proof.
  intros HL HZ. destruct t as [|x r].
  - cbn [length] in HL.
    replace (MAX - 7 - 1) with 0 by lia. reflexivity.
  - cbn [length] in HL. cbn [nth].
    change (list_sum (x :: r)) with (x + list_sum r).
    rewrite <- seq_shift, map_map. cbn [nth].
    rewrite (map_nth_seq_firstn r) by lia.
    rewrite (list_sum_firstn_0 r (MAX - 7 - 1)); [lia|].
    intros i Hi. apply (HZ (S i)). lia.
Qed.

Lemma fast_output_ok MAX orc c0 d0 d t cs pr :
  FastMain.init MAX = Done c0 d0 ->
  FastMain.run MAX orc c0 d (t, cs, pr) ->
  list_sum t = length cs /\ NoDup cs /\ length t = MAX - 6 /\
  (forall i, MAX < i + 8 -> nth i t 0 = 0) /\
  pr = map (fun i => (i, nth i t 0)) (seq 1 (MAX - 7 - 1)) /\
  list_sum (map snd pr) + nth 0 t 0 = length cs.
Proof.
  intros H0 H.
  apply (fast_run_inv MAX orc
           (fun c => fast_ok c /\ fast_tally_ok MAX c)) in H.
  - destruct H as (c & (_ & (E1 & E2 & E3 & E4)) & E).
    unfold FastMain.result in E. injection E as -> -> ->.
    repeat split; try assumption.
    rewrite map_map. cbn [snd]. rewrite printed_tallies; assumption.
  - intros c c' d' (Hok & Ht) Hb. split.
    + exact (fast_loop_body _ _ _ _ _ Hok Hb).
    + exact (fast_tally_step _ _ _ _ _ Hok Ht Hb).
  - split; [exact (fast_ok_init _ _ _ H0)|].
    apply fast_init_Done in H0. destruct H0 as (_ & _ & ->).
    unfold fast_tally_ok. cbn [FastMain.nsuccess FastMain.canonslns].
    rewrite list_sum_repeat_0, repeat_length. repeat split; [constructor|].
    intros i _. apply nth_repeat.
Qed.

(** ** The number of turns *)

Lemma wt_pos D k : 1 <= wt D k.
Proof.
  unfold wt. induction (D - k) as [|n IH]; [cbn; lia|].
  rewrite Nat.pow_succ_r'. lia.
Qed.

Lemma wt_S D k : k < D -> wt D k = 12 * wt D (S k).
Proof.
  intros H. unfold wt. replace (D - k) with (S (D - S k)) by lia.
  apply Nat.pow_succ_r'.
Qed.

Lemma stack_value_bound D : forall st,
  length st <= D -> Forall (fun s => medgadd s <= NUM_METH) st ->
  stack_value D st + 12 * wt D (length st) <= 12 * wt D 0.
Proof.
  unfold NUM_METH.
  induction st as [|top rest IH]; intros HL HF; cbn [stack_value length] in *.
  - lia.
  - inversion HF as [|? ? Ht HF']; subst.
    specialize (IH ltac:(lia) HF').
    rewrite <- (wt_S D (length rest)) by lia.
    pose proof (wt_pos D (length rest)) as P.
    nia.
Qed.

Lemma progress_bound D st pop g :
  on_path D st pop g -> progress D st pop g < 12 * wt D 0.
Proof.
  intros (HL & HF & HG). unfold progress.
  pose proof (stack_value_bound D st HL HF) as B.
  pose proof (wt_pos D (length st)) as P.
  destruct pop; [lia|].
  destruct (HG eq_refl) as [_ Hm]. unfold NUM_METH in Hm. nia.
Qed.

(** The position before a turn that takes the map [g] with the stack
    [st]: either the driver goes on with [g], or it has just popped it. *)
Lemma progress_before D st g g0 :
  length st < D ->
  progress D st false g <= stack_value D st + medgadd g * wt D (length st)
                           + wt D (length st) - 1 /\
  progress D (g :: st) true g0
  <= stack_value D st + medgadd g * wt D (length st)
     + wt D (length st) - 1.
Proof.
  intros HL. unfold progress. cbn [stack_value length].
  rewrite <- (wt_S D (length st)) by lia.
  pose proof (wt_pos D (length st)) as P. split; lia.
Qed.

(** The position after the turn: the driver has found no further move
    for [g] and backtracks, or it has pushed [g] with a later move. *)
Lemma progress_after_false D st g s1 :
  medgadd g <= NUM_METH ->
  stack_value D st + medgadd g * wt D (length st) + wt D (length st) - 1
  < progress D st true s1.
Proof.
  unfold NUM_METH, progress. intros Hm.
  pose proof (wt_pos D (length st)) as P. nia.
Qed.

Lemma progress_after_true D st g s1 pop s2 :
  medgadd g < medgadd s1 ->
  (pop = false -> medgadd s2 = 0) ->
  stack_value D st + medgadd g * wt D (length st) + wt D (length st) - 1
  < progress D (s1 :: st) pop s2.
Proof.
  unfold progress. cbn [stack_value length]. intros Hm H0.
  pose proof (wt_pos D (length st)) as P.
  pose proof (wt_pos D (S (length st))) as P'.
  destruct pop; [nia|]. rewrite (H0 eq_refl). nia.
Qed.

Lemma incMethod_loop_medgadd tu : forall fuel s b s' d,
  incMethod_loop tu fuel s = Done (b, s') d ->
  b = true -> medgadd s < medgadd s' <= NUM_METH.
Proof.
  induction fuel as [|fuel IH]; intros s b s' d; cbn [incMethod_loop];
    destruct (Nat.leb_spec (medgadd s) NUM_METH) as [Hle|Hgt];
    try discriminate.
  - intros [= <- _ _]. discriminate.
  - destruct (isValid0 tu (set_medgadd (S (medgadd s)) s)) as [[|] d0| |] eqn:EV;
      cbn [obind]; try discriminate.
    + intros [= <- <- _] _. unfold isValid0 in EV.
      destruct (Nat.le_gt_cases (medgadd (set_medgadd (S (medgadd s)) s))
                  NUM_METH) as [Hm|Hm].
      * destruct s; cbn in *. lia.
      * pose proof (isValid_beyond _ _ _ _ _ _ EV Hm). discriminate.
    + intros H Hb. destruct (incMethod_loop tu fuel _) as [[b' s2] d2| |] eqn:E;
        try discriminate.
      injection H as -> -> _.
      specialize (IH _ _ _ _ E Hb). destruct s; cbn in *. lia.
  - intros [= <- _ _]. discriminate.
Qed.

Lemma chooseFace_medgadd s x s' d :
  chooseFace s = Done (x, s') d -> medgadd s' = 0.
Proof.
  unfold chooseFace, mbind, modify, gets. cbn [obind oret fst snd app].
  destruct (for_each _ chooseFace_body (set_chosenFace 0 s))
    as [[y s1] d1| |]; try discriminate.
  cbn [fst snd]. intros [= _ <- _]. destruct s1; reflexivity.
Qed.

Lemma planar_progress_step MAX orc c c' d :
  4 <= MAX ->
  on_path (MAX - 3) (PlanarMain.graphStack c) (PlanarMain.pop c)
    (PlanarMain.G c) ->
  PlanarMain.loop_body MAX orc c = Done (Some c') d ->
  on_path (MAX - 3) (PlanarMain.graphStack c') (PlanarMain.pop c')
    (PlanarMain.G c') /\
  progress (MAX - 3) (PlanarMain.graphStack c) (PlanarMain.pop c)
    (PlanarMain.G c)
  < progress (MAX - 3) (PlanarMain.graphStack c') (PlanarMain.pop c')
      (PlanarMain.G c').
Proof.
  intros HM (HL & HF & HG) H.
  destruct (planar_loop_body_cases _ _ _ _ _ H)
    as (g & st & Hp & b & s1 & d1 & Hinc & Hb).
  assert (Hg : length st < MAX - 3 /\ medgadd g <= NUM_METH /\
               Forall (fun s => medgadd s <= NUM_METH) st /\
               progress (MAX - 3) (PlanarMain.graphStack c)
                 (PlanarMain.pop c) (PlanarMain.G c)
               <= stack_value (MAX - 3) st
                  + medgadd g * wt (MAX - 3) (length st)
                  + wt (MAX - 3) (length st) - 1).
  { destruct Hp as [[Ep E]|(Ep & -> & ->)].
    - rewrite E in HL, HF |- *. rewrite Ep. cbn [length] in HL.
      inversion HF; subst.
      repeat split; try assumption; try lia.
      apply progress_before. lia.
    - destruct (HG Ep) as [A B]. rewrite Ep.
      repeat split; try assumption.
      apply (progress_before _ _ _ (PlanarMain.G c)). exact A. }
  destruct Hg as (Hj & Hm & Hst & Hbefore).
  unfold incMethod in Hinc.
  pose proof (incMethod_loop_medgadd _ _ _ _ _ _ Hinc) as Hinc'.
  destruct Hb as [(_ & ->)|(-> & s2 & d2 & d3 & _ & HA)].
  { cbn [PlanarMain.graphStack PlanarMain.pop PlanarMain.G]. split.
    - repeat split; [lia | assumption | discriminate | discriminate].
    - eapply Nat.le_lt_trans; [exact Hbefore|].
      now apply progress_after_false. }
  specialize (Hinc' eq_refl).
  assert (Hst1 : Forall (fun s => medgadd s <= NUM_METH) (s1 :: st))
    by (constructor; [lia | assumption]).
  apply planar_after_addEdges_cases in HA.
  destruct HA as [->|[(_ & d' & HC)|(HT & _ & _ & s' & HCh & ->)]].
  - cbn [PlanarMain.set_pop PlanarMain.graphStack PlanarMain.pop PlanarMain.G].
    split.
    + repeat split; [cbn [length]; lia | assumption | discriminate
                    | discriminate].
    + eapply Nat.le_lt_trans; [exact Hbefore|].
      apply progress_after_true; [lia | discriminate].
  - apply planar_closed_map_cases in HC. destruct HC as (_ & -> & -> & _).
    cbn [PlanarMain.graphStack PlanarMain.pop PlanarMain.G]. split.
    + repeat split; [cbn [length]; lia | assumption | discriminate
                    | discriminate].
    + eapply Nat.le_lt_trans; [exact Hbefore|].
      apply progress_after_true; [lia | discriminate].
  - cbn [PlanarMain.graphStack PlanarMain.pop PlanarMain.G] in *.
    apply chooseFace_medgadd in HCh.
    unfold too_deep in HT. destruct (Nat.leb_spec 4 MAX); [|lia].
    cbn [andb length] in HT. apply Nat.ltb_ge in HT. split.
    + repeat split; [cbn [length]; lia | assumption | cbn [length]; lia
                    | rewrite HCh; unfold NUM_METH; lia].
    + eapply Nat.le_lt_trans; [exact Hbefore|].
      apply progress_after_true; [lia | auto].
Qed.

Lemma fast_progress_step MAX orc c c' d :
  4 <= MAX ->
  on_path (MAX - 3) (FastMain.graphStack c) (FastMain.pop c) (FastMain.G c) ->
  FastMain.loop_body MAX orc c = Done (Some c') d ->
  on_path (MAX - 3) (FastMain.graphStack c') (FastMain.pop c')
    (FastMain.G c') /\
  progress (MAX - 3) (FastMain.graphStack c) (FastMain.pop c) (FastMain.G c)
  < progress (MAX - 3) (FastMain.graphStack c') (FastMain.pop c')
      (FastMain.G c').
Proof.
  intros HM (HL & HF & HG) H.
  destruct (fast_loop_body_cases _ _ _ _ _ H)
    as (g & st & Hp & b & s1 & d1 & Hinc & Hb).
  assert (Hg : length st < MAX - 3 /\ medgadd g <= NUM_METH /\
               Forall (fun s => medgadd s <= NUM_METH) st /\
               progress (MAX - 3) (FastMain.graphStack c)
                 (FastMain.pop c) (FastMain.G c)
               <= stack_value (MAX - 3) st
                  + medgadd g * wt (MAX - 3) (length st)
                  + wt (MAX - 3) (length st) - 1).
  { destruct Hp as [[Ep E]|(Ep & -> & ->)].
    - rewrite E in HL, HF |- *. rewrite Ep. cbn [length] in HL.
      inversion HF; subst.
      repeat split; try assumption; try lia.
      apply progress_before. lia.
    - destruct (HG Ep) as [A B]. rewrite Ep.
      repeat split; try assumption.
      apply (progress_before _ _ _ (FastMain.G c)). exact A. }
  destruct Hg as (Hj & Hm & Hst & Hbefore).
  unfold incMethod in Hinc.
  pose proof (incMethod_loop_medgadd _ _ _ _ _ _ Hinc) as Hinc'.
  destruct Hb as [(_ & ->)|(-> & s2 & d2 & d3 & _ & HA)].
  { cbn [FastMain.graphStack FastMain.pop FastMain.G]. split.
    - repeat split; [lia | assumption | discriminate | discriminate].
    - eapply Nat.le_lt_trans; [exact Hbefore|].
      now apply progress_after_false. }
  specialize (Hinc' eq_refl).
  assert (Hst1 : Forall (fun s => medgadd s <= NUM_METH) (s1 :: st))
    by (constructor; [lia | assumption]).
  apply fast_after_addEdges_cases in HA.
  destruct HA as [->|[(_ & d' & HC)|(HT & _ & _ & s' & HCh & ->)]].
  - cbn [FastMain.set_pop FastMain.graphStack FastMain.pop FastMain.G].
    split.
    + repeat split; [cbn [length]; lia | assumption | discriminate
                    | discriminate].
    + eapply Nat.le_lt_trans; [exact Hbefore|].
      apply progress_after_true; [lia | discriminate].
  - apply fast_closed_map_cases in HC. destruct HC as (_ & -> & -> & _).
    cbn [FastMain.graphStack FastMain.pop FastMain.G]. split.
    + repeat split; [cbn [length]; lia | assumption | discriminate
                    | discriminate].
    + eapply Nat.le_lt_trans; [exact Hbefore|].
      apply progress_after_true; [lia | discriminate].
  - cbn [FastMain.graphStack FastMain.pop FastMain.G] in *.
    apply chooseFace_medgadd in HCh.
    unfold too_deep in HT. destruct (Nat.leb_spec 4 MAX); [|lia].
    cbn [andb length] in HT. apply Nat.ltb_ge in HT. split.
    + repeat split; [cbn [length]; lia | assumption | cbn [length]; lia
                    | rewrite HCh; unfold NUM_METH; lia].
    + eapply Nat.le_lt_trans; [exact Hbefore|].
      apply progress_after_true; [lia | auto].
Qed.

Lemma planar_progress_turns MAX orc : forall n c c' d,
  4 <= MAX ->
  on_path (MAX - 3) (PlanarMain.graphStack c) (PlanarMain.pop c)
    (PlanarMain.G c) ->
  PlanarMain.turns MAX orc n c = Done (Some c') d ->
  on_path (MAX - 3) (PlanarMain.graphStack c') (PlanarMain.pop c')
    (PlanarMain.G c') /\
  progress (MAX - 3) (PlanarMain.graphStack c) (PlanarMain.pop c)
    (PlanarMain.G c) + n
  <= progress (MAX - 3) (PlanarMain.graphStack c') (PlanarMain.pop c')
       (PlanarMain.G c').
Proof.
  induction n as [|n IH]; intros c c' d HM HP; cbn [PlanarMain.turns].
  - intros [= <- _]. split; [assumption | lia].
  - destruct (PlanarMain.loop_body MAX orc c) as [[c1|] d1| |] eqn:E;
      cbn [obind]; try discriminate.
    destruct (PlanarMain.turns MAX orc n c1) as [r d2| |] eqn:E';
      try discriminate.
    intros [= -> _].
    destruct (planar_progress_step _ _ _ _ _ HM HP E) as [HP1 Hlt].
    destruct (IH c1 c' d2 HM HP1 E') as [HP' Hle].
    split; [assumption | lia].
Qed.

Lemma fast_progress_turns MAX orc : forall n c c' d,
  4 <= MAX ->
  on_path (MAX - 3) (FastMain.graphStack c) (FastMain.pop c) (FastMain.G c) ->
  FastMain.turns MAX orc n c = Done (Some c') d ->
  on_path (MAX - 3) (FastMain.graphStack c') (FastMain.pop c')
    (FastMain.G c') /\
  progress (MAX - 3) (FastMain.graphStack c) (FastMain.pop c) (FastMain.G c)
  + n
  <= progress (MAX - 3) (FastMain.graphStack c') (FastMain.pop c')
       (FastMain.G c').
Proof.
  induction n as [|n IH]; intros c c' d HM HP; cbn [FastMain.turns].
  - intros [= <- _]. split; [assumption | lia].
  - destruct (FastMain.loop_body MAX orc c) as [[c1|] d1| |] eqn:E;
      cbn [obind]; try discriminate.
    destruct (FastMain.turns MAX orc n c1) as [r d2| |] eqn:E';
      try discriminate.
    intros [= -> _].
    destruct (fast_progress_step _ _ _ _ _ HM HP E) as [HP1 Hlt].
    destruct (IH c1 c' d2 HM HP1 E') as [HP' Hle].
    split; [assumption | lia].
Qed.

Lemma on_path_seed D : 1 <= D -> on_path D [] false seed.
Proof.
  intros HD. unfold on_path, NUM_METH. cbn.
  repeat split; [lia | constructor | lia | lia].
Qed.

Lemma turns_bound MAX : 4 <= MAX -> 12 * wt (MAX - 3) 0 = 12 ^ (MAX - 2).
Proof.
  intros HM. unfold wt. rewrite Nat.sub_0_r.
  replace (MAX - 2) with (S (MAX - 3)) by lia.
  symmetry. apply Nat.pow_succ_r'.
Qed.

Lemma planar_main_loop_None MAX orc : forall fuel c d,
  PlanarMain.main_loop MAX orc fuel c = Done None d ->
  exists c' d', PlanarMain.turns MAX orc fuel c = Done (Some c') d'.
Proof.
  induction fuel as [|fuel IH]; intros c d;
    cbn [PlanarMain.main_loop PlanarMain.turns].
  - intros _. now exists c, [].
  - destruct (PlanarMain.loop_body MAX orc c) as [[c1|] d1| |];
      cbn [obind]; try discriminate.
    destruct (PlanarMain.main_loop MAX orc fuel c1) as [[r|] d2| |] eqn:E;
      try discriminate.
    intros _. destruct (IH c1 d2 E) as (c' & d' & E').
    rewrite E'. now exists c', (d1 ++ d').
Qed.

Lemma fast_main_loop_None MAX orc : forall fuel c d,
  FastMain.main_loop MAX orc fuel c = Done None d ->
  exists c' d', FastMain.turns MAX orc fuel c = Done (Some c') d'.
Proof.
  induction fuel as [|fuel IH]; intros c d;
    cbn [FastMain.main_loop FastMain.turns].
  - intros _. now exists c, [].
  - destruct (FastMain.loop_body MAX orc c) as [[c1|] d1| |];
      cbn [obind]; try discriminate.
    destruct (FastMain.main_loop MAX orc fuel c1) as [[r|] d2| |] eqn:E;
      try discriminate.
    intros _. destruct (IH c1 d2 E) as (c' & d' & E').
    rewrite E'. now exists c', (d1 ++ d').
Qed.

Lemma planar_turns_bounded MAX orc n c d :
  4 <= MAX ->
  PlanarMain.turns MAX orc n PlanarMain.init = Done (Some c) d ->
  n < 12 ^ (MAX - 2).
Proof.
  intros HM H.
  destruct (planar_progress_turns MAX orc n PlanarMain.init c d HM) as [HP Hle];
    [apply on_path_seed; lia | exact H |].
  apply progress_bound in HP. rewrite turns_bound in HP by assumption.
  cbn [PlanarMain.graphStack PlanarMain.pop PlanarMain.G PlanarMain.init] in Hle.
  lia.
Qed.

Lemma fast_turns_bounded MAX orc n c0 d0 c d :
  4 <= MAX ->
  FastMain.init MAX = Done c0 d0 ->
  FastMain.turns MAX orc n c0 = Done (Some c) d ->
  n < 12 ^ (MAX - 2).
Proof.
  intros HM H0 H. apply fast_init_Done in H0. destruct H0 as (_ & _ & ->).
  pose proof (fast_progress_turns MAX orc n
                (FastMain.mkConfig seed [] [] (repeat 0 (MAX - 6)) false)
                c d HM) as HT.
  cbn [FastMain.graphStack FastMain.pop FastMain.G] in HT.
  assert (H1 : 1 <= MAX - 3) by lia.
  destruct (HT (on_path_seed (MAX - 3) H1) H) as [HP Hle].
  apply progress_bound in HP. rewrite turns_bound in HP by assumption.
  cbn [FastMain.graphStack FastMain.pop FastMain.G] in Hle.
  lia.
Qed.

(** ** The moves of the search are defined *)

Lemma sound_openface tu s p :
  Forall (fun o => o < length (faces s)) (openfaces s) ->
  p < length (openfaces s) ->
  sound tu (openface s p) (fun _ => True).
Proof. intros Hr Hp. rewrite (openface_lt s p Hp Hr). cbn. auto. Qed.

Lemma isValid_sound tu oF m s :
  Forall (fun o => o < length (faces s)) (openfaces s) ->
  oF < length (openfaces s) ->
  sound tu (isValid tu oF m s) (fun _ => True).
Proof.
  intros Hr HoF. unfold isValid.
  destruct (Nat.eqb_spec (length (openfaces s)) 0) as [E|E]; [lia|].
  cbv zeta.
  do 7 (apply sound_bind with (P := fun _ => True);
        [apply sound_openface;
         [exact Hr | first [exact HoF | apply Nat.mod_upper_bound; exact E]]
        | intros ? _]).
  apply sound_bind with (P := fun _ => True); [now apply sound_assert|].
  intros _ _. now apply sound_ret.
Qed.

Lemma sound_self {A} tu (o : outcome A) :
  sound tu o (fun _ => True) ->
  sound tu o (fun a => exists d, o = Done a d).
Proof.
  destruct o as [a d| |]; cbn; auto. intros [_ ->]. split; [|reflexivity].
  now exists [].
Qed.

Lemma ready_set_medgadd m s : ready s -> ready (set_medgadd m s).
Proof.
  intros [HI Hn]. split; [|exact Hn].
  apply (Inv_same s); [|exact HI]. destruct s. repeat split.
Qed.

Lemma incMethod_loop_sound tu : forall fuel s,
  ready s -> aimed s -> NUM_METH + 1 <= fuel + medgadd s ->
  sound tu (incMethod_loop tu fuel s)
    (fun r => fst r = true ->
              wp tu (addEdges0 tu) (fun _ _ => True) (snd r)).
Proof.
  induction fuel as [|fuel IH]; intros s Hs Ha Hf; cbn [incMethod_loop];
    destruct (Nat.leb_spec (medgadd s) NUM_METH) as [Hle|Hgt]; try lia.
  - apply sound_ret. discriminate.
  - set (s' := set_medgadd (S (medgadd s)) s).
    pose proof (ready_set_medgadd (S (medgadd s)) s Hs) as Hs'.
    fold s' in Hs'.
    assert (Ha' : aimed s') by (destruct s; exact Ha).
    apply sound_bind with (P := fun b => exists d, isValid0 tu s' = Done b d).
    + apply sound_self. unfold isValid0. apply isValid_sound.
      * exact (proj2 (inv_open s' (proj1 Hs'))).
      * exact Ha'.
    + intros [|] (d0 & Hv).
      * apply sound_ret. intros _. cbn [snd].
        destruct Hs' as [HI Hn]. unfold isValid0 in Hv.
        eapply wp_weaken.
        -- exact (addEdges_inv tu (chosenFace s') (medgadd s') s' d0 HI Hn Hv).
        -- auto.
      * apply IH; [exact Hs' | exact Ha' |].
        subst s'. destruct s; cbn in *. lia.
  - apply sound_ret. discriminate.
Qed.

Lemma incMethod_safe tu g : ready g -> aimed g -> turn_safe tu g.
Proof.
  intros Hg Ha. unfold turn_safe, incMethod.
  apply incMethod_loop_sound; try assumption. lia.
Qed.

Lemma incMethod_loop_chosen tu : forall fuel s b s' d,
  incMethod_loop tu fuel s = Done (b, s') d -> chosenFace s' = chosenFace s.
Proof.
  induction fuel as [|fuel IH]; intros s b s' d; cbn [incMethod_loop];
    destruct (medgadd s <=? NUM_METH); try discriminate;
    try (now intros [= _ <- _]).
  destruct (isValid0 tu (set_medgadd (S (medgadd s)) s)) as [[|] d0| |];
    cbn [obind]; try discriminate.
  - intros [= _ <- _]. destruct s; reflexivity.
  - intros H. destruct (incMethod_loop tu fuel _) as [[b' s2] d2| |] eqn:E;
      try discriminate.
    injection H as _ <- _. rewrite (IH _ _ _ _ E). destruct s; reflexivity.
Qed.

Lemma chooseFace_aims s x s' d :
  1 <= length (openfaces s) ->
  Forall (fun o => o < length (faces s)) (openfaces s) ->
  chooseFace s = Done (x, s') d -> aimed s'.
Proof.
  intros Hn Hr H.
  destruct (chooseFace_loop (set_chosenFace 0 s) (length (openfaces s) - 1) 1)
    as (c & E & Hc & _).
  - exact Hr.
  - unfold set_chosenFace. cbn [openfaces]. lia.
  - unfold set_chosenFace. cbn [chosenFace]. lia.
  - split; unfold set_chosenFace; cbn [chosenFace]; intros p Hp; [|lia].
    replace p with 0 by lia. lia.
  - unfold chooseFace, mbind, modify, gets in H.
    cbn [obind oret fst snd app] in H.
    change (openfaces (set_chosenFace 0 s)) with (openfaces s) in H.
    rewrite E in H.
    cbn [obind fst snd app] in H. injection H as _ <- _.
    unfold aimed. destruct s; cbn in *. lia.
Qed.

Lemma aimed_same s s' :
  same_graph s s' -> chosenFace s' = chosenFace s -> aimed s -> aimed s'.
Proof.
  intros (_ & _ & _ & _ & _ & _ & E) Ec. unfold aimed. now rewrite E, Ec.
Qed.

Lemma planar_aimed_step MAX orc c c' d :
  planar_ok c ->
  Forall aimed (PlanarMain.graphStack c) ->
  (PlanarMain.pop c = false -> aimed (PlanarMain.G c)) ->
  PlanarMain.loop_body MAX orc c = Done (Some c') d ->
  Forall aimed (PlanarMain.graphStack c') /\
  (PlanarMain.pop c' = false -> aimed (PlanarMain.G c')).
Proof.
  intros Hok HS HG H.
  pose proof (planar_loop_body _ _ _ _ _ Hok H) as (HI' & _).
  destruct (planar_loop_body_cases _ _ _ _ _ H)
    as (g & st & Hp & b & s1 & d1 & Hinc & Hb).
  assert (Hg : aimed g /\ Forall aimed st).
  { destruct Hp as [[_ E]|(Ep & -> & ->)]; [|auto].
    rewrite E in HS. inversion HS; subst. auto. }
  destruct Hg as [Hg Hst].
  unfold incMethod in Hinc.
  pose proof (incMethod_loop_chosen _ _ _ _ _ _ Hinc) as Hch.
  apply incMethod_loop_same in Hinc. destruct Hinc as [Hsame _].
  pose proof (aimed_same _ _ Hsame Hch Hg) as H1.
  destruct Hb as [(_ & ->)|(_ & s2 & d2 & d3 & _ & HA)].
  { cbn. split; [assumption | discriminate]. }
  apply planar_after_addEdges_cases in HA.
  destruct HA as [->|[(_ & d' & HC)|(_ & Hn & _ & s' & HCh & ->)]].
  - cbn. split; [now constructor | discriminate].
  - apply planar_closed_map_cases in HC. destruct HC as (_ & -> & -> & _).
    cbn. split; [now constructor | discriminate].
  - cbn in *. split; [now constructor|]. intros _.
    pose proof (chooseFace_same _ _ _ _ HCh) as Hsm.
    pose proof (Inv_same _ _ (same_graph_sym _ _ Hsm) HI') as HI2.
    apply (chooseFace_aims s2 tt s' []); [lia | | exact HCh].
    exact (proj2 (inv_open s2 HI2)).
Qed.

Lemma fast_aimed_step MAX orc c c' d :
  fast_ok c ->
  Forall aimed (FastMain.graphStack c) ->
  (FastMain.pop c = false -> aimed (FastMain.G c)) ->
  FastMain.loop_body MAX orc c = Done (Some c') d ->
  Forall aimed (FastMain.graphStack c') /\
  (FastMain.pop c' = false -> aimed (FastMain.G c')).
Proof.
  intros Hok HS HG H.
  pose proof (fast_loop_body _ _ _ _ _ Hok H) as (HI' & _).
  destruct (fast_loop_body_cases _ _ _ _ _ H)
    as (g & st & Hp & b & s1 & d1 & Hinc & Hb).
  assert (Hg : aimed g /\ Forall aimed st).
  { destruct Hp as [[_ E]|(Ep & -> & ->)]; [|auto].
    rewrite E in HS. inversion HS; subst. auto. }
  destruct Hg as [Hg Hst].
  unfold incMethod in Hinc.
  pose proof (incMethod_loop_chosen _ _ _ _ _ _ Hinc) as Hch.
  apply incMethod_loop_same in Hinc. destruct Hinc as [Hsame _].
  pose proof (aimed_same _ _ Hsame Hch Hg) as H1.
  destruct Hb as [(_ & ->)|(_ & s2 & d2 & d3 & _ & HA)].
  { cbn. split; [assumption | discriminate]. }
  apply fast_after_addEdges_cases in HA.
  destruct HA as [->|[(_ & d' & HC)|(_ & Hn & _ & s' & HCh & ->)]].
  - cbn. split; [now constructor | discriminate].
  - apply fast_closed_map_cases in HC. destruct HC as (_ & -> & -> & _).
    cbn. split; [now constructor | discriminate].
  - cbn in *. split; [now constructor|]. intros _.
    pose proof (chooseFace_same _ _ _ _ HCh) as Hsm.
    pose proof (Inv_same _ _ (same_graph_sym _ _ Hsm) HI') as HI2.
    apply (chooseFace_aims s2 tt s' []); [lia | | exact HCh].
    exact (proj2 (inv_open s2 HI2)).
Qed.

Lemma planar_aimed_turns MAX orc : forall n c c' d,
  planar_ok c ->
  Forall aimed (PlanarMain.graphStack c) ->
  (PlanarMain.pop c = false -> aimed (PlanarMain.G c)) ->
  PlanarMain.turns MAX orc n c = Done (Some c') d ->
  planar_ok c' /\
  Forall aimed (PlanarMain.graphStack c') /\
  (PlanarMain.pop c' = false -> aimed (PlanarMain.G c')).
Proof.
  induction n as [|n IH]; intros c c' d Hok HS HG; cbn [PlanarMain.turns].
  - intros [= <- _]. auto.
  - destruct (PlanarMain.loop_body MAX orc c) as [[c1|] d1| |] eqn:E;
      cbn [obind]; try discriminate.
    destruct (PlanarMain.turns MAX orc n c1) as [r d2| |] eqn:E';
      try discriminate.
    intros [= -> _].
    destruct (planar_aimed_step _ _ _ _ _ Hok HS HG E) as [HS' HG'].
    exact (IH c1 c' d2 (planar_loop_body _ _ _ _ _ Hok E) HS' HG' E').
Qed.

Lemma fast_aimed_turns MAX orc : forall n c c' d,
  fast_ok c ->
  Forall aimed (FastMain.graphStack c) ->
  (FastMain.pop c = false -> aimed (FastMain.G c)) ->
  FastMain.turns MAX orc n c = Done (Some c') d ->
  fast_ok c' /\
  Forall aimed (FastMain.graphStack c') /\
  (FastMain.pop c' = false -> aimed (FastMain.G c')).
Proof.
  induction n as [|n IH]; intros c c' d Hok HS HG; cbn [FastMain.turns].
  - intros [= <- _]. auto.
  - destruct (FastMain.loop_body MAX orc c) as [[c1|] d1| |] eqn:E;
      cbn [obind]; try discriminate.
    destruct (FastMain.turns MAX orc n c1) as [r d2| |] eqn:E';
      try discriminate.
    intros [= -> _].
    destruct (fast_aimed_step _ _ _ _ _ Hok HS HG E) as [HS' HG'].
    exact (IH c1 c' d2 (fast_loop_body _ _ _ _ _ Hok E) HS' HG' E').
Qed.

Lemma safe_of_ok (tu : variant) (G : GraphState) (st : list GraphState)
    (pop : bool) :
  Inv G -> (pop = false -> 2 <= length (openfaces G)) -> Forall ready st ->
  Forall aimed st -> (pop = false -> aimed G) ->
  (pop = false -> aimed G /\ turn_safe tu G) /\
  Forall (fun g => aimed g /\ turn_safe tu g) st.
Proof.
  intros HI Hn HS HA HG. split.
  - intros Hp. split; [auto|].
    apply incMethod_safe; [split; auto | auto].
  - rewrite Forall_forall in *. intros g Hg. split; [auto|].
    apply incMethod_safe; auto.
Qed.

(** * Further properties of the code: the statements *)

(** X1: whatever the state and the arguments, when [addEdges (oF, m)]
    returns it has added [new_verts m] vertices and appended
    [new_edges m] edges to the edge sequence; the edges that were there
    are left as they are, at their indices. *)
Theorem addEdges_adds (tu : variant) (oF m : nat) (s s' : GraphState)
    (d : list diag) :
  addEdges tu oF m s = Done (tt, s') d ->
  numverts s' = numverts s + new_verts m /\
  exists l, edges s' = edges s ++ l /\ length l = new_edges m.
Proof. intros H. exact (adds_addEdges tu oF m s (tt, s') d H). Qed.

Lemma addEdges_adds_witness :
  exists s',
    addEdges Planar 0 5 seed = Done (tt, s') [] /\
    numverts s' = numverts seed + 2 /\
    exists l, edges s' = edges seed ++ l /\ length l = 3.
Proof.
  assert (H : match addEdges Planar 0 5 seed with
              | Done (tt, _) [] => True
              | _ => False
              end) by (vm_compute; exact I).
  destruct (addEdges Planar 0 5 seed) as [[[] s'] [|? ?]| |] eqn:E;
    try contradiction.
  exists s'. split; [reflexivity|].
  exact (addEdges_adds Planar 0 5 seed s' [] E).
Defined.

(** X2: [addEdges] of [planar-fast.cc] does what [addEdges] of
    [planar.cc] does: from the same state and with the same arguments,
    whenever the latter returns the former returns the same state, and
    writes nothing to [std::cerr]. *)
Theorem addEdges_fast_agrees (oF m : nat) (s : GraphState)
    (r : unit * GraphState) (d : list diag) :
  addEdges Planar oF m s = Done r d ->
  addEdges PlanarFast oF m s = Done r [].
Proof. exact (refines_addEdges oF m s r d). Qed.

Lemma addEdges_fast_agrees_witness :
  exists r,
    addEdges Planar 0 5 seed = Done r [] /\
    addEdges PlanarFast 0 5 seed = Done r [].
Proof.
  assert (H : match addEdges Planar 0 5 seed with
              | Done _ [] => True
              | _ => False
              end) by (vm_compute; exact I).
  destruct (addEdges Planar 0 5 seed) as [r [|? ?]| |] eqn:E;
    try contradiction.
  exists r. split; [reflexivity|].
  exact (addEdges_fast_agrees 0 5 seed r [] E).
Defined.

(** X3: the same for [isValid] and [incMethod]: whenever the function of
    [planar.cc] returns, the one of [planar-fast.cc] returns the same
    value (and, for [incMethod], the same state) from the same state. *)
Theorem isValid_incMethod_fast_agree (oF m : nat) (s : GraphState) :
  (forall b d, isValid Planar oF m s = Done b d ->
               isValid PlanarFast oF m s = Done b []) /\
  (forall r d, incMethod Planar s = Done r d ->
               incMethod PlanarFast s = Done r []).
Proof.
  split.
  - intros b d. apply isValid_agrees.
  - intros r d. unfold incMethod. apply incMethod_loop_agrees.
Qed.

Lemma isValid_incMethod_fast_agree_witness :
  isValid PlanarFast 0 2 seed = Done true [] /\
  incMethod PlanarFast seed = Done (true, set_medgadd 2 seed) [].
Proof.
  destruct (isValid_incMethod_fast_agree 0 2 seed) as [H1 H2].
  split.
  - apply (H1 true []). vm_compute. reflexivity.
  - apply (H2 (true, set_medgadd 2 seed) []). vm_compute. reflexivity.
Defined.

(** X4: whenever [startpt] of [planar.cc] returns, its value is the
    first vertex of the first edge of the face (what [planar-fast.cc]
    writes in its place, [edges[face[0]].v1]), and when the face has
    another edge that vertex is not on the second edge; whenever [endpt]
    returns, its value is the second vertex of the last edge
    ([edges[face.back()].v2]), which is not on the edge before the last.
    Neither writes a diagnostic. *)
Theorem startpt_endpt_values (s : GraphState) (f : list nat) :
  (forall x d, startpt Planar s f = Done x d ->
     d = [] /\ startpt PlanarFast s f = Done x [] /\
     exists i e,
       nth_error f 0 = Some i /\ nth_error (edges s) i = Some e /\
       x = v1 e /\
       (length f <> 1 ->
        exists j e', nth_error f 1 = Some j /\
                     nth_error (edges s) j = Some e' /\
                     v1 e <> v1 e' /\ v1 e <> v2 e')) /\
  (forall x d, endpt Planar s f = Done x d ->
     d = [] /\ endpt PlanarFast s f = Done x [] /\
     exists i e,
       nth_error f (length f - 1) = Some i /\
       nth_error (edges s) i = Some e /\ x = v2 e /\
       (length f <> 1 ->
        exists j e', nth_error f (length f - 2) = Some j /\
                     nth_error (edges s) j = Some e' /\
                     v2 e <> v1 e' /\ v2 e <> v2 e')).
Proof.
  split; intros x d; [apply startpt_value | apply endpt_value].
Qed.

Lemma startpt_endpt_values_witness :
  startpt PlanarFast seed [7; 0] = Done 7 [] /\
  endpt PlanarFast seed [7; 0] = Done 2 [].
Proof.
  destruct (startpt_endpt_values seed [7; 0]) as [H1 H2].
  split.
  - apply (H1 7 []). vm_compute. reflexivity.
  - apply (H2 2 []). vm_compute. reflexivity.
Defined.

(** X5: whenever [sizecheck] of [planar.cc] returns, it has written no
    diagnostic and [sizecheck] of [planar-fast.cc] returns the same
    answer; whenever [sizefinal] of [planar.cc] returns [true], so does
    [sizefinal] of [planar-fast.cc]. *)
Theorem sizecheck_sizefinal_fast_agree (s : GraphState) :
  (forall b d, sizecheck Planar s = Done b d ->
               d = [] /\ sizecheck PlanarFast s = Done b []) /\
  (forall d, sizefinal Planar s = Done true d ->
             sizefinal PlanarFast s = Done true []).
Proof.
  split.
  - intros b d H. split; [exact (sizecheck_Done _ _ _ _ H)|].
    exact (sizecheck_agrees s b d H).
  - intros d. apply sizefinal_agrees.
Qed.

Lemma sizecheck_sizefinal_fast_agree_witness :
  sizecheck PlanarFast seed_5_1 = Done true [] /\
  sizefinal PlanarFast closed_9 = Done true [].
Proof.
  split.
  - apply (proj1 (sizecheck_sizefinal_fast_agree seed_5_1) true []).
    vm_compute. reflexivity.
  - apply (proj2 (sizecheck_sizefinal_fast_agree closed_9) []).
    vm_compute. reflexivity.
Defined.

(** X6: on every map a driver holds, [sizecheck] returns, without
    diagnostic: its assertion holds and it reads no face out of range.
    Its answer is [true] exactly when no face has more than 6 edges, no
    open face has more than 5, and the counters announce at most [N_SQ]
    squares and [N_PENT] pentagons. *)
Theorem sizecheck_visited (tu : variant) (MAX_FACES : nat)
    (sparsenauty : sparsegraph -> nat * list nat) (s : GraphState) :
  visited tu MAX_FACES sparsenauty s ->
  sizecheck tu s
  = Done (forallb (fun f => length f <=? 6) (faces s)
          && forallb (fun o => flen (faces s) o <=? 5) (openfaces s)
          && (nsq s <=? N_SQ) && (npent s <=? N_PENT)) [].
Proof.
  intros Hv. apply sizecheck_Inv. exact (visited_Inv _ _ _ _ Hv).
Qed.

Lemma sizecheck_visited_witness :
  sizecheck Planar one_open
  = Done (forallb (fun f => length f <=? 6) (faces one_open)
          && forallb (fun o => flen (faces one_open) o <=? 5)
               (openfaces one_open)
          && (nsq one_open <=? N_SQ) && (npent one_open <=? N_PENT)) [].
Proof.
  apply (sizecheck_visited Planar 9 (failing_nauty 0) one_open).
  assert (H : match PlanarMain.turns 9 (failing_nauty 0) 8 PlanarMain.init with
              | Done (Some c) _ => PlanarMain.G c = one_open
              | _ => False
              end) by (vm_compute; reflexivity).
  destruct (PlanarMain.turns 9 (failing_nauty 0) 8 PlanarMain.init)
    as [[c|] d| |] eqn:E; try contradiction.
  exists 8, c, d. split; [exact E | exact H].
Defined.

(** X7: when [MAX_FACES] is at least 4, the stack of either driver never
    holds more than [MAX_FACES - 3] maps, and holds at most
    [MAX_FACES - 4] whenever the driver goes on with the map it has
    ([pop] is false). *)
Theorem stack_depth_bounded (MAX_FACES : nat)
    (sparsenauty : sparsegraph -> nat * list nat) :
  4 <= MAX_FACES ->
  (forall n c d,
     PlanarMain.turns MAX_FACES sparsenauty n PlanarMain.init
     = Done (Some c) d ->
     length (PlanarMain.graphStack c) <= MAX_FACES - 3 /\
     (PlanarMain.pop c = false ->
      length (PlanarMain.graphStack c) <= MAX_FACES - 4)) /\
  (forall n c0 d0 c d,
     FastMain.init MAX_FACES = Done c0 d0 ->
     FastMain.turns MAX_FACES sparsenauty n c0 = Done (Some c) d ->
     length (FastMain.graphStack c) <= MAX_FACES - 3 /\
     (FastMain.pop c = false ->
      length (FastMain.graphStack c) <= MAX_FACES - 4)).
Proof.
  intros HM. split.
  - intros n c d H.
    apply (planar_depth_turns MAX_FACES sparsenauty n PlanarMain.init c d HM);
      [cbn; lia | cbn; lia | exact H].
  - intros n c0 d0 c d H0 H.
    apply fast_init_Done in H0. destruct H0 as (_ & _ & ->).
    eapply (fast_depth_turns MAX_FACES sparsenauty n); [exact HM | | | exact H];
      cbn; lia.
Qed.

Lemma stack_depth_bounded_witness :
  exists c d,
    PlanarMain.turns 9 (failing_nauty 0) 141 PlanarMain.init
    = Done (Some c) d /\
    length (PlanarMain.graphStack c) = 6 /\
    length (PlanarMain.graphStack c) <= 9 - 3.
Proof.
  assert (H : match PlanarMain.turns 9 (failing_nauty 0) 141 PlanarMain.init with
              | Done (Some c) _ => length (PlanarMain.graphStack c) = 6
              | _ => False
              end) by (vm_compute; reflexivity).
  destruct (PlanarMain.turns 9 (failing_nauty 0) 141 PlanarMain.init)
    as [[c|] d| |] eqn:E; try contradiction.
  exists c, d. split; [reflexivity|]. split; [exact H|].
  assert (HM : 4 <= 9) by lia.
  exact (proj1 (proj1 (stack_depth_bounded 9 (failing_nauty 0) HM)
                  141 c d E)).
Defined.

(** X8: in [planar.cc], after any number of turns of the loop the tally
    [nsuccess] is the number of canonical forms in the registry, no
    canonical form is in the registry twice, and the solution lines
    written so far to [std::cout] are numbered 1, 2, ..., [nsuccess], in
    this order. *)
Theorem planar_registry_tally (MAX_FACES : nat)
    (sparsenauty : sparsegraph -> nat * list nat) (n : nat)
    (c : PlanarMain.config) (d : list diag) :
  PlanarMain.turns MAX_FACES sparsenauty n PlanarMain.init = Done (Some c) d ->
  PlanarMain.nsuccess c = length (PlanarMain.canonslns c) /\
  NoDup (PlanarMain.canonslns c) /\
  solution_numbers (PlanarMain.cout c) = seq 1 (PlanarMain.nsuccess c).
Proof.
  intros H.
  apply (planar_tally_turns MAX_FACES sparsenauty n PlanarMain.init c d);
    [|exact H].
  repeat split. constructor.
Qed.

Lemma planar_registry_tally_witness :
  exists c d,
    PlanarMain.turns 9 (failing_nauty 0) 141 PlanarMain.init
    = Done (Some c) d /\
    PlanarMain.nsuccess c = 1 /\
    PlanarMain.nsuccess c = length (PlanarMain.canonslns c) /\
    NoDup (PlanarMain.canonslns c) /\
    solution_numbers (PlanarMain.cout c) = seq 1 (PlanarMain.nsuccess c).
Proof.
  assert (H : match PlanarMain.turns 9 (failing_nauty 0) 141 PlanarMain.init with
              | Done (Some c) _ => PlanarMain.nsuccess c = 1
              | _ => False
              end) by (vm_compute; reflexivity).
  destruct (PlanarMain.turns 9 (failing_nauty 0) 141 PlanarMain.init)
    as [[c|] d| |] eqn:E; try contradiction.
  exists c, d. split; [reflexivity|]. split; [exact H|].
  exact (planar_registry_tally 9 (failing_nauty 0) 141 c d E).
Defined.

(** X9: in [planar-fast.cc], after any number of turns of the loop the
    tallies [nsuccess[0 .. MAX_FACES - 6)] add up to the number of
    canonical forms in the registry, no canonical form is in the registry
    twice, and every tally at an index above [MAX_FACES - 8] is 0: a map
    is tallied under its number of hexagons, which is at most
    [MAX_FACES - 8]. *)
Theorem fast_registry_tally (MAX_FACES : nat)
    (sparsenauty : sparsegraph -> nat * list nat) (n : nat)
    (c0 c : FastMain.config) (d0 d : list diag) :
  FastMain.init MAX_FACES = Done c0 d0 ->
  FastMain.turns MAX_FACES sparsenauty n c0 = Done (Some c) d ->
  list_sum (FastMain.nsuccess c) = length (FastMain.canonslns c) /\
  NoDup (FastMain.canonslns c) /\
  length (FastMain.nsuccess c) = MAX_FACES - 6 /\
  forall i, MAX_FACES < i + 8 -> nth i (FastMain.nsuccess c) 0 = 0.
Proof.
  intros H0 H.
  apply (fast_tally_turns MAX_FACES sparsenauty n c0 c d);
    [exact (fast_ok_init _ _ _ H0) | | exact H].
  apply fast_init_Done in H0. destruct H0 as (_ & _ & ->).
  unfold fast_tally_ok. cbn [FastMain.nsuccess FastMain.canonslns].
  rewrite list_sum_repeat_0, repeat_length. repeat split; [constructor|].
  intros i _. apply nth_repeat.
Qed.

Lemma fast_registry_tally_witness :
  exists c0 c d,
    FastMain.init 9 = Done c0 [] /\
    FastMain.turns 9 (failing_nauty 0) 170 c0 = Done (Some c) d /\
    FastMain.nsuccess c = [0; 1; 0] /\
    list_sum (FastMain.nsuccess c) = length (FastMain.canonslns c) /\
    NoDup (FastMain.canonslns c) /\
    length (FastMain.nsuccess c) = 9 - 6 /\
    forall i, 9 < i + 8 -> nth i (FastMain.nsuccess c) 0 = 0.
Proof.
  set (c0 := FastMain.mkConfig seed [] [] (repeat 0 (9 - 6)) false).
  assert (E0 : FastMain.init 9 = Done c0 []) by reflexivity.
  assert (H : match FastMain.turns 9 (failing_nauty 0) 170 c0 with
              | Done (Some c) _ => FastMain.nsuccess c = [0; 1; 0]
              | _ => False
              end) by (vm_compute; reflexivity).
  destruct (FastMain.turns 9 (failing_nauty 0) 170 c0)
    as [[c|] d| |] eqn:E; try contradiction.
  exists c0, c, d. split; [exact E0|]. split; [exact E|].
  split; [exact H|].
  exact (fast_registry_tally 9 (failing_nauty 0) 170 c0 c [] d E0 E).
Defined.

(** X10: a map the search accepts has two squares and five pentagons
    counted, [nhex + 8] faces, [2 * nhex + 12] vertices and
    [3 * nhex + 18] edges, where [nhex] is its hexagon counter; so the
    counter is at most [MAX_FACES - 8]. *)
Theorem accepted_sizes (tu : variant) (MAX_FACES : nat)
    (sparsenauty : sparsegraph -> nat * list nat) (s : GraphState) :
  accepted tu MAX_FACES sparsenauty s ->
  nsq s = N_SQ /\ npent s = N_PENT /\
  length (faces s) = nhex s + 8 /\
  numverts s = 2 * nhex s + 12 /\
  length (edges s) = 3 * nhex s + 18 /\
  nhex s + 8 <= MAX_FACES.
Proof.
  intros (Hv & Ho & Hf & HM).
  pose proof (visited_Inv _ _ _ _ Hv) as HI.
  pose proof (closed_sizes tu s [] HI Ho Hf) as (A & B & C & D & E).
  repeat split; try assumption. lia.
Qed.

Lemma accepted_sizes_witness :
  nsq closed_9 = N_SQ /\ npent closed_9 = N_PENT /\
  length (faces closed_9) = nhex closed_9 + 8 /\
  numverts closed_9 = 2 * nhex closed_9 + 12 /\
  length (edges closed_9) = 3 * nhex closed_9 + 18 /\
  nhex closed_9 + 8 <= 9.
Proof.
  apply (accepted_sizes Planar 9 (failing_nauty 0) closed_9).
  split; [|split; [reflexivity | split; [vm_compute; reflexivity | cbn; lia]]].
  assert (H : match PlanarMain.turns 9 (failing_nauty 0) 141 PlanarMain.init with
              | Done (Some c) _ => PlanarMain.G c = closed_9
              | _ => False
              end) by (vm_compute; reflexivity).
  destruct (PlanarMain.turns 9 (failing_nauty 0) 141 PlanarMain.init)
    as [[c|] d| |] eqn:E; try contradiction.
  exists 141, c, d. split; [exact E | exact H].
Defined.

(** X11: every solution line [planar.cc] writes shows [2 * h + 12]
    vertices for [h] hexagons, with [h + 8 <= MAX_FACES]; its triangle
    list has between 3 and 6 entries, one for each edge of face 0, and it
    has exactly two square lists, of four entries each. *)
Theorem printed_solutions_ok (MAX_FACES : nat)
    (sparsenauty : sparsegraph -> nat * list nat) (n : nat)
    (c : PlanarMain.config) (d : list diag) :
  PlanarMain.turns MAX_FACES sparsenauty n PlanarMain.init = Done (Some c) d ->
  Forall (solution_ok MAX_FACES) (PlanarMain.cout c).
Proof.
  intros H.
  apply (planar_lines_turns MAX_FACES sparsenauty n PlanarMain.init c d);
    [exact planar_ok_init | constructor | exact H].
Qed.

Lemma printed_solutions_ok_witness :
  exists c d,
    PlanarMain.turns 9 (failing_nauty 0) 141 PlanarMain.init
    = Done (Some c) d /\
    PlanarMain.cout c
    = [PlanarMain.Solution 1 [5; 5; 6] [[5; 6; 5; 4]; [5; 5; 5; 4]] 1 14] /\
    Forall (solution_ok 9) (PlanarMain.cout c).
Proof.
  assert (H : match PlanarMain.turns 9 (failing_nauty 0) 141 PlanarMain.init with
              | Done (Some c) _ =>
                  PlanarMain.cout c
                  = [PlanarMain.Solution 1 [5; 5; 6]
                       [[5; 6; 5; 4]; [5; 5; 5; 4]] 1 14]
              | _ => False
              end) by (vm_compute; reflexivity).
  destruct (PlanarMain.turns 9 (failing_nauty 0) 141 PlanarMain.init)
    as [[c|] d| |] eqn:E; try contradiction.
  exists c, d. split; [reflexivity|]. split; [exact H|].
  exact (printed_solutions_ok 9 (failing_nauty 0) 141 c d E).
Defined.

(** X12: [printnbrs (s, face)] returns only when every edge of the face
    lies on exactly one other face; it then lists, edge by edge, the
    length of that other face, and writes no diagnostic.  (In
    [planar.cc] the assertion stops the program otherwise.) *)
Theorem printnbrs_sole_neighbours (s : GraphState) (i : nat)
    (x : list nat) (d : list diag) :
  PlanarMain.printnbrs s i = Done x d ->
  d = [] /\
  exists f, nth_error (faces s) i = Some f /\
            Forall2 (sole_neighbour s i) f x.
Proof.
  intros H. apply printnbrs_Done in H. destruct H as (-> & f & Hf & HF).
  split; [reflexivity|]. exists f. split; [exact Hf|].
  eapply Forall2_impl; [|exact HF].
  intros e k. apply nbrs_of_edge_single.
Qed.

Lemma printnbrs_sole_neighbours_witness :
  exists f, nth_error (faces closed_9) 0 = Some f /\
            Forall2 (sole_neighbour closed_9 0) f [5; 5; 6].
Proof.
  assert (H : PlanarMain.printnbrs closed_9 0 = Done [5; 5; 6] [])
    by (vm_compute; reflexivity).
  exact (proj2 (printnbrs_sole_neighbours closed_9 0 [5; 5; 6] [] H)).
Defined.

(** X13: when the graph build of [canongraph] (lines 660-677) returns,
    it has written no diagnostic, every edge joins two vertices among
    [1 .. numverts], and the graph it hands to nauty has [numverts]
    vertices, [nde = 2 * |edges|], [v[i] = 3 * i], an array [e] of
    [3 * numverts] slots, and [d[v - 1]] equal to the number of edge ends
    at the vertex [v]; the entries of [d] add up to [nde]. *)
Theorem build_sg_degrees (s : GraphState) (sg : sparsegraph) (d : list diag) :
  build_sg s = Done sg d ->
  d = [] /\
  nv sg = numverts s /\
  nde sg = 2 * length (edges s) /\
  sg_v sg = map (fun i => 3 * i) (seq 0 (numverts s)) /\
  length (sg_d sg) = numverts s /\
  length (sg_e sg) = 3 * numverts s /\
  list_sum (sg_d sg) = nde sg /\
  (forall v, 1 <= v <= numverts s -> nth (v - 1) (sg_d sg) 0 = degree s v) /\
  Forall (fun e => 1 <= v1 e <= numverts s /\ 1 <= v2 e <= numverts s)
         (edges s).
Proof. apply build_sg_Done. Qed.

Lemma build_sg_degrees_witness :
  exists sg,
    build_sg closed_9 = Done sg [] /\
    nv sg = 14 /\ nde sg = 42 /\ list_sum (sg_d sg) = nde sg.
Proof.
  assert (H : match build_sg closed_9 with
              | Done _ [] => True
              | _ => False
              end) by (vm_compute; exact I).
  destruct (build_sg closed_9) as [sg [|? ?]| |] eqn:E; try contradiction.
  exists sg. split; [reflexivity|].
  destruct (build_sg_degrees closed_9 sg [] E)
    as (_ & A & B & _ & _ & _ & C & _).
  repeat split; assumption.
Defined.

(** X14: on a map on which [sizefinal] of [planar.cc] returns [true]
    without a diagnostic, [canongraph] has no undefined behaviour: every
    vertex [v] has degree 3, its slots [e[3 (v - 1) .. 3 (v - 1) + 3)]
    hold its three neighbours (numbered from 0) in the order of the
    edges, and [canongraph] returns what nauty leaves in [canong],
    writing one diagnostic exactly when nauty reports an error. *)
Theorem canongraph_after_sizefinal
    (sparsenauty : sparsegraph -> nat * list nat) (s : GraphState) :
  sizefinal Planar s = Done true [] ->
  exists sg,
    build_sg s = Done sg [] /\
    (forall v, 1 <= v <= numverts s ->
       nth (v - 1) (sg_v sg) 0 = 3 * (v - 1) /\
       nth (v - 1) (sg_d sg) 0 = 3 /\
       length (nbrs_in (edges s) v) = 3 /\
       forall k, k < 3 ->
         nth (3 * (v - 1) + k) (sg_e sg) 0 = nth k (nbrs_in (edges s) v) 0) /\
    canongraph sparsenauty Planar s
    = Done (snd (sparsenauty sg))
           (if fst (sparsenauty sg) =? 0 then []
            else [NautyError (fst (sparsenauty sg))]).
Proof.
  intros H. apply sizefinal_planar_edges in H. destruct H as [R D].
  destruct (build_sg_cubic s R) as (sg & E & Hsg).
  { intros v Hv. rewrite (D v Hv). lia. }
  exists sg. split; [exact E|]. split.
  - intros v Hv. destruct (Hsg v Hv) as (A & B & C).
    rewrite (D v Hv) in B, C. repeat split; try assumption.
    rewrite nbrs_in_length. exact (D v Hv).
  - unfold canongraph. rewrite E. cbn [obind].
    destruct (sparsenauty sg) as [err canong]. cbn [fst snd].
    destruct (err =? 0); reflexivity.
Qed.

Lemma canongraph_after_sizefinal_witness :
  exists sg,
    build_sg closed_9 = Done sg [] /\
    canongraph (failing_nauty 0) Planar closed_9 = Done (sg_e sg) [].
Proof.
  assert (H : sizefinal Planar closed_9 = Done true [])
    by (vm_compute; reflexivity).
  destruct (canongraph_after_sizefinal (failing_nauty 0) closed_9 H)
    as (sg & E & _ & C).
  exists sg. split; [exact E | exact C].
Defined.

(** X15: [isValid] reads the open-boundary sequence, the lengths of the
    faces and the counters [nsq] and [npent], and nothing else: from two
    states that agree on these it gives the same outcome, for every
    position and move id. *)
Theorem isValid_reads_lengths (tu : variant) (oF m : nat)
    (s s' : GraphState) :
  openfaces s' = openfaces s ->
  map (@length nat) (faces s') = map (@length nat) (faces s) ->
  nsq s' = nsq s -> npent s' = npent s ->
  isValid tu oF m s' = isValid tu oF m s.
Proof. apply isValid_reads. Qed.

Lemma isValid_reads_lengths_witness :
  isValid Planar 0 2 (set_edges [] (set_nhex 0 seed)) = isValid Planar 0 2 seed.
Proof.
  apply (isValid_reads_lengths Planar 0 2 seed (set_edges [] (set_nhex 0 seed)));
    reflexivity.
Defined.

(** X16: [isValid (oF, m)] has undefined behaviour when [oF] is not a
    position of the open-boundary sequence (in particular when there is
    no open face).  When it returns [true] it has written no diagnostic,
    [oF] is a position, [m] is one of the move ids 1 to [NUM_METH], in
    [planar.cc] the face at [oF] has at least two edges, and the tests of
    the move id have passed ([checked]).  These tests are: the open faces
    the move needs are there (moves 3 and 6 need at least 4 open faces and
    not exactly 5, moves 4 and 7 at least 6, moves 8 and 9 at least 5);
    and each length that [isValid] computes for a face the move is to
    close is from 4 to 6, namely the length of the face at [oF] plus the
    edges the move adds (and the length of the face two positions away
    that moves 3, 4, 6 and 7 take in), and the length of a neighbour plus
    1 where the move closes that neighbour.  [isValid] computes these
    lengths from the entries around [oF] and does not look whether they
    are distinct faces: the computed lengths are those of the closed faces
    only when they are, and with a single open face move 2 passes the
    tests and closes a face of 8 edges. *)
Theorem isValid_requirements (tu : variant) (oF m : nat) (s : GraphState) :
  (length (openfaces s) <= oF -> isValid tu oF m s = Undefined) /\
  (forall d, isValid tu oF m s = Done true d ->
     let n := length (openfaces s) in
     let fc p := nth (nth p (openfaces s) 0) (faces s) [] in
     d = [] /\ oF < n /\ 1 <= m <= NUM_METH /\
     (tu = Planar -> 2 <= length (fc oF)) /\
     checked n (fc ((oF + n - 2) mod n)) (fc ((oF + n - 1) mod n)) (fc oF)
       (fc ((oF + 1) mod n)) (fc ((oF + 2) mod n)) m).
Proof.
  split; [apply isValid_out_of_range|].
  intros d. apply isValid_true_checked.
Qed.

Lemma isValid_requirements_witness :
  isValid Planar 5 2 seed = Undefined /\
  (0 < length (openfaces seed) /\ 1 <= 2 <= NUM_METH).
Proof.
  destruct (isValid_requirements Planar 5 2 seed) as [H1 _].
  destruct (isValid_requirements Planar 0 2 seed) as [_ H2].
  split; [apply H1; cbn; lia|].
  assert (E : isValid Planar 0 2 seed = Done true [])
    by (vm_compute; reflexivity).
  destruct (H2 [] E) as (_ & A & B & _). split; assumption.
Defined.

(** X17: the five erasures of consumed entries of [openfaces] in
    [addEdges], with their case distinctions on the wrap-around, each
    remove one cyclic block: the entries at the positions [a], [a + 1],
    ... taken modulo the length, where [a] is [oF] or the position two
    before it, and leave the other entries in their order.  They have no
    undefined behaviour when [oF] is a position and there are as many
    open faces as entries to remove. *)
Theorem erasures_remove_cyclic_block (oF : nat) (s : GraphState) :
  oF < length (openfaces s) ->
  let n := length (openfaces s) in
  let ppoF := (oF + n - 2) mod n in
  (forall a k, a < n -> k <= n ->
     Permutation (openfaces s)
       (map (fun i => nth ((a + i) mod n) (openfaces s) 0) (seq 0 k)
        ++ cyclic_erase a k (openfaces s)) /\
     length (cyclic_erase a k (openfaces s)) = n - k) /\
  (2 <= n ->
   erase_oF_noF oF ((oF + 1) mod n) s
   = Done (tt, set_openfaces (cyclic_erase oF 2 (openfaces s)) s) []) /\
  (3 <= n ->
   erase_oF_to_nnoF oF ((oF + 1) mod n) ((oF + 2) mod n) s
   = Done (tt, set_openfaces (cyclic_erase oF 3 (openfaces s)) s) []) /\
  (4 <= n ->
   erase_oF_to_nnnoF oF ((oF + 1) mod n) ((oF + 2) mod n) ((oF + 3) mod n) s
   = Done (tt, set_openfaces (cyclic_erase oF 4 (openfaces s)) s) []) /\
  (3 <= n ->
   erase_ppoF_to_oF ppoF ((oF + n - 1) mod n) oF s
   = Done (tt, set_openfaces (cyclic_erase ppoF 3 (openfaces s)) s) []) /\
  (4 <= n ->
   erase_ppoF_to_noF ppoF ((oF + n - 1) mod n) oF ((oF + 1) mod n) s
   = Done (tt, set_openfaces (cyclic_erase ppoF 4 (openfaces s)) s) []).
Proof.
  intros HoF n ppoF. split; [|split; [|split; [|split; [|split]]]].
  - intros a k Ha Hk. now apply cyclic_erase_perm.
  - now apply erase_oF_noF_exact.
  - now apply erase_oF_to_nnoF_exact.
  - now apply erase_oF_to_nnnoF_exact.
  - now apply erase_ppoF_to_oF_exact.
  - now apply erase_ppoF_to_noF_exact.
Qed.

Lemma erasures_remove_cyclic_block_witness :
  erase_oF_to_nnnoF 3 4 0 1 seed = Done (tt, set_openfaces [4] seed) [] /\
  erase_ppoF_to_oF 4 0 1 seed = Done (tt, set_openfaces [4; 5] seed) [].
Proof.
  assert (H3 : 3 < length (openfaces seed)) by (cbn; lia).
  assert (H1 : 1 < length (openfaces seed)) by (cbn; lia).
  assert (L3 : 3 <= length (openfaces seed)) by (cbn; lia).
  assert (L4 : 4 <= length (openfaces seed)) by (cbn; lia).
  split.
  - exact (proj1 (proj2 (proj2 (proj2
             (erasures_remove_cyclic_block 3 seed H3)))) L4).
  - exact (proj1 (proj2 (proj2 (proj2 (proj2
             (erasures_remove_cyclic_block 1 seed H1))))) L3).
Defined.

(** X18: on every map a driver holds, the counters count the closed
    faces: there are [1 + nsq + npent + nhex] faces besides the open
    ones; and [nsq + npent + nhex] is the number of edges minus the
    number of vertices, plus one when no open face is left. *)
Theorem counters_count_closed_faces (tu : variant) (MAX_FACES : nat)
    (sparsenauty : sparsegraph -> nat * list nat) (s : GraphState) :
  visited tu MAX_FACES sparsenauty s ->
  length (closed_faces s) = 1 + nsq s + npent s + nhex s /\
  1 + nsq s + npent s + nhex s + length (openfaces s) = length (faces s) /\
  numverts s + nsq s + npent s + nhex s
  = length (edges s) + (if length (openfaces s) =? 0 then 1 else 0).
Proof.
  intros Hv. pose proof (visited_Inv _ _ _ _ Hv) as HI.
  pose proof (Inv_counters s HI) as [A B].
  pose proof (closed_faces_length s (inv_open s HI)) as C.
  repeat split; try assumption. lia.
Qed.

Lemma counters_count_closed_faces_witness :
  length (closed_faces one_open) = 6 /\
  1 + nsq one_open + npent one_open + nhex one_open
  + length (openfaces one_open) = length (faces one_open) /\
  numverts one_open + nsq one_open + npent one_open + nhex one_open
  = length (edges one_open) + 0.
Proof.
  apply (counters_count_closed_faces Planar 9 (failing_nauty 0) one_open).
  assert (H : match PlanarMain.turns 9 (failing_nauty 0) 8 PlanarMain.init with
              | Done (Some c) _ => PlanarMain.G c = one_open
              | _ => False
              end) by (vm_compute; reflexivity).
  destruct (PlanarMain.turns 9 (failing_nauty 0) 8 PlanarMain.init)
    as [[c|] d| |] eqn:E; try contradiction.
  exists 8, c, d. split; [exact E | exact H].
Defined.

(** X19: a legal move [m] applied to a map a driver holds, with at least
    two open faces, has no undefined behaviour and writes no diagnostic;
    when it returns (in [planar-fast.cc] it does) the map has
    [new_verts m] more vertices and [new_edges m] more edges, the number
    of open faces has changed by [3 * new_verts m - 2 * new_edges m], and
    the counters [nsq + npent + nhex] have gone up by
    [new_edges m - new_verts m] (1 or 2), and by one more when no open
    face is left. *)
Theorem legal_move_effect (tu : variant) (MAX_FACES : nat)
    (sparsenauty : sparsegraph -> nat * list nat) (s : GraphState)
    (oF m : nat) (d0 : list diag) :
  visited tu MAX_FACES sparsenauty s ->
  2 <= length (openfaces s) ->
  isValid tu oF m s = Done true d0 ->
  wp tu (addEdges tu oF m)
     (fun _ s' =>
        numverts s' = numverts s + new_verts m /\
        length (edges s') = length (edges s) + new_edges m /\
        length (openfaces s') + 2 * new_edges m
        = length (openfaces s) + 3 * new_verts m /\
        nsq s' + npent s' + nhex s' + new_verts m
        = nsq s + npent s + nhex s + new_edges m
          + (if length (openfaces s') =? 0 then 1 else 0)) s.
Proof.
  intros Hv Hn Hl. apply (addEdges_effect tu oF m s d0); try assumption.
  exact (visited_Inv _ _ _ _ Hv).
Qed.

Lemma legal_move_effect_witness :
  exists s',
    addEdges PlanarFast 0 5 seed = Done (tt, s') [] /\
    numverts s' = numverts seed + 2 /\
    length (edges s') = length (edges seed) + 3 /\
    length (openfaces s') + 2 * 3 = length (openfaces seed) + 3 * 2 /\
    nsq s' + npent s' + nhex s' + 2
    = nsq seed + npent seed + nhex seed + 3
      + (if length (openfaces s') =? 0 then 1 else 0).
Proof.
  assert (V : visited PlanarFast 9 (failing_nauty 0) seed).
  { exists 0, (FastMain.mkConfig seed [] [] (repeat 0 (9 - 6)) false), [],
      (FastMain.mkConfig seed [] [] (repeat 0 (9 - 6)) false), [].
    repeat split. }
  assert (N : 2 <= length (openfaces seed)) by (cbn; lia).
  assert (L : isValid PlanarFast 0 5 seed = Done true [])
    by (vm_compute; reflexivity).
  assert (H : match addEdges PlanarFast 0 5 seed with
              | Done (tt, _) [] => True
              | _ => False
              end) by (vm_compute; exact I).
  destruct (addEdges PlanarFast 0 5 seed) as [[[] s'] [|? ?]| |] eqn:E;
    try contradiction.
  exists s'. split; [reflexivity|].
  exact (proj1 (wp_Done PlanarFast _ _ seed tt s' []
                  (legal_move_effect PlanarFast 9 (failing_nauty 0) seed 0 5 []
                     V N L) E)).
Defined.

(** X20: every map on the stack of a driver, and the map the driver
    goes on with ([pop] is false), is within the limits [sizecheck]
    enforces: no face has more than 6 edges, no open face more than 5,
    and at most [N_SQ] squares and [N_PENT] pentagons are counted. *)
Theorem search_within_limits (MAX_FACES : nat)
    (sparsenauty : sparsegraph -> nat * list nat) :
  (forall n c d,
     PlanarMain.turns MAX_FACES sparsenauty n PlanarMain.init
     = Done (Some c) d ->
     Forall within_limits (PlanarMain.graphStack c) /\
     (PlanarMain.pop c = false -> within_limits (PlanarMain.G c))) /\
  (forall n c0 d0 c d,
     FastMain.init MAX_FACES = Done c0 d0 ->
     FastMain.turns MAX_FACES sparsenauty n c0 = Done (Some c) d ->
     Forall within_limits (FastMain.graphStack c) /\
     (FastMain.pop c = false -> within_limits (FastMain.G c))).
Proof.
  split.
  - intros n c d H.
    apply (planar_limits_turns MAX_FACES sparsenauty n PlanarMain.init c d);
      [exact planar_ok_init | constructor | | exact H].
    intros _. exact within_limits_seed.
  - intros n c0 d0 c d H0 H.
    pose proof (fast_ok_init _ _ _ H0) as Hok.
    apply fast_init_Done in H0. destruct H0 as (_ & _ & ->).
    apply (fast_limits_turns MAX_FACES sparsenauty n _ c d Hok);
      [constructor | | exact H].
    intros _. exact within_limits_seed.
Qed.

Lemma search_within_limits_witness :
  exists c d,
    PlanarMain.turns 9 (failing_nauty 0) 140 PlanarMain.init
    = Done (Some c) d /\
    PlanarMain.pop c = false /\
    length (PlanarMain.graphStack c) = 5 /\
    Forall within_limits (PlanarMain.graphStack c) /\
    within_limits (PlanarMain.G c).
Proof.
  assert (H : match PlanarMain.turns 9 (failing_nauty 0) 140 PlanarMain.init with
              | Done (Some c) _ =>
                  PlanarMain.pop c = false /\
                  length (PlanarMain.graphStack c) = 5
              | _ => False
              end) by (vm_compute; split; reflexivity).
  destruct (PlanarMain.turns 9 (failing_nauty 0) 140 PlanarMain.init)
    as [[c|] d| |] eqn:E; try contradiction.
  destruct H as [Hp Hl].
  exists c, d. split; [reflexivity|]. split; [exact Hp|]. split; [exact Hl|].
  destruct (proj1 (search_within_limits 9 (failing_nauty 0)) 140 c d E)
    as [A B].
  split; [exact A | exact (B Hp)].
Defined.

(** X21: every map a driver holds obeys the degree law and Euler's
    relation of a partial cubic map: twice the number of edges plus the
    number of open faces is three times the number of vertices, and
    vertices plus faces are edges plus open faces plus 1 (plus 2 when no
    open face is left, the outer face being counted then).  Every face
    has an edge and refers to existing edges only, and the entries of the
    open-boundary sequence are distinct indices of faces. *)
Theorem visited_degree_euler (tu : variant) (MAX_FACES : nat)
    (sparsenauty : sparsegraph -> nat * list nat) (s : GraphState) :
  visited tu MAX_FACES sparsenauty s ->
  2 * length (edges s) + length (openfaces s) = 3 * numverts s /\
  numverts s + length (faces s)
  = length (edges s) + length (openfaces s)
    + (if length (openfaces s) =? 0 then 2 else 1) /\
  good_faces (faces s) (length (edges s)) /\
  good_open (faces s) (openfaces s).
Proof.
  intros Hv. destruct (visited_Inv _ _ _ _ Hv) as [Ho Hf Hd He _].
  repeat split; try assumption; apply Ho.
Qed.

Lemma visited_degree_euler_witness :
  2 * length (edges one_open) + length (openfaces one_open)
  = 3 * numverts one_open /\
  numverts one_open + length (faces one_open)
  = length (edges one_open) + length (openfaces one_open) + 1.
Proof.
  assert (V : visited Planar 9 (failing_nauty 0) one_open).
  { assert (H : match PlanarMain.turns 9 (failing_nauty 0) 8 PlanarMain.init with
                | Done (Some c) _ => PlanarMain.G c = one_open
                | _ => False
                end) by (vm_compute; reflexivity).
    destruct (PlanarMain.turns 9 (failing_nauty 0) 8 PlanarMain.init)
      as [[c|] d| |] eqn:E; try contradiction.
    exists 8, c, d. split; [exact E | exact H]. }
  destruct (visited_degree_euler Planar 9 (failing_nauty 0) one_open V)
    as (A & B & _).
  split; [exact A | exact B].
Defined.

(** X22: when the program built from [planar.cc] terminates, the total
    it reports is the number of canonical forms in its registry, which
    are pairwise different; what it has written to [std::cout] is the
    solution lines, numbered 1, 2, ... up to that total in this order
    (with [Whoops] lines in between, if any), followed by the line of the
    total; and each solution line shows [2 * h + 12] vertices for [h]
    hexagons, [h + 8 <= MAX_FACES], and two square lists of four
    entries. *)
Theorem planar_output_numbered (MAX_FACES : nat)
    (sparsenauty : sparsegraph -> nat * list nat)
    (ns : nat) (cs : list (list nat)) (out : list PlanarMain.line)
    (cerr : list diag) :
  search Planar MAX_FACES sparsenauty (PlanarOutput (ns, cs, out) cerr) ->
  ns = length cs /\ NoDup cs /\
  exists lines,
    out = lines ++ [PlanarMain.Total ns] /\
    solution_numbers lines = seq 1 ns /\
    Forall (solution_ok MAX_FACES) lines.
Proof.
  cbn [search]. intros (r & d & H & E). injection E as <- <-.
  exact (planar_output_ok _ _ _ _ _ _ H).
Qed.

Lemma planar_output_numbered_witness :
  exists cs out cerr,
    search Planar 10 (failing_nauty 0) (PlanarOutput (4, cs, out) cerr) /\
    4 = length cs /\ NoDup cs /\
    exists lines,
      out = lines ++ [PlanarMain.Total 4] /\
      solution_numbers lines = seq 1 4 /\
      Forall (solution_ok 10) lines.
Proof.
  assert (H : match PlanarMain.main_loop 10 (failing_nauty 0) 4000
                      PlanarMain.init with
              | Done (Some (ns, _, _)) _ => ns = 4
              | _ => False
              end) by (vm_compute; reflexivity).
  destruct (PlanarMain.main_loop 10 (failing_nauty 0) 4000 PlanarMain.init)
    as [[[[ns cs] out]|] d| |] eqn:E; try contradiction.
  subst ns.
  assert (S : search Planar 10 (failing_nauty 0) (PlanarOutput (4, cs, out) d)).
  { cbn [search]. exists (4, cs, out), d. split; [|reflexivity].
    exact (planar_main_loop_run _ _ _ _ _ _ E). }
  exists cs, out, d. split; [exact S|].
  exact (planar_output_numbered 10 (failing_nauty 0) 4 cs out d S).
Defined.

(** X23: when the program built from [planar-fast.cc] terminates, its
    tallies add up to the number of canonical forms in its registry,
    which are pairwise different; the tallies above [MAX_FACES - 8]
    hexagons are 0; and the counts it prints, those of 1 to
    [MAX_FACES - 8] hexagons, together with the tally of the maps without
    hexagon, which it does not print, add up to the number of canonical
    forms recorded. *)
Theorem fast_output_tallies (MAX_FACES : nat)
    (sparsenauty : sparsegraph -> nat * list nat)
    (t : list nat) (cs : list (list nat)) (pr : list (nat * nat))
    (cerr : list diag) :
  search PlanarFast MAX_FACES sparsenauty (FastOutput (t, cs, pr) cerr) ->
  list_sum t = length cs /\ NoDup cs /\ length t = MAX_FACES - 6 /\
  (forall i, MAX_FACES < i + 8 -> nth i t 0 = 0) /\
  pr = map (fun i => (i, nth i t 0)) (seq 1 (MAX_FACES - 7 - 1)) /\
  list_sum (map snd pr) + nth 0 t 0 = length cs.
Proof.
  cbn [search]. intros (c0 & r & d & H0 & H & E). injection E as <- <-.
  exact (fast_output_ok _ _ _ _ _ _ _ _ H0 H).
Qed.

Lemma fast_output_tallies_witness :
  exists cs cerr,
    search PlanarFast 10 (failing_nauty 0)
      (FastOutput ([0; 1; 5; 0], cs, [(1, 1); (2, 5)]) cerr) /\
    list_sum [0; 1; 5; 0] = length cs /\ NoDup cs /\
    list_sum (map snd [(1, 1); (2, 5)]) + 0 = length cs.
Proof.
  set (c0 := FastMain.mkConfig seed [] [] (repeat 0 (10 - 6)) false).
  assert (H : match FastMain.main_loop 10 (failing_nauty 0) 4000 c0 with
              | Done (Some (t, _, pr)) _ =>
                  t = [0; 1; 5; 0] /\ pr = [(1, 1); (2, 5)]
              | _ => False
              end) by (vm_compute; split; reflexivity).
  destruct (FastMain.main_loop 10 (failing_nauty 0) 4000 c0)
    as [[[[t cs] pr]|] d| |] eqn:E; try contradiction.
  destruct H as [-> ->].
  assert (S : search PlanarFast 10 (failing_nauty 0)
                (FastOutput ([0; 1; 5; 0], cs, [(1, 1); (2, 5)]) d)).
  { cbn [search]. exists c0, ([0; 1; 5; 0], cs, [(1, 1); (2, 5)]), d.
    split; [reflexivity|]. split; [|reflexivity].
    exact (fast_main_loop_run _ _ _ _ _ _ E). }
  exists cs, d. split; [exact S|].
  destruct (fast_output_tallies 10 (failing_nauty 0) _ cs _ d S)
    as (A & B & _ & _ & _ & C).
  repeat split; assumption.
Defined.

(** X24: the search terminates.  When [MAX_FACES] is at least 4, the
    loop of either driver makes fewer than [12 ^ (MAX_FACES - 2)] turns:
    within that many turns it has left through its [break], or the
    program has stopped at an assertion or run into undefined behaviour.
    (Each turn moves the driver forward in the tree of moves, whose
    depth the test on the stack bounds by [MAX_FACES - 3] and whose nodes
    have at most [NUM_METH] children.) *)
Theorem search_terminates (MAX_FACES : nat)
    (sparsenauty : sparsegraph -> nat * list nat) :
  4 <= MAX_FACES ->
  (forall n c d,
     PlanarMain.turns MAX_FACES sparsenauty n PlanarMain.init
     = Done (Some c) d ->
     n < 12 ^ (MAX_FACES - 2)) /\
  (forall d,
     PlanarMain.main_loop MAX_FACES sparsenauty (12 ^ (MAX_FACES - 2))
       PlanarMain.init <> Done None d) /\
  (forall n c0 d0 c d,
     FastMain.init MAX_FACES = Done c0 d0 ->
     FastMain.turns MAX_FACES sparsenauty n c0 = Done (Some c) d ->
     n < 12 ^ (MAX_FACES - 2)) /\
  (forall c0 d0 d,
     FastMain.init MAX_FACES = Done c0 d0 ->
     FastMain.main_loop MAX_FACES sparsenauty (12 ^ (MAX_FACES - 2)) c0
     <> Done None d).
Proof.
  intros HM. split; [|split; [|split]].
  - intros n c d. now apply planar_turns_bounded.
  - intros d H. apply planar_main_loop_None in H.
    destruct H as (c' & d' & H).
    pose proof (planar_turns_bounded _ _ _ _ _ HM H). lia.
  - intros n c0 d0 c d. now apply fast_turns_bounded.
  - intros c0 d0 d H0 H. apply fast_main_loop_None in H.
    destruct H as (c' & d' & H).
    pose proof (fast_turns_bounded _ _ _ _ _ _ _ HM H0 H). lia.
Qed.

Lemma search_terminates_witness :
  (exists r d,
     PlanarMain.main_loop 5 (failing_nauty 0) (12 ^ (5 - 2)) PlanarMain.init
     = Done (Some r) d) /\
  (forall d,
     PlanarMain.main_loop 5 (failing_nauty 0) (12 ^ (5 - 2)) PlanarMain.init
     <> Done None d).
Proof.
  assert (HM : 4 <= 5) by lia.
  split.
  - assert (H : match PlanarMain.main_loop 5 (failing_nauty 0) (12 ^ (5 - 2))
                        PlanarMain.init with
                | Done (Some _) _ => True
                | _ => False
                end) by (vm_compute; exact I).
    destruct (PlanarMain.main_loop 5 (failing_nauty 0) (12 ^ (5 - 2))
                PlanarMain.init) as [[r|] d| |]; try contradiction.
    now exists r, d.
  - exact (proj1 (proj2 (search_terminates 5 (failing_nauty 0) HM))).
Defined.

(** X25: the drivers select and apply their moves safely.  After any
    number of turns, for the map the next turn takes (the current map
    when [pop] is false, a map of the stack otherwise) the chosen position
    is a position of the open-boundary sequence, [incMethod] has no
    undefined behaviour and writes no diagnostic, and when it finds a
    move, [addEdges] has no undefined behaviour and writes no diagnostic
    either.  (In [planar.cc] either may stop at an assertion.) *)
Theorem search_moves_defined (MAX_FACES : nat)
    (sparsenauty : sparsegraph -> nat * list nat) :
  (forall n c d,
     PlanarMain.turns MAX_FACES sparsenauty n PlanarMain.init
     = Done (Some c) d ->
     (PlanarMain.pop c = false ->
      aimed (PlanarMain.G c) /\ turn_safe Planar (PlanarMain.G c)) /\
     Forall (fun g => aimed g /\ turn_safe Planar g)
       (PlanarMain.graphStack c)) /\
  (forall n c0 d0 c d,
     FastMain.init MAX_FACES = Done c0 d0 ->
     FastMain.turns MAX_FACES sparsenauty n c0 = Done (Some c) d ->
     (FastMain.pop c = false ->
      aimed (FastMain.G c) /\ turn_safe PlanarFast (FastMain.G c)) /\
     Forall (fun g => aimed g /\ turn_safe PlanarFast g)
       (FastMain.graphStack c)).
Proof.
  assert (A0 : aimed seed) by (unfold aimed; cbn; lia).
  split.
  - intros n c d H.
    destruct (planar_aimed_turns MAX_FACES sparsenauty n PlanarMain.init c d)
      as ((HI & Hn & HS) & HA & HG);
      [exact planar_ok_init | constructor | intros _; exact A0 | exact H |].
    now apply safe_of_ok.
  - intros n c0 d0 c d H0 H.
    pose proof (fast_ok_init _ _ _ H0) as Hok.
    apply fast_init_Done in H0. destruct H0 as (_ & _ & ->).
    destruct (fast_aimed_turns MAX_FACES sparsenauty n _ c d Hok)
      as ((HI & Hn & HS) & HA & HG);
      [constructor | intros _; exact A0 | exact H |].
    now apply safe_of_ok.
Qed.

Lemma search_moves_defined_witness :
  exists c d,
    PlanarMain.turns 9 (failing_nauty 0) 140 PlanarMain.init
    = Done (Some c) d /\
    PlanarMain.pop c = false /\
    aimed (PlanarMain.G c) /\ turn_safe Planar (PlanarMain.G c).
Proof.
  assert (H : match PlanarMain.turns 9 (failing_nauty 0) 140 PlanarMain.init with
              | Done (Some c) _ => PlanarMain.pop c = false
              | _ => False
              end) by (vm_compute; reflexivity).
  destruct (PlanarMain.turns 9 (failing_nauty 0) 140 PlanarMain.init)
    as [[c|] d| |] eqn:E; try contradiction.
  exists c, d. split; [reflexivity|]. split; [exact H|].
  exact (proj1 (proj1 (search_moves_defined 9 (failing_nauty 0)) 140 c d E) H).
Defined.

(** ** The final loop of [addEdges], exactly *)

Lemma renumber_step e r o :
  Forall (fun d => d < e) r ->
  renumber r (if e <? o then o - 1 else o) = renumber (e :: r) o.
Proof.
  intros H. unfold renumber. cbn [filter].
  assert (F : forall x, x <= e ->
            length (filter (fun d => d <? x) r) <= length r) by
    (intros; apply filter_length_le).
  assert (A : forall x, e <= x ->
            filter (fun d => d <? x) r = r).
  { intros x Hx. apply forallb_filter_id. apply forallb_forall.
    rewrite Forall_forall in H. intros d Hd. specialize (H d Hd).
    apply Nat.ltb_lt. lia. }
  destruct (Nat.ltb_spec e o) as [Heo|Heo].
  - rewrite (A (o - 1)) by lia. rewrite (A o) by lia. cbn [length]. lia.
  - reflexivity.
Qed.

Lemma renumber_perm D D' o : Permutation D D' -> renumber D o = renumber D' o.
Proof.
  intros H. unfold renumber. f_equal.
  apply Permutation_length. 
  clear -H. induction H; cbn [filter].
  - constructor.
  - destruct (x <? o); [now constructor | assumption].
  - destruct (x <? o), (y <? o); try apply perm_swap; reflexivity.
  - etransitivity; eassumption.
Qed.

Lemma renumber_nil o : renumber [] o = o.
Proof. unfold renumber. cbn. lia. Qed.

(** The final loop, run on a strictly descending list of slots. *)
Lemma erase_all_Done : forall L s s' d,
  StronglySorted gt L ->
  Forall (fun e => e < length (faces s)) L ->
  erase_all L s = Done (tt, s') d ->
  d = [] /\
  openfaces s' = map (renumber L) (openfaces s) /\
  length (faces s') + length L = length (faces s) /\
  (forall j, j < length (faces s) -> ~ In j L ->
     nth (renumber L j) (faces s') [] = nth j (faces s) []) /\
  numverts s' = numverts s /\ nsq s' = nsq s /\ npent s' = npent s /\
  nhex s' = nhex s /\ edges s' = edges s /\
  medgadd s' = medgadd s /\ chosenFace s' = chosenFace s.
Proof.
  induction L as [|e r IH]; intros s s' d Hs Hr H; cbn [erase_all] in H.
  - injection H as <- <-. repeat split; auto.
    + rewrite <- (map_id (openfaces s)) at 1. apply map_ext.
      intros o. now rewrite renumber_nil.
    + intros j _ _. now rewrite renumber_nil.
  - inversion Hs as [|? ? Hs' Hgt]; subst.
    inversion Hr as [|? ? He Hr']; subst.
    unfold mbind in H. rewrite (erase_dead_run e s He) in H.
    cbn [obind fst snd] in H.
    destruct (erase_all r _) as [[[] s1] d1| |] eqn:E; try discriminate.
    injection H as <- <-.
    pose proof (length_remove (faces s) e He) as Hlen.
    apply IH in E; [|assumption|].
    2:{ destruct s; simpl_state. rewrite Forall_forall in *.
        intros x Hx. specialize (Hgt x Hx). lia. }
    destruct s as [nv sq pt hx es fs ofs md cf]; simpl_state.
    destruct E as (-> & E1 & E2 & E3 & E4 & E5 & E6 & E7 & E8 & E9 & E10).
    repeat split; auto.
    + rewrite E1, map_map. apply map_ext. intros o.
      now apply renumber_step.
    + cbn [length]. lia.
    + intros j Hj Hin.
      assert (Hje : j <> e) by (intros ->; apply Hin; now left).
      assert (Hjr : ~ In j r) by (intros X; apply Hin; now right).
      rewrite <- (renumber_step e r j Hgt).
      rewrite Forall_forall in Hgt.
      rewrite E3.
      * rewrite nth_remove by assumption.
        destruct (Nat.ltb_spec e j).
        -- destruct (Nat.ltb_spec (j - 1) e); [lia|]. f_equal. lia.
        -- destruct (Nat.ltb_spec j e); [reflexivity | lia].
      * destruct (Nat.ltb_spec e j); lia.
      * destruct (Nat.ltb_spec e j); [|assumption].
        intros X. specialize (Hgt _ X). lia.
Qed.

(** ** [addEdges] up to its final loop *)

Lemma mbind_assoc_at {A B C} (c : M A) (f : A -> M B) (k : B -> M C) s :
  mbind (mbind c f) k s = mbind c (fun a => mbind (f a) k) s.
Proof.
  unfold mbind. destruct (c s) as [[a s1] d1| |]; cbn [obind fst snd]; auto.
  destruct (f a s1) as [[b s2] d2| |]; cbn [obind fst snd]; auto.
  destruct (k b s2) as [[x s3] d3| |]; cbn [obind fst snd]; auto.
  now rewrite app_assoc.
Qed.

Lemma mbind_ext_at {A B} (c : M A) (f g : A -> M B) s :
  (forall a s', f a s' = g a s') -> mbind c f s = mbind c g s.
Proof.
  intros H. unfold mbind. destruct (c s) as [[a s1] d1| |]; cbn [obind fst snd]; auto.
  now rewrite H.
Qed.

Lemma mbind_ret_at {A B} (a : A) (k : A -> M B) s : mbind (mret a) k s = k a s.
Proof.
  unfold mbind, mret, oret. cbn [obind fst snd].
  destruct (k a s); reflexivity.
Qed.

(** [addEdges] is [addEdges_before_erase] followed by the loop over the
    sorted [toerase]. *)
Lemma addEdges_split tu oF m s :
  addEdges tu oF m s
  = mbind (addEdges_before_erase tu oF m)
          (fun D => erase_all (sort_desc D)) s.
Proof.
  unfold addEdges, addEdges_before_erase.
  rewrite mbind_assoc_at. apply mbind_ext_at. intros n s1.
  destruct (n =? 0); [reflexivity|]. cbv zeta.
  do 10 (rewrite mbind_assoc_at; apply mbind_ext_at; intros).
  rewrite mbind_assoc_at. apply mbind_ext_at. intros.
  now rewrite mbind_ret_at.
Qed.

Lemma returns_ret {A} (P : A -> Prop) a : P a -> returns P (mret a).
Proof. intros H s r d [= <- _]. exact H. Qed.

Lemma returns_bind {A B} (P : B -> Prop) (c : M A) (k : A -> M B) :
  (forall a, returns P (k a)) -> returns P (mbind c k).
Proof.
  intros H s r d E. unfold mbind in E.
  apply obind_Done in E. destruct E as ([a s1] & d1 & d2 & _ & E & _).
  exact (H a s1 r d2 E).
Qed.

Lemma returns_aborted {A} (P : A -> Prop) :
  returns P (fun _ : GraphState => @Aborted (A * GraphState)).
Proof. intros s r d E. discriminate. Qed.

Ltac returns_all :=
  repeat first
    [ apply returns_ret; reflexivity
    | apply returns_aborted
    | apply returns_bind; intros
    | match goal with
      | |- returns _ (if ?b then _ else _) => destruct b
      end ].

(** The value of the [switch]: the slots the move absorbs. *)
Lemma returns_addEdges_switch tu n oF ppoF poF noF nnoF nnnoF
    pppF ppF pF fF nF nnF nnnF startF endptF m :
  returns
    (eq (match m with
         | 1 => if n =? 2 then [] else [nF]
         | 3 | 6 => if n =? 4 then [nnF] else [nnF; nnnF]
         | 4 | 7 => if n =? 4 then [ppF] else [ppF; nF]
         | 8 => [nnF]
         | 9 => [ppF]
         | _ => []
         end))
    (addEdges_switch tu n oF ppoF poF noF nnoF nnnoF
       pppF ppF pF fF nF nnF nnnF startF endptF m).
Proof.
  destruct m as [|[|[|[|[|[|[|[|[|[|[|m]]]]]]]]]]]; cbn [addEdges_switch];
    try (destruct tu; returns_all; fail);
    unfold addEdges_1, addEdges_2, addEdges_3_6, addEdges_4_7, addEdges_5,
      addEdges_8, addEdges_9, addEdges_10.
  all: repeat (apply returns_bind; intros).
  all: try (destruct (n =? 2)); try (destruct (n =? 4)).
  all: returns_all.
Qed.

Lemma wp_returns {A} tu (c : M A) (P : A -> GraphState -> Prop)
    (R : A -> Prop) s :
  wp tu c P s -> returns R c -> wp tu c (fun a s' => P a s' /\ R a) s.
Proof.
  unfold wp, sound. intros H HR. specialize (HR s).
  destruct (c s) as [[a s'] d| |]; auto.
  destruct H as [H ->]. split; [|reflexivity]. split; [exact H|].
  exact (HR (a, s') [] eq_refl).
Qed.

(** What holds when [addEdges] reaches its final loop. *)
Lemma before_erase_mid tu oF m s d :
  Inv s -> 2 <= length (openfaces s) ->
  isValid tu oF m s = Done true d ->
  wp tu (addEdges_before_erase tu oF m)
     (fun D s1 =>
        D = absorbed m (openfaces s) oF /\
        exists s2, Mid s (nth oF (openfaces s) 0) D s2 /\
                   s1 = bump_counters
                          (flen (faces s2) (nth oF (openfaces s) 0)) s2) s.
Proof.
  intros [[Hnd Hrange] Hgood Hdeg Heul Hcl] Hn Hv.
  destruct (isValid_true tu oF m s d Hrange Hv) as [HoF Hsw].
  apply isValid_switch_checked in Hsw; [|cbn; lia].
  destruct s as [nv sq pt hx es fs ofs md cf]. simpl_state.
  assert (Heul' : nv + length fs = length es + length ofs + 1).
  { destruct (Nat.eqb_spec (length ofs) 0); lia. }
  clear Heul Hv.
  destruct (Forall_forall (fun o => o < length fs) ofs) as [Hlt _].
  specialize (Hlt Hrange).
  unfold addEdges_before_erase. apply wp_bind, wp_gets. simpl_state.
  destruct (Nat.eqb_spec (length ofs) 0) as [E0|E0]; [lia|].
  cbv zeta. do 7 read_open.
  apply wp_bind, wp_startpt_of; [assumption | apply Hlt; now apply nth_In |].
  intros startF.
  apply wp_bind, wp_endpt_of; [assumption | apply Hlt; now apply nth_In |].
  intros endptF.
  apply wp_bind.
  apply wp_weaken
    with (P := fun D s1 =>
                 Mid (mkGraphState nv sq pt hx es fs ofs md cf)
                     (nth oF ofs 0) D s1 /\
                 absorbed m ofs oF = D).
  2:{ intros D s2 [HM <-].
      pose proof HM as (Ho & Hg & HfF & HL & _).
      apply wp_bind. apply (wp_countFace tu _ (flen (faces s2) (nth oF ofs 0)));
        auto.
      apply wp_ret. split; [reflexivity|]. exists s2. now split. }
  apply wp_returns.
  2:{ unfold absorbed.
      destruct m as [|[|[|[|[|[|[|[|[|[|[|m]]]]]]]]]]];
        apply returns_addEdges_switch. }
  pose proof (Hlt _ (nth_In ofs 0 (Nat.mod_upper_bound (oF + 2) _ E0))).
  pose proof (Hlt _ (nth_In ofs 0
                       (Nat.mod_upper_bound (oF + length ofs - 2) _ E0))).
  destruct m as [|[|[|[|[|[|[|[|[|[|[|m]]]]]]]]]]];
    cbn [checked addEdges_switch] in *; try contradiction;
    [ apply mid_1 | apply mid_2
    | apply wp_bind, wp_assert_that;
      [unfold face_size_is; sound_reads Hgood | apply mid_3_6]
    | apply wp_bind, wp_assert_that;
      [unfold face_size_is; sound_reads Hgood | apply mid_4_7]
    | apply mid_5 | apply mid_3_6 | apply mid_4_7 | apply mid_8 | apply mid_9
    | apply mid_10 ];
    auto; unfold flen; intuition lia.
Qed.

(** ** The values of [startpt] and [endpt] *)

Lemma sound_startpt_val tu s f :
  f <> [] -> Forall (fun e => e < length (edges s)) f ->
  sound tu (startpt tu s f) (fun x => x = sp (edges s) f).
Proof.
  intros Hf He. rewrite Forall_forall in He. unfold startpt, sp.
  assert (Hl : 0 < length f) by (destruct f; cbn; [congruence | lia]).
  apply sound_bind with (P := fun i => i = nth 0 f 0 /\ i < length (edges s)).
  { apply sound_get with (dflt := 0); [lia|]. split; [reflexivity|].
    apply He. now apply nth_In. }
  intros i0 [-> Hi0].
  apply sound_bind
    with (P := fun e => e = nth (nth 0 f 0) (edges s) (mkEdge 0 0)).
  { now apply sound_get with (dflt := mkEdge 0 0). }
  intros first ->. destruct tu; [|now apply sound_ret].
  destruct (length f =? 1) eqn:E1; [now apply sound_ret|].
  apply Nat.eqb_neq in E1.
  apply sound_bind with (P := fun i => i < length (edges s)).
  { apply sound_get with (dflt := 0); [lia|]. apply He. apply nth_In. lia. }
  intros i1 Hi1.
  apply sound_bind with (P := fun _ => True).
  { now apply sound_get with (dflt := mkEdge 0 0). }
  intros sec _.
  apply sound_bind with (P := fun _ => True); [now apply sound_assert|].
  intros. now apply sound_ret.
Qed.

Lemma sound_endpt_val tu s f :
  f <> [] -> Forall (fun e => e < length (edges s)) f ->
  sound tu (endpt tu s f) (fun x => x = ep (edges s) f).
Proof.
  intros Hf He. rewrite Forall_forall in He. unfold endpt, ep.
  assert (Hl : 0 < length f) by (destruct f; cbn; [congruence | lia]).
  apply sound_bind
    with (P := fun i => i = nth (length f - 1) f 0 /\ i < length (edges s)).
  { apply sound_back; [assumption|]. split; [reflexivity|].
    apply He. apply nth_In. lia. }
  intros il [-> Hil].
  apply sound_bind
    with (P := fun e => e = nth (nth (length f - 1) f 0) (edges s) (mkEdge 0 0)).
  { now apply sound_get with (dflt := mkEdge 0 0). }
  intros laste ->. destruct tu; [|now apply sound_ret].
  destruct (length f =? 1) eqn:E1; [now apply sound_ret|].
  apply Nat.eqb_neq in E1.
  apply sound_bind with (P := fun i => i < length (edges s)).
  { apply sound_get with (dflt := 0); [lia|]. apply He. apply nth_In. lia. }
  intros ip Hip.
  apply sound_bind with (P := fun _ => True).
  { now apply sound_get with (dflt := mkEdge 0 0). }
  intros pene _.
  apply sound_bind with (P := fun _ => True); [now apply sound_assert|].
  intros. now apply sound_ret.
Qed.

Lemma wp_startpt_of_val tu i (Q : nat -> GraphState -> Prop) s :
  good_faces (faces s) (length (edges s)) -> i < length (faces s) ->
  Q (sp (edges s) (nth i (faces s) [])) s -> wp tu (startpt_of tu i) Q s.
Proof.
  intros Hg Hi HQ. destruct (good_faces_nth _ _ _ Hg Hi) as [Hne He].
  unfold startpt_of. apply wp_reads.
  apply sound_bind with (P := fun f => f = nth i (faces s) []).
  { now apply sound_face. }
  intros f ->. eapply sound_weaken; [now apply sound_startpt_val|].
  intros x ->. exact HQ.
Qed.

Lemma wp_endpt_of_val tu i (Q : nat -> GraphState -> Prop) s :
  good_faces (faces s) (length (edges s)) -> i < length (faces s) ->
  Q (ep (edges s) (nth i (faces s) [])) s -> wp tu (endpt_of tu i) Q s.
Proof.
  intros Hg Hi HQ. destruct (good_faces_nth _ _ _ Hg Hi) as [Hne He].
  unfold endpt_of. apply wp_reads.
  apply sound_bind with (P := fun f => f = nth i (faces s) []).
  { now apply sound_face. }
  intros f ->. eapply sound_weaken; [now apply sound_endpt_val|].
  intros x ->. exact HQ.
Qed.

Lemma wp_front_of_val tu i (Q : nat -> GraphState -> Prop) s :
  good_faces (faces s) (length (edges s)) -> i < length (faces s) ->
  (forall x, x = nth 0 (nth i (faces s) []) 0 -> x < length (edges s) ->
             Q x s) ->
  wp tu (front_of i) Q s.
Proof.
  intros Hg Hi HQ. destruct (good_faces_nth _ _ _ Hg Hi) as [Hne He].
  unfold front_of. apply wp_reads.
  apply sound_bind with (P := fun f => f = nth i (faces s) []).
  { now apply sound_face. }
  intros f ->. rewrite Forall_forall in He.
  assert (Hl : 0 < length (nth i (faces s) []))
    by (destruct (nth i (faces s) []); cbn; [congruence | lia]).
  apply sound_get with (dflt := 0); [lia|].
  apply HQ; [reflexivity|]. apply He. now apply nth_In.
Qed.

(** The steps of [wstep], with the values of [startpt], [endpt] and
    [front] kept. *)
Ltac jstep_head H :=
  lazymatch goal with
  | |- wp _ (startpt_of _ _) _ _ =>
      apply wp_startpt_of_val; [solve_good H | side |]
  | |- wp _ (endpt_of _ _) _ _ =>
      apply wp_endpt_of_val; [solve_good H | side |]
  | |- wp _ (front_of _) _ _ =>
      apply wp_front_of_val; [solve_good H | side | intros ? ? ?]
  | |- _ => wstep_head H
  end.

Ltac jstep H :=
  lazymatch goal with
  | |- wp _ (mbind _ _) _ _ => apply wp_bind; jstep_head H
  | |- _ => jstep_head H
  end;
  simpl_state; rewrite ?length_snoc_pred, ?length_update.

(** ** Entries of the cyclic open-boundary sequence *)

Lemma slot_in (fs : list (list nat)) (ofs : list nat) a :
  Forall (fun o => o < length fs) ofs -> 0 < length ofs ->
  In (nth (a mod length ofs) ofs 0) ofs /\
  nth (a mod length ofs) ofs 0 < length fs.
Proof.
  intros Hr Hn.
  assert (Hin : In (nth (a mod length ofs) ofs 0) ofs)
    by (apply nth_In, Nat.mod_upper_bound; lia).
  split; [assumption|]. rewrite Forall_forall in Hr. now apply Hr.
Qed.

Lemma slot_at (fs : list (list nat)) (ofs : list nat) p :
  Forall (fun o => o < length fs) ofs -> p < length ofs ->
  In (nth p ofs 0) ofs /\ nth p ofs 0 < length fs.
Proof.
  intros Hr Hp. assert (Hin : In (nth p ofs 0) ofs) by now apply nth_In.
  split; [assumption|]. rewrite Forall_forall in Hr. now apply Hr.
Qed.

Lemma slot_neq (ofs : list nat) a b q r :
  NoDup ofs -> b = a + q * length ofs + r -> 0 < r < length ofs ->
  nth (a mod length ofs) ofs 0 <> nth (b mod length ofs) ofs 0.
Proof.
  intros Hnd Hb Hr. apply nth_neq; auto; try (apply Nat.mod_upper_bound; lia).
  now apply (mod_neq a b (length ofs) q r).
Qed.

Lemma slot_neq_at (ofs : list nat) p b q r :
  NoDup ofs -> p < length ofs -> b = p + q * length ofs + r ->
  0 < r < length ofs ->
  nth p ofs 0 <> nth (b mod length ofs) ofs 0.
Proof.
  intros Hnd Hp Hb Hr. pose proof (slot_neq ofs p b q r Hnd Hb Hr) as H.
  now rewrite (Nat.mod_small p) in H by assumption.
Qed.

(** ** Turning a cyclic sequence *)

Lemma Rot_refl {A} (l : list A) : Rot l l.
Proof. exists [], l. now rewrite app_nil_r. Qed.

Lemma Rot_sym {A} (l l' : list A) : Rot l l' -> Rot l' l.
Proof. intros (u & v & -> & ->). now exists v, u. Qed.

Lemma Rot_perm {A} (l l' : list A) : Rot l l' -> Permutation l l'.
Proof. intros (u & v & -> & ->). apply Permutation_app_comm. Qed.

Lemma Rot_map {A B} (g : A -> B) (l l' : list A) :
  Rot l l' -> Rot (map g l) (map g l').
Proof.
  intros (u & v & -> & ->). exists (map g u), (map g v).
  now rewrite !map_app.
Qed.

Lemma Rot_rotl {A} a (l : list A) : Rot l (rotl a l).
Proof.
  exists (firstn a l), (skipn a l). split; [|reflexivity].
  symmetry. apply firstn_skipn.
Qed.

Lemma length_rotl {A} a (l : list A) : length (rotl a l) = length l.
Proof.
  unfold rotl. rewrite length_app, Nat.add_comm, <- length_app.
  now rewrite firstn_skipn.
Qed.

Lemma nth_rotl (l : list nat) a j :
  a < length l -> j < length l ->
  nth j (rotl a l) 0 = nth ((a + j) mod length l) l 0.
Proof.
  intros Ha Hj. unfold rotl.
  destruct (Nat.lt_ge_cases (a + j) (length l)) as [H|H].
  - rewrite app_nth1 by (rewrite length_skipn; lia).
    rewrite nth_skipn. now rewrite Nat.mod_small by assumption.
  - rewrite app_nth2 by (rewrite length_skipn; lia).
    rewrite length_skipn, nth_firstn.
    destruct (Nat.ltb_spec (j - (length l - a)) a); [|lia].
    f_equal. symmetry. apply (mod_eq _ _ _ 1); lia.
Qed.

Lemma last_nth_len {A} (d : A) : forall l,
  last l d = nth (length l - 1) l d.
Proof.
  induction l as [|x l IH]; [reflexivity|].
  destruct l as [|y l]; [reflexivity|].
  change (last (x :: y :: l) d) with (last (y :: l) d). rewrite IH.
  cbn [length]. rewrite !Nat.sub_succ, !Nat.sub_0_r. reflexivity.
Qed.

Lemma last_In {A} (d : A) (l : list A) : l <> [] -> In (last l d) l.
Proof.
  intros H. rewrite (app_removelast_last d H) at 2.
  apply in_or_app. right. now left.
Qed.

Lemma list_split_nth (l : list nat) : forall k,
  k <= length l ->
  l = map (fun j => nth j l 0) (seq 0 k) ++ skipn k l.
Proof.
  intros k Hk. rewrite <- (window_nth l k 0) by lia.
  cbn [skipn]. symmetry. apply firstn_skipn.
Qed.

(** The sequence turned to the position [a]: its first [k] entries, the
    entries between, and its last entry. *)
Lemma rotl_window (l : list nat) a k :
  a < length l -> k < length l ->
  rotl a l
  = map (fun j => nth ((a + j) mod length l) l 0) (seq 0 k)
    ++ removelast (skipn k (rotl a l))
    ++ [nth ((a + length l - 1) mod length l) l 0].
Proof.
  intros Ha Hk.
  pose proof (length_rotl a l) as HL.
  rewrite (list_split_nth (rotl a l) k) at 1 by lia.
  f_equal.
  - apply map_ext_in. intros j Hj. apply in_seq in Hj.
    apply nth_rotl; lia.
  - assert (Hne : skipn k (rotl a l) <> []).
    { intros E. apply (f_equal (@length nat)) in E.
      rewrite length_skipn in E. cbn in E. lia. }
    rewrite (app_removelast_last 0 Hne) at 1. f_equal. f_equal.
    rewrite last_nth_len.
    rewrite nth_skipn, length_skipn, HL.
    replace (k + (length l - k - 1)) with (length l - 1) by lia.
    rewrite nth_rotl by lia. f_equal. f_equal. lia.
Qed.

(** The whole sequence turned to the position [a]. *)
Lemma rotl_whole (l : list nat) a :
  a < length l ->
  rotl a l = map (fun j => nth ((a + j) mod length l) l 0) (seq 0 (length l)).
Proof.
  intros Ha. pose proof (length_rotl a l) as HL.
  rewrite (list_split_nth (rotl a l) (length l)) at 1 by lia.
  rewrite skipn_all2 by lia. rewrite app_nil_r.
  apply map_ext_in. intros j Hj. apply in_seq in Hj. apply nth_rotl; lia.
Qed.

Lemma Rot_cyclic_erase (l : list nat) a k :
  a < length l -> k <= length l ->
  Rot (cyclic_erase a k l) (skipn k (rotl a l)).
Proof.
  intros Ha Hk. unfold cyclic_erase, rotl.
  destruct (Nat.le_gt_cases (a + k) (length l)) as [H|H].
  - replace (a + k - length l) with 0 by lia. cbn [skipn].
    rewrite skipn_app, length_skipn.
    replace (k - (length l - a)) with 0 by lia. cbn [skipn].
    rewrite skipn_skipn. replace (k + a) with (a + k) by lia.
    exists (firstn a l), (skipn (a + k) l). auto.
  - rewrite (skipn_all2 l) by lia. rewrite app_nil_r.
    rewrite skipn_app, length_skipn.
    rewrite (skipn_all2 (skipn a l)) by (rewrite length_skipn; lia).
    cbn [app]. replace (k - (length l - a)) with (a + k - length l) by lia.
    apply Rot_refl.
Qed.

Lemma Rot_erase1 (l : list nat) p :
  p < length l -> Rot (firstn p l ++ skipn (S p) l) (skipn 1 (rotl p l)).
Proof.
  intros Hp. unfold rotl.
  rewrite skipn_app, length_skipn, skipn_skipn.
  replace (1 - (length l - p)) with 0 by lia. cbn [skipn].
  replace (1 + p) with (S p) by lia.
  exists (firstn p l), (skipn (S p) l). auto.
Qed.

Lemma Rot_assign (l : list nat) p x :
  p < length l ->
  Rot (Vec.update l p (fun _ => x)) (x :: skipn 1 (rotl p l)).
Proof.
  intros Hp. rewrite (update_split 0) by assumption. unfold rotl.
  rewrite skipn_app, length_skipn, skipn_skipn.
  replace (1 - (length l - p)) with 0 by lia. cbn [skipn].
  replace (1 + p) with (S p) by lia.
  exists (firstn p l), (x :: skipn (S p) l). auto.
Qed.

Lemma Rot_insert_assign (l : list nat) p x y :
  p < length l ->
  Rot (Vec.update (firstn p l ++ x :: skipn p l) (p + 1) (fun _ => y))
      (x :: y :: skipn 1 (rotl p l)).
Proof.
  intros Hp.
  assert (E : p + 1 = length (firstn p l) + 1) by (rewrite length_firstn; lia).
  rewrite E, update_app_r, (skipn_nth 0) by assumption. cbn [Vec.update].
  unfold rotl.
  rewrite skipn_app, length_skipn, skipn_skipn.
  replace (1 - (length l - p)) with 0 by lia. cbn [skipn].
  replace (1 + p) with (S p) by lia.
  exists (firstn p l), (x :: y :: skipn (S p) l). auto.
Qed.

(** ** Paths of faces *)

Lemma linked_app a b (X Y : list (nat * nat)) :
  linked a (X ++ Y) b <-> exists m, linked a X m /\ linked m Y b.
Proof.
  revert a; induction X as [|p X IH]; intros a; cbn [app linked].
  - split; [intros H; now exists a | now intros (m & -> & H)].
  - rewrite IH. split.
    + intros (Hp & m & H1 & H2). now exists m.
    + intros (m & (Hp & H1) & H2). split; [assumption | now exists m].
Qed.

Lemma chain_Rot (B B' : list (nat * nat)) :
  Rot B B' -> (exists a, linked a B a) -> exists a, linked a B' a.
Proof.
  intros (u & v & -> & ->) (a & H).
  apply linked_app in H. destruct H as (m & H1 & H2).
  exists m. apply linked_app. now exists a.
Qed.

(** A path whose last face gets a new end. *)
Lemma linked_retarget_last (g g' : nat -> nat * nat) b' : forall T a b,
  T <> [] -> NoDup T ->
  (forall t, In t T -> fst (g' t) = fst (g t)) ->
  (forall t, In t T -> t <> last T 0 -> snd (g' t) = snd (g t)) ->
  snd (g' (last T 0)) = b' ->
  linked a (map g T) b -> linked a (map g' T) b'.
Proof.
  induction T as [|t T IH]; intros a b Hne Hnd Hf Hs Hl H; [congruence|].
  destruct T as [|t' T].
  - cbn in *. destruct H as [H _]. rewrite Hf by auto. auto.
  - cbn [map linked] in H |- *. destruct H as [H1 H2].
    apply NoDup_cons_iff in Hnd. destruct Hnd as [Hnin Hnd'].
    assert (Hlast : last (t :: t' :: T) 0 = last (t' :: T) 0) by reflexivity.
    split; [rewrite Hf by (now left); exact H1|].
    rewrite Hs.
    + apply (IH _ b); auto; try discriminate.
      * intros x Hx. apply Hf. now right.
      * intros x Hx Hxl. apply Hs; [now right|]. now rewrite Hlast.
    + now left.
    + rewrite Hlast. intros E. apply Hnin. rewrite E.
      apply last_In. discriminate.
Qed.

(** ** First and last vertex of a face under the edits of [addEdges] *)

Lemma sp_app es (f g : list nat) : f <> [] -> sp es (f ++ g) = sp es f.
Proof.
  intros H. unfold sp. rewrite app_nth1; [reflexivity|].
  destruct f; cbn; [congruence | lia].
Qed.

Lemma sp_cons es x (f : list nat) : sp es (x :: f) = v1 (nth x es (mkEdge 0 0)).
Proof. reflexivity. Qed.

Lemma ep_snoc es (f : list nat) x :
  ep es (f ++ [x]) = v2 (nth x es (mkEdge 0 0)).
Proof.
  unfold ep. rewrite length_app. cbn [length].
  rewrite app_nth2 by lia.
  replace (length f + 1 - 1 - length f) with 0 by lia. reflexivity.
Qed.

Lemma ep_app es (f g : list nat) : g <> [] -> ep es (f ++ g) = ep es g.
Proof.
  intros H. unfold ep. rewrite length_app.
  assert (0 < length g) by (destruct g; cbn; [congruence | lia]).
  rewrite app_nth2 by lia. do 3 f_equal. lia.
Qed.

Lemma ep_cons es x (f : list nat) : f <> [] -> ep es (x :: f) = ep es f.
Proof. intros H. exact (ep_app es [x] f H). Qed.

Lemma sp_ext es l (f : list nat) :
  nth 0 f 0 < length es -> sp (es ++ l) f = sp es f.
Proof. intros H. unfold sp. now rewrite app_nth1. Qed.

Lemma ep_ext es l (f : list nat) :
  nth (length f - 1) f 0 < length es -> ep (es ++ l) f = ep es f.
Proof. intros H. unfold ep. now rewrite app_nth1. Qed.

Lemma good_face_ends fs nE i :
  good_faces fs nE -> i < length fs ->
  nth i fs [] <> [] /\
  nth 0 (nth i fs []) 0 < nE /\
  nth (length (nth i fs []) - 1) (nth i fs []) 0 < nE.
Proof.
  intros Hg Hi. destruct (good_faces_nth _ _ _ Hg Hi) as [Hne He].
  rewrite Forall_forall in He.
  assert (0 < length (nth i fs []))
    by (destruct (nth i fs []); cbn; [congruence | lia]).
  repeat split; [assumption | |]; apply He, nth_In; lia.
Qed.

Lemma nth_new {A} (es l : list A) j d :
  nth (length es + j) (es ++ l) d = nth j l d.
Proof. apply app_nth2_plus. Qed.

(** ** Degrees *)

Lemma degree_in_app es es' v :
  degree_in (es ++ es') v = degree_in es v + degree_in es' v.
Proof. unfold degree_in. rewrite !filter_app, !length_app. lia. Qed.

Lemma degree_in_count es v :
  degree_in es v = count_occ Nat.eq_dec (ends_of es) v.
Proof.
  induction es as [|e es IH]; [reflexivity|].
  rewrite degree_in_cons. unfold ends_of in *. cbn [flat_map app count_occ].
  rewrite <- IH.
  destruct (Nat.eq_dec (v1 e) v), (Nat.eq_dec (v2 e) v),
    (Nat.eqb_spec (v1 e) v), (Nat.eqb_spec (v2 e) v); try contradiction; lia.
Qed.

Lemma degree_in_none nv es v :
  Forall (fun e => 1 <= v1 e <= nv /\ 1 <= v2 e <= nv) es ->
  ~ (1 <= v <= nv) -> degree_in es v = 0.
Proof.
  intros H Hv. induction H as [|e es He _ IH]; [reflexivity|].
  rewrite degree_in_cons, IH.
  destruct (Nat.eqb_spec (v1 e) v), (Nat.eqb_spec (v2 e) v); lia.
Qed.

Lemma count_occ_NoDup (l : list nat) v :
  NoDup l -> count_occ Nat.eq_dec l v = if in_dec Nat.eq_dec v l then 1 else 0.
Proof.
  intros H. destruct (in_dec Nat.eq_dec v l) as [Hin|Hin].
  - apply (proj1 (NoDup_count_occ' Nat.eq_dec l) H). exact Hin.
  - now apply count_occ_not_In.
Qed.

(** The degrees after a move that joins the vertices [X] of the boundary
    and the new vertices [Y] by the edges [new]: every vertex of [X] is
    the end of one new edge and every vertex of [Y] of two. *)
Lemma degrees_step nv (es new : list edge) (J X Y K : list nat) j :
  Forall (fun e => 1 <= v1 e <= nv /\ 1 <= v2 e <= nv) es ->
  NoDup J ->
  (forall v, In v J -> degree_in es v = 2) ->
  (forall v, 1 <= v <= nv -> ~ In v J -> degree_in es v = 3) ->
  Permutation J (X ++ K) ->
  Permutation (ends_of new) (X ++ Y ++ Y) ->
  Y = seq (S nv) j ->
  Forall (fun e => 1 <= v1 e <= nv + j /\ 1 <= v2 e <= nv + j) (es ++ new) /\
  NoDup (Y ++ K) /\
  (forall v, In v (Y ++ K) -> degree_in (es ++ new) v = 2) /\
  (forall v, 1 <= v <= nv + j -> ~ In v (Y ++ K) ->
             degree_in (es ++ new) v = 3).
Proof.
  intros Hr Hnd H2 H3 HJ Hnew HY.
  assert (HinJ : forall v, In v J -> 1 <= v <= nv).
  { intros v Hv. specialize (H2 v Hv).
    destruct (Nat.le_gt_cases 1 v), (Nat.le_gt_cases v nv); try lia;
      rewrite (degree_in_none nv es v Hr) in H2 by lia; discriminate. }
  assert (HinY : forall v, In v Y <-> nv < v <= nv + j).
  { intros v. rewrite HY, in_seq. lia. }
  assert (HndY : NoDup Y) by (rewrite HY; apply seq_NoDup).
  pose proof (Permutation_NoDup HJ Hnd) as HndXK.
  pose proof (NoDup_app_remove_l _ _ HndXK) as HndK.
  pose proof (NoDup_app_remove_r _ _ HndXK) as HndX.
  assert (HXJ : forall v, In v X -> In v J).
  { intros v Hv. apply (Permutation_in _ (Permutation_sym HJ)).
    apply in_or_app. now left. }
  assert (HKJ : forall v, In v K -> In v J).
  { intros v Hv. apply (Permutation_in _ (Permutation_sym HJ)).
    apply in_or_app. now right. }
  assert (HXK : forall v, In v X -> ~ In v K).
  { intros v Hv Hk. revert HndXK Hv Hk. clear.
    induction X as [|x X IH]; cbn [app In]; intros H Hv Hk; [easy|].
    inversion H as [|? ? Hx HX]; subst. destruct Hv as [->|Hv].
    - apply Hx, in_or_app. now right.
    - exact (IH HX Hv Hk). }
  assert (Hcnt : forall v, degree_in new v
                 = count_occ Nat.eq_dec X v + 2 * count_occ Nat.eq_dec Y v).
  { intros v. rewrite degree_in_count.
    rewrite (proj1 (Permutation_count_occ Nat.eq_dec _ _) Hnew v).
    rewrite !count_occ_app. lia. }
  assert (Hdeg : forall v, degree_in (es ++ new) v
                 = degree_in es v
                   + (if in_dec Nat.eq_dec v X then 1 else 0)
                   + 2 * (if in_dec Nat.eq_dec v Y then 1 else 0)).
  { intros v. rewrite degree_in_app, Hcnt.
    rewrite (count_occ_NoDup X v HndX), (count_occ_NoDup Y v HndY). lia. }
  repeat split.
  - apply Forall_app. split.
    + eapply Forall_impl; [|exact Hr]. cbn beta. intros e He. lia.
    + apply Forall_forall. intros e He.
      assert (E1 : In (v1 e) (ends_of new)).
      { unfold ends_of. apply in_flat_map. exists e. cbn. auto. }
      assert (E2 : In (v2 e) (ends_of new)).
      { unfold ends_of. apply in_flat_map. exists e. cbn. auto. }
      apply (Permutation_in _ Hnew) in E1, E2.
      assert (R : forall v, In v (X ++ Y ++ Y) -> 1 <= v <= nv + j).
      { intros v Hv. apply in_app_or in Hv. destruct Hv as [Hv|Hv].
        - apply HXJ, HinJ in Hv. lia.
        - assert (Hy : In v Y)
            by (apply in_app_or in Hv; destruct Hv; assumption).
          apply HinY in Hy. lia. }
      split; now apply R.
  - apply NoDup_app; auto.
    intros v Hy Hk. apply HinY in Hy. apply HKJ, HinJ in Hk. lia.
  - intros v Hv. rewrite Hdeg. apply in_app_or in Hv. destruct Hv as [Hy|Hk].
    + pose proof (proj1 (HinY v) Hy) as Hy'.
      rewrite (degree_in_none nv es v Hr) by lia.
      destruct (in_dec Nat.eq_dec v X) as [Hx|Hx];
        [apply HXJ, HinJ in Hx; lia|].
      destruct (in_dec Nat.eq_dec v Y); [lia | contradiction].
    + rewrite (H2 v (HKJ v Hk)).
      destruct (in_dec Nat.eq_dec v X) as [Hx|Hx];
        [exfalso; exact (HXK v Hx Hk)|].
      destruct (in_dec Nat.eq_dec v Y) as [Hy|Hy]; [|lia].
      apply HinY in Hy. apply HKJ, HinJ in Hk. lia.
  - intros v Hv Hnin. rewrite Hdeg.
    assert (HnY : ~ In v Y) by (intros Hy; apply Hnin, in_or_app; now left).
    assert (HnK : ~ In v K) by (intros Hk; apply Hnin, in_or_app; now right).
    assert (Hle : v <= nv).
    { destruct (Nat.le_gt_cases v nv); [assumption|].
      exfalso. apply HnY, HinY. lia. }
    destruct (in_dec Nat.eq_dec v Y); [contradiction|].
    destruct (in_dec Nat.eq_dec v X) as [Hx|Hx].
    + rewrite (H2 v (HXJ v Hx)). lia.
    + rewrite H3; [lia | lia |].
      intros HJv. apply (Permutation_in _ HJ) in HJv.
      apply in_app_or in HJv. tauto.
Qed.

(** ** The boundary, up to a turn of the open-boundary sequence *)

Lemma Bnd_chain_rot s L :
  Bnd s -> Rot (openfaces s) L ->
  exists a, linked a (map (pair_of (edges s) (faces s)) L) a.
Proof.
  intros HB HR. apply (chain_Rot (bounds s)); [|exact (bnd_chain s HB)].
  unfold bounds. now apply Rot_map.
Qed.

(** A move that turns the boundary [X ++ K] into [Y ++ K]: the vertices
    [X] leave it with one more edge each, the new vertices [Y] join it
    with two edges each. *)
Lemma Bnd_move s0 s1 L L' BL' X Y K new j :
  Bnd s0 ->
  Rot (openfaces s0) L ->
  Rot (openfaces s1) L' ->
  map (pair_of (edges s1) (faces s1)) L' = BL' ->
  edges s1 = edges s0 ++ new ->
  numverts s1 = numverts s0 + j ->
  Y = seq (S (numverts s0)) j ->
  Permutation (map fst (map (pair_of (edges s0) (faces s0)) L)) (X ++ K) ->
  Permutation (map fst BL') (Y ++ K) ->
  Permutation (ends_of new) (X ++ Y ++ Y) ->
  (exists a, linked a BL' a) ->
  Bnd s1.
Proof.
  intros [Hv He Hc Hn H2 H3] HL HL' HB' Ees Env HY HX HYK Hnew Hch.
  assert (HJ : Permutation (map fst (bounds s0)) (X ++ K)).
  { etransitivity; [|exact HX]. apply Permutation_map.
    unfold bounds. apply Permutation_map. now apply Rot_perm. }
  destruct (degrees_step (numverts s0) (edges s0) new _ X Y K j
              He Hn H2 H3 HJ Hnew HY) as (R & N & T2 & T3).
  assert (HJ' : Permutation (map fst (bounds s1)) (Y ++ K)).
  { etransitivity; [|exact HYK]. apply Permutation_map.
    rewrite <- HB'. unfold bounds. apply Permutation_map. now apply Rot_perm. }
  constructor.
  - lia.
  - rewrite Ees, Env. exact R.
  - apply (chain_Rot BL'); [|exact Hch].
    rewrite <- HB'. unfold bounds. apply Rot_map. now apply Rot_sym.
  - apply (Permutation_NoDup (Permutation_sym HJ')). exact N.
  - intros v Hin. unfold degree. rewrite Ees. apply T2.
    exact (Permutation_in _ HJ' Hin).
  - intros v Hr Hin. unfold degree. rewrite Ees. apply T3; [lia|].
    intros X0. apply Hin. exact (Permutation_in _ (Permutation_sym HJ') X0).
Qed.

(** What a window of the turned sequence says of its entries. *)
Lemma window_facts (fs : list (list nat)) (ofs L C M : list nat) cl :
  NoDup ofs -> Forall (fun o => o < length fs) ofs ->
  Rot ofs L -> L = C ++ M ++ [cl] ->
  NoDup (C ++ [cl]) /\
  Forall (fun o => o < length fs) (C ++ [cl]) /\
  NoDup M /\
  (forall t, In t M -> ~ In t (C ++ [cl]) /\ t < length fs).
Proof.
  intros Hnd Hr HR ->.
  pose proof (Permutation_NoDup (Rot_perm _ _ HR) Hnd) as N.
  assert (F : Forall (fun o => o < length fs) (C ++ M ++ [cl])).
  { rewrite Forall_forall in *. intros x Hx. apply Hr.
    exact (Permutation_in _ (Permutation_sym (Rot_perm _ _ HR)) Hx). }
  assert (P : Permutation (C ++ M ++ [cl]) (M ++ C ++ [cl])).
  { rewrite !app_assoc. apply Permutation_app_tail, Permutation_app_comm. }
  pose proof (Permutation_NoDup P N) as N'.
  rewrite Forall_forall in F.
  repeat split.
  - exact (NoDup_app_remove_l _ _ N').
  - apply Forall_forall. intros x Hx. apply F.
    apply in_app_or in Hx. apply in_or_app.
    destruct Hx as [Hx|Hx]; [now left|]. right. apply in_or_app. now right.
  - exact (NoDup_app_remove_r _ _ N').
  - intros Hin. revert N' H Hin. clear.
    induction M as [|x M IH]; cbn [app In]; intros H Ht Hc; [easy|].
    inversion H as [|? ? Hx HX]; subst. destruct Ht as [->|Ht].
    + apply Hx, in_or_app. now right.
    + exact (IH HX Ht Hc).
  - apply F. apply in_or_app. right. apply in_or_app. now left.
Qed.

Lemma nth_update_eq {A} (l : list A) i f d :
  i < length l -> nth i (Vec.update l i f) d = f (nth i l d).
Proof.
  intros H. rewrite nth_update, Nat.eqb_refl.
  now destruct (Nat.ltb_spec i (length l)); [|lia].
Qed.

Lemma nth_update_ne {A} (l : list A) i f t d :
  t <> i -> nth t (Vec.update l i f) d = nth t l d.
Proof.
  intros H. rewrite nth_update.
  now destruct (Nat.eqb_spec t i); [contradiction|].
Qed.

Lemma wp_of_eq tu (c : M unit) (Q : unit -> GraphState -> Prop) s s' :
  c s = Done (tt, s') [] -> Q tt s' -> wp tu c Q s.
Proof. intros E H. unfold wp. rewrite E. cbn. auto. Qed.

(** A step that is one of the erase blocks, with its exact result. *)
Ltac jerase lem oF :=
  apply wp_bind;
  match goal with
  | |- wp _ _ _ ?s => eapply wp_of_eq; [apply (lem oF s); side|]
  end;
  simpl_state.

(** ** The ten moves and the boundary *)

Lemma nth_snoc_new {A} (l : list A) k a d :
  length l = k -> nth k (l ++ [a]) d = a.
Proof. intros <-. apply nth_middle. Qed.

(** The face [t] after the edits, for an entry [t] of the sequence. *)
Ltac face_at :=
  repeat first
    [ rewrite nth_update_ne by (congruence || side)
    | rewrite nth_update_eq by side
    | rewrite nth_snoc_new by side
    | rewrite app_nth1 by side ].

(** The edge at an index beyond the edges [es] the move found. *)
Ltac edge_at es :=
  rewrite <- ?app_assoc; cbn [app];
  repeat match goal with
  | |- context [nth ?k (es ++ ?l) ?d] =>
      first [ replace k with (length es + 0) by side
            | replace k with (length es + 1) by side
            | replace k with (length es + 2) by side
            | replace k with (length es + 3) by side ];
      rewrite (nth_new es l _ d); cbn [nth v1 v2]
  end.

(** The entries of a list without repetition differ from one another. *)
Ltac split_nor H :=
  lazymatch type of H with
  | ~ (_ \/ _) =>
      let A := fresh "Hne" in
      let B := fresh "Hne" in
      apply Decidable.not_or in H; destruct H as [A B];
      split_nor A; split_nor B
  | ~ False => clear H
  | _ => idtac
  end.

Ltac nodup_facts N :=
  repeat (apply NoDup_cons_iff in N;
          let H := fresh "Hne" in
          destruct N as [H N]; cbn [In app] in H; split_nor H);
  clear N.

(** Permutations of short explicit lists. *)
Ltac perm_list :=
  cbn [app map fst snd ends_of flat_map v1 v2];
  repeat first
    [ apply perm_nil
    | apply perm_skip
    | apply (Permutation_cons_app [_])
    | apply (Permutation_cons_app [_; _])
    | apply (Permutation_cons_app [_; _; _])
    | apply (Permutation_cons_app [_; _; _; _])
    | apply (Permutation_cons_app [_; _; _; _; _])
    | apply (Permutation_cons_app [_; _; _; _; _; _]) ];
  cbn [app].

Section BoundaryMoves.

Variable tu : variant.
Variables nv sq pt hx : nat.
Variable es : list edge.
Variable fs : list (list nat).
Variable ofs : list nat.
Variables md cf : nat.

Let s0 : GraphState := mkGraphState nv sq pt hx es fs ofs md cf.

Hypothesis Hnd : NoDup ofs.
Hypothesis Hrange : Forall (fun o => o < length fs) ofs.
Hypothesis Hgood : good_faces fs (length es).
Hypothesis HB : Bnd s0.

Variable oF : nat.
Hypothesis HoF : oF < length ofs.

(** An old face keeps its ends when edges are added. *)
Lemma pair_old t l :
  t < length fs -> pair_of (es ++ l) fs t = pair_of es fs t.
Proof.
  intros Ht. destruct (good_face_ends fs (length es) t Hgood Ht) as (_ & A & B).
  unfold pair_of. now rewrite sp_ext, ep_ext.
Qed.

Lemma sp_old t l :
  t < length fs -> sp (es ++ l) (nth t fs []) = sp es (nth t fs []).
Proof.
  intros Ht. destruct (good_face_ends fs (length es) t Hgood Ht) as (_ & A & B).
  now apply sp_ext.
Qed.

Lemma ep_old t l :
  t < length fs -> ep (es ++ l) (nth t fs []) = ep es (nth t fs []).
Proof.
  intros Ht. destruct (good_face_ends fs (length es) t Hgood Ht) as (_ & A & B).
  now apply ep_ext.
Qed.

Lemma face_ne t : t < length fs -> nth t fs [] <> [].
Proof.
  intros Ht. now destruct (good_face_ends fs (length es) t Hgood Ht).
Qed.

Lemma jmid_2 :
  2 <= length ofs ->
  wp tu (addEdges_2 oF (nth ((oF + length ofs - 1) mod length ofs) ofs 0)
           (nth oF ofs 0) (nth ((oF + 1) mod length ofs) ofs 0)
           (sp es (nth (nth oF ofs 0) fs []))
           (ep es (nth (nth oF ofs 0) fs [])))
     (fun D s1 => Bnd s1) s0.
Proof.
  intros Hn.
  assert (Hn0 : 0 < length ofs) by lia.
  destruct (slot_in fs ofs (oF + length ofs - 1) Hrange Hn0) as [HpI HpL].
  destruct (slot_in fs ofs (oF + 1) Hrange Hn0) as [HnI HnL].
  destruct (slot_at fs ofs oF Hrange HoF) as [HfI HfL].
  pose proof (Rot_rotl oF ofs) as HR.
  pose proof (Bnd_chain_rot s0 _ HB HR) as Hch.
  destruct (Nat.eq_dec (length ofs) 2) as [E2|E2].
  - (* the other open face is before and after the chosen one *)
    assert (HL : rotl oF ofs = [nth oF ofs 0; nth ((oF + 1) mod length ofs) ofs 0]).
    { rewrite (rotl_whole ofs oF HoF), E2. cbn [seq map].
      rewrite Nat.add_0_r, <- E2, (Nat.mod_small oF) by assumption.
      reflexivity. }
    replace (oF + length ofs - 1) with (oF + 1) in * by lia.
    set (nF := nth ((oF + 1) mod length ofs) ofs 0) in *.
    set (fF := nth oF ofs 0) in *.
    rewrite HL in HR, Hch.
    pose proof (Permutation_NoDup (Rot_perm _ _ HR) Hnd) as N.
    nodup_facts N.
    clearbody nF fF.
    unfold addEdges_2, s0.
    do 11 jstep Hgood.
    destruct Hch as (a & Hch). unfold s0 in Hch.
    cbn [map linked pair_of fst snd edges faces] in Hch.
    destruct Hch as (Ea & Efn & Ena).
    pose proof (Rot_erase1 ofs oF HoF) as HR'. rewrite HL in HR'.
    cbn [skipn] in HR'.
    pose proof (face_ne nF HnL) as Hnne.
    eapply (Bnd_move s0 _ [fF; nF] [nF] [(S nv, S nv)]
              [sp es (nth fF fs []); sp es (nth nF fs [])] [S nv] []
              [mkEdge (sp es (nth fF fs [])) (S nv);
               mkEdge (S nv) (ep es (nth fF fs []))] 1 HB HR);
      unfold s0; simpl_state.
    + exact HR'.
    + cbn [map]. unfold pair_of. face_at.
      rewrite sp_cons, ep_cons, ep_snoc by (now destruct (nth nF fs [])).
      edge_at es. reflexivity.
    + now rewrite <- app_assoc.
    + lia.
    + reflexivity.
    + reflexivity.
    + reflexivity.
    + rewrite <- Efn. perm_list.
    + exists (S nv). cbn. auto.
  - (* the open faces before and after the chosen one differ *)
    assert (HL : rotl oF ofs
                 = [nth oF ofs 0; nth ((oF + 1) mod length ofs) ofs 0]
                   ++ removelast (skipn 2 (rotl oF ofs))
                   ++ [nth ((oF + length ofs - 1) mod length ofs) ofs 0]).
    { rewrite (rotl_window ofs oF 2 HoF) at 1 by lia. cbn [seq map].
      rewrite Nat.add_0_r, (Nat.mod_small oF) by assumption. reflexivity. }
    set (M := removelast (skipn 2 (rotl oF ofs))) in *.
    set (pF := nth ((oF + length ofs - 1) mod length ofs) ofs 0) in *.
    set (nF := nth ((oF + 1) mod length ofs) ofs 0) in *.
    set (fF := nth oF ofs 0) in *.
    destruct (window_facts fs ofs _ _ _ _ Hnd Hrange HR HL)
      as (N & _ & NM & HM).
    rewrite HL in HR, Hch. cbn [app] in N, HR, Hch.
    nodup_facts N.
    clearbody nF fF pF M.
    unfold addEdges_2, s0.
    do 11 jstep Hgood.
    destruct Hch as (a & Hch). unfold s0 in Hch.
    cbn [map linked pair_of fst snd edges faces] in Hch.
    destruct Hch as (Ea & Efn & Hch).
    rewrite map_app in Hch. apply linked_app in Hch.
    destruct Hch as (m & Hm & Epm & Epa). cbn [map fst snd] in Epm, Epa.
    pose proof (Rot_erase1 ofs oF HoF) as HR'. rewrite HL in HR'.
    cbn [skipn app] in HR'.
    pose proof (face_ne nF HnL) as Hnne.
    pose proof (face_ne pF HpL) as Hpne.
    eapply (Bnd_move s0 _ (fF :: nF :: M ++ [pF]) (nF :: M ++ [pF])
              ((S nv, ep es (nth nF fs []))
               :: map (pair_of es fs) M ++ [(sp es (nth pF fs []), S nv)])
              [sp es (nth fF fs []); sp es (nth nF fs [])] [S nv]
              (map fst (map (pair_of es fs) M) ++ [sp es (nth pF fs [])])
              [mkEdge (sp es (nth fF fs [])) (S nv);
               mkEdge (S nv) (ep es (nth fF fs []))] 1 HB HR);
      unfold s0; simpl_state.
    + exact HR'.
    + rewrite <- app_assoc. cbn [app map]. rewrite map_app. cbn [map].
      f_equal; [|f_equal].
      * unfold pair_of. face_at. rewrite sp_cons, ep_cons by assumption.
        rewrite ep_old by assumption. edge_at es. reflexivity.
      * apply map_ext_in. intros t Ht. destruct (HM t Ht) as [Hnin Htl].
        cbn [In app] in Hnin. split_nor Hnin.
        unfold pair_of. face_at. now rewrite sp_old, ep_old.
      * unfold pair_of. face_at. rewrite sp_app, ep_snoc by assumption.
        rewrite sp_old by assumption. edge_at es. reflexivity.
    + now rewrite <- app_assoc.
    + lia.
    + reflexivity.
    + cbn [map]. rewrite !map_app. reflexivity.
    + cbn [map]. rewrite !map_app. reflexivity.
    + rewrite <- Efn. perm_list.
    + exists (S nv). cbn [linked fst snd]. split; [reflexivity|].
      apply linked_app. exists m. split; [exact Hm|]. cbn. auto.
Qed.

Lemma jmid_5 :
  2 <= length ofs ->
  wp tu (addEdges_5 oF (nth ((oF + length ofs - 1) mod length ofs) ofs 0)
           (nth oF ofs 0) (nth ((oF + 1) mod length ofs) ofs 0)
           (sp es (nth (nth oF ofs 0) fs []))
           (ep es (nth (nth oF ofs 0) fs [])))
     (fun D s1 => Bnd s1) s0.
Proof.
  intros Hn.
  assert (Hn0 : 0 < length ofs) by lia.
  destruct (slot_in fs ofs (oF + length ofs - 1) Hrange Hn0) as [HpI HpL].
  destruct (slot_in fs ofs (oF + 1) Hrange Hn0) as [HnI HnL].
  destruct (slot_at fs ofs oF Hrange HoF) as [HfI HfL].
  pose proof (Rot_rotl oF ofs) as HR.
  pose proof (Bnd_chain_rot s0 _ HB HR) as Hch.
  destruct (Nat.eq_dec (length ofs) 2) as [E2|E2].
  - assert (HL : rotl oF ofs = [nth oF ofs 0; nth ((oF + 1) mod length ofs) ofs 0]).
    { rewrite (rotl_whole ofs oF HoF), E2. cbn [seq map].
      rewrite Nat.add_0_r, <- E2, (Nat.mod_small oF) by assumption.
      reflexivity. }
    replace (oF + length ofs - 1) with (oF + 1) in * by lia.
    set (nF := nth ((oF + 1) mod length ofs) ofs 0) in *.
    set (fF := nth oF ofs 0) in *.
    rewrite HL in HR, Hch.
    pose proof (Permutation_NoDup (Rot_perm _ _ HR) Hnd) as N.
    nodup_facts N.
    clearbody nF fF.
    unfold addEdges_5, s0.
    do 17 jstep Hgood.
    destruct Hch as (a & Hch). unfold s0 in Hch.
    cbn [map linked pair_of fst snd edges faces] in Hch.
    destruct Hch as (Ea & Efn & Ena).
    pose proof (Rot_assign ofs oF (length fs) HoF) as HR'. rewrite HL in HR'.
    cbn [skipn] in HR'.
    pose proof (face_ne nF HnL) as Hnne.
    eapply (Bnd_move s0 _ [fF; nF] [length fs; nF]
              [(S nv, S (S nv)); (S (S nv), S nv)]
              [sp es (nth fF fs []); sp es (nth nF fs [])] [S nv; S (S nv)] []
              [mkEdge (sp es (nth fF fs [])) (S nv);
               mkEdge (S nv) (S (S nv));
               mkEdge (S (S nv)) (ep es (nth fF fs []))] 2 HB HR);
      unfold s0; simpl_state.
    + exact HR'.
    + rewrite <- !app_assoc. cbn [app map]. f_equal; [|f_equal].
      * unfold pair_of. face_at. unfold sp, ep. cbn [nth length Nat.sub].
        edge_at es. reflexivity.
      * unfold pair_of. face_at.
        rewrite sp_cons, ep_cons, ep_snoc by (now destruct (nth nF fs [])).
        edge_at es. reflexivity.
    + now rewrite <- !app_assoc.
    + lia.
    + reflexivity.
    + reflexivity.
    + reflexivity.
    + rewrite <- Efn. perm_list.
    + exists (S nv). cbn. auto.
  - assert (HL : rotl oF ofs
                 = [nth oF ofs 0; nth ((oF + 1) mod length ofs) ofs 0]
                   ++ removelast (skipn 2 (rotl oF ofs))
                   ++ [nth ((oF + length ofs - 1) mod length ofs) ofs 0]).
    { rewrite (rotl_window ofs oF 2 HoF) at 1 by lia. cbn [seq map].
      rewrite Nat.add_0_r, (Nat.mod_small oF) by assumption. reflexivity. }
    set (M := removelast (skipn 2 (rotl oF ofs))) in *.
    set (pF := nth ((oF + length ofs - 1) mod length ofs) ofs 0) in *.
    set (nF := nth ((oF + 1) mod length ofs) ofs 0) in *.
    set (fF := nth oF ofs 0) in *.
    destruct (window_facts fs ofs _ _ _ _ Hnd Hrange HR HL)
      as (N & _ & NM & HM).
    rewrite HL in HR, Hch. cbn [app] in N, HR, Hch.
    nodup_facts N.
    clearbody nF fF pF M.
    unfold addEdges_5, s0.
    do 17 jstep Hgood.
    destruct Hch as (a & Hch). unfold s0 in Hch.
    cbn [map linked pair_of fst snd edges faces] in Hch.
    destruct Hch as (Ea & Efn & Hch).
    rewrite map_app in Hch. apply linked_app in Hch.
    destruct Hch as (m & Hm & Epm & Epa). cbn [map fst snd] in Epm, Epa.
    pose proof (Rot_assign ofs oF (length fs) HoF) as HR'. rewrite HL in HR'.
    cbn [skipn app] in HR'.
    pose proof (face_ne nF HnL) as Hnne.
    pose proof (face_ne pF HpL) as Hpne.
    eapply (Bnd_move s0 _ (fF :: nF :: M ++ [pF])
              (length fs :: nF :: M ++ [pF])
              ((S nv, S (S nv)) :: (S (S nv), ep es (nth nF fs []))
               :: map (pair_of es fs) M ++ [(sp es (nth pF fs []), S nv)])
              [sp es (nth fF fs []); sp es (nth nF fs [])] [S nv; S (S nv)]
              (map fst (map (pair_of es fs) M) ++ [sp es (nth pF fs [])])
              [mkEdge (sp es (nth fF fs [])) (S nv);
               mkEdge (S nv) (S (S nv));
               mkEdge (S (S nv)) (ep es (nth fF fs []))] 2 HB HR);
      unfold s0; simpl_state.
    + exact HR'.
    + rewrite <- !app_assoc. cbn [app map]. rewrite map_app. cbn [map].
      f_equal; [|f_equal; [|f_equal]].
      * unfold pair_of. face_at. unfold sp, ep. cbn [nth length Nat.sub].
        edge_at es. reflexivity.
      * unfold pair_of. face_at. rewrite sp_cons, ep_cons by assumption.
        rewrite ep_old by assumption. edge_at es. reflexivity.
      * apply map_ext_in. intros t Ht. destruct (HM t Ht) as [Hnin Htl].
        cbn [In app] in Hnin. split_nor Hnin.
        unfold pair_of. face_at. now rewrite sp_old, ep_old.
      * unfold pair_of. face_at. rewrite sp_app, ep_snoc by assumption.
        rewrite sp_old by assumption. edge_at es. reflexivity.
    + now rewrite <- !app_assoc.
    + lia.
    + reflexivity.
    + cbn [map]. rewrite !map_app. reflexivity.
    + cbn [map]. rewrite !map_app. reflexivity.
    + rewrite <- Efn. perm_list.
    + exists (S nv). cbn [linked fst snd]. do 2 (split; [reflexivity|]).
      apply linked_app. exists m. split; [exact Hm|]. cbn. auto.
Qed.

Lemma jmid_10 :
  2 <= length ofs ->
  wp tu (addEdges_10 oF (nth ((oF + length ofs - 1) mod length ofs) ofs 0)
           (nth oF ofs 0) (nth ((oF + 1) mod length ofs) ofs 0)
           (sp es (nth (nth oF ofs 0) fs []))
           (ep es (nth (nth oF ofs 0) fs [])))
     (fun D s1 => Bnd s1) s0.
Proof.
  intros Hn.
  assert (Hn0 : 0 < length ofs) by lia.
  destruct (slot_in fs ofs (oF + length ofs - 1) Hrange Hn0) as [HpI HpL].
  destruct (slot_in fs ofs (oF + 1) Hrange Hn0) as [HnI HnL].
  destruct (slot_at fs ofs oF Hrange HoF) as [HfI HfL].
  pose proof (Rot_rotl oF ofs) as HR.
  pose proof (Bnd_chain_rot s0 _ HB HR) as Hch.
  destruct (Nat.eq_dec (length ofs) 2) as [E2|E2].
  - assert (HL : rotl oF ofs = [nth oF ofs 0; nth ((oF + 1) mod length ofs) ofs 0]).
    { rewrite (rotl_whole ofs oF HoF), E2. cbn [seq map].
      rewrite Nat.add_0_r, <- E2, (Nat.mod_small oF) by assumption.
      reflexivity. }
    replace (oF + length ofs - 1) with (oF + 1) in * by lia.
    set (nF := nth ((oF + 1) mod length ofs) ofs 0) in *.
    set (fF := nth oF ofs 0) in *.
    rewrite HL in HR, Hch.
    pose proof (Permutation_NoDup (Rot_perm _ _ HR) Hnd) as N.
    nodup_facts N.
    clearbody nF fF.
    unfold addEdges_10, s0.
    do 24 jstep Hgood.
    len_all.
    destruct Hch as (a & Hch). unfold s0 in Hch.
    cbn [map linked pair_of fst snd edges faces] in Hch.
    destruct Hch as (Ea & Efn & Ena).
    pose proof (Rot_insert_assign ofs oF (length fs) (length fs + 1) HoF) as HR'.
    rewrite HL in HR'. cbn [skipn] in HR'.
    pose proof (face_ne nF HnL) as Hnne.
    eapply (Bnd_move s0 _ [fF; nF] [length fs; length fs + 1; nF]
              [(S nv, S (S nv)); (S (S nv), S (S (S nv))); (S (S (S nv)), S nv)]
              [sp es (nth fF fs []); sp es (nth nF fs [])]
              [S nv; S (S nv); S (S (S nv))] []
              [mkEdge (sp es (nth fF fs [])) (S nv);
               mkEdge (S nv) (S (S nv));
               mkEdge (S (S nv)) (S (S (S nv)));
               mkEdge (S (S (S nv))) (ep es (nth fF fs []))] 3 HB HR);
      unfold s0; simpl_state.
    + exact HR'.
    + rewrite <- !app_assoc. cbn [app map]. f_equal; [|f_equal; [|f_equal]].
      * unfold pair_of. face_at. unfold sp, ep. cbn [nth length Nat.sub].
        edge_at es. reflexivity.
      * unfold pair_of. face_at. unfold sp, ep. cbn [nth length Nat.sub].
        edge_at es. reflexivity.
      * unfold pair_of. face_at.
        rewrite sp_cons, ep_cons, ep_snoc by (now destruct (nth nF fs [])).
        edge_at es. reflexivity.
    + now rewrite <- !app_assoc.
    + lia.
    + reflexivity.
    + reflexivity.
    + reflexivity.
    + rewrite <- Efn. perm_list.
    + exists (S nv). cbn. auto.
  - assert (HL : rotl oF ofs
                 = [nth oF ofs 0; nth ((oF + 1) mod length ofs) ofs 0]
                   ++ removelast (skipn 2 (rotl oF ofs))
                   ++ [nth ((oF + length ofs - 1) mod length ofs) ofs 0]).
    { rewrite (rotl_window ofs oF 2 HoF) at 1 by lia. cbn [seq map].
      rewrite Nat.add_0_r, (Nat.mod_small oF) by assumption. reflexivity. }
    set (M := removelast (skipn 2 (rotl oF ofs))) in *.
    set (pF := nth ((oF + length ofs - 1) mod length ofs) ofs 0) in *.
    set (nF := nth ((oF + 1) mod length ofs) ofs 0) in *.
    set (fF := nth oF ofs 0) in *.
    destruct (window_facts fs ofs _ _ _ _ Hnd Hrange HR HL)
      as (N & _ & NM & HM).
    rewrite HL in HR, Hch. cbn [app] in N, HR, Hch.
    nodup_facts N.
    clearbody nF fF pF M.
    unfold addEdges_10, s0.
    do 24 jstep Hgood.
    len_all.
    destruct Hch as (a & Hch). unfold s0 in Hch.
    cbn [map linked pair_of fst snd edges faces] in Hch.
    destruct Hch as (Ea & Efn & Hch).
    rewrite map_app in Hch. apply linked_app in Hch.
    destruct Hch as (m & Hm & Epm & Epa). cbn [map fst snd] in Epm, Epa.
    pose proof (Rot_insert_assign ofs oF (length fs) (length fs + 1) HoF) as HR'.
    rewrite HL in HR'. cbn [skipn app] in HR'.
    pose proof (face_ne nF HnL) as Hnne.
    pose proof (face_ne pF HpL) as Hpne.
    eapply (Bnd_move s0 _ (fF :: nF :: M ++ [pF])
              (length fs :: length fs + 1 :: nF :: M ++ [pF])
              ((S nv, S (S nv)) :: (S (S nv), S (S (S nv)))
               :: (S (S (S nv)), ep es (nth nF fs []))
               :: map (pair_of es fs) M ++ [(sp es (nth pF fs []), S nv)])
              [sp es (nth fF fs []); sp es (nth nF fs [])]
              [S nv; S (S nv); S (S (S nv))]
              (map fst (map (pair_of es fs) M) ++ [sp es (nth pF fs [])])
              [mkEdge (sp es (nth fF fs [])) (S nv);
               mkEdge (S nv) (S (S nv));
               mkEdge (S (S nv)) (S (S (S nv)));
               mkEdge (S (S (S nv))) (ep es (nth fF fs []))] 3 HB HR);
      unfold s0; simpl_state.
    + exact HR'.
    + rewrite <- !app_assoc. cbn [app map]. rewrite map_app. cbn [map].
      f_equal; [|f_equal; [|f_equal; [|f_equal]]].
      * unfold pair_of. face_at. unfold sp, ep. cbn [nth length Nat.sub].
        edge_at es. reflexivity.
      * unfold pair_of. face_at. unfold sp, ep. cbn [nth length Nat.sub].
        edge_at es. reflexivity.
      * unfold pair_of. face_at. rewrite sp_cons, ep_cons by assumption.
        rewrite ep_old by assumption. edge_at es. reflexivity.
      * apply map_ext_in. intros t Ht. destruct (HM t Ht) as [Hnin Htl].
        cbn [In app] in Hnin. split_nor Hnin.
        unfold pair_of. face_at. now rewrite sp_old, ep_old.
      * unfold pair_of. face_at. rewrite sp_app, ep_snoc by assumption.
        rewrite sp_old by assumption. edge_at es. reflexivity.
    + now rewrite <- !app_assoc.
    + lia.
    + reflexivity.
    + cbn [map]. rewrite !map_app. reflexivity.
    + cbn [map]. rewrite !map_app. reflexivity.
    + rewrite <- Efn. perm_list.
    + exists (S nv). cbn [linked fst snd]. do 3 (split; [reflexivity|]).
      apply linked_app. exists m. split; [exact Hm|]. cbn. auto.
Qed.

Lemma jmid_1 :
  2 <= length ofs ->
  (length ofs = 2 ->
   4 <= flen fs (nth ((oF + 1) mod length ofs) ofs 0) + 1 <= 6) ->
  wp tu (addEdges_1 tu (length ofs) oF ((oF + 1) mod length ofs)
           (nth ((oF + length ofs - 1) mod length ofs) ofs 0)
           (nth oF ofs 0) (nth ((oF + 1) mod length ofs) ofs 0)
           (sp es (nth (nth oF ofs 0) fs []))
           (ep es (nth (nth oF ofs 0) fs [])))
     (fun D s1 => Bnd s1) s0.
Proof.
  intros Hn HL2.
  assert (Hn0 : 0 < length ofs) by lia.
  destruct (slot_in fs ofs (oF + length ofs - 1) Hrange Hn0) as [HpI HpL].
  destruct (slot_in fs ofs (oF + 1) Hrange Hn0) as [HnI HnL].
  destruct (slot_at fs ofs oF Hrange HoF) as [HfI HfL].
  pose proof (Rot_rotl oF ofs) as HR.
  pose proof (Bnd_chain_rot s0 _ HB HR) as Hch.
  pose proof (Rot_cyclic_erase ofs oF 2 HoF Hn) as HR'.
  unfold addEdges_1, s0.
  destruct (Nat.eqb_spec (length ofs) 2) as [E2|E2].
  - specialize (HL2 E2).
    assert (HL : rotl oF ofs = [nth oF ofs 0; nth ((oF + 1) mod length ofs) ofs 0]).
    { rewrite (rotl_whole ofs oF HoF), E2. cbn [seq map].
      rewrite Nat.add_0_r, <- E2, (Nat.mod_small oF) by assumption.
      reflexivity. }
    replace (oF + length ofs - 1) with (oF + 1) in * by lia.
    set (nF := nth ((oF + 1) mod length ofs) ofs 0) in *.
    set (fF := nth oF ofs 0) in *.
    rewrite HL in HR, Hch, HR'. cbn [skipn] in HR'.
    pose proof (Permutation_NoDup (Rot_perm _ _ HR) Hnd) as N.
    nodup_facts N.
    clearbody nF fF.
    do 4 jstep Hgood.
    jerase erase_oF_noF_exact oF.
    wcount nF (S (flen fs nF)).
    jstep Hgood.
    destruct Hch as (a & Hch). unfold s0 in Hch.
    cbn [map linked pair_of fst snd edges faces] in Hch.
    destruct Hch as (Ea & Efn & Ena).
    eapply (Bnd_move s0 _ [fF; nF] [] []
              [sp es (nth fF fs []); sp es (nth nF fs [])] [] []
              [mkEdge (sp es (nth fF fs [])) (ep es (nth fF fs []))] 0 HB HR);
      unfold s0; simpl_state.
    + exact HR'.
    + reflexivity.
    + reflexivity.
    + lia.
    + reflexivity.
    + reflexivity.
    + reflexivity.
    + rewrite <- Efn. perm_list.
    + exists 0. reflexivity.
  - assert (HL : rotl oF ofs
                 = [nth oF ofs 0; nth ((oF + 1) mod length ofs) ofs 0]
                   ++ removelast (skipn 2 (rotl oF ofs))
                   ++ [nth ((oF + length ofs - 1) mod length ofs) ofs 0]).
    { rewrite (rotl_window ofs oF 2 HoF) at 1 by lia. cbn [seq map].
      rewrite Nat.add_0_r, (Nat.mod_small oF) by assumption. reflexivity. }
    set (M := removelast (skipn 2 (rotl oF ofs))) in *.
    set (pF := nth ((oF + length ofs - 1) mod length ofs) ofs 0) in *.
    set (nF := nth ((oF + 1) mod length ofs) ofs 0) in *.
    set (fF := nth oF ofs 0) in *.
    destruct (window_facts fs ofs _ _ _ _ Hnd Hrange HR HL)
      as (N & _ & NM & HM).
    rewrite HL in HR, Hch, HR'. cbn [app skipn] in N, HR, Hch, HR'.
    nodup_facts N.
    clearbody nF fF pF M.
    do 4 jstep Hgood.
    jerase erase_oF_noF_exact oF.
    do 2 jstep Hgood.
    destruct Hch as (a & Hch). unfold s0 in Hch.
    cbn [map linked pair_of fst snd edges faces] in Hch.
    destruct Hch as (Ea & Efn & Hch).
    rewrite map_app in Hch. apply linked_app in Hch.
    destruct Hch as (m & Hm & Epm & Epa). cbn [map fst snd] in Epm, Epa.
    pose proof (face_ne nF HnL) as Hnne.
    pose proof (face_ne pF HpL) as Hpne.
    eapply (Bnd_move s0 _ (fF :: nF :: M ++ [pF]) (M ++ [pF])
              (map (pair_of es fs) M
               ++ [(sp es (nth pF fs []), ep es (nth nF fs []))])
              [sp es (nth fF fs []); sp es (nth nF fs [])] []
              (map fst (map (pair_of es fs) M) ++ [sp es (nth pF fs [])])
              [mkEdge (sp es (nth fF fs [])) (ep es (nth fF fs []))] 0 HB HR);
      unfold s0; simpl_state.
    + exact HR'.
    + rewrite map_app. cbn [map]. f_equal; [|f_equal].
      * apply map_ext_in. intros t Ht. destruct (HM t Ht) as [Hnin Htl].
        cbn [In app] in Hnin. split_nor Hnin.
        unfold pair_of. face_at. now rewrite sp_old, ep_old.
      * unfold pair_of. face_at.
        rewrite !sp_app, ep_app by (try assumption; now destruct (nth pF fs [])).
        now rewrite sp_old, ep_old.
    + reflexivity.
    + lia.
    + reflexivity.
    + cbn [map]. rewrite !map_app. reflexivity.
    + rewrite !map_app. reflexivity.
    + rewrite <- Efn. perm_list.
    + exists (ep es (nth nF fs [])).
      apply linked_app. exists m. split; [exact Hm|]. cbn. auto.
Qed.

(** The values read on the way, in terms of the state the move found. *)
Ltac norm_vals :=
  rewrite <- ?app_assoc; cbn [app]; face_at;
  rewrite ?sp_old, ?ep_old by assumption.

Lemma jmid_3_6 :
  4 <= length ofs -> length ofs <> 5 ->
  4 <= flen fs (nth ((oF + 1) mod length ofs) ofs 0) + 1 <= 6 ->
  (length ofs = 4 ->
   4 <= flen fs (nth ((oF + length ofs - 1) mod length ofs) ofs 0) + 1 <= 6) ->
  wp tu (addEdges_3_6 tu (length ofs) oF ((oF + 1) mod length ofs)
           ((oF + 2) mod length ofs) ((oF + 3) mod length ofs)
           (nth ((oF + length ofs - 1) mod length ofs) ofs 0)
           (nth oF ofs 0) (nth ((oF + 1) mod length ofs) ofs 0)
           (nth ((oF + 2) mod length ofs) ofs 0)
           (nth ((oF + 3) mod length ofs) ofs 0)
           (sp es (nth (nth oF ofs 0) fs []))
           (ep es (nth (nth oF ofs 0) fs [])))
     (fun D s1 => Bnd s1) s0.
Proof.
  intros Hn Hn5 HLn HLp.
  assert (Hn0 : 0 < length ofs) by lia.
  destruct (slot_in fs ofs (oF + length ofs - 1) Hrange Hn0) as [HpI HpL].
  destruct (slot_in fs ofs (oF + 1) Hrange Hn0) as [HnI HnL].
  destruct (slot_in fs ofs (oF + 2) Hrange Hn0) as [HnnI HnnL].
  destruct (slot_in fs ofs (oF + 3) Hrange Hn0) as [HnnnI HnnnL].
  destruct (slot_at fs ofs oF Hrange HoF) as [HfI HfL].
  pose proof (Rot_rotl oF ofs) as HR.
  pose proof (Bnd_chain_rot s0 _ HB HR) as Hch.
  pose proof (Rot_cyclic_erase ofs oF 4 HoF Hn) as HR'.
  unfold addEdges_3_6, s0.
  destruct (Nat.eqb_spec (length ofs) 4) as [E4|E4].
  - specialize (HLp E4).
    assert (HL : rotl oF ofs
                 = [nth oF ofs 0; nth ((oF + 1) mod length ofs) ofs 0;
                    nth ((oF + 2) mod length ofs) ofs 0;
                    nth ((oF + 3) mod length ofs) ofs 0]).
    { rewrite (rotl_whole ofs oF HoF), E4. cbn [seq map].
      rewrite Nat.add_0_r, <- E4, (Nat.mod_small oF) by assumption.
      reflexivity. }
    replace (oF + length ofs - 1) with (oF + 3) in * by lia.
    set (nF := nth ((oF + 1) mod length ofs) ofs 0) in *.
    set (nnF := nth ((oF + 2) mod length ofs) ofs 0) in *.
    set (nnnF := nth ((oF + 3) mod length ofs) ofs 0) in *.
    set (fF := nth oF ofs 0) in *.
    rewrite HL in HR, Hch, HR'. cbn [skipn] in HR'.
    pose proof (Permutation_NoDup (Rot_perm _ _ HR) Hnd) as N.
    nodup_facts N.
    clearbody nF nnF nnnF fF.
    do 5 jstep Hgood.
    wcount nF (S (flen fs nF)).
    do 6 jstep Hgood.
    jerase erase_oF_to_nnnoF_exact oF.
    wcount nnnF (S (flen fs nnnF)).
    jstep Hgood.
    norm_vals.
    destruct Hch as (a & Hch). unfold s0 in Hch.
    cbn [map linked pair_of fst snd edges faces] in Hch.
    destruct Hch as (Ea & E1 & E2 & E3 & E4').
    eapply (Bnd_move s0 _ [fF; nF; nnF; nnnF] [] []
              [sp es (nth fF fs []); sp es (nth nF fs []);
               sp es (nth nnF fs []); sp es (nth nnnF fs [])] [] []
              [mkEdge (ep es (nth fF fs [])) (ep es (nth nF fs []));
               mkEdge (sp es (nth fF fs [])) (ep es (nth nnF fs []))]
              0 HB HR);
      unfold s0; simpl_state.
    + exact HR'.
    + reflexivity.
    + reflexivity.
    + lia.
    + reflexivity.
    + reflexivity.
    + reflexivity.
    + rewrite <- E1, <- E2, <- E3. perm_list.
    + exists 0. reflexivity.
  - assert (HL : rotl oF ofs
                 = [nth oF ofs 0; nth ((oF + 1) mod length ofs) ofs 0;
                    nth ((oF + 2) mod length ofs) ofs 0;
                    nth ((oF + 3) mod length ofs) ofs 0]
                   ++ removelast (skipn 4 (rotl oF ofs))
                   ++ [nth ((oF + length ofs - 1) mod length ofs) ofs 0]).
    { rewrite (rotl_window ofs oF 4 HoF) at 1 by lia. cbn [seq map].
      rewrite Nat.add_0_r, (Nat.mod_small oF) by assumption. reflexivity. }
    set (M := removelast (skipn 4 (rotl oF ofs))) in *.
    set (pF := nth ((oF + length ofs - 1) mod length ofs) ofs 0) in *.
    set (nF := nth ((oF + 1) mod length ofs) ofs 0) in *.
    set (nnF := nth ((oF + 2) mod length ofs) ofs 0) in *.
    set (nnnF := nth ((oF + 3) mod length ofs) ofs 0) in *.
    set (fF := nth oF ofs 0) in *.
    destruct (window_facts fs ofs _ _ _ _ Hnd Hrange HR HL)
      as (N & _ & NM & HM).
    rewrite HL in HR, Hch, HR'. cbn [app skipn] in N, HR, Hch, HR'.
    nodup_facts N.
    clearbody nF nnF nnnF fF pF M.
    do 5 jstep Hgood.
    wcount nF (S (flen fs nF)).
    do 6 jstep Hgood.
    jerase erase_oF_to_nnnoF_exact oF.
    do 2 jstep Hgood.
    norm_vals.
    destruct Hch as (a & Hch). unfold s0 in Hch.
    cbn [map linked pair_of fst snd edges faces] in Hch.
    destruct Hch as (Ea & E1 & E2 & E3 & Hch).
    rewrite map_app in Hch. apply linked_app in Hch.
    destruct Hch as (m & Hm & Epm & Epa). cbn [map fst snd] in Epm, Epa.
    pose proof (face_ne nnnF HnnnL) as Hnnnne.
    pose proof (face_ne pF HpL) as Hpne.
    eapply (Bnd_move s0 _ (fF :: nF :: nnF :: nnnF :: M ++ [pF]) (M ++ [pF])
              (map (pair_of es fs) M
               ++ [(sp es (nth pF fs []), ep es (nth nnnF fs []))])
              [sp es (nth fF fs []); sp es (nth nF fs []);
               sp es (nth nnF fs []); sp es (nth nnnF fs [])] []
              (map fst (map (pair_of es fs) M) ++ [sp es (nth pF fs [])])
              [mkEdge (ep es (nth fF fs [])) (ep es (nth nF fs []));
               mkEdge (sp es (nth fF fs [])) (ep es (nth nnF fs []))]
              0 HB HR);
      unfold s0; simpl_state.
    + exact HR'.
    + rewrite map_app. cbn [map]. f_equal; [|f_equal].
      * apply map_ext_in. intros t Ht. destruct (HM t Ht) as [Hnin Htl].
        cbn [In app] in Hnin. split_nor Hnin.
        unfold pair_of. face_at. now rewrite sp_old, ep_old.
      * unfold pair_of. face_at.
        rewrite !sp_app, ep_app by (try assumption; now destruct (nth pF fs [])).
        now rewrite sp_old, ep_old.
    + reflexivity.
    + lia.
    + reflexivity.
    + cbn [map]. rewrite !map_app. reflexivity.
    + rewrite !map_app. reflexivity.
    + rewrite <- E1, <- E2, <- E3. perm_list.
    + exists (ep es (nth nnnF fs [])).
      apply linked_app. exists m. split; [exact Hm|]. cbn. auto.
Qed.

Lemma jmid_8 :
  5 <= length ofs ->
  4 <= flen fs (nth ((oF + 1) mod length ofs) ofs 0) + 1 <= 6 ->
  wp tu (addEdges_8 tu oF ((oF + 1) mod length ofs) ((oF + 2) mod length ofs)
           (nth ((oF + length ofs - 1) mod length ofs) ofs 0)
           (nth oF ofs 0) (nth ((oF + 1) mod length ofs) ofs 0)
           (nth ((oF + 2) mod length ofs) ofs 0)
           (nth ((oF + 3) mod length ofs) ofs 0)
           (sp es (nth (nth oF ofs 0) fs []))
           (ep es (nth (nth oF ofs 0) fs [])))
     (fun D s1 => Bnd s1) s0.
Proof.
  intros Hn HLn.
  assert (Hn0 : 0 < length ofs) by lia.
  destruct (slot_in fs ofs (oF + length ofs - 1) Hrange Hn0) as [HpI HpL].
  destruct (slot_in fs ofs (oF + 1) Hrange Hn0) as [HnI HnL].
  destruct (slot_in fs ofs (oF + 2) Hrange Hn0) as [HnnI HnnL].
  destruct (slot_in fs ofs (oF + 3) Hrange Hn0) as [HnnnI HnnnL].
  destruct (slot_at fs ofs oF Hrange HoF) as [HfI HfL].
  pose proof (Rot_rotl oF ofs) as HR.
  pose proof (Bnd_chain_rot s0 _ HB HR) as Hch.
  pose proof (Rot_cyclic_erase ofs oF 3 HoF ltac:(lia)) as HR'.
  unfold addEdges_8, s0.
  assert (HL : rotl oF ofs
               = [nth oF ofs 0; nth ((oF + 1) mod length ofs) ofs 0;
                  nth ((oF + 2) mod length ofs) ofs 0;
                  nth ((oF + 3) mod length ofs) ofs 0]
                 ++ removelast (skipn 4 (rotl oF ofs))
                 ++ [nth ((oF + length ofs - 1) mod length ofs) ofs 0]).
  { rewrite (rotl_window ofs oF 4 HoF) at 1 by lia. cbn [seq map].
    rewrite Nat.add_0_r, (Nat.mod_small oF) by assumption. reflexivity. }
  set (M := removelast (skipn 4 (rotl oF ofs))) in *.
  set (pF := nth ((oF + length ofs - 1) mod length ofs) ofs 0) in *.
  set (nF := nth ((oF + 1) mod length ofs) ofs 0) in *.
  set (nnF := nth ((oF + 2) mod length ofs) ofs 0) in *.
  set (nnnF := nth ((oF + 3) mod length ofs) ofs 0) in *.
  set (fF := nth oF ofs 0) in *.
  destruct (window_facts fs ofs _ _ _ _ Hnd Hrange HR HL)
    as (N & _ & NM & HM).
  rewrite HL in HR, Hch, HR'. cbn [app skipn] in N, HR, Hch, HR'.
  nodup_facts N.
  clearbody nF nnF nnnF fF pF M.
  do 20 jstep Hgood.
  jerase erase_oF_to_nnoF_exact oF.
  wcount nF (S (flen fs nF)).
  jstep Hgood.
  norm_vals.
  destruct Hch as (a & Hch). unfold s0 in Hch.
  cbn [map linked pair_of fst snd edges faces] in Hch.
  destruct Hch as (Ea & E1 & E2 & E3 & Hch).
  rewrite map_app in Hch. apply linked_app in Hch.
  destruct Hch as (m & Hm & Epm & Epa). cbn [map fst snd] in Epm, Epa.
  pose proof (face_ne nnnF HnnnL) as Hnnnne.
  pose proof (face_ne pF HpL) as Hpne.
  eapply (Bnd_move s0 _ (fF :: nF :: nnF :: nnnF :: M ++ [pF])
            (nnnF :: M ++ [pF])
            ((S nv, ep es (nth nnnF fs []))
             :: map (pair_of es fs) M ++ [(sp es (nth pF fs []), S nv)])
            [sp es (nth fF fs []); sp es (nth nF fs []);
             sp es (nth nnF fs []); sp es (nth nnnF fs [])] [S nv]
            (map fst (map (pair_of es fs) M) ++ [sp es (nth pF fs [])])
            [mkEdge (ep es (nth fF fs [])) (ep es (nth nF fs []));
             mkEdge (S nv) (ep es (nth nnF fs []));
             mkEdge (sp es (nth fF fs [])) (S nv)]
            1 HB HR);
    unfold s0; simpl_state.
  + exact HR'.
  + cbn [map]. rewrite map_app. cbn [map]. f_equal; [|f_equal].
    * unfold pair_of. face_at. rewrite sp_cons, ep_cons by assumption.
      rewrite ep_old by assumption. edge_at es. reflexivity.
    * apply map_ext_in. intros t Ht. destruct (HM t Ht) as [Hnin Htl].
      cbn [In app] in Hnin. split_nor Hnin.
      unfold pair_of. face_at. now rewrite sp_old, ep_old.
    * unfold pair_of. face_at. rewrite sp_app, ep_snoc by assumption.
      rewrite sp_old by assumption. edge_at es. reflexivity.
  + reflexivity.
  + lia.
  + reflexivity.
  + cbn [map]. rewrite !map_app. reflexivity.
  + cbn [map]. rewrite !map_app. reflexivity.
  + rewrite <- E1, <- E2, <- E3. perm_list.
  + exists (S nv). cbn [linked fst snd]. split; [reflexivity|].
    apply linked_app. exists m. split; [exact Hm|]. cbn. auto.
Qed.

(** The sequence turned to the position two before [oF]. *)
Lemma window_back (l : list nat) p :
  p < length l -> 5 <= length l ->
  rotl ((p + length l - 2) mod length l) l
  = [nth ((p + length l - 2) mod length l) l 0;
     nth ((p + length l - 1) mod length l) l 0;
     nth p l 0;
     nth ((p + 1) mod length l) l 0]
    ++ removelast (skipn 4 (rotl ((p + length l - 2) mod length l) l))
    ++ [nth ((p + 2 * length l - 3) mod length l) l 0].
Proof.
  intros Hp Hn. set (n := length l) in *.
  assert (Ha : (p + n - 2) mod n < n) by (apply Nat.mod_upper_bound; lia).
  assert (E0 : ((p + n - 2) mod n + 0) mod n = (p + n - 2) mod n)
    by (rewrite Nat.add_0_r; apply Nat.Div0.mod_mod).
  assert (E1 : ((p + n - 2) mod n + 1) mod n = (p + n - 1) mod n)
    by (rewrite Nat.Div0.add_mod_idemp_l; f_equal; lia).
  assert (E2 : ((p + n - 2) mod n + 2) mod n = p)
    by (rewrite Nat.Div0.add_mod_idemp_l; apply (mod_eq _ _ _ 1); lia).
  assert (E3 : ((p + n - 2) mod n + 3) mod n = (p + 1) mod n).
  { rewrite Nat.Div0.add_mod_idemp_l.
    replace (p + n - 2 + 3) with (p + 1 + 1 * n) by lia.
    apply Nat.Div0.mod_add. }
  assert (E4 : ((p + n - 2) mod n + n - 1) mod n = (p + 2 * n - 3) mod n).
  { replace ((p + n - 2) mod n + n - 1) with ((p + n - 2) mod n + (n - 1))
      by lia.
    rewrite Nat.Div0.add_mod_idemp_l. f_equal. lia. }
  rewrite (rotl_window l _ 4 Ha) at 1 by (fold n; lia). fold n.
  cbn [seq map]. rewrite E0, E1, E2, E3, E4. reflexivity.
Qed.

Lemma jmid_4_7 :
  6 <= length ofs ->
  4 <= flen fs (nth ((oF + length ofs - 1) mod length ofs) ofs 0) + 1 <= 6 ->
  wp tu (addEdges_4_7 tu (length ofs) ((oF + length ofs - 2) mod length ofs)
           ((oF + length ofs - 1) mod length ofs) oF ((oF + 1) mod length ofs)
           (nth ((oF + 2 * length ofs - 3) mod length ofs) ofs 0)
           (nth ((oF + length ofs - 2) mod length ofs) ofs 0)
           (nth ((oF + length ofs - 1) mod length ofs) ofs 0)
           (nth oF ofs 0) (nth ((oF + 1) mod length ofs) ofs 0)
           (sp es (nth (nth oF ofs 0) fs []))
           (ep es (nth (nth oF ofs 0) fs [])))
     (fun D s1 => Bnd s1) s0.
Proof.
  intros Hn HLp.
  assert (Hn0 : 0 < length ofs) by lia.
  destruct (slot_in fs ofs (oF + 2 * length ofs - 3) Hrange Hn0) as [HpppI HpppL].
  destruct (slot_in fs ofs (oF + length ofs - 2) Hrange Hn0) as [HppI HppL].
  destruct (slot_in fs ofs (oF + length ofs - 1) Hrange Hn0) as [HpI HpL].
  destruct (slot_in fs ofs (oF + 1) Hrange Hn0) as [HnI HnL].
  destruct (slot_at fs ofs oF Hrange HoF) as [HfI HfL].
  assert (Ha : (oF + length ofs - 2) mod length ofs < length ofs)
    by (apply Nat.mod_upper_bound; lia).
  pose proof (Rot_rotl ((oF + length ofs - 2) mod length ofs) ofs) as HR.
  pose proof (Bnd_chain_rot s0 _ HB HR) as Hch.
  pose proof (Rot_cyclic_erase ofs _ 4 Ha ltac:(lia)) as HR'.
  pose proof (window_back ofs oF HoF ltac:(lia)) as HL.
  unfold addEdges_4_7, s0.
  destruct (Nat.eqb_spec (length ofs) 4) as [E4|E4]; [lia|].
  set (M := removelast
              (skipn 4 (rotl ((oF + length ofs - 2) mod length ofs) ofs))) in *.
  set (pppF := nth ((oF + 2 * length ofs - 3) mod length ofs) ofs 0) in *.
  set (ppF := nth ((oF + length ofs - 2) mod length ofs) ofs 0) in *.
  set (pF := nth ((oF + length ofs - 1) mod length ofs) ofs 0) in *.
  set (nF := nth ((oF + 1) mod length ofs) ofs 0) in *.
  set (fF := nth oF ofs 0) in *.
  destruct (window_facts fs ofs _ _ _ _ Hnd Hrange HR HL)
    as (N & _ & NM & HM).
  rewrite HL in HR, Hch, HR'. cbn [app skipn] in N, HR, Hch, HR'.
  nodup_facts N.
  clearbody pppF ppF pF nF fF M.
  do 6 jstep Hgood.
  wcount pF (S (flen fs pF)).
  do 6 jstep Hgood.
  jerase erase_ppoF_to_noF_exact oF.
  do 2 jstep Hgood.
  norm_vals.
  destruct Hch as (a & Hch). unfold s0 in Hch.
  cbn [map linked pair_of fst snd edges faces] in Hch.
  destruct Hch as (Ea & E1 & E2 & E3 & Hch).
  rewrite map_app in Hch. apply linked_app in Hch.
  destruct Hch as (m & Hm & Epm & Epa). cbn [map fst snd] in Epm, Epa.
  pose proof (face_ne nF HnL) as Hnne.
  pose proof (face_ne pppF HpppL) as Hpppne.
  eapply (Bnd_move s0 _ (ppF :: pF :: fF :: nF :: M ++ [pppF]) (M ++ [pppF])
            (map (pair_of es fs) M
             ++ [(sp es (nth pppF fs []), ep es (nth nF fs []))])
            [sp es (nth ppF fs []); sp es (nth pF fs []);
             sp es (nth fF fs []); sp es (nth nF fs [])] []
            (map fst (map (pair_of es fs) M) ++ [sp es (nth pppF fs [])])
            [mkEdge (sp es (nth pF fs [])) (sp es (nth fF fs []));
             mkEdge (sp es (nth ppF fs [])) (ep es (nth fF fs []))]
            0 HB HR);
    unfold s0; simpl_state.
  + exact HR'.
  + rewrite map_app. cbn [map]. f_equal; [|f_equal].
    * apply map_ext_in. intros t Ht. destruct (HM t Ht) as [Hnin Htl].
      cbn [In app] in Hnin. split_nor Hnin.
      unfold pair_of. face_at. now rewrite sp_old, ep_old.
    * unfold pair_of. face_at.
      rewrite !sp_app, ep_app by (try assumption; now destruct (nth pppF fs [])).
      now rewrite sp_old, ep_old.
  + reflexivity.
  + lia.
  + reflexivity.
  + cbn [map]. rewrite !map_app. reflexivity.
  + rewrite !map_app. reflexivity.
  + rewrite <- E3. perm_list.
  + exists (ep es (nth nF fs [])).
    apply linked_app. exists m. split; [exact Hm|]. cbn. auto.
Qed.

Lemma jmid_9 :
  5 <= length ofs ->
  4 <= flen fs (nth ((oF + length ofs - 1) mod length ofs) ofs 0) + 1 <= 6 ->
  wp tu (addEdges_9 tu ((oF + length ofs - 2) mod length ofs)
           ((oF + length ofs - 1) mod length ofs) oF
           (nth ((oF + 2 * length ofs - 3) mod length ofs) ofs 0)
           (nth ((oF + length ofs - 2) mod length ofs) ofs 0)
           (nth ((oF + length ofs - 1) mod length ofs) ofs 0)
           (nth oF ofs 0) (nth ((oF + 1) mod length ofs) ofs 0)
           (sp es (nth (nth oF ofs 0) fs []))
           (ep es (nth (nth oF ofs 0) fs [])))
     (fun D s1 => Bnd s1) s0.
Proof.
  intros Hn HLp.
  assert (Hn0 : 0 < length ofs) by lia.
  destruct (slot_in fs ofs (oF + 2 * length ofs - 3) Hrange Hn0) as [HpppI HpppL].
  destruct (slot_in fs ofs (oF + length ofs - 2) Hrange Hn0) as [HppI HppL].
  destruct (slot_in fs ofs (oF + length ofs - 1) Hrange Hn0) as [HpI HpL].
  destruct (slot_in fs ofs (oF + 1) Hrange Hn0) as [HnI HnL].
  destruct (slot_at fs ofs oF Hrange HoF) as [HfI HfL].
  assert (Ha : (oF + length ofs - 2) mod length ofs < length ofs)
    by (apply Nat.mod_upper_bound; lia).
  pose proof (Rot_rotl ((oF + length ofs - 2) mod length ofs) ofs) as HR.
  pose proof (Bnd_chain_rot s0 _ HB HR) as Hch.
  pose proof (Rot_cyclic_erase ofs _ 3 Ha ltac:(lia)) as HR'.
  pose proof (window_back ofs oF HoF Hn) as HL.
  unfold addEdges_9, s0.
  set (M := removelast
              (skipn 4 (rotl ((oF + length ofs - 2) mod length ofs) ofs))) in *.
  set (pppF := nth ((oF + 2 * length ofs - 3) mod length ofs) ofs 0) in *.
  set (ppF := nth ((oF + length ofs - 2) mod length ofs) ofs 0) in *.
  set (pF := nth ((oF + length ofs - 1) mod length ofs) ofs 0) in *.
  set (nF := nth ((oF + 1) mod length ofs) ofs 0) in *.
  set (fF := nth oF ofs 0) in *.
  destruct (window_facts fs ofs _ _ _ _ Hnd Hrange HR HL)
    as (N & _ & NM & HM).
  rewrite HL in HR, Hch, HR'. cbn [app skipn] in N, HR, Hch, HR'.
  nodup_facts N.
  clearbody pppF ppF pF nF fF M.
  do 20 jstep Hgood.
  jerase erase_ppoF_to_oF_exact oF.
  wcount pF (S (flen fs pF)).
  jstep Hgood.
  norm_vals.
  destruct Hch as (a & Hch). unfold s0 in Hch.
  cbn [map linked pair_of fst snd edges faces] in Hch.
  destruct Hch as (Ea & E1 & E2 & E3 & Hch).
  rewrite map_app in Hch. apply linked_app in Hch.
  destruct Hch as (m & Hm & Epm & Epa). cbn [map fst snd] in Epm, Epa.
  pose proof (face_ne nF HnL) as Hnne.
  pose proof (face_ne pppF HpppL) as Hpppne.
  eapply (Bnd_move s0 _ (ppF :: pF :: fF :: nF :: M ++ [pppF])
            (nF :: M ++ [pppF])
            ((S nv, ep es (nth nF fs []))
             :: map (pair_of es fs) M ++ [(sp es (nth pppF fs []), S nv)])
            [sp es (nth ppF fs []); sp es (nth pF fs []);
             sp es (nth fF fs []); sp es (nth nF fs [])] [S nv]
            (map fst (map (pair_of es fs) M) ++ [sp es (nth pppF fs [])])
            [mkEdge (sp es (nth pF fs [])) (sp es (nth fF fs []));
             mkEdge (sp es (nth ppF fs [])) (S nv);
             mkEdge (S nv) (ep es (nth fF fs []))]
            1 HB HR);
    unfold s0; simpl_state.
  + exact HR'.
  + cbn [map]. rewrite map_app. cbn [map]. f_equal; [|f_equal].
    * unfold pair_of. face_at. rewrite sp_cons, ep_cons by assumption.
      rewrite ep_old by assumption. edge_at es. reflexivity.
    * apply map_ext_in. intros t Ht. destruct (HM t Ht) as [Hnin Htl].
      cbn [In app] in Hnin. split_nor Hnin.
      unfold pair_of. face_at. now rewrite sp_old, ep_old.
    * unfold pair_of. face_at. rewrite sp_app, ep_snoc by assumption.
      rewrite sp_old by assumption. edge_at es. reflexivity.
  + reflexivity.
  + lia.
  + reflexivity.
  + cbn [map]. rewrite !map_app. reflexivity.
  + cbn [map]. rewrite !map_app. reflexivity.
  + rewrite <- E3. perm_list.
  + exists (S nv). cbn [linked fst snd]. split; [reflexivity|].
    apply linked_app. exists m. split; [exact Hm|]. cbn. auto.
Qed.

End BoundaryMoves.

(** ** The boundary invariant along a move *)

Lemma Bnd_ext s s' :
  numverts s' = numverts s -> edges s' = edges s -> bounds s' = bounds s ->
  Bnd s -> Bnd s'.
Proof.
  intros Ev Ee Eb [H1 H2 H3 H4 H5 H6].
  constructor; unfold degree in *; rewrite ?Ev, ?Ee, ?Eb; assumption.
Qed.

Lemma Bnd_same s s' : same_graph s s' -> Bnd s -> Bnd s'.
Proof.
  intros (E1 & _ & _ & _ & E5 & E6 & E7).
  apply Bnd_ext; [assumption | assumption |].
  unfold bounds. now rewrite E5, E6, E7.
Qed.

Lemma Bnd_bump_counters L s : Bnd s -> Bnd (bump_counters L s).
Proof. apply Bnd_ext; reflexivity. Qed.

Lemma Bnd_seed : Bnd seed.
Proof.
  constructor.
  - cbn. lia.
  - repeat constructor; cbn; lia.
  - exists 7. cbn. repeat split.
  - cbn. repeat constructor; cbn; intuition lia.
  - cbn. intros v Hv. intuition (subst; reflexivity).
  - cbn [numverts seed]. intros v Hv Hn.
    do 8 (destruct v as [|v]; [try lia; try reflexivity;
                                exfalso; apply Hn; cbn; tauto|]).
    lia.
Qed.

Lemma wp_conj {A} tu (c : M A) (P Q : A -> GraphState -> Prop) s :
  wp tu c P s -> wp tu c Q s -> wp tu c (fun a s' => P a s' /\ Q a s') s.
Proof.
  unfold wp, sound. destruct (c s) as [[a s'] d| |]; tauto.
Qed.

(** What holds of the boundary when [addEdges] reaches its final loop. *)
Lemma before_erase_bnd tu oF m s d :
  Inv s -> Bnd s -> 2 <= length (openfaces s) ->
  isValid tu oF m s = Done true d ->
  wp tu (addEdges_before_erase tu oF m) (fun D s1 => Bnd s1) s.
Proof.
  intros [[Hnd Hrange] Hgood Hdeg Heul Hcl] HB Hn Hv.
  destruct (isValid_true tu oF m s d Hrange Hv) as [HoF Hsw].
  apply isValid_switch_checked in Hsw; [|cbn; lia].
  destruct s as [nv sq pt hx es fs ofs md cf]. simpl_state.
  assert (Heul' : nv + length fs = length es + length ofs + 1).
  { destruct (Nat.eqb_spec (length ofs) 0); lia. }
  clear Heul Hv.
  destruct (Forall_forall (fun o => o < length fs) ofs) as [Hlt _].
  specialize (Hlt Hrange).
  unfold addEdges_before_erase. apply wp_bind, wp_gets. simpl_state.
  destruct (Nat.eqb_spec (length ofs) 0) as [E0|E0]; [lia|].
  cbv zeta. do 7 read_open.
  apply wp_bind, wp_startpt_of_val;
    [assumption | apply Hlt; now apply nth_In |]. simpl_state.
  apply wp_bind, wp_endpt_of_val;
    [assumption | apply Hlt; now apply nth_In |]. simpl_state.
  apply wp_bind.
  apply wp_weaken
    with (P := fun D s1 =>
                 Mid (mkGraphState nv sq pt hx es fs ofs md cf)
                     (nth oF ofs 0) D s1 /\ Bnd s1).
  2:{ intros D s2 [HM HB2].
      pose proof HM as (Ho & Hg & HfF & HL & _).
      apply wp_bind. apply (wp_countFace tu _ (flen (faces s2) (nth oF ofs 0)));
        auto.
      apply wp_ret. now apply Bnd_bump_counters. }
  pose proof (Hlt _ (nth_In ofs 0 (Nat.mod_upper_bound (oF + 2) _ E0))).
  pose proof (Hlt _ (nth_In ofs 0
                       (Nat.mod_upper_bound (oF + length ofs - 2) _ E0))).
  apply wp_conj.
  - destruct m as [|[|[|[|[|[|[|[|[|[|[|m]]]]]]]]]]];
      cbn [checked addEdges_switch] in *; try contradiction;
      [ apply mid_1 | apply mid_2
      | apply wp_bind, wp_assert_that;
        [unfold face_size_is; sound_reads Hgood | apply mid_3_6]
      | apply wp_bind, wp_assert_that;
        [unfold face_size_is; sound_reads Hgood | apply mid_4_7]
      | apply mid_5 | apply mid_3_6 | apply mid_4_7 | apply mid_8 | apply mid_9
      | apply mid_10 ];
      auto; unfold flen; intuition lia.
  - destruct m as [|[|[|[|[|[|[|[|[|[|[|m]]]]]]]]]]];
      cbn [checked addEdges_switch] in *; try contradiction;
      [ apply jmid_1 | apply jmid_2
      | apply wp_bind, wp_assert_that;
        [unfold face_size_is; sound_reads Hgood | apply jmid_3_6]
      | apply wp_bind, wp_assert_that;
        [unfold face_size_is; sound_reads Hgood | apply jmid_4_7]
      | apply jmid_5 | apply jmid_3_6 | apply jmid_4_7 | apply jmid_8
      | apply jmid_9 | apply jmid_10 ];
      auto; unfold flen; intuition lia.
Qed.

(** A legal move keeps the boundary invariant. *)
Lemma addEdges_bnd tu oF m s d0 s' d :
  Inv s -> Bnd s -> 2 <= length (openfaces s) ->
  isValid tu oF m s = Done true d0 ->
  addEdges tu oF m s = Done (tt, s') d -> Bnd s'.
Proof.
  intros HI HB Hn Hl H.
  rewrite addEdges_split in H. unfold mbind in H.
  apply obind_Done in H. destruct H as ([D s1] & d1 & d2 & E1 & E2 & Ed).
  cbn [fst snd] in E2.
  destruct (wp_Done tu _ _ s D s1 d1 (before_erase_mid tu oF m s d0 HI Hn Hl) E1)
    as ((HD & s2 & HM & Es1) & ->).
  destruct (wp_Done tu _ _ s D s1 [] (before_erase_bnd tu oF m s d0 HI HB Hn Hl) E1)
    as (HB1 & _).
  destruct HM as (Ho & Hg & HfF & HL & Hnd & Hr & Hni & _).
  assert (Ef : faces s1 = faces s2) by (subst s1; reflexivity).
  assert (Eo : openfaces s1 = openfaces s2) by (subst s1; reflexivity).
  rewrite <- Ef in Hr. rewrite <- Eo in Hni. rewrite <- Ef, <- Eo in Ho.
  pose proof (sort_desc_perm D) as HP.
  pose proof (sort_desc_sorted D Hnd) as HS.
  assert (Hr' : Forall (fun e => e < length (faces s1)) (sort_desc D)).
  { rewrite Forall_forall in *. intros e He. apply Hr.
    exact (Permutation_in _ HP He). }
  destruct (erase_all_Done _ _ _ _ HS Hr' E2)
    as (_ & O & Lf & Nf & Env & _ & _ & _ & Ees & _).
  apply (Bnd_ext s1); [assumption | assumption | | assumption].
  unfold bounds. rewrite O, Ees, map_map.
  apply map_ext_in. intros o Ho1. unfold pair_of.
  destruct Ho as [_ Hrange]. rewrite Forall_forall in Hrange, Hni.
  rewrite Nf; [reflexivity | now apply Hrange |].
  intros X. apply (Hni o); [exact (Permutation_in _ HP X) | exact Ho1].
Qed.

Lemma addEdges0_bnd tu s r d d0 :
  ready s -> Bnd s -> isValid0 tu s = Done true d0 ->
  addEdges0 tu s = Done r d -> Bnd (snd r).
Proof.
  intros [HI Hn] HB Hv H. destruct r as [[] s'].
  exact (addEdges_bnd tu _ _ s d0 s' d HI HB Hn Hv H).
Qed.

(** ** The drivers have no undefined behaviour *)

Lemma sound_defined {A} tu (o : outcome A) (Q : A -> Prop) :
  sound tu o Q -> defined o Q.
Proof. destruct o; cbn; tauto. Qed.

Lemma defined_ret {A} (a : A) (Q : A -> Prop) : Q a -> defined (oret a) Q.
Proof. auto. Qed.

Lemma defined_bind {A B} (o : outcome A) (k : A -> outcome B) Q :
  defined o (fun _ => True) ->
  (forall a d, o = Done a d -> defined (k a) Q) ->
  defined (obind o k) Q.
Proof.
  destruct o as [a d| |]; cbn; try tauto.
  intros _ H. specialize (H a d eq_refl).
  destruct (k a); cbn in *; auto.
Qed.

Lemma defined_weaken {A} (o : outcome A) (P Q : A -> Prop) :
  defined o P -> (forall a, P a -> Q a) -> defined o Q.
Proof. destruct o; cbn; auto. Qed.

Lemma defined_Done {A} (o : outcome A) Q a d :
  defined o Q -> o = Done a d -> Q a.
Proof. intros H ->. exact H. Qed.

(** A map with the two invariants has at least five faces. *)
Lemma faces_five s : Inv s -> Bnd s -> 5 <= length (faces s).
Proof.
  intros HI HB. pose proof (inv_degrees s HI). pose proof (inv_euler s HI).
  pose proof (bnd_verts s HB).
  destruct (length (openfaces s) =? 0); lia.
Qed.

Lemma seen_by_symmetry_defined s :
  4 <= length (faces s) ->
  defined (PlanarMain.seen_by_symmetry s) (fun _ => True).
Proof.
  intros H. unfold PlanarMain.seen_by_symmetry, face.
  rewrite (get_lt [] (faces s) 2) by lia. cbn [obind oret].
  destruct (4 <? _); [|exact I].
  destruct (negb _); [|exact I].
  rewrite (get_lt [] (faces s) 3) by lia. exact I.
Qed.

Lemma vertdegs_of_defined : forall es d,
  Forall (fun e => v1 e < length d /\ v2 e < length d) es ->
  exists d', vertdegs_of es d = Done d' [] /\ length d' = length d.
Proof.
  induction es as [|e es IH]; intros d H; cbn [vertdegs_of].
  - now exists d.
  - inversion H as [|? ? [H1 H2] H']; subst. unfold bump.
    destruct (Nat.ltb_spec (v1 e) (length d)); [|lia]. cbn [obind oret].
    rewrite length_update.
    destruct (Nat.ltb_spec (v2 e) (length d)); [|lia]. cbn [obind oret].
    destruct (IH (Vec.update (Vec.update d (v1 e) S) (v2 e) S))
      as (d' & E & L).
    + rewrite !length_update. exact H'.
    + rewrite E. exists d'. split; [reflexivity|].
      now rewrite L, !length_update.
Qed.

Lemma sizefinal_defined tu s :
  Bnd s -> defined (sizefinal tu s) (fun _ => True).
Proof.
  intros HB. unfold sizefinal.
  destruct (sizefinal_faces (faces s) facesoflen0); [|exact I].
  destruct tu; [|exact I].
  apply defined_bind; [apply (sound_defined Planar); now apply sound_assert|].
  intros _ _ _.
  destruct (vertdegs_of_defined (edges s) (repeat 0 (numverts s + 1)))
    as (vd & E & L).
  { eapply Forall_impl; [|exact (bnd_edges s HB)]. cbn beta.
    intros e He. rewrite repeat_length. lia. }
  rewrite E. rewrite repeat_length in L.
  pose proof (bnd_verts s HB) as Hv.
  apply defined_bind; [exact I|]. intros vd' dv [= <- _].
  apply defined_bind; [destruct (negb _); exact I|]. intros _ _ _.
  destruct vd as [|x0 [|x1 r]]; cbn [length] in L; try lia.
  cbn [skipn min_element max_element obind oret].
  destruct (_ || _); exact I.
Qed.

Lemma canongraph_defined orc tu s :
  Bnd s -> openfaces s = [] ->
  defined (canongraph orc tu s) (fun _ => True).
Proof.
  intros HB Ho.
  destruct (build_sg_cubic s (bnd_edges s HB)) as (sg & E & _).
  { intros v Hv. rewrite (bnd_three s HB v Hv); [lia|].
    unfold bounds. rewrite Ho. cbn. auto. }
  unfold canongraph. rewrite E. cbn [obind].
  destruct (orc sg) as [err cg].
  destruct tu; [|exact I]. destruct (negb _); exact I.
Qed.

Lemma planar_closed_defined MAX orc c :
  Inv (PlanarMain.G c) -> Bnd (PlanarMain.G c) ->
  openfaces (PlanarMain.G c) = [] ->
  defined (PlanarMain.closed_map MAX orc c) (fun _ => True).
Proof.
  intros HI HB Ho. unfold PlanarMain.closed_map.
  cbn [PlanarMain.set_pop PlanarMain.G PlanarMain.graphStack
       PlanarMain.canonslns PlanarMain.nsuccess PlanarMain.cout].
  destruct (MAX <? _); [exact I|].
  apply defined_bind; [now apply sizefinal_defined|].
  intros [|] d _; [|exact I].
  apply defined_bind; [now apply canongraph_defined|].
  intros cg d1 _. destruct (emplace cg _) as [set [|]]; [|exact I].
  apply defined_bind; [|intros; exact I].
  apply (sound_defined Planar). apply print_solution_sound.
  pose proof (faces_five _ HI HB). destruct (faces _); cbn in *; [lia|discriminate].
Qed.

Lemma chooseFace_defined s :
  Forall (fun o => o < length (faces s)) (openfaces s) ->
  1 <= length (openfaces s) ->
  exists s', chooseFace s = Done (tt, s') [].
Proof.
  intros Hr Hn.
  destruct (chooseFace_loop (set_chosenFace 0 s) (length (openfaces s) - 1) 1)
    as (c & E & Hc & _).
  - exact Hr.
  - unfold set_chosenFace. cbn [openfaces]. lia.
  - unfold set_chosenFace. cbn [chosenFace]. lia.
  - split; unfold set_chosenFace; cbn [chosenFace]; intros p Hp; [|lia].
    replace p with 0 by lia. lia.
  - unfold chooseFace, mbind, modify, gets.
    cbn [obind oret fst snd app].
    change (openfaces (set_chosenFace 0 s)) with (openfaces s).
    rewrite E. cbn [obind fst snd app]. eexists. reflexivity.
Qed.

Lemma planar_after_defined MAX orc c :
  Inv (PlanarMain.G c) -> Bnd (PlanarMain.G c) ->
  defined (PlanarMain.after_addEdges MAX orc c) (fun _ => True).
Proof.
  intros HI HB. unfold PlanarMain.after_addEdges.
  pose proof (faces_five _ HI HB) as H5.
  apply defined_bind; [apply seen_by_symmetry_defined; lia|].
  intros [|] d _; [exact I|].
  destruct (Nat.eqb_spec (length (openfaces (PlanarMain.G c))) 0) as [E0|E0].
  { apply planar_closed_defined; auto.
    now destruct (openfaces (PlanarMain.G c)). }
  destruct (too_deep _ _); [exact I|].
  destruct (Nat.eqb_spec (length (openfaces (PlanarMain.G c))) 1);
    [exact I|].
  rewrite (sizecheck_Inv Planar _ HI). cbn [obind].
  destruct (negb _); [exact I|].
  destruct (chooseFace_defined (PlanarMain.G c)) as (s' & E).
  - exact (proj2 (inv_open _ HI)).
  - lia.
  - rewrite E. exact I.
Qed.

(** One turn of the loop from the map [g]. *)
Lemma turn_defined tu g :
  ready g -> aimed g -> Bnd g ->
  defined (incMethod tu g)
    (fun r => ready (snd r) /\ aimed (snd r) /\ Bnd (snd r) /\
              (fst r = true ->
               defined (addEdges0 tu (snd r))
                 (fun r' => Inv (snd r') /\ Bnd (snd r')))).
Proof.
  intros Hg Ha HB.
  pose proof (incMethod_safe tu g Hg Ha) as HS. unfold turn_safe in HS.
  unfold sound in HS. unfold defined.
  destruct (incMethod tu g) as [[b s1] d1| |] eqn:EI;
    [|contradiction|exact I].
  cbn [fst snd] in HS |- *. destruct HS as [HS _].
  unfold incMethod in EI.
  pose proof (incMethod_loop_chosen _ _ _ _ _ _ EI) as Hch.
  destruct (incMethod_loop_same _ _ _ _ _ _ EI) as [Hs Hb].
  assert (Hr1 : ready s1).
  { destruct Hg as [HI Hn]. split; [exact (Inv_same _ _ Hs HI)|].
    destruct Hs as (_ & _ & _ & _ & _ & _ & ->). exact Hn. }
  pose proof (Bnd_same _ _ Hs HB) as HB1.
  split; [exact Hr1|]. split; [exact (aimed_same _ _ Hs Hch Ha)|].
  split; [exact HB1|]. intros ->.
  destruct (Hb eq_refl) as [d0 Hv]. specialize (HS eq_refl).
  unfold wp, sound in HS.
  destruct (addEdges0 tu s1) as [r' d2| |] eqn:EA;
    [|contradiction|exact I].
  split.
  - exact (proj1 (addEdges0_inv _ _ _ _ _ Hr1 Hv EA)).
  - exact (addEdges0_bnd _ _ _ _ _ Hr1 HB1 Hv EA).
Qed.

Lemma planar_loop_body_defined MAX orc c :
  planar_safe c ->
  defined (PlanarMain.loop_body MAX orc c) (fun _ => True).
Proof.
  intros ((HI & Hn & HS) & HA & HG & HB & HSB).
  unfold PlanarMain.loop_body.
  assert (HP : forall g st cs ns co,
             ready g -> aimed g -> Bnd g ->
             defined
               (r <- incMethod Planar g ;;
                if negb (fst r)
                then oret (Some (PlanarMain.mkConfig (snd r) st cs ns true co))
                else
                  r' <- addEdges0 Planar (snd r) ;;
                  c' <- PlanarMain.after_addEdges MAX orc
                          (PlanarMain.mkConfig (snd r') (snd r :: st) cs ns
                                               false co) ;;
                  oret (Some c'))%outcome (fun _ => True)).
  { intros g st cs ns co Hg Ha HBg.
    pose proof (turn_defined Planar g Hg Ha HBg) as HT.
    apply defined_bind; [eapply defined_weaken; [exact HT | auto]|].
    intros [b s1] d1 EI. cbn [fst snd].
    destruct (defined_Done _ _ _ _ HT EI) as (_ & _ & _ & HAd).
    cbn [fst snd] in HAd.
    destruct b; cbn [negb]; [|exact I]. specialize (HAd eq_refl).
    apply defined_bind; [eapply defined_weaken; [exact HAd | auto]|].
    intros r' d2 EA. destruct (defined_Done _ _ _ _ HAd EA) as [HI' HB'].
    apply defined_bind; [|intros; exact I].
    apply planar_after_defined; cbn; assumption. }
  destruct (PlanarMain.pop c) eqn:Ep.
  - destruct (PlanarMain.graphStack c) as [|top rest] eqn:Es; [exact I|].
    inversion HS; subst. inversion HA; subst. inversion HSB; subst.
    now apply HP.
  - apply HP; [split; auto | auto | auto].
Qed.

Lemma planar_safe_step MAX orc c c' d :
  planar_safe c ->
  PlanarMain.loop_body MAX orc c = Done (Some c') d -> planar_safe c'.
Proof.
  intros (Hok & HA & HG & HB & HSB) H.
  pose proof (planar_loop_body _ _ _ _ _ Hok H) as Hok'.
  destruct (planar_aimed_step _ _ _ _ _ Hok HA HG H) as [HA' HG'].
  split; [exact Hok'|]. split; [exact HA'|]. split; [exact HG'|].
  destruct Hok as (HI & Hn & HS).
  destruct (planar_loop_body_cases _ _ _ _ _ H)
    as (g & st & Hp & b & s1 & d1 & Hinc & Hb).
  assert (Hg : ready g /\ aimed g /\ Bnd g /\ Forall Bnd st).
  { destruct Hp as [[_ E]|(Ep & -> & ->)].
    - rewrite E in HS, HA, HSB.
      inversion HS; inversion HA; inversion HSB; subst. auto.
    - split; [split; auto|]. split; [auto|]. split; assumption. }
  destruct Hg as (Hg & Hga & HBg & HBst).
  pose proof (turn_defined Planar g Hg Hga HBg) as HT.
  destruct (defined_Done _ _ _ _ HT Hinc) as (Hr1 & _ & HB1 & HAd).
  cbn [fst snd] in Hr1, HB1, HAd.
  destruct Hb as [(_ & ->)|(-> & s2 & d2 & d3 & HAE & HAf)].
  { cbn. auto. }
  destruct (defined_Done _ _ _ _ (HAd eq_refl) HAE) as [_ HB2].
  cbn [snd] in HB2.
  apply planar_after_addEdges_cases in HAf.
  destruct HAf as [->|[(_ & d' & HC)|(_ & _ & _ & s' & HCh & ->)]].
  - cbn. split; [assumption | now constructor].
  - apply planar_closed_map_cases in HC. destruct HC as (-> & -> & _).
    cbn. split; [assumption | now constructor].
  - cbn. split; [|now constructor].
    exact (Bnd_same _ _ (chooseFace_same _ _ _ _ HCh) HB2).
Qed.

Lemma planar_safe_init : planar_safe PlanarMain.init.
Proof.
  unfold planar_safe, planar_ok, PlanarMain.init.
  cbn [PlanarMain.G PlanarMain.graphStack PlanarMain.pop].
  split; [split; [apply Inv_seed|split; [intros _; cbn; lia | constructor]]|].
  split; [constructor|]. split; [intros _; unfold aimed; cbn; lia|].
  split; [apply Bnd_seed | constructor].
Qed.

Lemma planar_main_loop_defined MAX orc : forall fuel c,
  planar_safe c ->
  defined (PlanarMain.main_loop MAX orc fuel c) (fun _ => True).
Proof.
  induction fuel as [|fuel IH]; intros c Hc; cbn [PlanarMain.main_loop];
    [exact I|].
  apply defined_bind; [now apply planar_loop_body_defined|].
  intros [c'|] d E; [|exact I].
  apply IH. exact (planar_safe_step _ _ _ _ _ Hc E).
Qed.

Lemma sound_bind_eq {A B} tu (o : outcome A) (k : A -> outcome B) Q :
  sound tu o (fun _ => True) ->
  (forall a, o = Done a [] -> sound tu (k a) Q) ->
  sound tu (obind o k) Q.
Proof.
  destruct o as [a d| |]; cbn; try tauto.
  intros [_ ->] H. specialize (H a eq_refl).
  destruct (k a); cbn in *; tauto.
Qed.

Lemma fast_closed_sound MAX orc c :
  Inv (FastMain.G c) -> Bnd (FastMain.G c) ->
  openfaces (FastMain.G c) = [] ->
  length (FastMain.nsuccess c) = MAX - 6 ->
  sound PlanarFast (FastMain.closed_map MAX orc c) (fun _ => True).
Proof.
  intros HI HB Ho HL. unfold FastMain.closed_map.
  assert (Hs : exists b, sizefinal PlanarFast (FastMain.G c) = Done b []).
  { unfold sizefinal. destruct (sizefinal_faces _ _); eexists; reflexivity. }
  destruct Hs as (b & Hs). rewrite Hs. cbn [obind].
  destruct b; cbn [andb]; [|cbn; auto].
  destruct (Nat.leb_spec (length (faces (FastMain.G c))) MAX) as [HM|HM];
    [|cbn; auto].
  destruct (build_sg_cubic (FastMain.G c) (bnd_edges _ HB)) as (sg & E & _).
  { intros v Hv. rewrite (bnd_three _ HB v Hv); [lia|].
    unfold bounds. rewrite Ho. cbn. auto. }
  unfold canongraph. rewrite E. cbn [obind].
  destruct (orc sg) as [err cg]. cbn [oret obind app].
  destruct (emplace cg _) as [set [|]]; [|cbn; auto].
  pose proof (closed_sizes _ _ _ HI Ho Hs) as (_ & _ & EF & _).
  unfold bump. destruct (Nat.ltb_spec (nhex (FastMain.G c))
                           (length (FastMain.nsuccess c))); [cbn; auto|lia].
Qed.

Lemma fast_after_sound MAX orc c :
  Inv (FastMain.G c) -> Bnd (FastMain.G c) ->
  length (FastMain.nsuccess c) = MAX - 6 ->
  sound PlanarFast (FastMain.after_addEdges MAX orc c) (fun _ => True).
Proof.
  intros HI HB HL. unfold FastMain.after_addEdges.
  destruct (Nat.eqb_spec (length (openfaces (FastMain.G c))) 0) as [E0|E0].
  { apply fast_closed_sound; auto.
    now destruct (openfaces (FastMain.G c)). }
  destruct (too_deep _ _); [cbn; auto|].
  destruct (Nat.eqb_spec (length (openfaces (FastMain.G c))) 1);
    [cbn; auto|].
  rewrite (sizecheck_Inv PlanarFast _ HI). cbn [obind].
  destruct (negb _); [cbn; auto|].
  destruct (chooseFace_defined (FastMain.G c)) as (s' & E).
  - exact (proj2 (inv_open _ HI)).
  - lia.
  - rewrite E. cbn. auto.
Qed.

Lemma fast_loop_body_sound MAX orc c :
  fast_safe MAX c ->
  sound PlanarFast (FastMain.loop_body MAX orc c) (fun _ => True).
Proof.
  intros ((HI & Hn & HS) & (_ & _ & HL & _) & HA & HG & HB & HSB).
  unfold FastMain.loop_body.
  assert (HP : forall g st cs,
             ready g -> aimed g -> Bnd g ->
             sound PlanarFast
               (r <- incMethod PlanarFast g ;;
                if negb (fst r)
                then oret (Some (FastMain.mkConfig (snd r) st cs
                                   (FastMain.nsuccess c) true))
                else
                  r' <- addEdges0 PlanarFast (snd r) ;;
                  c' <- FastMain.after_addEdges MAX orc
                          (FastMain.mkConfig (snd r') (snd r :: st) cs
                                             (FastMain.nsuccess c) false) ;;
                  oret (Some c'))%outcome (fun _ => True)).
  { intros g st cs Hg Ha HBg.
    pose proof (turn_defined PlanarFast g Hg Ha HBg) as HT.
    pose proof (incMethod_safe PlanarFast g Hg Ha) as HSf.
    unfold turn_safe in HSf.
    apply sound_bind_eq; [eapply sound_weaken; [exact HSf | auto]|].
    intros [b s1] EI. cbn [fst snd].
    destruct (defined_Done _ _ _ _ HT EI) as (_ & _ & _ & HAd).
    destruct (sound_Done _ _ _ _ _ HSf EI) as [HAs _].
    cbn [fst snd] in HAd, HAs.
    destruct b; cbn [negb]; [|cbn; auto].
    specialize (HAd eq_refl). specialize (HAs eq_refl). unfold wp in HAs.
    apply sound_bind_eq; [eapply sound_weaken; [exact HAs | auto]|].
    intros r' EA. destruct (defined_Done _ _ _ _ HAd EA) as [HI' HB'].
    apply sound_bind_eq; [|intros; cbn; auto].
    apply fast_after_sound; cbn; assumption. }
  destruct (FastMain.pop c) eqn:Ep.
  - destruct (FastMain.graphStack c) as [|top rest] eqn:Es; [cbn; auto|].
    inversion HS; subst. inversion HA; subst. inversion HSB; subst.
    now apply HP.
  - apply HP; [split; auto | auto | auto].
Qed.

Lemma fast_safe_step MAX orc c c' d :
  fast_safe MAX c ->
  FastMain.loop_body MAX orc c = Done (Some c') d -> fast_safe MAX c'.
Proof.
  intros (Hok & Ht & HA & HG & HB & HSB) H.
  pose proof (fast_loop_body _ _ _ _ _ Hok H) as Hok'.
  pose proof (fast_tally_step _ _ _ _ _ Hok Ht H) as Ht'.
  destruct (fast_aimed_step _ _ _ _ _ Hok HA HG H) as [HA' HG'].
  split; [exact Hok'|]. split; [exact Ht'|].
  split; [exact HA'|]. split; [exact HG'|].
  destruct Hok as (HI & Hn & HS).
  destruct (fast_loop_body_cases _ _ _ _ _ H)
    as (g & st & Hp & b & s1 & d1 & Hinc & Hb).
  assert (Hg : ready g /\ aimed g /\ Bnd g /\ Forall Bnd st).
  { destruct Hp as [[_ E]|(Ep & -> & ->)].
    - rewrite E in HS, HA, HSB.
      inversion HS; inversion HA; inversion HSB; subst. auto.
    - split; [split; auto|]. split; [auto|]. split; assumption. }
  destruct Hg as (Hg & Hga & HBg & HBst).
  pose proof (turn_defined PlanarFast g Hg Hga HBg) as HT.
  destruct (defined_Done _ _ _ _ HT Hinc) as (Hr1 & _ & HB1 & HAd).
  cbn [fst snd] in Hr1, HB1, HAd.
  destruct Hb as [(_ & ->)|(-> & s2 & d2 & d3 & HAE & HAf)].
  { cbn. auto. }
  destruct (defined_Done _ _ _ _ (HAd eq_refl) HAE) as [_ HB2].
  cbn [snd] in HB2.
  apply fast_after_addEdges_cases in HAf.
  destruct HAf as [->|[(_ & d' & HC)|(_ & _ & _ & s' & HCh & ->)]].
  - cbn. split; [assumption | now constructor].
  - apply fast_closed_map_cases in HC. destruct HC as (-> & -> & _).
    cbn. split; [assumption | now constructor].
  - cbn. split; [|now constructor].
    exact (Bnd_same _ _ (chooseFace_same _ _ _ _ HCh) HB2).
Qed.

Lemma fast_safe_init MAX :
  fast_safe MAX (FastMain.mkConfig seed [] [] (repeat 0 (MAX - 6)) false).
Proof.
  unfold fast_safe, fast_ok, fast_tally_ok.
  cbn [FastMain.G FastMain.graphStack FastMain.pop FastMain.nsuccess
       FastMain.canonslns].
  split; [split; [apply Inv_seed|split; [intros _; cbn; lia | constructor]]|].
  split.
  { split; [|split; [constructor|split; [apply repeat_length|]]].
    - cbn [length]. induction (MAX - 6) as [|k IH]; cbn; auto.
    - intros i _. apply nth_repeat. }
  split; [constructor|]. split; [intros _; unfold aimed; cbn; lia|].
  split; [apply Bnd_seed | constructor].
Qed.

Lemma fast_main_loop_sound MAX orc : forall fuel c,
  fast_safe MAX c ->
  sound PlanarFast (FastMain.main_loop MAX orc fuel c) (fun _ => True).
Proof.
  induction fuel as [|fuel IH]; intros c Hc; cbn [FastMain.main_loop];
    [cbn; auto|].
  apply sound_bind_eq; [now apply fast_loop_body_sound|].
  intros [c'|] E; [|cbn; auto].
  apply IH. exact (fast_safe_step _ _ _ _ _ Hc E).
Qed.

(** ** The behaviours of the program *)

Lemma planar_main_loop_more MAX orc : forall f f' c,
  f <= f' ->
  (forall d, PlanarMain.main_loop MAX orc f c <> Done None d) ->
  PlanarMain.main_loop MAX orc f' c = PlanarMain.main_loop MAX orc f c.
Proof.
  induction f as [|f IH]; intros f' c Hle Hn.
  - exfalso. exact (Hn [] eq_refl).
  - destruct f' as [|f']; [lia|]. cbn [PlanarMain.main_loop] in *.
    destruct (PlanarMain.loop_body MAX orc c) as [[c1|] d1| |];
      cbn [obind] in *; try reflexivity.
    rewrite (IH f' c1); [reflexivity | lia |].
    intros d E. rewrite E in Hn. exact (Hn _ eq_refl).
Qed.

Lemma fast_main_loop_more MAX orc : forall f f' c,
  f <= f' ->
  (forall d, FastMain.main_loop MAX orc f c <> Done None d) ->
  FastMain.main_loop MAX orc f' c = FastMain.main_loop MAX orc f c.
Proof.
  induction f as [|f IH]; intros f' c Hle Hn.
  - exfalso. exact (Hn [] eq_refl).
  - destruct f' as [|f']; [lia|]. cbn [FastMain.main_loop] in *.
    destruct (FastMain.loop_body MAX orc c) as [[c1|] d1| |];
      cbn [obind] in *; try reflexivity.
    rewrite (IH f' c1); [reflexivity | lia |].
    intros d E. rewrite E in Hn. exact (Hn _ eq_refl).
Qed.

(** More turns do not change what the program does once it has left its
    loop. *)
Lemma program_more tu MAX orc f f' :
  f <= f' ->
  (forall d, program tu MAX orc f <> Done None d) ->
  program tu MAX orc f' = program tu MAX orc f.
Proof.
  intros Hle Hn. destruct tu; unfold program in *.
  - rewrite (planar_main_loop_more MAX orc f f'); [reflexivity | exact Hle |].
    intros d E. rewrite E in Hn. exact (Hn _ eq_refl).
  - destruct (FastMain.init MAX) as [c0 d0| |]; try reflexivity.
    rewrite (fast_main_loop_more MAX orc f f'); [reflexivity | exact Hle |].
    intros d E. rewrite E in Hn. exact (Hn _ eq_refl).
Qed.

(** The program has no undefined behaviour; the one built from
    [planar-fast.cc] stops only at the constructor of its tallies. *)
Lemma program_defined tu MAX orc fuel :
  match program tu MAX orc fuel with
  | Done _ _ => True
  | Undefined => False
  | Aborted => tu = Planar \/ MAX < 6
  end.
Proof.
  destruct tu; unfold program.
  - pose proof (planar_main_loop_defined MAX orc fuel PlanarMain.init
                  planar_safe_init) as W.
    destruct (PlanarMain.main_loop MAX orc fuel PlanarMain.init)
      as [[r|] d| |]; cbn in W; auto.
  - unfold FastMain.init. destruct (Nat.ltb_spec MAX 6); [now right|].
    cbn [oret].
    pose proof (fast_main_loop_sound MAX orc fuel _ (fast_safe_init MAX)) as W.
    destruct (FastMain.main_loop MAX orc fuel _) as [[r|] d| |]; cbn in W;
      auto.
Qed.

Lemma program_None tu MAX orc fuel d :
  4 <= MAX -> program tu MAX orc fuel = Done None d ->
  fuel < 12 ^ (MAX - 2).
Proof.
  intros HM H. destruct tu; unfold program in H.
  - destruct (PlanarMain.main_loop MAX orc fuel PlanarMain.init)
      as [[r|] d1| |] eqn:E; try discriminate.
    destruct (planar_main_loop_None _ _ _ _ _ E) as (c' & d' & ET).
    exact (planar_turns_bounded _ _ _ _ _ HM ET).
  - destruct (FastMain.init MAX) as [c0 d0| |] eqn:E0; try discriminate.
    destruct (FastMain.main_loop MAX orc fuel c0) as [[r|] d1| |] eqn:E;
      try discriminate.
    destruct (fast_main_loop_None _ _ _ _ _ E) as (c' & d' & ET).
    exact (fast_turns_bounded _ _ _ _ _ _ _ HM E0 ET).
Qed.

Lemma planar_run_main_loop MAX orc c d r :
  PlanarMain.run MAX orc c d r ->
  exists fuel, PlanarMain.main_loop MAX orc fuel c = Done (Some r) d.
Proof.
  induction 1 as [c d E|c c' d d' r E _ (fuel & IH)].
  - exists 1. cbn [PlanarMain.main_loop]. rewrite E. cbn.
    now rewrite app_nil_r.
  - exists (S fuel). cbn [PlanarMain.main_loop]. rewrite E. cbn [obind].
    now rewrite IH.
Qed.

Lemma fast_run_main_loop MAX orc c d r :
  FastMain.run MAX orc c d r ->
  exists fuel, FastMain.main_loop MAX orc fuel c = Done (Some r) d.
Proof.
  induction 1 as [c d E|c c' d d' r E _ (fuel & IH)].
  - exists 1. cbn [FastMain.main_loop]. rewrite E. cbn.
    now rewrite app_nil_r.
  - exists (S fuel). cbn [FastMain.main_loop]. rewrite E. cbn [obind].
    now rewrite IH.
Qed.

Lemma search_may tu MAX orc o :
  search tu MAX orc o -> may tu MAX orc (Returns o).
Proof.
  destruct tu; cbn [search].
  - intros (r & d & H & ->). apply planar_run_main_loop in H.
    destruct H as (fuel & E). left. exists fuel. unfold program.
    now rewrite E.
  - intros (c0 & r & d & E0 & H & ->). apply fast_run_main_loop in H.
    destruct H as (fuel & E). left. exists fuel. unfold program.
    now rewrite E0, E.
Qed.

Lemma may_unique tu MAX orc b1 b2 :
  may tu MAX orc b1 -> may tu MAX orc b2 -> b1 = b2.
Proof.
  intros [(f1 & H1)|(-> & D1)] [(f2 & H2)|(-> & D2)].
  - assert (E1 : program tu MAX orc (Nat.max f1 f2) = program tu MAX orc f1).
    { apply program_more; [lia|]. intros d E. now rewrite E in H1. }
    assert (E2 : program tu MAX orc (Nat.max f1 f2) = program tu MAX orc f2).
    { apply program_more; [lia|]. intros d E. now rewrite E in H2. }
    rewrite <- E1 in H1. rewrite <- E2 in H2.
    pose proof (program_defined tu MAX orc (Nat.max f1 f2)) as HD.
    destruct (program tu MAX orc (Nat.max f1 f2)) as [[o|] d| |];
      try contradiction; congruence.
  - destruct (D2 f1) as (d & E). now rewrite E in H1.
  - destruct (D1 f2) as (d & E). now rewrite E in H2.
  - reflexivity.
Qed.

Lemma may_ends tu MAX orc :
  4 <= MAX ->
  exists b, may tu MAX orc b /\ b <> Diverges /\
            (b = Aborts -> tu = Planar \/ MAX < 6).
Proof.
  intros HM.
  pose proof (program_defined tu MAX orc (12 ^ (MAX - 2))) as HD.
  pose proof (program_None tu MAX orc (12 ^ (MAX - 2))) as HN.
  destruct (program tu MAX orc (12 ^ (MAX - 2))) as [[o|] d| |] eqn:E.
  - exists (Returns o). split; [|split; discriminate].
    left. exists (12 ^ (MAX - 2)). now rewrite E.
  - specialize (HN d HM eq_refl). lia.
  - contradiction.
  - exists Aborts. split; [|split; [discriminate | auto]].
    left. exists (12 ^ (MAX - 2)). now rewrite E.
Qed.

(** C9: [addEdges] ends with the loop that removes the dead slots: it is
    [addEdges_before_erase] followed by [erase_all] on the sorted
    [toerase].  For a legal move on a map a driver holds, with at least
    two open faces (the drivers apply moves to no other), [toerase] holds
    the slots the move absorbed, which are distinct, in range, and no
    longer referred to by the open-boundary sequence; the loop takes them
    in strictly descending order and runs without undefined behaviour;
    the face sequence loses exactly these slots, the faces that stay keep
    their order; each entry of the open-boundary sequence is decremented
    once for every removed slot below it, so that it refers to the face it
    referred to before the loop; and the entries are distinct indices into
    the face sequence. *)
Theorem dead_slots_removed (tu : variant) (MAX_FACES : nat)
    (sparsenauty : sparsegraph -> nat * list nat) (oF m : nat) :
  (forall s,
     addEdges tu oF m s
     = mbind (addEdges_before_erase tu oF m)
             (fun toerase => erase_all (sort_desc toerase)) s) /\
  (forall s d0 s' d,
     visited tu MAX_FACES sparsenauty s ->
     2 <= length (openfaces s) ->
     isValid tu oF m s = Done true d0 ->
     addEdges tu oF m s = Done (tt, s') d ->
     exists D s1,
       addEdges_before_erase tu oF m s = Done (D, s1) [] /\
       D = absorbed m (openfaces s) oF /\
       NoDup D /\
       Forall (fun e => e < length (faces s1) /\ ~ In e (openfaces s1)) D /\
       StronglySorted gt (sort_desc D) /\
       Permutation (sort_desc D) D /\
       erase_all (sort_desc D) s1 = Done (tt, s') [] /\
       length (faces s') + length D = length (faces s1) /\
       (forall j, j < length (faces s1) -> ~ In j D ->
          nth (renumber D j) (faces s') [] = nth j (faces s1) []) /\
       openfaces s' = map (renumber D) (openfaces s1) /\
       (forall p, p < length (openfaces s') ->
          nth (nth p (openfaces s') 0) (faces s') []
          = nth (nth p (openfaces s1) 0) (faces s1) []) /\
       good_open (faces s') (openfaces s') /\
       edges s' = edges s1 /\ numverts s' = numverts s1).
Proof.
  split; [intros s; apply addEdges_split|].
  intros s d0 s' d Hv Hn Hl H.
  pose proof (visited_Inv _ _ _ _ Hv) as HI.
  destruct (wp_Done tu _ _ s tt s' d (addEdges_inv tu oF m s d0 HI Hn Hl) H)
    as ((HI' & _) & ->).
  rewrite addEdges_split in H. unfold mbind in H.
  apply obind_Done in H. destruct H as ([D s1] & d1 & d2 & E1 & E2 & Ed).
  cbn [fst snd] in E2.
  destruct (wp_Done tu _ _ s D s1 d1 (before_erase_mid tu oF m s d0 HI Hn Hl) E1)
    as ((HD & s2 & HM & Es1) & ->).
  destruct HM as (Ho & Hg & HfF & HL & Hnd & Hr & Hni & _).
  assert (Ef : faces s1 = faces s2) by (subst s1; reflexivity).
  assert (Eo : openfaces s1 = openfaces s2) by (subst s1; reflexivity).
  rewrite <- Ef in Hr. rewrite <- Eo in Hni. rewrite <- Ef, <- Eo in Ho.
  pose proof (sort_desc_perm D) as HP.
  pose proof (sort_desc_sorted D Hnd) as HS.
  assert (Hr' : Forall (fun e => e < length (faces s1)) (sort_desc D)).
  { rewrite Forall_forall in *. intros e He. apply Hr.
    exact (Permutation_in _ HP He). }
  destruct (erase_all_Done _ _ _ _ HS Hr' E2)
    as (-> & O & Lf & Nf & Env & _ & _ & _ & Ees & _).
  rewrite (Permutation_length HP) in Lf.
  assert (O' : openfaces s' = map (renumber D) (openfaces s1)).
  { rewrite O. apply map_ext. intros o. now apply renumber_perm. }
  assert (Nf' : forall j, j < length (faces s1) -> ~ In j D ->
            nth (renumber D j) (faces s') [] = nth j (faces s1) []).
  { intros j Hj Hin. rewrite <- (renumber_perm _ _ j HP).
    apply Nf; [assumption|]. intros X. apply Hin.
    exact (Permutation_in _ HP X). }
  exists D, s1. rewrite Forall_forall in Hr, Hni.
  repeat match goal with |- _ /\ _ => split end; auto.
  - apply Forall_forall. intros e He. split; [now apply Hr | now apply Hni].
  - intros p Hp. rewrite O'. rewrite O', length_map in Hp.
    rewrite (nth_indep _ 0 (renumber D 0)) by (rewrite length_map; exact Hp).
    rewrite map_nth.
    destruct Ho as [_ Hrange]. rewrite Forall_forall in Hrange.
    pose proof (nth_In (openfaces s1) 0 Hp) as Hin.
    apply Nf'; [now apply Hrange|].
    intros X. exact (Hni _ X Hin).
  - exact (inv_open s' HI').
Qed.

Lemma dead_slots_removed_witness :
  exists s1,
    addEdges_before_erase Planar 1 1 seed_5 = Done ([4], s1) [] /\
    erase_all [4] s1 = Done (tt, set_medgadd 0 seed_5_1) [] /\
    length (faces s1) = 8 /\
    openfaces s1 = [7; 5; 6] /\
    openfaces (set_medgadd 0 seed_5_1) = [6; 4; 5].
Proof.
  assert (V : visited Planar 6 (failing_nauty 0) seed_5).
  { assert (H : match PlanarMain.turns 6 (failing_nauty 0) 16 PlanarMain.init with
                | Done (Some c) _ => PlanarMain.G c = seed_5
                | _ => False
                end) by (vm_compute; reflexivity).
    destruct (PlanarMain.turns 6 (failing_nauty 0) 16 PlanarMain.init)
      as [[c|] d| |] eqn:E; try contradiction.
    exists 16, c, d. split; [exact E | exact H]. }
  assert (Hn : 2 <= length (openfaces seed_5)) by (cbn; lia).
  assert (Hl : isValid Planar 1 1 seed_5 = Done true [])
    by (vm_compute; reflexivity).
  assert (Ha : addEdges Planar 1 1 seed_5
               = Done (tt, set_medgadd 0 seed_5_1) [])
    by (vm_compute; reflexivity).
  destruct (proj2 (dead_slots_removed Planar 6 (failing_nauty 0) 1 1)
              seed_5 [] (set_medgadd 0 seed_5_1) [] V Hn Hl Ha)
    as (D & s1 & E & HD & _ & _ & _ & _ & Er & Lf & _ & _ & _).
  assert (D4 : D = [4]) by (rewrite HD; reflexivity).
  subst D. rewrite D4 in *. clear D4.
  exists s1. split; [exact E|]. split; [exact Er|].
  assert (X : match addEdges_before_erase Planar 1 1 seed_5 with
              | Done (_, x) _ => length (faces x) = 8 /\ openfaces x = [7; 5; 6]
              | _ => False
              end) by (vm_compute; split; reflexivity).
  rewrite E in X. destruct X as [X1 X2].
  split; [exact X1|]. split; [exact X2 | reflexivity].
Defined.

(** C8: the search is deterministic.  Both programs are sequential and
    have no source of chance, so that two executions of the same program
    can differ only where its behaviour is undefined, which leaves an
    execution free to do anything ([may] says so).  (1) No execution of
    either program has undefined behaviour, whatever the bound, the
    oracle and the number of turns of the loop: no index is out of range,
    no erasure or insertion falls outside its sequence, no empty range is
    dereferenced, and [canongraph] finds a slot for every edge end.
    (2) Hence the program has at most one behaviour: two executions with
    the same bound and the same oracle, the seed being fixed, both
    return, with the same counts and tallies, the same registry, the same
    printed lines and the same diagnostics, or both stop at an assertion
    or at the exception of the tallies' constructor, or both stay in the
    loop for ever.  (3) With a bound of 4 or more the program does not
    stay in its loop for ever, and the one built from [planar-fast.cc]
    stops only when the bound is below 6.  (4) A terminating run in the
    sense of [search] is such a behaviour. *)
Theorem search_deterministic (tu : variant) (MAX_FACES : nat)
    (sparsenauty : sparsegraph -> nat * list nat) :
  (forall fuel, program tu MAX_FACES sparsenauty fuel <> Undefined) /\
  (forall b1 b2,
     may tu MAX_FACES sparsenauty b1 -> may tu MAX_FACES sparsenauty b2 ->
     b1 = b2) /\
  (4 <= MAX_FACES ->
   exists b, may tu MAX_FACES sparsenauty b /\ b <> Diverges /\
             (b = Aborts -> tu = Planar \/ MAX_FACES < 6)) /\
  (forall o, search tu MAX_FACES sparsenauty o ->
             may tu MAX_FACES sparsenauty (Returns o)).
Proof.
  split; [|split; [|split]].
  - intros fuel E.
    pose proof (program_defined tu MAX_FACES sparsenauty fuel) as H.
    now rewrite E in H.
  - apply may_unique.
  - apply may_ends.
  - apply search_may.
Qed.

Lemma search_deterministic_witness :
  may Planar 9 (failing_nauty 0) (Returns output_9) /\
  (forall b, may Planar 9 (failing_nauty 0) b -> b = Returns output_9) /\
  exists b, may Planar 9 (failing_nauty 0) b /\ b <> Diverges.
Proof.
  assert (H : may Planar 9 (failing_nauty 0) (Returns output_9)).
  { left. exists 1000. vm_compute. reflexivity. }
  destruct (search_deterministic Planar 9 (failing_nauty 0))
    as (_ & U & T & _).
  split; [exact H|]. split.
  - intros b Hb. exact (U b (Returns output_9) Hb H).
  - destruct (T ltac:(lia)) as (b & Hb & Hd & _). now exists b.
Defined.
